(** * JDON (JSON-Delimited Object Notation): parser and serializer

    A shallow embedding of [src/parser.js] (class [JDONParser]) and the
    verification of its specification.

    Modelling conventions.
    - A JavaScript string is the list of its UTF-16 code units ([N]).
    - A JavaScript object is the list of its own enumerable properties in
      the order [Object.keys] reports them ([obj_set] implements the
      ordering rules of property creation).
    - An assignment to the key [__proto__] goes to the accessor of
      [Object.prototype] as long as the object inherits it, and creates
      an own property once it does not; [parsePipeDelimited] carries
      that one bit along with the properties ([obj_assign]).
    - [throw new Error(...)] is the [Throw] outcome of the [result] type;
      [error_kind] and [error_message] give the constructor and the
      message of what is thrown.
    - The recursion of [parseValue] through [parseObject]/[parseArray] is
      on strictly shorter text; it is written with a fuel argument, and
      [parse] supplies more fuel than any input can use
      (see [parseValue_fuel_enough]). *)

From Stdlib Require Import List NArith ZArith Bool Lia Permutation.
From Stdlib Require Ascii String.
Import ListNotations String.StringSyntax.
Delimit Scope string_scope with string.
Set Warnings "-register-all".

Local Open Scope N_scope.
Local Open Scope list_scope.

(* ================================================================== *)
(** * Strings *)
(* ================================================================== *)

Abbreviation char := N.
Abbreviation jstring := (list N).

(** [str] turns a literal of the development into a JavaScript string. *)
Definition str (s : String.string) : jstring :=
  map Ascii.N_of_ascii (String.list_ascii_of_string s).
Arguments str s%_string.

(** Code units the source names in character literals: NUL, tab, line
    feed, carriage return, space, double quote, single quote, plus, comma,
    minus, dot, zero, colon, left bracket, backslash, right bracket, left
    brace, pipe, right brace. *)
Abbreviation c_NUL := 0 (only parsing).
Abbreviation c_TAB := 9 (only parsing).
Abbreviation c_LF := 10 (only parsing).
Abbreviation c_CR := 13 (only parsing).
Abbreviation c_SPACE := 32 (only parsing).
Abbreviation c_DQUOTE := 34 (only parsing).
Abbreviation c_SQUOTE := 39 (only parsing).
Abbreviation c_PLUS := 43 (only parsing).
Abbreviation c_COMMA := 44 (only parsing).
Abbreviation c_MINUS := 45 (only parsing).
Abbreviation c_DOT := 46 (only parsing).
Abbreviation c_0 := 48 (only parsing).
Abbreviation c_COLON := 58 (only parsing).
Abbreviation c_LBRACKET := 91 (only parsing).
Abbreviation c_BACKSLASH := 92 (only parsing).
Abbreviation c_RBRACKET := 93 (only parsing).
Abbreviation c_LBRACE := 123 (only parsing).
Abbreviation c_PIPE := 124 (only parsing).
Abbreviation c_RBRACE := 125 (only parsing).
Fixpoint jstring_eqb (a b : jstring) : bool :=
  match a, b with
  | [], [] => true
  | x :: a', y :: b' => (x =? y) && jstring_eqb a' b'
  | _, _ => false
  end.

(** [String.prototype.trim]: the WhiteSpace and LineTerminator code
    points of ECMAScript. *)
Definition is_ws (c : char) : bool :=
  ((9 <=? c) && (c <=? 13)) || (c =? 32) || (c =? 160) || (c =? 5760)
  || ((8192 <=? c) && (c <=? 8202)) || (c =? 8232) || (c =? 8233)
  || (c =? 8239) || (c =? 8287) || (c =? 12288) || (c =? 65279).

Fixpoint trimStart (s : jstring) : jstring :=
  match s with
  | [] => []
  | c :: r => if is_ws c then trimStart r else s
  end.

Definition trimEnd (s : jstring) : jstring := rev (trimStart (rev s)).

Definition trim (s : jstring) : jstring := trimEnd (trimStart s).

(** [s.startsWith(c)] and [s.endsWith(c)] for a one-character [c]. *)
Definition startsWith (c : char) (s : jstring) : bool :=
  match s with
  | [] => false
  | x :: _ => x =? c
  end.

Definition endsWith (c : char) (s : jstring) : bool := startsWith c (rev s).

(** [s.includes(c)] for a one-character [c]. *)
Definition includes (c : char) (s : jstring) : bool := existsb (N.eqb c) s.

(** [s.slice(1, -1)]. *)
Definition slice_1_m1 (s : jstring) : jstring := removelast (tl s).

(** [s.substring(0, i)] and [s.substring(i)]. *)
Definition substring_to (i : nat) (s : jstring) : jstring := firstn i s.
Definition substring_from (i : nat) (s : jstring) : jstring := skipn i s.

(** [parts.join(sep)]. *)
Fixpoint join (sep : jstring) (parts : list jstring) : jstring :=
  match parts with
  | [] => []
  | [p] => p
  | p :: rest => p ++ sep ++ join sep rest
  end.

(** [s.repeat(n)]. *)
Fixpoint repeat_str (s : jstring) (n : nat) : jstring :=
  match n with
  | O => []
  | S n' => s ++ repeat_str s n'
  end.

(** [s.replace(/c/g, f(c))] for a pattern that matches one character:
    every code unit satisfying [p] is replaced by [f] of it. *)
Definition replace_chars (p : char -> bool) (f : char -> jstring)
    (s : jstring) : jstring :=
  flat_map (fun c => if p c then f c else [c]) s.

(** [s.replace(/ab/g, rep)] for a literal two-character pattern: leftmost
    matches, not overlapping. *)
Fixpoint replace_pair (a b : char) (rep : jstring) (s : jstring) : jstring :=
  match s with
  | [] => []
  | x :: tl =>
      match tl with
      | y :: rest =>
          if (x =? a) && (y =? b) then rep ++ replace_pair a b rep rest
          else x :: replace_pair a b rep tl
      | [] => [x]
      end
  end.

(* ================================================================== *)
(** * Regular expressions

    The two patterns of [parseValue] are written as regular expressions
    and tested with Brzozowski derivatives. *)
(* ================================================================== *)

Inductive regex : Type :=
| RNone
| REps
| RClass (p : char -> bool)
| RCat (r1 r2 : regex)
| RAlt (r1 r2 : regex)
| RStar (r : regex).

Definition RChr (c : char) : regex := RClass (N.eqb c).
Definition ROpt (r : regex) : regex := RAlt r REps.
Definition RPlus (r : regex) : regex := RCat r (RStar r).
Definition is_digit (c : char) : bool := (48 <=? c) && (c <=? 57).
Definition RDigit : regex := RClass is_digit.

Fixpoint RTimes (n : nat) (r : regex) : regex :=
  match n with
  | O => REps
  | S n' => RCat r (RTimes n' r)
  end.

Fixpoint nullable (r : regex) : bool :=
  match r with
  | RNone => false
  | REps => true
  | RClass _ => false
  | RCat r1 r2 => nullable r1 && nullable r2
  | RAlt r1 r2 => nullable r1 || nullable r2
  | RStar _ => true
  end.

Fixpoint deriv (c : char) (r : regex) : regex :=
  match r with
  | RNone => RNone
  | REps => RNone
  | RClass p => if p c then REps else RNone
  | RCat r1 r2 =>
      if nullable r1 then RAlt (RCat (deriv c r1) r2) (deriv c r2)
      else RCat (deriv c r1) r2
  | RAlt r1 r2 => RAlt (deriv c r1) (deriv c r2)
  | RStar r1 => RCat (deriv c r1) (RStar r1)
  end.

(** [/^r$/.test(s)] *)
Fixpoint regex_test (r : regex) (s : jstring) : bool :=
  match s with
  | [] => nullable r
  | c :: s' => regex_test (deriv c r) s'
  end.

(** [/^r/.test(s)]: some prefix of [s] matches. *)
Fixpoint regex_test_prefix (r : regex) (s : jstring) : bool :=
  nullable r ||
  match s with
  | [] => false
  | c :: s' => regex_test_prefix (deriv c r) s'
  end.

(** The language of a regular expression. *)
Inductive lang : regex -> jstring -> Prop :=
| L_eps : lang REps []
| L_class p c : p c = true -> lang (RClass p) [c]
| L_cat r1 r2 s1 s2 : lang r1 s1 -> lang r2 s2 -> lang (RCat r1 r2) (s1 ++ s2)
| L_alt_l r1 r2 s : lang r1 s -> lang (RAlt r1 r2) s
| L_alt_r r1 r2 s : lang r2 s -> lang (RAlt r1 r2) s
| L_star_nil r : lang (RStar r) []
| L_star_cons r s1 s2 :
    lang r s1 -> lang (RStar r) s2 -> lang (RStar r) (s1 ++ s2).

(** [/^-?(?:\d+\.?\d*|\.\d+)(?:[eE][+-]?\d+)?$/] *)
Definition re_number : regex :=
  RCat (ROpt (RChr c_MINUS))
    (RCat
       (RAlt (RCat (RPlus RDigit) (RCat (ROpt (RChr c_DOT)) (RStar RDigit)))
             (RCat (RChr c_DOT) (RPlus RDigit)))
       (ROpt (RCat (RClass (fun c => (c =? 101) || (c =? 69)))
                (RCat (ROpt (RClass (fun c => (c =? c_PLUS) || (c =? c_MINUS))))
                      (RPlus RDigit))))).

(** [/^\d{4}-\d{2}-\d{2}T\d{2}:\d{2}:\d{2}/] *)
Definition re_datetime : regex :=
  RCat (RTimes 4 RDigit) (RCat (RChr c_MINUS)
  (RCat (RTimes 2 RDigit) (RCat (RChr c_MINUS)
  (RCat (RTimes 2 RDigit) (RCat (RChr 84)
  (RCat (RTimes 2 RDigit) (RCat (RChr c_COLON)
  (RCat (RTimes 2 RDigit) (RCat (RChr c_COLON) (RTimes 2 RDigit)))))))))).

(* ================================================================== *)
(** * Escaping ([escapeString], [unescapeString], [needsQuoting]) *)
(* ================================================================== *)

(** [n.toString(16)] of one hexadecimal digit (lower case). *)
Definition hex_digit (d : N) : char := if d <? 10 then 48 + d else 87 + d.

(** [("0000" + c.charCodeAt(0).toString(16)).slice(-4)]: the last four
    hexadecimal digits, padded with zeros. *)
Definition hex4 (c : char) : jstring :=
  [hex_digit ((c / 4096) mod 16); hex_digit ((c / 256) mod 16);
   hex_digit ((c / 16) mod 16); hex_digit (c mod 16)].

(** The character class [[\x00-\x1F\x7F-\x9F]]. *)
Definition is_control (c : char) : bool :=
  (c <=? 31) || ((127 <=? c) && (c <=? 159)).

Definition escapeString (s : jstring) : jstring :=
  let s := replace_chars (N.eqb c_BACKSLASH)
             (fun _ => [c_BACKSLASH; c_BACKSLASH]) s in
  let s := replace_chars (N.eqb c_DQUOTE) (fun _ => [c_BACKSLASH; c_DQUOTE]) s in
  let s := replace_chars (N.eqb c_LF) (fun _ => [c_BACKSLASH; 110]) s in
  let s := replace_chars (N.eqb c_TAB) (fun _ => [c_BACKSLASH; 116]) s in
  let s := replace_chars (N.eqb c_CR) (fun _ => [c_BACKSLASH; 114]) s in
  replace_chars is_control (fun c => [c_BACKSLASH; 117] ++ hex4 c) s.

(** The character class [[0-9a-fA-F]] and [parseInt(h, 16)] of one digit. *)
Definition is_hex (c : char) : bool :=
  is_digit c || ((97 <=? c) && (c <=? 102)) || ((65 <=? c) && (c <=? 70)).

Definition hex_val (c : char) : N :=
  if is_digit c then c - 48
  else if (97 <=? c) && (c <=? 102) then c - 87
  else c - 55.

(** [String.fromCharCode(parseInt(hex, 16))] for four hexadecimal digits. *)
Definition fromCharCode_hex (h1 h2 h3 h4 : char) : char :=
  (4096 * hex_val h1 + 256 * hex_val h2 + 16 * hex_val h3 + hex_val h4)
    mod 65536.

(** [s.replace(/\\u([0-9a-fA-F]{4})/g, ...)] *)
Fixpoint replace_unicode (s : jstring) : jstring :=
  match s with
  | [] => []
  | x :: tl =>
      match tl with
      | u :: h1 :: h2 :: h3 :: h4 :: rest =>
          if (x =? c_BACKSLASH) && (u =? 117)
             && is_hex h1 && is_hex h2 && is_hex h3 && is_hex h4
          then fromCharCode_hex h1 h2 h3 h4 :: replace_unicode rest
          else x :: replace_unicode tl
      | _ => x :: replace_unicode tl
      end
  end.

Definition unescapeString (s : jstring) : jstring :=
  let s := replace_pair c_BACKSLASH c_BACKSLASH [c_NUL] s in
  let s := replace_pair c_BACKSLASH 110 [c_LF] s in
  let s := replace_pair c_BACKSLASH 116 [c_TAB] s in
  let s := replace_pair c_BACKSLASH 114 [c_CR] s in
  let s := replace_pair c_BACKSLASH c_DQUOTE [c_DQUOTE] s in
  let s := replace_pair c_BACKSLASH c_SQUOTE [c_SQUOTE] s in
  let s := replace_unicode s in
  replace_chars (N.eqb c_NUL) (fun _ => [c_BACKSLASH]) s.

Definition needsQuoting (s : jstring) : bool :=
  includes c_COLON s || includes c_PIPE s || includes c_COMMA s
  || includes c_SPACE s || includes c_LBRACE s || includes c_RBRACE s
  || includes c_LBRACKET s || includes c_RBRACKET s || includes c_DQUOTE s
  || includes c_SQUOTE s || includes c_LF s || includes c_TAB s.

(* ================================================================== *)
(** * Numbers

    A Number is NaN, an infinity, a signed zero, or a finite non-zero
    value.  A finite value is kept as the decimal expansion that
    [Number.prototype.toString] exposes (ECMAScript, Number::toString):
    [Finite neg ds n] is the number whose shortest decimal digits are [ds]
    and whose value is [0.ds * 10^n].  [number_toString] lays the digits
    out as the standard prescribes, and [parseFloat] reads a decimal
    literal back.  Rounding to the nearest binary double is outside the
    model, and so is the range of a double: [parseFloat] keeps every
    digit and the exponent it is given, where JavaScript keeps seventeen
    significant digits at most, gives an infinity beyond the largest
    double and a zero below the smallest.  On the text that JavaScript
    writes for a double the two agree. *)
(* ================================================================== *)

Inductive number : Type :=
| NaN
| Infinity (neg : bool)
| Zero (neg : bool)
| Finite (neg : bool) (digits : list N) (pt : Z).

(** The digits of a finite number: at least one, each below ten, no
    leading and no trailing zero. *)
Definition canonical_digits (ds : list N) : Prop :=
  ds <> [] /\ Forall (fun d => d < 10) ds
  /\ hd 0 ds <> 0 /\ last ds 0 <> 0.

Definition canonical (x : number) : Prop :=
  match x with
  | Finite _ ds _ => canonical_digits ds
  | _ => True
  end.

Definition digit_char (d : N) : char := 48 + d.
Definition digits_str (ds : list N) : jstring := map digit_char ds.

(** The decimal digits of a natural number, most significant first. *)
Fixpoint decimal_fuel (fuel : nat) (n : N) (acc : jstring) : jstring :=
  match fuel with
  | O => acc
  | S f =>
      let acc' := digit_char (n mod 10) :: acc in
      if n / 10 =? 0 then acc' else decimal_fuel f (n / 10) acc'
  end.

Definition decimal (n : N) : jstring := decimal_fuel (S (N.to_nat n)) n [].

(** Number::toString(x) in radix 10. *)
Definition number_toString (x : number) : jstring :=
  match x with
  | NaN => str "NaN"
  | Infinity false => str "Infinity"
  | Infinity true => str "-Infinity"
  | Zero _ => str "0"
  | Finite neg ds n =>
      (if neg then [c_MINUS] else []) ++
      let k := Z.of_nat (length ds) in
      if ((k <=? n) && (n <=? 21))%Z then
        digits_str ds ++ repeat c_0 (Z.to_nat (n - k))
      else if ((0 <? n) && (n <=? 21))%Z then
        digits_str (firstn (Z.to_nat n) ds) ++ [c_DOT]
          ++ digits_str (skipn (Z.to_nat n) ds)
      else if ((-6 <? n) && (n <=? 0))%Z then
        [c_0; c_DOT] ++ repeat c_0 (Z.to_nat (- n)) ++ digits_str ds
      else
        let e := (n - 1)%Z in
        let sign := if (e <? 0)%Z then c_MINUS else c_PLUS in
        match ds with
        | [] => []
        | [d] => [digit_char d; 101; sign] ++ decimal (Z.abs_N e)
        | d :: rest =>
            digit_char d :: c_DOT :: digits_str rest
              ++ [101; sign] ++ decimal (Z.abs_N e)
        end
  end.

Fixpoint span_digits (s : jstring) : jstring * jstring :=
  match s with
  | c :: r =>
      if is_digit c then let (ds, rest) := span_digits r in (c :: ds, rest)
      else ([], s)
  | [] => ([], [])
  end.

Definition parse_nat (ds : jstring) : N :=
  fold_left (fun acc c => 10 * acc + (c - 48)) ds 0.

Definition parse_exponent (s : jstring) : Z :=
  match s with
  | e :: rest =>
      if (e =? 101) || (e =? 69) then
        let (neg, rest') :=
          match rest with
          | c :: r =>
              if c =? c_MINUS then (true, r)
              else if c =? c_PLUS then (false, r) else (false, rest)
          | [] => (false, rest)
          end in
        let (ds, _) := span_digits rest' in
        match ds with
        | [] => 0%Z
        | _ => if neg then (- Z.of_N (parse_nat ds))%Z
               else Z.of_N (parse_nat ds)
        end
      else 0%Z
  | [] => 0%Z
  end.

Fixpoint strip_leading_zeros (ds : list N) (pt : Z) : list N * Z :=
  match ds with
  | d :: r => if d =? 0 then strip_leading_zeros r (pt - 1)%Z else (ds, pt)
  | [] => ([], pt)
  end.

Fixpoint drop_zeros (ds : list N) : list N :=
  match ds with
  | d :: r => if d =? 0 then drop_zeros r else ds
  | [] => []
  end.

Definition normalize (neg : bool) (ds : list N) (pt : Z) : number :=
  let (ds1, pt1) := strip_leading_zeros ds pt in
  match rev (drop_zeros (rev ds1)) with
  | [] => Zero neg
  | ds2 => Finite neg ds2 pt1
  end.

(** [parseFloat(s)] on decimal literals: optional sign, digits with an
    optional fraction, optional exponent; [NaN] when no digit is found. *)
Definition parseFloat (s : jstring) : number :=
  let s := trimStart s in
  let (neg, s1) :=
    match s with
    | c :: r =>
        if c =? c_MINUS then (true, r)
        else if c =? c_PLUS then (false, r) else (false, s)
    | [] => (false, s)
    end in
  let (ip, s2) := span_digits s1 in
  let (fp, s3) :=
    match s2 with
    | c :: r => if c =? c_DOT then span_digits r else ([], s2)
    | [] => ([], s2)
    end in
  match ip ++ fp with
  | [] => NaN
  | ds => normalize neg (map (fun c => c - 48) ds)
            (Z.of_nat (length ip) + parse_exponent s3)
  end.

(* ================================================================== *)
(** * Values and objects *)
(* ================================================================== *)

Inductive Value : Type :=
| VNull
| VUndefined
| VBool (b : bool)
| VNumber (x : number)
| VString (s : jstring)
| VArray (items : list Value)
| VObject (props : list (jstring * Value)).

(** Induction on a value, with the property known of every element of an
    array and of every property value of an object. *)
Section ValueInduction.
Variable P : Value -> Prop.
Hypothesis P_null : P VNull.
Hypothesis P_undefined : P VUndefined.
Hypothesis P_bool : forall b, P (VBool b).
Hypothesis P_number : forall x, P (VNumber x).
Hypothesis P_string : forall s, P (VString s).
Hypothesis P_array : forall items, Forall P items -> P (VArray items).
Hypothesis P_object :
  forall props, Forall (fun entry => P (snd entry)) props -> P (VObject props).

Fixpoint Value_nested_ind (v : Value) : P v :=
  match v with
  | VNull => P_null
  | VUndefined => P_undefined
  | VBool b => P_bool b
  | VNumber x => P_number x
  | VString s => P_string s
  | VArray items =>
      P_array items
        ((fix all (l : list Value) : Forall P l :=
            match l with
            | [] => Forall_nil P
            | x :: rest => Forall_cons x (Value_nested_ind x) (all rest)
            end) items)
  | VObject props =>
      P_object props
        ((fix all (l : list (jstring * Value))
            : Forall (fun entry => P (snd entry)) l :=
            match l with
            | [] => Forall_nil _
            | (k, x) :: rest =>
                Forall_cons (k, x) (Value_nested_ind x) (all rest)
            end) props)
  end.
End ValueInduction.

(** An array index in the sense of ECMAScript: the canonical decimal
    string of an integer below [2^32 - 1].  Such property names are
    enumerated first, in ascending order. *)
Definition array_index (k : jstring) : option N :=
  match k with
  | [] => None
  | c :: r =>
      if forallb is_digit k && (negb (c =? c_0) || match r with [] => true | _ => false end)
      then let n := parse_nat k in
           if n <? 4294967295 then Some n else None
      else None
  end.

Section Objects.
Context {A : Type}.

(** [o[k]] for an own property. *)
Fixpoint obj_get (o : list (jstring * A)) (k : jstring) : option A :=
  match o with
  | [] => None
  | (k', v) :: rest => if jstring_eqb k' k then Some v else obj_get rest k
  end.

Fixpoint obj_replace (o : list (jstring * A)) (k : jstring) (v : A)
    : list (jstring * A) :=
  match o with
  | [] => []
  | (k', v') :: rest =>
      if jstring_eqb k' k then (k', v) :: rest
      else (k', v') :: obj_replace rest k v
  end.

Fixpoint obj_insert_index (o : list (jstring * A)) (k : jstring) (i : N)
    (v : A) : list (jstring * A) :=
  match o with
  | [] => [(k, v)]
  | (k', v') :: rest =>
      match array_index k' with
      | Some j =>
          if i <? j then (k, v) :: o
          else (k', v') :: obj_insert_index rest k i v
      | None => (k, v) :: o
      end
  end.

(** [o[k] = v] on an object that inherits the [__proto__] accessor of
    [Object.prototype], as every object created by [{}] does at first.
    Assigning to [__proto__] then reaches the setter of the accessor and
    creates no own property (what the setter does to the prototype is
    followed by [obj_assign] below, for the objects on which the program
    can tell); an existing property keeps its place; a new array index
    goes among the indices in ascending order; any other new name goes
    last. *)
Definition obj_set (o : list (jstring * A)) (k : jstring) (v : A)
    : list (jstring * A) :=
  if jstring_eqb k (str "__proto__") then o
  else match obj_get o k with
       | Some _ => obj_replace o k v
       | None =>
           match array_index k with
           | Some i => obj_insert_index o k i v
           | None => o ++ [(k, v)]
           end
       end.

(** [Object.keys(o)] *)
Definition obj_keys (o : list (jstring * A)) : list jstring := map fst o.
End Objects.

(* ================================================================== *)
(** * Serializer *)
(* ================================================================== *)

(** The order of the default [Array.prototype.sort]: strings compared by
    code units. *)
Fixpoint jstring_leb (a b : jstring) : bool :=
  match a, b with
  | [], _ => true
  | _ :: _, [] => false
  | x :: a', y :: b' => (x <? y) || ((x =? y) && jstring_leb a' b')
  end.

Fixpoint sort_insert (k : jstring) (l : list jstring) : list jstring :=
  match l with
  | [] => [k]
  | h :: t => if jstring_leb k h then k :: l else h :: sort_insert k t
  end.

(** [keys.sort()] *)
Fixpoint sort (l : list jstring) : list jstring :=
  match l with
  | [] => []
  | h :: t => sort_insert h (sort t)
  end.

(** [item && typeof item === "object" && !Array.isArray(item)] *)
Definition is_plain_object (item : Value) : bool :=
  match item with
  | VObject _ => true
  | _ => false
  end.

(** [Object.keys(item)] *)
Definition keys_of (item : Value) : list jstring :=
  match item with
  | VObject props => obj_keys props
  | _ => []
  end.

(** [a.length === b.length && a.every((key, i) => key === b[i])] *)
Fixpoint same_keys (a b : list jstring) : bool :=
  match a, b with
  | [], [] => true
  | x :: a', y :: b' => jstring_eqb x y && same_keys a' b'
  | _, _ => false
  end.

Definition isArrayOfObjects (arr : list Value) : bool :=
  match arr with
  | [] => false
  | first :: _ =>
      if negb (forallb is_plain_object arr) then false
      else
        let firstKeys := sort (keys_of first) in
        forallb (fun item => same_keys (sort (keys_of item)) firstKeys) arr
  end.

(** [render(obj[key])]: the own property [key] of [obj] passed to
    [render], or the rendering of [undefined] when there is none. *)
Fixpoint render_prop (render : Value -> jstring) (props : list (jstring * Value))
    (key : jstring) : jstring :=
  match props with
  | [] => str "undefined"
  | (k, v) :: rest =>
      if jstring_eqb k key then render v else render_prop render rest key
  end.

(** [stringifyColumnar(arr, depth, pretty)]; [cell obj key] stands for
    [this.stringifyValue(obj[key], depth + 1, false, false)]. *)
Definition stringifyColumnar (cell : Value -> jstring -> jstring)
    (arr : list Value) (pretty : bool) : jstring :=
  match arr with
  | [] => str "[]"
  | first :: _ =>
      let keys := keys_of first in
      let columns :=
        map (fun key =>
               key ++ [c_COLON]
                 ++ join [c_COMMA] (map (fun obj => cell obj key) arr))
            keys in
      if pretty then
        let indent := c_LF :: str "  " in
        [c_LBRACKET] ++ indent ++ join ([c_PIPE] ++ indent) columns
          ++ [c_LF; c_RBRACKET]
      else [c_LBRACKET] ++ join [c_PIPE] columns ++ [c_RBRACKET]
  end.

Fixpoint stringifyValue (value : Value) (depth : nat) (pretty columnar : bool)
    {struct value} : jstring :=
  match value with
  | VNull => str "null"
  | VUndefined => str "undefined"
  | VBool b => if b then str "true" else str "false"
  | VNumber NaN => str "NaN"
  | VNumber (Infinity false) => str "Infinity"
  | VNumber (Infinity true) => str "-Infinity"
  | VNumber (Zero true) => str "-0"
  | VNumber x => number_toString x
  | VString s =>
      if needsQuoting s then [c_DQUOTE] ++ escapeString s ++ [c_DQUOTE]
      else s
  | VArray items =>
      match items with
      | [] => str "[]"
      | _ :: _ =>
          if columnar && isArrayOfObjects items then
            stringifyColumnar
              (fun obj key =>
                 match obj with
                 | VObject props =>
                     render_prop
                       (fun v => stringifyValue v (S depth) false false)
                       props key
                 | _ => str "undefined"
                 end)
              items pretty
          else
            let items' :=
              map (fun item => stringifyValue item (S depth) pretty columnar)
                  items in
            [c_LBRACKET]
              ++ replace_chars (N.eqb c_PIPE) (fun _ => [c_COMMA])
                   (join [c_COMMA] items')
              ++ [c_RBRACKET]
      end
  | VObject props =>
      match props with
      | [] => str "{}"
      | _ :: _ =>
          let pairs :=
            map (fun entry =>
                   match entry with
                   | (key, val) =>
                       key ++ [c_COLON]
                         ++ stringifyValue val (S depth) pretty columnar
                   end)
                props in
          if pretty && Nat.eqb depth 0 then join [c_PIPE; c_LF] pairs
          else if pretty then
            let indent := c_LF :: repeat_str (str "  ") (depth + 1) in
            let closeIndent := c_LF :: repeat_str (str "  ") depth in
            [c_LBRACE] ++ indent ++ join ([c_PIPE] ++ indent) pairs
              ++ closeIndent ++ [c_RBRACE]
          else [c_LBRACE] ++ join [c_PIPE] pairs ++ [c_RBRACE]
      end
  end.

(** The options record of [stringify], with its defaults. *)
Record options : Type := mkOptions { pretty : bool; columnar : bool }.
Definition default_options : options := mkOptions false true.

Definition stringify (obj : Value) (opts : options) : jstring :=
  stringifyValue obj 0 (pretty opts) (columnar opts).

(* ================================================================== *)
(** * Lexical splitter *)
(* ================================================================== *)

(** The three scanners keep the same variables: the nesting [depth], the
    [inString] flag and the quote character [stringChar] that opened the
    current string (the empty string before any quote was seen). *)
Record scan : Type := mkScan {
  depth : Z;
  inString : bool;
  stringChar : option char
}.

Definition scan_init : scan := mkScan 0 false None.

Definition is_backslash (prevChar : option char) : bool :=
  match prevChar with
  | Some p => p =? c_BACKSLASH
  | None => false
  end.

Definition is_stringChar (st : scan) (c : char) : bool :=
  match stringChar st with
  | Some q => c =? q
  | None => false
  end.

(** The quote tracking at the head of each loop body: when [char] is a
    double or single quote and [prevChar] is not a backslash, a quote
    outside a string opens one and records itself in [stringChar]; inside
    a string it closes it if it equals [stringChar]. *)
Definition track_quote (st : scan) (c : char) (prevChar : option char) : scan :=
  if ((c =? c_DQUOTE) || (c =? c_SQUOTE)) && negb (is_backslash prevChar) then
    if negb (inString st) then mkScan (depth st) true (Some c)
    else if is_stringChar st c then mkScan (depth st) false (stringChar st)
    else st
  else st.

(** The depth tracking, run outside strings only: an opening brace or
    bracket increments [depth], a closing one decrements it. *)
Definition track_depth (st : scan) (c : char) : scan :=
  let d := depth st in
  let d := if (c =? c_LBRACE) || (c =? c_LBRACKET) then (d + 1)%Z else d in
  let d := if (c =? c_RBRACE) || (c =? c_RBRACKET) then (d - 1)%Z else d in
  mkScan d (inString st) (stringChar st).

Definition is_empty (s : jstring) : bool :=
  match s with
  | [] => true
  | _ => false
  end.

Fixpoint splitByPipe_loop (input : jstring) (prevChar : option char)
    (st : scan) (current : jstring) (parts : list jstring) : list jstring :=
  match input with
  | [] => if is_empty current then parts else parts ++ [current]
  | c :: rest =>
      let st := track_quote st c prevChar in
      if negb (inString st) then
        let st := track_depth st c in
        if (c =? c_PIPE) && (depth st =? 0)%Z then
          splitByPipe_loop rest (Some c) st [] (parts ++ [current])
        else splitByPipe_loop rest (Some c) st (current ++ [c]) parts
      else splitByPipe_loop rest (Some c) st (current ++ [c]) parts
  end.

Definition splitByPipe (input : jstring) : list jstring :=
  splitByPipe_loop input None scan_init [] [].

Fixpoint splitArrayItems_loop (input : jstring) (prevChar : option char)
    (st : scan) (current : jstring) (parts : list jstring) : list jstring :=
  match input with
  | [] => if is_empty (trim current) then parts else parts ++ [current]
  | c :: rest =>
      let st := track_quote st c prevChar in
      if negb (inString st) then
        let st := track_depth st c in
        if (c =? c_COMMA) && (depth st =? 0)%Z then
          splitArrayItems_loop rest (Some c) st []
            (if is_empty (trim current) then parts else parts ++ [current])
        else splitArrayItems_loop rest (Some c) st (current ++ [c]) parts
      else splitArrayItems_loop rest (Some c) st (current ++ [c]) parts
  end.

Definition splitArrayItems (input : jstring) : list jstring :=
  splitArrayItems_loop input None scan_init [] [].

(** [None] stands for the result [-1]. *)
Fixpoint findTopLevelColon_loop (input : jstring) (i : nat)
    (prevChar : option char) (st : scan) : option nat :=
  match input with
  | [] => None
  | c :: rest =>
      let st := track_quote st c prevChar in
      if negb (inString st) then
        let st := track_depth st c in
        if (c =? c_COLON) && (depth st =? 0)%Z then Some i
        else findTopLevelColon_loop rest (S i) (Some c) st
      else findTopLevelColon_loop rest (S i) (Some c) st
  end.

Definition findTopLevelColon (input : jstring) : option nat :=
  findTopLevelColon_loop input 0 None scan_init.

(* ================================================================== *)
(** * Parser *)
(* ================================================================== *)

(** The two errors the parser throws, by their message:
    [Invalid object syntax] and [Invalid array syntax]. *)
Inductive error : Type :=
| InvalidObjectSyntax
| InvalidArraySyntax.

(** The constructors of the error objects of JavaScript that matter
    here, and the one each [throw] of the parser uses: both statements
    are [throw new Error(...)]. *)
Inductive error_constructor : Type :=
| JsError
| JsSyntaxError.

Definition error_kind (e : error) : error_constructor :=
  match e with
  | InvalidObjectSyntax => JsError
  | InvalidArraySyntax => JsError
  end.

Definition error_message (e : error) : jstring :=
  match e with
  | InvalidObjectSyntax => str "Invalid object syntax"
  | InvalidArraySyntax => str "Invalid array syntax"
  end.

Inductive result (A : Type) : Type :=
| Ok (a : A)
| Throw (e : error)
| OutOfFuel.
Arguments Ok {A} a.
Arguments Throw {A} e.
Arguments OutOfFuel {A}.

Definition bind {A B : Type} (r : result A) (k : A -> result B) : result B :=
  match r with
  | Ok a => k a
  | Throw e => Throw e
  | OutOfFuel => OutOfFuel
  end.

Notation "x <- r ;; k" := (bind r (fun x => k))
  (at level 61, r at next level, right associativity).

(** [xs.map(f)] for an [f] that may throw. *)
Fixpoint map_result {A B : Type} (f : A -> result B) (xs : list A)
    : result (list B) :=
  match xs with
  | [] => Ok []
  | x :: rest => y <- f x ;; ys <- map_result f rest ;; Ok (y :: ys)
  end.

Definition is_undefined (v : Value) : bool :=
  match v with
  | VUndefined => true
  | _ => false
  end.

(** [column[i]], [undefined] past the end. *)
Definition column_at (column : list Value) (i : nat) : Value :=
  nth i column VUndefined.

(** ** Assignments to [__proto__]

    Beside its own properties an object has a prototype.  The parser
    never reads an inherited property, and every inherited property but
    one is a writable data property, over which an assignment creates an
    own property.  The exception is the accessor [__proto__] of
    [Object.prototype]: all that the program can observe of the
    prototype of an object is whether the object still inherits that
    accessor, that is, whether [Object.prototype] is still on its
    prototype chain.  The model keeps this as a flag beside the own
    properties of the object that [parsePipeDelimited] builds.

    [obj[key] = value] with the key [__proto__]: an own property of that
    name is updated.  Otherwise, while the accessor is inherited, its
    setter makes an Object, an Array or null the new prototype and
    ignores every other value; the object then inherits the accessor if
    the new prototype does: an Array does, null does not, and for an
    Object [vinherits] tells.  Once the accessor is not inherited any
    more, the assignment creates an own property, like any other key. *)
Definition obj_assign (o : list (jstring * Value)) (inherits : bool)
    (k : jstring) (v : Value) (vinherits : bool)
    : list (jstring * Value) * bool :=
  if jstring_eqb k (str "__proto__") then
    match obj_get o k with
    | Some _ => (obj_replace o k v, inherits)
    | None =>
        if inherits then
          match v with
          | VNull => (o, false)
          | VObject _ => (o, vinherits)
          | _ => (o, true)
          end
        else (o ++ [(k, v)], false)
    end
  else (obj_set o k v, inherits).

Section ParserBody.
(** The recursive call [this.parseValue], and whether the object it
    returns for a text still inherits the accessor [__proto__]. *)
Variable parseValue : jstring -> result Value.
Variable valueInherits : jstring -> bool.

(** The loop of [parsePipeDelimited] on the own properties of [obj] and
    its flag. *)
Fixpoint parsePipeDelimited_loop (pairs : list jstring)
    (obj : list (jstring * Value)) (inherits : bool)
    : result (list (jstring * Value) * bool) :=
  match pairs with
  | [] => Ok (obj, inherits)
  | pair_ :: rest =>
      if is_empty (trim pair_) then parsePipeDelimited_loop rest obj inherits
      else
        match findTopLevelColon pair_ with
        | None => parsePipeDelimited_loop rest obj inherits
        | Some colonIdx =>
            let key := trim (substring_to colonIdx pair_) in
            let value := trim (substring_from (colonIdx + 1) pair_) in
            v <- parseValue value ;;
            let '(obj', inherits') :=
              obj_assign obj inherits key v (valueInherits value) in
            parsePipeDelimited_loop rest obj' inherits'
        end
  end.

Definition parsePipeDelimited (input : jstring) : result Value :=
  st <- parsePipeDelimited_loop (splitByPipe input) [] true ;;
  Ok (VObject (fst st)).

Definition parsePipeDelimited_inherits (input : jstring) : bool :=
  match parsePipeDelimited_loop (splitByPipe input) [] true with
  | Ok st => snd st
  | _ => true
  end.

Definition parseObject (input : jstring) : result Value :=
  let input := trim input in
  if negb (startsWith c_LBRACE input) || negb (endsWith c_RBRACE input) then
    Throw InvalidObjectSyntax
  else
    let content := trim (slice_1_m1 input) in
    if is_empty content then Ok (VObject [])
    else parsePipeDelimited content.

(** The flag of the object that [parseObject] returns. *)
Definition parseObject_inherits (input : jstring) : bool :=
  let input := trim input in
  if negb (startsWith c_LBRACE input) || negb (endsWith c_RBRACE input) then
    true
  else
    let content := trim (slice_1_m1 input) in
    if is_empty content then true
    else parsePipeDelimited_inherits content.

Fixpoint parseColumnarArray_loop (pairs : list jstring)
    (columns : list (jstring * list Value))
    : result (list (jstring * list Value)) :=
  match pairs with
  | [] => Ok columns
  | pair_ :: rest =>
      if is_empty (trim pair_) then parseColumnarArray_loop rest columns
      else
        match findTopLevelColon pair_ with
        | None => parseColumnarArray_loop rest columns
        | Some colonIdx =>
            let key := trim (substring_to colonIdx pair_) in
            let valuesStr := trim (substring_from (colonIdx + 1) pair_) in
            let values := splitArrayItems valuesStr in
            vs <- map_result (fun v => parseValue (trim v)) values ;;
            parseColumnarArray_loop rest (obj_set columns key vs)
        end
  end.

(** The row [i] of the transposition: [row[key] = columns[key][i]] for
    each key. *)
Definition columnar_row (columns : list (jstring * list Value))
    (keys : list jstring) (i : nat) : Value :=
  VObject
    (fold_left
       (fun row key =>
          obj_set row key
            (match obj_get columns key with
             | Some column => column_at column i
             | None => VUndefined
             end))
       keys []).

Definition parseColumnarArray (input : jstring) : result Value :=
  columns <- parseColumnarArray_loop (splitByPipe input) [] ;;
  let keys := obj_keys columns in
  match keys with
  | [] => Ok (VArray [])
  | key0 :: _ =>
      let rowCount :=
        match obj_get columns key0 with
        | Some column => length column
        | None => O
        end in
      Ok (VArray (map (columnar_row columns keys) (seq 0 rowCount)))
  end.

Definition parseArray (input : jstring) : result Value :=
  let input := trim input in
  if negb (startsWith c_LBRACKET input) || negb (endsWith c_RBRACKET input)
  then Throw InvalidArraySyntax
  else
    let content := trim (slice_1_m1 input) in
    if is_empty content then Ok (VArray [])
    else if includes c_PIPE content && includes c_COLON content then
      parseColumnarArray content
    else
      let items := splitArrayItems content in
      vs <- map_result (fun item => parseValue (trim item)) items ;;
      Ok (VArray (filter (fun v => negb (is_undefined v)) vs)).

Definition parseValue_body (value : jstring) : result Value :=
  let value := trim value in
  if is_empty value then Ok VNull
  else if jstring_eqb value (str "null") then Ok VNull
  else if jstring_eqb value (str "true") then Ok (VBool true)
  else if jstring_eqb value (str "false") then Ok (VBool false)
  else if jstring_eqb value (str "undefined") then Ok VUndefined
  else if jstring_eqb value (str "NaN") then Ok (VNumber NaN)
  else if jstring_eqb value (str "Infinity") then Ok (VNumber (Infinity false))
  else if jstring_eqb value (str "-Infinity") then Ok (VNumber (Infinity true))
  else if (startsWith c_DQUOTE value && endsWith c_DQUOTE value)
          || (startsWith c_SQUOTE value && endsWith c_SQUOTE value)
  then Ok (VString (unescapeString (slice_1_m1 value)))
  else if startsWith c_LBRACE value then parseObject value
  else if startsWith c_LBRACKET value then parseArray value
  else if regex_test re_number value then
    let num := parseFloat value in
    match num with
    | Zero true => Ok (VNumber (Zero true))
    | _ => Ok (VNumber num)
    end
  else if regex_test_prefix re_datetime value then Ok (VString value)
  else Ok (VString value).

(** The flag of the value that [parseValue] returns: [parseObject]
    builds the only values that can lose the accessor, and a text goes
    to [parseObject] when, trimmed, it opens with a brace. *)
Definition valueInherits_body (value : jstring) : bool :=
  let value := trim value in
  if startsWith c_LBRACE value then parseObject_inherits value else true.
End ParserBody.

(** [parseValue] with its recursion unrolled [fuel] times, and the flag
    of the value it returns. *)
Fixpoint parseValue (fuel : nat) (value : jstring) {struct fuel}
    : result Value :=
  match fuel with
  | O => OutOfFuel
  | S fuel' => parseValue_body (parseValue fuel') (valueInherits fuel') value
  end
with valueInherits (fuel : nat) (value : jstring) {struct fuel} : bool :=
  match fuel with
  | O => true
  | S fuel' =>
      valueInherits_body (parseValue fuel') (valueInherits fuel') value
  end.

Definition parse (input : jstring) : result Value :=
  let inherits := valueInherits (length input) in
  let parseValue := parseValue (length input) in
  let input := trim input in
  if is_empty input then Ok VNull
  else if startsWith c_LBRACE input then parseObject parseValue inherits input
  else if startsWith c_LBRACKET input then parseArray parseValue input
  else if includes c_PIPE input && includes c_COLON input then
    parsePipeDelimited parseValue inherits input
  else parseValue_body parseValue inherits input.

(* ================================================================== *)
(** * Notions used by the specification *)
(* ================================================================== *)

(** A string is trimmed when neither end is white space. *)
Definition trimmed (s : jstring) : Prop :=
  trimStart s = s /\ trimStart (rev s) = rev s.


(** ** The texts that the parser hands to [parseValue]

    [parsePipeDelimited] calls [parseValue] on the trimmed text after
    the colon that [findTopLevelColon] finds in a segment of
    [splitByPipe], when the segment is not blank and has one. *)
Definition pair_value (pair_ : jstring) : list jstring :=
  if is_empty (trim pair_) then []
  else match findTopLevelColon pair_ with
       | None => []
       | Some colonIdx => [trim (substring_from (colonIdx + 1) pair_)]
       end.

Definition pair_values (content : jstring) : list jstring :=
  flat_map pair_value (splitByPipe content).

(** [parseColumnarArray] calls it on the trimmed items that
    [splitArrayItems] cuts from the text after the colon. *)
Definition column_value (pair_ : jstring) : list jstring :=
  if is_empty (trim pair_) then []
  else match findTopLevelColon pair_ with
       | None => []
       | Some colonIdx =>
           map trim
             (splitArrayItems (trim (substring_from (colonIdx + 1) pair_)))
       end.

Definition column_values (content : jstring) : list jstring :=
  flat_map column_value (splitByPipe content).

Definition array_values (content : jstring) : list jstring :=
  if includes c_PIPE content && includes c_COLON content
  then column_values content
  else map trim (splitArrayItems content).

(** The calls that [parseValue] makes, through [parseObject] and
    [parseArray], on a trimmed text. *)
Definition nested_values (value : jstring) : list jstring :=
  if startsWith c_LBRACE value then
    if endsWith c_RBRACE value then pair_values (trim (slice_1_m1 value))
    else []
  else if startsWith c_LBRACKET value then
    if endsWith c_RBRACKET value then array_values (trim (slice_1_m1 value))
    else []
  else [].

(** [value_span v w]: [parseValue] on [v] comes to call [parseValue] on
    [w], at any depth of the recursion ([w] is [v] itself at depth 0). *)
Inductive value_span : jstring -> jstring -> Prop :=
| span_self v : value_span v v
| span_nested v u w :
    In u (nested_values (trim v)) -> value_span u w -> value_span v w.

(** The texts that [parse] has read as values: the pairs of an implicit
    top-level object, or the trimmed input itself. *)
Definition top_values (text : jstring) : list jstring :=
  let input := trim text in
  if startsWith c_LBRACE input || startsWith c_LBRACKET input then [input]
  else if includes c_PIPE input && includes c_COLON input then pair_values input
  else [input].

(** Malformed bracket pairing of a trimmed value text: an opening brace
    without the closing brace at the end, or an opening bracket without
    the closing bracket at the end. *)
Definition malformed (value : jstring) : Prop :=
  (startsWith c_LBRACE value = true /\ endsWith c_RBRACE value = false)
  \/ (startsWith c_LBRACKET value = true /\ endsWith c_RBRACKET value = false).

(** The parser comes to a text with malformed bracket pairing. *)
Definition malformed_within (v : jstring) : Prop :=
  exists w, value_span v w /\ malformed (trim w).

Definition reaches_malformed (text : jstring) : Prop :=
  exists v, In v (top_values text) /\ malformed_within v.

(** ** The nested values of a text, as the specification defines them

    Sections 4.1 and 4.2 of the specification, written from their words
    and without the scanners of the code.  The state of the scan is the
    quote character that opened the string the scan is in, if any, the
    signed nesting counter, and whether the previous character is an
    unescaped backslash. *)
Module Spec.

Definition is_quote (c : char) : bool := (c =? c_DQUOTE) || (c =? c_SQUOTE).

(** A quote toggles the string state unless an unescaped backslash stands
    immediately before it; only the quote character that opened a string
    closes it. *)
Definition lex_quote (quote : option char) (escaped : bool) (c : char)
    : option char :=
  if is_quote c && negb escaped then
    match quote with
    | None => Some c
    | Some q => if c =? q then None else quote
    end
  else quote.

(** The counter goes up on an opening brace or bracket and down on a
    closing one, outside strings only. *)
Definition lex_nesting (quote : option char) (nesting : Z) (c : char) : Z :=
  match quote with
  | Some _ => nesting
  | None =>
      if (c =? c_LBRACE) || (c =? c_LBRACKET) then (nesting + 1)%Z
      else if (c =? c_RBRACE) || (c =? c_RBRACKET) then (nesting - 1)%Z
      else nesting
  end.

(** A backslash is unescaped when no unescaped backslash stands
    immediately before it. *)
Definition lex_escaped (escaped : bool) (c : char) : bool :=
  (c =? c_BACKSLASH) && negb escaped.

(** Top level: outside any string and any nested region. *)
Definition top_level (quote : option char) (nesting : Z) : bool :=
  match quote with
  | None => (nesting =? 0)%Z
  | Some _ => false
  end.

(** The segments between the top-level occurrences of [separator]: the
    first one and the list of those after it. *)
Fixpoint segments (separator : char) (text : jstring) (quote : option char)
    (nesting : Z) (escaped : bool) : jstring * list jstring :=
  match text with
  | [] => ([], [])
  | c :: rest =>
      let quote' := lex_quote quote escaped c in
      let nesting' := lex_nesting quote' nesting c in
      let (segment, others) :=
        segments separator rest quote' nesting' (lex_escaped escaped c) in
      if (c =? separator) && top_level quote' nesting'
      then ([], segment :: others)
      else (c :: segment, others)
  end.

Definition splitTopLevel (text : jstring) (separator : char) : list jstring :=
  let (segment, others) := segments separator text None 0 false in
  segment :: others.

(** Pipe splitting keeps the empty segments, except a final one. *)
Fixpoint without_final_empty (segs : list jstring) : list jstring :=
  match segs with
  | [] => []
  | segment :: others =>
      match others with
      | [] => if is_empty segment then [] else [segment]
      | _ :: _ => segment :: without_final_empty others
      end
  end.

Definition pipe_split (text : jstring) : list jstring :=
  without_final_empty (splitTopLevel text c_PIPE).

(** Comma splitting discards the segments that trim to empty. *)
Definition comma_split (text : jstring) : list jstring :=
  filter (fun segment => negb (is_empty (trim segment)))
    (splitTopLevel text c_COMMA).

(** The index of the first top-level colon, if there is one. *)
Fixpoint colon_from (text : jstring) (quote : option char) (nesting : Z)
    (escaped : bool) : option nat :=
  match text with
  | [] => None
  | c :: rest =>
      let quote' := lex_quote quote escaped c in
      let nesting' := lex_nesting quote' nesting c in
      if (c =? c_COLON) && top_level quote' nesting' then Some O
      else option_map S
             (colon_from rest quote' nesting' (lex_escaped escaped c))
  end.

Definition findTopLevelColon (text : jstring) : option nat :=
  colon_from text None 0 false.

(** Pair parsing (4.2a): for each segment of the pipe split that is not
    blank and has a top-level colon, the text after the colon, trimmed,
    is a value. *)
Definition pair_value (segment : jstring) : list jstring :=
  if is_empty (trim segment) then []
  else match findTopLevelColon segment with
       | None => []
       | Some i => [trim (skipn (i + 1) segment)]
       end.

Definition pair_values (content : jstring) : list jstring :=
  flat_map pair_value (pipe_split content).

(** Columnar parsing (4.2b): the same pairing, the value side being comma
    split into elements, each of which is a value. *)
Definition column_value (segment : jstring) : list jstring :=
  if is_empty (trim segment) then []
  else match findTopLevelColon segment with
       | None => []
       | Some i => map trim (comma_split (trim (skipn (i + 1) segment)))
       end.

Definition column_values (content : jstring) : list jstring :=
  flat_map column_value (pipe_split content).

(** The content of an array is columnar when it has both a pipe and a
    colon, and a comma-separated list of values otherwise. *)
Definition array_values (content : jstring) : list jstring :=
  if includes c_PIPE content && includes c_COLON content
  then column_values content
  else map trim (comma_split content).

(** The values directly inside a trimmed value: those of the content
    between its braces or its brackets. *)
Definition nested_values (value : jstring) : list jstring :=
  if startsWith c_LBRACE value && endsWith c_RBRACE value
  then pair_values (trim (slice_1_m1 value))
  else if startsWith c_LBRACKET value && endsWith c_RBRACKET value
  then array_values (trim (slice_1_m1 value))
  else [].

(** [nested v w]: [w] is the value [v] or a value nested in it, at any
    depth. *)
Inductive nested : jstring -> jstring -> Prop :=
| nested_self v : nested v v
| nested_inside v u w :
    In u (nested_values (trim v)) -> nested u w -> nested v w.

(** The values of a whole text (4.2): the trimmed text when it opens with
    a brace or a bracket; else the pairs of an implicit top-level object
    when it has both a pipe and a colon; else the text, a single
    scalar. *)
Definition top_values (text : jstring) : list jstring :=
  let input := trim text in
  if startsWith c_LBRACE input || startsWith c_LBRACKET input then [input]
  else if includes c_PIPE input && includes c_COLON input
  then pair_values input
  else [input].

(** Bracket pairing is malformed when the trimmed text, or a value nested
    in it, starts with an opening brace and does not end with the closing
    brace, or starts with an opening bracket and does not end with the
    closing bracket. *)
Definition malformed_text (text : jstring) : Prop :=
  exists v w, In v (top_values text) /\ nested v w /\ malformed (trim w).

(** The texts on which the quote rule of the code and the specified one
    say the same at every quote: no quote follows an escaped backslash,
    that is a backslash that is not unescaped.  [after_backslash]: the
    previous character is a backslash. *)
Fixpoint quote_rules_agree (after_backslash escaped : bool) (text : jstring)
    : bool :=
  match text with
  | [] => true
  | c :: rest =>
      (if is_quote c then Bool.eqb after_backslash escaped else true)
      && quote_rules_agree (c =? c_BACKSLASH) (lex_escaped escaped c) rest
  end.

Definition no_quote_after_escaped_backslash (text : jstring) : Prop :=
  quote_rules_agree false false text = true.

End Spec.

Definition throws {A : Type} (r : result A) : Prop := exists e, r = Throw e.

(** [settles r B]: the run [r] did not stop for lack of fuel, and it threw
    exactly when [B] holds. *)
Definition settles {A : Type} (r : result A) (B : Prop) : Prop :=
  r <> OutOfFuel /\ (throws r <-> B).

(** The text of a decimal literal: an optional minus sign, integer digits
    [ip], an optional fraction [fp] after a dot, and an optional exponent
    with its sign. *)
Definition literal_text (neg : bool) (ip : jstring) (fp : option jstring)
    (ex : option (bool * N)) : jstring :=
  (if neg then [c_MINUS] else [])
    ++ ip
    ++ match fp with
       | None => []
       | Some f => c_DOT :: f
       end
    ++ match ex with
       | None => []
       | Some (eneg, m) =>
           101 :: (if eneg then c_MINUS else c_PLUS) :: decimal m
       end.

Definition fraction_digits (fp : option jstring) : jstring :=
  match fp with
  | None => []
  | Some f => f
  end.

Definition exponent_value (ex : option (bool * N)) : Z :=
  match ex with
  | None => 0%Z
  | Some (eneg, m) => if eneg then (- Z.of_N m)%Z else Z.of_N m
  end.

Definition all_digits (s : jstring) : Prop := forallb is_digit s = true.

(** A text does not go on with a digit. *)
Definition no_digit_head (s : jstring) : Prop :=
  match s with
  | [] => True
  | c :: _ => is_digit c = false
  end.


(** The characters of a decimal literal. *)
Definition is_numchar (c : char) : bool :=
  is_digit c || (c =? c_DOT) || (c =? 101) || (c =? c_PLUS) || (c =? c_MINUS).

(** ** The scanners as one state machine *)

(** One turn of the loop body of a scanner on the state variables. *)
Definition scan_step (st : scan) (c : char) (prevChar : option char) : scan :=
  let st := track_quote st c prevChar in
  if negb (inString st) then track_depth st c else st.

(** The state after scanning [s]. *)
Fixpoint scan_run (s : jstring) (prevChar : option char) (st : scan) : scan :=
  match s with
  | [] => st
  | c :: r => scan_run r (Some c) (scan_step st c prevChar)
  end.

(** [prevChar] after scanning [s]. *)
Definition prev_after (s : jstring) (prevChar : option char) : option char :=
  last (map Some s) prevChar.

(** No character of [s] is seen as a top-level separator [sep]. *)
Fixpoint scan_quiet (sep : char) (s : jstring) (prevChar : option char)
    (st : scan) : bool :=
  match s with
  | [] => true
  | c :: r =>
      let st' := scan_step st c prevChar in
      negb (negb (inString st') && (c =? sep) && (depth st' =? 0)%Z)
      && scan_quiet sep r (Some c) st'
  end.

(** A text is sealed for a separator, from depth [m] on, when a scanner
    that enters it outside any string, not after a backslash and at a
    depth of at least [m], passes over it without seeing the separator at
    top level, and leaves it outside any string at the depth at which it
    entered. *)
Definition sealed_at (m : Z) (sep : char) (t : jstring) : Prop :=
  forall prevChar st,
    is_backslash prevChar = false ->
    inString st = false ->
    (m <= depth st)%Z ->
    scan_quiet sep t prevChar st = true
    /\ inString (scan_run t prevChar st) = false
    /\ depth (scan_run t prevChar st) = depth st.

(** Sealed at top level. *)
Definition sealed (sep : char) (t : jstring) : Prop := sealed_at 0 sep t.

(** A character that is no quote, no bracket or brace, and not [sep]. *)
Definition inert_for (sep : char) (c : char) : bool :=
  negb ((c =? c_DQUOTE) || (c =? c_SQUOTE) || (c =? c_LBRACE)
        || (c =? c_RBRACE) || (c =? c_LBRACKET) || (c =? c_RBRACKET)
        || (c =? sep)).

(** What [escapeString] writes for one character. *)
Definition escape_char (c : char) : jstring :=
  if c =? c_BACKSLASH then [c_BACKSLASH; c_BACKSLASH]
  else if c =? c_DQUOTE then [c_BACKSLASH; c_DQUOTE]
  else if c =? c_LF then [c_BACKSLASH; 110]
  else if c =? c_TAB then [c_BACKSLASH; 116]
  else if c =? c_CR then [c_BACKSLASH; 114]
  else if is_control c then [c_BACKSLASH; 117] ++ hex4 c
  else [c].

(** Every double quote of [e] stands after a backslash. *)
Fixpoint guarded (prevChar : option char) (e : jstring) : bool :=
  match e with
  | [] => true
  | c :: r =>
      (negb (c =? c_DQUOTE) || is_backslash prevChar) && guarded (Some c) r
  end.

(** The text of a String that needs quoting. *)
Definition quoted_text (s : jstring) : jstring :=
  [c_DQUOTE] ++ escapeString s ++ [c_DQUOTE].

(** ** Values that survive serialization and parsing *)

(** The literals that [parseValue] reads as something else than a
    String. *)
Definition is_keyword (s : jstring) : bool :=
  jstring_eqb s (str "null") || jstring_eqb s (str "true")
  || jstring_eqb s (str "false") || jstring_eqb s (str "undefined")
  || jstring_eqb s (str "NaN") || jstring_eqb s (str "Infinity")
  || jstring_eqb s (str "-Infinity").

(** A String that is written bare and read back as itself: it needs no
    quoting, is not empty, has no white space at either end, is no
    keyword and does not look like a number. *)
Definition bare_string (s : jstring) : Prop :=
  needsQuoting s = false /\ s <> [] /\ trim s = s
  /\ is_keyword s = false /\ regex_test re_number s = false.

(** A String that is written in quotes and read back as itself: it needs
    quoting, has no NUL character and does not end with a backslash. *)
Definition quoted_string (s : jstring) : Prop :=
  needsQuoting s = true /\ ~ In c_NUL s
  /\ is_backslash (prev_after s None) = false.

(** The scalars that [parseValue] reads back from their text. *)
Definition scalar (v : Value) : Prop :=
  match v with
  | VNull | VUndefined | VBool _ => True
  | VNumber x => canonical x
  | VString s => bare_string s \/ quoted_string s
  | VArray _ | VObject _ => False
  end.

(** The text of a value written flat: on one line and with no array in
    columns.  For a scalar it does not depend on the depth or on the
    options. *)
Definition flat_text (v : Value) : jstring := stringifyValue v 0 false false.

(** ** Deep equality of values *)

(** [Object.is] on Numbers: NaN equals NaN, and the two zeros differ. *)
Definition number_eqb (x y : number) : bool :=
  match x, y with
  | NaN, NaN => true
  | Infinity a, Infinity b => Bool.eqb a b
  | Zero a, Zero b => Bool.eqb a b
  | Finite a ds n, Finite b es m =>
      Bool.eqb a b && jstring_eqb ds es && (n =? m)%Z
  | _, _ => false
  end.

Section Forallb2.
Context {A B : Type} (f : A -> B -> bool).

(** Two lists of the same length whose elements are related pairwise. *)
Fixpoint forallb2 (xs : list A) (ys : list B) : bool :=
  match xs, ys with
  | [], [] => true
  | x :: xs', y :: ys' => f x y && forallb2 xs' ys'
  | _, _ => false
  end.
End Forallb2.

(** Deep equality: scalars by value, arrays element by element in order,
    objects by their properties whatever the order of the keys. *)
Fixpoint deep_equal (a b : Value) {struct a} : bool :=
  match a, b with
  | VNull, VNull => true
  | VUndefined, VUndefined => true
  | VBool x, VBool y => Bool.eqb x y
  | VNumber x, VNumber y => number_eqb x y
  | VString s, VString t => jstring_eqb s t
  | VArray xs, VArray ys => forallb2 deep_equal xs ys
  | VObject ps, VObject qs =>
      Nat.eqb (length ps) (length qs)
      && forallb
           (fun entry =>
              match entry with
              | (k, v) =>
                  match obj_get qs k with
                  | Some w => deep_equal v w
                  | None => false
                  end
              end) ps
  | _, _ => false
  end.

(** ** Arrays of uniform objects *)

(** [row[key]], [undefined] when the row has no such property. *)
Definition row_get (row : list (jstring * Value)) (key : jstring) : Value :=
  match obj_get row key with
  | Some v => v
  | None => VUndefined
  end.

(** The values of the column [key], and their texts. *)
Definition column_cells (rows : list (list (jstring * Value))) (key : jstring)
    : list Value :=
  map (fun row => row_get row key) rows.

Definition column_texts (rows : list (list (jstring * Value))) (key : jstring)
    : list jstring :=
  map (fun row => flat_text (row_get row key)) rows.

(** The text of one column, and of an array in columns. *)
Definition column_text (rows : list (list (jstring * Value))) (key : jstring)
    : jstring :=
  key ++ [c_COLON] ++ join [c_COMMA] (column_texts rows key).

Definition columnar_text (keys : list jstring)
    (rows : list (list (jstring * Value))) : jstring :=
  [c_LBRACKET] ++ join [c_PIPE] (map (column_text rows) keys) ++ [c_RBRACKET].

(** The rows with their properties in the order of [keys]. *)
Definition rows_by_keys (keys : list jstring)
    (rows : list (list (jstring * Value))) : list Value :=
  map (fun row => VObject (map (fun key => (key, row_get row key)) keys)) rows.

(** A key that is written and read back as it is: not empty, no white
    space at either end, no quote, bracket, brace, colon, pipe or comma,
    no array index, and not [__proto__]. *)
Definition plain_key (k : jstring) : Prop :=
  k <> [] /\ trim k = k
  /\ forallb (fun c => inert_for c_COLON c && inert_for c_PIPE c
                       && inert_for c_COMMA c) k = true
  /\ array_index k = None
  /\ k <> str "__proto__".

(** A text that is not empty and has no white space at either end. *)
Definition tight (t : jstring) : Prop := t <> [] /\ trim t = t.

(** ** Nested values that survive serialization and parsing *)

(** The text of one pair of an object. *)
Definition pair_text (k : jstring) (v : Value) : jstring :=
  k ++ [c_COLON] ++ flat_text v.

Definition entry_text (entry : jstring * Value) : jstring :=
  pair_text (fst entry) (snd entry).

(** The values that [parseValue] reads back from their flat text: the
    scalars above; the objects whose keys are plain and distinct and whose
    values are such values; the arrays of such values, none of them
    [undefined] and none with a pipe in its text. *)
Inductive readable : Value -> Prop :=
| readable_scalar (v : Value) : scalar v -> readable v
| readable_object (props : list (jstring * Value)) :
    NoDup (obj_keys props) ->
    Forall (fun entry => plain_key (fst entry) /\ readable (snd entry)) props ->
    readable (VObject props)
| readable_array (items : list Value) :
    Forall (fun item => readable item /\ item <> VUndefined
                        /\ includes c_PIPE (flat_text item) = false) items ->
    readable (VArray items).

(** ** Arrays of objects that are not uniform *)


(* ================================================================== *)
(** * Further notions *)
(* ================================================================== *)

(** Two scanner states that the loops cannot tell apart: the same depth,
    the same [inString] flag, and inside a string the same opening
    quote.  Outside a string [stringChar] is never read. *)
Definition scan_alike (a b : scan) : Prop :=
  depth a = depth b /\ inString a = inString b
  /\ (inString a = true -> stringChar a = stringChar b).

(** The part that a splitter is building, scanned on its own from the
    start, shows no top-level separator [sep] and leaves a scanner in the
    state that the loop is in. *)
Definition part_in_step (sep : char) (current : jstring)
    (prevChar : option char) (st : scan) : Prop :=
  scan_quiet sep current None scan_init = true
  /\ scan_alike (scan_run current None scan_init) st
  /\ is_backslash (prev_after current None) = is_backslash prevChar.

(** A value that is neither an array nor an object. *)
Definition atom (v : Value) : Prop :=
  match v with
  | VArray _ | VObject _ => False
  | _ => True
  end.

(** The shape of the values that the parser builds: no array has an
    [undefined] element; the keys of every object are distinct and
    trimmed. *)
Inductive well_formed : Value -> Prop :=
| well_formed_atom (v : Value) : atom v -> well_formed v
| well_formed_array (items : list Value) :
    Forall (fun item => item <> VUndefined /\ well_formed item) items ->
    well_formed (VArray items)
| well_formed_object (props : list (jstring * Value)) :
    NoDup (obj_keys props) ->
    Forall (fun entry => trim (fst entry) = fst entry
                         /\ well_formed (snd entry)) props ->
    well_formed (VObject props).

(** The text of a value with the default options: on one line, arrays of
    uniform objects in columns. *)
Definition default_text (v : Value) : jstring := stringifyValue v 0 false true.

(** The text of one pair of an object written with the default options. *)
Definition default_entry_text (entry : jstring * Value) : jstring :=
  fst entry ++ [c_COLON] ++ default_text (snd entry).

(** The values that are read back from what [stringify] writes with the
    default options: the readable scalars; the objects with distinct
    plain keys and such values; the arrays that [isArrayOfObjects]
    rejects, of such values, none of them [undefined] and none with a
    pipe in its text; and the tables, that is the arrays of objects that
    all list the same two or more distinct plain keys in the same order,
    with readable property values. *)
Inductive storable : Value -> Prop :=
| storable_scalar (v : Value) : scalar v -> storable v
| storable_object (props : list (jstring * Value)) :
    NoDup (obj_keys props) ->
    Forall (fun entry => plain_key (fst entry) /\ storable (snd entry)) props ->
    storable (VObject props)
| storable_list (items : list Value) :
    isArrayOfObjects items = false ->
    Forall (fun item => storable item /\ item <> VUndefined
                        /\ includes c_PIPE (default_text item) = false) items ->
    storable (VArray items)
| storable_table (row0 : list (jstring * Value))
    (rows : list (list (jstring * Value))) :
    (2 <= length (obj_keys row0))%nat ->
    NoDup (obj_keys row0) ->
    Forall plain_key (obj_keys row0) ->
    (forall row, In row rows -> obj_keys row = obj_keys row0) ->
    (forall row, In row (row0 :: rows) ->
                 Forall (fun entry => readable (snd entry)) row) ->
    storable (VArray (map VObject (row0 :: rows))).

(** The text of a column given by its key and its cells, and the row [i]
    of a list of columns: under each key the cell [i] of the column, or
    [undefined] when the column is too short. *)
Definition column_line (column : jstring * list Value) : jstring :=
  fst column ++ [c_COLON] ++ join [c_COMMA] (map flat_text (snd column)).

Definition ragged_row (columns : list (jstring * list Value)) (i : nat)
    : Value :=
  VObject (map (fun column => (fst column, nth i (snd column) VUndefined))
             columns).

(** The text of a value written on one line, and its text laid out on
    several lines at a nesting depth, with the columnar option on or
    off; the line break and indentation written at a depth; the text of
    one pair of an object laid out on several lines. *)
Definition line_text (columnar : bool) (v : Value) : jstring :=
  stringifyValue v 0 false columnar.

Definition pretty_text (columnar : bool) (v : Value) (depth : nat)
    : jstring :=
  stringifyValue v depth true columnar.

Definition indent (n : nat) : jstring := c_LF :: repeat_str (str "  ") n.

Definition pretty_entry_text (columnar : bool) (depth : nat)
    (entry : jstring * Value) : jstring :=
  fst entry ++ [c_COLON] ++ pretty_text columnar (snd entry) depth.

(** With the pretty option an object with properties is written between
    braces below the top level only; at depth 0 its pairs stand alone. *)
Definition braced_at (v : Value) (depth : nat) : Prop :=
  match v with
  | VObject (_ :: _) => (1 <= depth)%nat
  | _ => True
  end.

(** ** Regular expressions that cannot match *)

(** A regular expression with an empty language, by its shape. *)
Fixpoint void (r : regex) : bool :=
  match r with
  | RNone => true
  | REps | RClass _ | RStar _ => false
  | RCat r1 r2 => void r1 || void r2
  | RAlt r1 r2 => void r1 && void r2
  end.

(** No character class of the regular expression accepts [c]. *)
Fixpoint avoids (c : char) (r : regex) : bool :=
  match r with
  | RNone | REps => true
  | RClass p => negb (p c)
  | RCat r1 r2 | RAlt r1 r2 => avoids c r1 && avoids c r2
  | RStar r1 => avoids c r1
  end.

(** The state of a scanner of the code stands for a state of the scan
    that the specification describes: the same nesting, and the same
    string state with, inside a string, the same opening quote. *)
Definition tracks (st : scan) (quote : option char) (nesting : Z) : Prop :=
  depth st = nesting
  /\ match quote with
     | None => inString st = false
     | Some q => inString st = true /\ stringChar st = Some q
     end.

(** A segment under construction put before the first of the segments
    that the rest of the text gives. *)
Definition prepend (current : jstring) (segs : jstring * list jstring)
    : list jstring :=
  (current ++ fst segs) :: snd segs.

(** [u] stands in [v] at the start or after a character that is no
    backslash. *)
Definition clean_part (u v : jstring) : Prop :=
  exists a b, v = a ++ u ++ b /\ is_backslash (prev_after a None) = false.
(* ================================================================== *)
(** * Basic facts about strings *)
(* ================================================================== *)

Lemma jstring_eqb_spec (a b : jstring) : reflect (a = b) (jstring_eqb a b).
Proof.
  revert b; induction a as [|x a IH]; intros [|y b]; simpl;
    try (constructor; congruence).
  destruct (N.eqb_spec x y) as [->|Hxy]; simpl.
  - destruct (IH b) as [->|Hab]; constructor; congruence.
  - constructor; congruence.
Qed.

Lemma jstring_eqb_refl (a : jstring) : jstring_eqb a a = true.
Proof. destruct (jstring_eqb_spec a a); congruence. Qed.

Lemma jstring_eqb_neq (a b : jstring) : a <> b -> jstring_eqb a b = false.
Proof. destruct (jstring_eqb_spec a b); congruence. Qed.

Lemma trimStart_all_ws (s : jstring) :
  forallb is_ws s = true -> trimStart s = [].
Proof.
  induction s as [|c s IH]; simpl; auto.
  destruct (is_ws c); simpl; auto; discriminate.
Qed.

Lemma trimStart_length (s : jstring) : (length (trimStart s) <= length s)%nat.
Proof.
  induction s as [|c s IH]; simpl; auto.
  destruct (is_ws c); simpl; lia.
Qed.

Lemma trimStart_app (s t : jstring) :
  trimStart s <> [] -> trimStart (s ++ t) = trimStart s ++ t.
Proof.
  induction s as [|c s IH]; simpl; [congruence|].
  destruct (is_ws c); auto.
Qed.

Lemma trimStart_head (c : char) (s : jstring) :
  is_ws c = false -> trimStart (c :: s) = c :: s.
Proof. simpl; intros ->; reflexivity. Qed.

Lemma trimStart_idem (s : jstring) : trimStart (trimStart s) = trimStart s.
Proof.
  induction s as [|c s IH]; simpl; auto.
  destruct (is_ws c) eqn:E; auto. simpl; rewrite E; reflexivity.
Qed.

Lemma trimEnd_length (s : jstring) : (length (trimEnd s) <= length s)%nat.
Proof.
  unfold trimEnd. rewrite length_rev.
  pose proof (trimStart_length (rev s)) as H. rewrite length_rev in H. exact H.
Qed.

Lemma trim_length (s : jstring) : (length (trim s) <= length s)%nat.
Proof.
  unfold trim. pose proof (trimEnd_length (trimStart s)).
  pose proof (trimStart_length s). lia.
Qed.

Lemma trimmed_trim (s : jstring) : trimmed s -> trim s = s.
Proof.
  intros [H1 H2]. unfold trim, trimEnd. rewrite H1, H2. apply rev_involutive.
Qed.

Lemma trimStart_trimEnd (s : jstring) :
  trimStart s = s -> trimStart (trimEnd s) = trimEnd s.
Proof.
  unfold trimEnd. intros H.
  destruct s as [|c s]; [reflexivity|].
  simpl in H. destruct (is_ws c) eqn:E.
  - exfalso. pose proof (trimStart_length s) as L. rewrite H in L. simpl in L. lia.
  - assert (Hne : trimStart (rev s ++ [c]) = trimStart (rev s) ++ [c]).
    { clear H. induction (rev s) as [|d l IH]; simpl.
      - rewrite E. reflexivity.
      - destruct (is_ws d); auto. }
    simpl rev. rewrite Hne. rewrite rev_app_distr. simpl. rewrite E. reflexivity.
Qed.

Lemma trim_trimmed (s : jstring) : trimmed (trim s).
Proof.
  unfold trimmed, trim. split.
  - apply trimStart_trimEnd, trimStart_idem.
  - unfold trimEnd. rewrite rev_involutive. apply trimStart_idem.
Qed.

Lemma trim_idem (s : jstring) : trim (trim s) = trim s.
Proof. apply trimmed_trim, trim_trimmed. Qed.

Lemma trim_all_ws (s : jstring) : forallb is_ws s = true -> trim s = [].
Proof. intros H. unfold trim. rewrite (trimStart_all_ws s H). reflexivity. Qed.

Lemma is_empty_true (s : jstring) : is_empty s = true -> s = [].
Proof. destruct s; simpl; intros; congruence. Qed.

Lemma includes_in (c : char) (s : jstring) :
  includes c s = true <-> In c s.
Proof.
  unfold includes. rewrite existsb_exists. split.
  - intros (x & Hin & Hx). apply N.eqb_eq in Hx. subst x. exact Hin.
  - intros H. exists c. split; auto. apply N.eqb_refl.
Qed.

Lemma includes_false (c : char) (s : jstring) :
  includes c s = false <-> ~ In c s.
Proof.
  rewrite <- includes_in. destruct (includes c s); split; congruence.
Qed.

Lemma includes_app (c : char) (s t : jstring) :
  includes c (s ++ t) = includes c s || includes c t.
Proof. unfold includes. apply existsb_app. Qed.

(* ================================================================== *)
(** * Facts about the serializer *)
(* ================================================================== *)

Lemma replace_chars_single (a b : char) (s : jstring) :
  replace_chars (N.eqb a) (fun _ => [b]) s
  = map (fun c => if a =? c then b else c) s.
Proof.
  unfold replace_chars. induction s as [|c s IH]; simpl; auto.
  rewrite IH. destruct (a =? c); reflexivity.
Qed.

Lemma replace_chars_removes (a b : char) (s : jstring) :
  a <> b -> includes a (replace_chars (N.eqb a) (fun _ => [b]) s) = false.
Proof.
  intros Hab. rewrite replace_chars_single.
  induction s as [|c s IH]; simpl; auto.
  rewrite IH. destruct (N.eqb_spec a c) as [->|Hac].
  - apply N.eqb_neq in Hab. rewrite Hab. reflexivity.
  - apply N.eqb_neq in Hac. rewrite Hac. reflexivity.
Qed.

Lemma replace_chars_id (p : char -> bool) (f : char -> jstring) (s : jstring) :
  (forall c, In c s -> p c = false) -> replace_chars p f s = s.
Proof.
  unfold replace_chars. induction s as [|c s IH]; simpl; intros H; auto.
  rewrite (H c) by auto. simpl. f_equal. apply IH. intros; apply H; auto.
Qed.

(** The text of an array that is not rendered in columns. *)
Lemma stringifyValue_standard_array (items : list Value) (depth : nat)
    (pretty columnar : bool) :
  items <> [] ->
  columnar && isArrayOfObjects items = false ->
  stringifyValue (VArray items) depth pretty columnar
  = [c_LBRACKET]
      ++ replace_chars (N.eqb c_PIPE) (fun _ => [c_COMMA])
           (join [c_COMMA]
              (map (fun item => stringifyValue item (S depth) pretty columnar)
                 items))
      ++ [c_RBRACKET].
Proof.
  intros Hne Hcol. destruct items as [|item items]; [congruence|].
  cbn [stringifyValue]. rewrite Hcol. reflexivity.
Qed.

(* ================================================================== *)
(** * Facts about the parser *)
(* ================================================================== *)

Lemma startsWith_nonempty (c : char) (s : jstring) :
  startsWith c s = true -> is_empty s = false.
Proof. destruct s; simpl; intros; congruence. Qed.

Lemma startsWith_other (c d : char) (s : jstring) :
  startsWith c s = true -> c <> d -> startsWith d s = false.
Proof.
  destruct s as [|x s]; simpl; [discriminate|].
  intros H Hcd. apply N.eqb_eq in H. subst x. apply N.eqb_neq. exact Hcd.
Qed.

Lemma includes_nonempty (c : char) (s : jstring) :
  includes c s = true -> is_empty s = false.
Proof. destruct s; simpl; intros; congruence. Qed.

(** Segments without a top-level colon add no column. *)
Lemma parseColumnarArray_loop_no_colon (pv : jstring -> result Value)
    (pairs : list jstring) (columns : list (jstring * list Value)) :
  (forall seg, In seg pairs -> findTopLevelColon seg = None) ->
  parseColumnarArray_loop pv pairs columns = Ok columns.
Proof.
  revert columns. induction pairs as [|p pairs IH]; intros columns H; simpl.
  - reflexivity.
  - rewrite (H p) by (left; reflexivity).
    destruct (is_empty (trim p)); apply IH; intros; apply H; right; assumption.
Qed.

(** ** The recursion of the parser is on shorter text *)

Lemma splitByPipe_loop_length (n : nat) (input : jstring) :
  forall prevChar st current parts,
    (forall p, In p parts -> (length p <= n)%nat) ->
    (length current + length input <= n)%nat ->
    forall p, In p (splitByPipe_loop input prevChar st current parts) ->
              (length p <= n)%nat.
Proof.
  induction input as [|c input IH]; intros prevChar st current parts Hparts Hlen p.
  - simpl. destruct (is_empty current); [apply Hparts|].
    rewrite in_app_iff. simpl in *. intros [H|[<-|[]]]; [auto|lia].
  - simpl. simpl in Hlen.
    assert (Hcur : (length (current ++ [c]) + length input <= n)%nat)
      by (rewrite length_app; simpl; lia).
    assert (Hparts' : forall q, In q (parts ++ [current]) -> (length q <= n)%nat).
    { intros q. rewrite in_app_iff. simpl. intros [H|[<-|[]]]; [auto|lia]. }
    destruct (negb (inString (track_quote st c prevChar))).
    + destruct ((c =? c_PIPE) && _).
      * apply IH; [exact Hparts' | simpl; lia].
      * apply IH; assumption.
    + apply IH; assumption.
Qed.

Lemma splitByPipe_length (input p : jstring) :
  In p (splitByPipe input) -> (length p <= length input)%nat.
Proof.
  apply splitByPipe_loop_length; simpl; [intros _ []|lia].
Qed.

Lemma splitArrayItems_loop_length (n : nat) (input : jstring) :
  forall prevChar st current parts,
    (forall p, In p parts -> (length p <= n)%nat) ->
    (length current + length input <= n)%nat ->
    forall p, In p (splitArrayItems_loop input prevChar st current parts) ->
              (length p <= n)%nat.
Proof.
  induction input as [|c input IH]; intros prevChar st current parts Hparts Hlen p.
  - simpl. destruct (is_empty (trim current)); [apply Hparts|].
    rewrite in_app_iff. simpl in *. intros [H|[<-|[]]]; [auto|lia].
  - simpl. simpl in Hlen.
    assert (Hcur : (length (current ++ [c]) + length input <= n)%nat)
      by (rewrite length_app; simpl; lia).
    assert (Hparts' : forall q, In q (parts ++ [current]) -> (length q <= n)%nat).
    { intros q. rewrite in_app_iff. simpl. intros [H|[<-|[]]]; [auto|lia]. }
    destruct (negb (inString (track_quote st c prevChar))).
    + destruct ((c =? c_COMMA) && _).
      * apply IH; [|simpl; lia].
        destruct (is_empty (trim current)); assumption.
      * apply IH; assumption.
    + apply IH; assumption.
Qed.

Lemma splitArrayItems_length (input p : jstring) :
  In p (splitArrayItems input) -> (length p <= length input)%nat.
Proof.
  apply splitArrayItems_loop_length; simpl; [intros _ []|lia].
Qed.

Lemma findTopLevelColon_loop_bound (input : jstring) :
  forall i prevChar st idx,
    findTopLevelColon_loop input i prevChar st = Some idx ->
    (i <= idx < i + length input)%nat.
Proof.
  induction input as [|c input IH]; intros i prevChar st idx; simpl.
  - discriminate.
  - destruct (negb (inString (track_quote st c prevChar))).
    + destruct ((c =? c_COLON) && _).
      * intros [= <-]. lia.
      * intros H. apply IH in H. lia.
    + intros H. apply IH in H. lia.
Qed.

Lemma findTopLevelColon_bound (input : jstring) (idx : nat) :
  findTopLevelColon input = Some idx -> (idx < length input)%nat.
Proof.
  intros H. apply findTopLevelColon_loop_bound in H. lia.
Qed.

Lemma removelast_length_le {A : Type} (l : list A) :
  (length (removelast l) <= length l)%nat.
Proof.
  induction l as [|x l IH]; simpl; auto.
  destruct l; simpl in *; lia.
Qed.

Lemma slice_1_m1_length (s : jstring) :
  s <> [] -> (length (slice_1_m1 s) < length s)%nat.
Proof.
  destruct s as [|c s]; [congruence|]. intros _. unfold slice_1_m1.
  pose proof (removelast_length_le (tl (c :: s))) as H. simpl in *. lia.
Qed.

Lemma pair_values_length (content u : jstring) :
  In u (pair_values content) -> (length u < length content)%nat.
Proof.
  unfold pair_values. rewrite in_flat_map. intros (p & Hp & Hu).
  apply splitByPipe_length in Hp. unfold pair_value in Hu.
  destruct (is_empty (trim p)); [destruct Hu|].
  destruct (findTopLevelColon p) as [idx|] eqn:E; [|destruct Hu].
  destruct Hu as [<-|[]]. apply findTopLevelColon_bound in E.
  pose proof (trim_length (substring_from (idx + 1) p)) as L.
  unfold substring_from in *. rewrite length_skipn in L. lia.
Qed.

Lemma column_values_length (content u : jstring) :
  In u (column_values content) -> (length u < length content)%nat.
Proof.
  unfold column_values. rewrite in_flat_map. intros (p & Hp & Hu).
  apply splitByPipe_length in Hp. unfold column_value in Hu.
  destruct (is_empty (trim p)); [destruct Hu|].
  destruct (findTopLevelColon p) as [idx|] eqn:E; [|destruct Hu].
  apply in_map_iff in Hu. destruct Hu as (item & <- & Hitem).
  apply splitArrayItems_length in Hitem.
  apply findTopLevelColon_bound in E.
  pose proof (trim_length (substring_from (idx + 1) p)) as L.
  pose proof (trim_length item) as L'.
  unfold substring_from in *. rewrite length_skipn in L. lia.
Qed.

Lemma array_values_length (content u : jstring) :
  In u (array_values content) -> (length u <= length content)%nat.
Proof.
  unfold array_values. destruct (_ && _).
  - intros H. apply column_values_length in H. lia.
  - intros H. apply in_map_iff in H. destruct H as (item & <- & Hitem).
    apply splitArrayItems_length in Hitem. pose proof (trim_length item). lia.
Qed.

(** ** When the parser throws *)

Lemma settles_ok {A : Type} (a : A) : settles (Ok a) False.
Proof.
  split; [discriminate|]. split; [intros [e H]; discriminate|intros []].
Qed.

Lemma settles_throw {A : Type} (e : error) (B : Prop) :
  B -> settles (@Throw A e) B.
Proof.
  intros HB. split; [discriminate|]. split; auto. intros _. exists e. reflexivity.
Qed.

Lemma settles_iff {A : Type} (r : result A) (B B' : Prop) :
  settles r B -> (B <-> B') -> settles r B'.
Proof. intros [H1 H2] H. split; [exact H1|]. rewrite H2. exact H. Qed.

Lemma settles_bind {A B : Type} (r : result A) (k : A -> result B)
    (P Q : Prop) :
  settles r P ->
  (forall a, r = Ok a -> settles (k a) Q) ->
  settles (bind r k) (P \/ Q).
Proof.
  intros [Hf Ht] Hk. destruct r as [a|e|]; simpl; [| |congruence].
  - destruct (Hk a eq_refl) as [Hkf Hkt]. split; [exact Hkf|].
    rewrite Hkt. split; [auto|]. intros [HP|HQ]; [|exact HQ].
    apply Ht in HP. destruct HP as [e He]. discriminate.
  - split; [discriminate|]. split.
    + intros _. left. apply Ht. exists e. reflexivity.
    + intros _. exists e. reflexivity.
Qed.

Lemma map_result_settles {A B : Type} (f : A -> result B) (P : A -> Prop)
    (xs : list A) :
  (forall x, In x xs -> settles (f x) (P x)) ->
  settles (map_result f xs) (exists x, In x xs /\ P x).
Proof.
  induction xs as [|x xs IH]; intros H.
  - simpl. eapply settles_iff; [apply settles_ok|].
    split; [intros []|intros (x & [] & _)].
  - cbn [map_result].
    eapply settles_iff.
    + apply settles_bind with (P := P x) (Q := exists y, In y xs /\ P y).
      * apply H. left. reflexivity.
      * intros y _. eapply settles_iff.
        -- apply settles_bind with (Q := False).
           ++ apply IH. intros; apply H; right; assumption.
           ++ intros ys _. apply settles_ok.
        -- tauto.
    + split.
      * intros [Hx|(y & Hy & HP)]; [exists x|exists y]; simpl; auto.
      * intros (y & [<-|Hy] & HP); [left|right; exists y]; auto.
Qed.

Section Throws.
Variable pv : jstring -> result Value.

Lemma parseColumnarArray_loop_settles (pairs : list jstring) :
  forall columns,
  (forall u, In u (flat_map column_value pairs) ->
             settles (pv u) (malformed_within u)) ->
  settles (parseColumnarArray_loop pv pairs columns)
    (exists u, In u (flat_map column_value pairs) /\ malformed_within u).
Proof.
  induction pairs as [|p pairs IH]; intros columns H.
  - simpl. eapply settles_iff; [apply settles_ok|].
    split; [intros []|intros (x & [] & _)].
  - cbn [parseColumnarArray_loop flat_map] in *.
    assert (Hrest : forall columns',
      settles (parseColumnarArray_loop pv pairs columns')
        (exists u, In u (flat_map column_value pairs) /\ malformed_within u)).
    { intros c'. apply IH. intros u Hu. apply H. apply in_or_app. auto. }
    unfold column_value in *.
    destruct (is_empty (trim p)); [exact (Hrest columns)|].
    destruct (findTopLevelColon p) as [idx|]; [|exact (Hrest columns)].
    set (items := splitArrayItems (trim (substring_from (idx + 1) p))) in *.
    eapply settles_iff.
    + apply settles_bind.
      * apply map_result_settles
          with (f := fun v => pv (trim v)) (P := fun v => malformed_within (trim v)).
        intros x Hx. apply H. apply in_or_app. left.
        apply in_map. exact Hx.
      * intros v _. apply Hrest.
    + split.
      * intros [(x & Hx & HP)|(y & Hy & HP)].
        -- exists (trim x). split; [|exact HP].
           apply in_or_app. left. apply in_map. exact Hx.
        -- exists y. split; [|exact HP]. apply in_or_app. right. exact Hy.
      * intros (y & Hy & HP). apply in_app_or in Hy. destruct Hy as [Hy|Hy].
        -- apply in_map_iff in Hy. destruct Hy as (x & <- & Hx).
           left. exists x. auto.
        -- right. exists y. auto.
Qed.
Variable pi : jstring -> bool.

Lemma parsePipeDelimited_loop_settles (pairs : list jstring) :
  forall obj inh,
  (forall u, In u (flat_map pair_value pairs) ->
             settles (pv u) (malformed_within u)) ->
  settles (parsePipeDelimited_loop pv pi pairs obj inh)
    (exists u, In u (flat_map pair_value pairs) /\ malformed_within u).
Proof.
  induction pairs as [|p pairs IH]; intros obj inh H.
  - simpl. eapply settles_iff; [apply settles_ok|].
    split; [intros []|intros (x & [] & _)].
  - cbn [parsePipeDelimited_loop flat_map] in *.
    assert (Hrest : forall obj' inh',
      settles (parsePipeDelimited_loop pv pi pairs obj' inh')
        (exists u, In u (flat_map pair_value pairs) /\ malformed_within u)).
    { intros obj' inh'. apply IH. intros u Hu. apply H. apply in_or_app.
      auto. }
    unfold pair_value in *.
    destruct (is_empty (trim p)); [exact (Hrest obj inh)|].
    destruct (findTopLevelColon p) as [idx|]; [|exact (Hrest obj inh)].
    eapply settles_iff.
    + apply settles_bind.
      * apply H. left. reflexivity.
      * intros v _. destruct (obj_assign _ _ _ _ _). apply Hrest.
    + simpl. split.
      * intros [Hx|(y & Hy & HP)]; eauto.
      * intros (y & [<-|Hy] & HP); eauto.
Qed.

Lemma parsePipeDelimited_settles (content : jstring) :
  (forall u, In u (pair_values content) ->
             settles (pv u) (malformed_within u)) ->
  settles (parsePipeDelimited pv pi content)
    (exists u, In u (pair_values content) /\ malformed_within u).
Proof.
  intros H. unfold parsePipeDelimited. eapply settles_iff.
  - apply settles_bind with (Q := False).
    + apply parsePipeDelimited_loop_settles. exact H.
    + intros st _. apply settles_ok.
  - unfold pair_values. tauto.
Qed.
End Throws.

Lemma malformed_within_unfold (v : jstring) :
  malformed_within v
  <-> malformed (trim v)
      \/ exists u, In u (nested_values (trim v)) /\ malformed_within u.
Proof.
  unfold malformed_within. split.
  - intros (w & Hspan & Hw). destruct Hspan as [v|v u w Hu Hspan].
    + left. exact Hw.
    + right. exists u. split; [exact Hu|]. exists w. auto.
  - intros [H|(u & Hu & w & Hspan & Hw)].
    + exists v. split; [constructor|exact H].
    + exists w. split; [|exact Hw]. econstructor; eassumption.
Qed.

Lemma not_bracketed_well_formed (v : jstring) :
  startsWith c_LBRACE (trim v) = false ->
  startsWith c_LBRACKET (trim v) = false ->
  ~ malformed_within v.
Proof.
  intros H1 H2. rewrite malformed_within_unfold. unfold malformed, nested_values.
  rewrite H1, H2. intros [[[H _]|[H _]]|(u & [] & _)]; discriminate.
Qed.

Lemma settles_ok_if {A : Type} (a : A) (B : Prop) : ~ B -> settles (Ok a) B.
Proof. intros H. eapply settles_iff; [apply settles_ok|tauto]. Qed.

Section ThrowsBody.
Variable pv : jstring -> result Value.

Lemma parseColumnarArray_settles (content : jstring) :
  (forall u, In u (column_values content) ->
             settles (pv u) (malformed_within u)) ->
  settles (parseColumnarArray pv content)
    (exists u, In u (column_values content) /\ malformed_within u).
Proof.
  intros H. unfold parseColumnarArray. eapply settles_iff.
  - apply settles_bind with (Q := False).
    + apply parseColumnarArray_loop_settles. exact H.
    + intros columns _. destruct (obj_keys columns); apply settles_ok.
  - unfold column_values. tauto.
Qed.

(** An array text, already trimmed. *)
Lemma parseArray_settles (t : jstring) :
  trim t = t ->
  startsWith c_LBRACKET t = true ->
  (forall u, (length u < length t)%nat -> settles (pv u) (malformed_within u)) ->
  settles (parseArray pv t) (malformed_within t).
Proof.
  intros Ht Hs Hrec. unfold parseArray. rewrite Ht, Hs. cbn [negb orb].
  assert (Hb : startsWith c_LBRACE t = false)
    by (apply (startsWith_other c_LBRACKET); [exact Hs|discriminate]).
  assert (Hunf := malformed_within_unfold t). rewrite Ht in Hunf.
  unfold malformed, nested_values in Hunf. rewrite Hs, Hb in Hunf.
  assert (Hlen : forall u, In u (array_values (trim (slice_1_m1 t))) ->
                           (length u < length t)%nat).
  { intros u Hu. apply array_values_length in Hu.
    pose proof (trim_length (slice_1_m1 t)).
    assert (Hne : t <> []) by (intros ->; discriminate).
    pose proof (slice_1_m1_length t Hne). lia. }
  destruct (endsWith c_RBRACKET t) eqn:He; cbn [negb].
  - destruct (is_empty (trim (slice_1_m1 t))) eqn:Hc.
    + apply settles_ok_if. rewrite Hunf. apply is_empty_true in Hc. rewrite Hc.
      intros [[[H _]|[_ H]]|(u & [] & _)]; discriminate.
    + unfold array_values in *.
      destruct (includes c_PIPE (trim (slice_1_m1 t))
                && includes c_COLON (trim (slice_1_m1 t))).
      * eapply settles_iff.
        -- apply parseColumnarArray_settles. intros u Hu. apply Hrec, Hlen, Hu.
        -- rewrite Hunf. split; [tauto|].
           intros [[[H _]|[_ H]]|H]; try discriminate. exact H.
      * eapply settles_iff.
        -- apply settles_bind with (Q := False).
           ++ apply map_result_settles
                with (f := fun item => pv (trim item))
                     (P := fun item => malformed_within (trim item)).
              intros x Hx. apply Hrec, Hlen. apply in_map. exact Hx.
           ++ intros vs _. apply settles_ok.
        -- rewrite Hunf. split.
           ++ intros [(x & Hx & HP)|[]]. right. exists (trim x).
              split; [apply in_map; exact Hx|exact HP].
           ++ intros [[[H _]|[_ H]]|(u & Hu & HP)]; try discriminate.
              apply in_map_iff in Hu. destruct Hu as (x & <- & Hx).
              left. exists x. auto.
  - apply settles_throw. rewrite Hunf. left. right. auto.
Qed.

Variable pi : jstring -> bool.

(** An object text, already trimmed. *)
Lemma parseObject_settles (t : jstring) :
  trim t = t ->
  startsWith c_LBRACE t = true ->
  (forall u, (length u < length t)%nat -> settles (pv u) (malformed_within u)) ->
  settles (parseObject pv pi t) (malformed_within t).
Proof.
  intros Ht Hs Hrec. unfold parseObject. rewrite Ht, Hs. cbn [negb orb].
  assert (Hb : startsWith c_LBRACKET t = false)
    by (apply (startsWith_other c_LBRACE); [exact Hs|discriminate]).
  assert (Hunf := malformed_within_unfold t). rewrite Ht in Hunf.
  unfold malformed, nested_values in Hunf. rewrite Hs, Hb in Hunf.
  destruct (endsWith c_RBRACE t) eqn:He; cbn [negb].
  - destruct (is_empty (trim (slice_1_m1 t))) eqn:Hc.
    + apply settles_ok_if. rewrite Hunf. apply is_empty_true in Hc. rewrite Hc.
      intros [[[_ H]|[H _]]|(u & [] & _)]; discriminate.
    + eapply settles_iff.
      * apply parsePipeDelimited_settles. intros u Hu. apply Hrec.
        apply pair_values_length in Hu.
        pose proof (trim_length (slice_1_m1 t)).
        assert (Hne : t <> []) by (intros ->; discriminate).
        pose proof (slice_1_m1_length t Hne). lia.
      * rewrite Hunf. split; [tauto|].
        intros [[[_ H]|[H _]]|H]; try discriminate. exact H.
  - apply settles_throw. rewrite Hunf. left. left. auto.
Qed.

Lemma parseValue_body_settles (v : jstring) :
  (forall u, (length u < length v)%nat -> settles (pv u) (malformed_within u)) ->
  settles (parseValue_body pv pi v) (malformed_within v).
Proof.
  intros Hrec. unfold parseValue_body.
  assert (Hws := not_bracketed_well_formed v).
  assert (Hrec' : forall u, (length u < length (trim v))%nat ->
                            settles (pv u) (malformed_within u)).
  { intros u Hu. apply Hrec. pose proof (trim_length v). lia. }
  assert (Htrim : malformed_within v <-> malformed_within (trim v)).
  { rewrite (malformed_within_unfold v), (malformed_within_unfold (trim v)).
    rewrite trim_idem. reflexivity. }
  remember (trim v) as t eqn:Et. symmetry in Et.
  destruct (is_empty t) eqn:E0.
  { apply settles_ok_if. apply is_empty_true in E0.
    apply Hws; rewrite E0; reflexivity. }
  destruct (jstring_eqb_spec t (str "null")) as [E|_].
  { apply settles_ok_if. apply Hws; rewrite E; reflexivity. }
  destruct (jstring_eqb_spec t (str "true")) as [E|_].
  { apply settles_ok_if. apply Hws; rewrite E; reflexivity. }
  destruct (jstring_eqb_spec t (str "false")) as [E|_].
  { apply settles_ok_if. apply Hws; rewrite E; reflexivity. }
  destruct (jstring_eqb_spec t (str "undefined")) as [E|_].
  { apply settles_ok_if. apply Hws; rewrite E; reflexivity. }
  destruct (jstring_eqb_spec t (str "NaN")) as [E|_].
  { apply settles_ok_if. apply Hws; rewrite E; reflexivity. }
  destruct (jstring_eqb_spec t (str "Infinity")) as [E|_].
  { apply settles_ok_if. apply Hws; rewrite E; reflexivity. }
  destruct (jstring_eqb_spec t (str "-Infinity")) as [E|_].
  { apply settles_ok_if. apply Hws; rewrite E; reflexivity. }
  destruct (startsWith c_DQUOTE t && endsWith c_DQUOTE t
            || startsWith c_SQUOTE t && endsWith c_SQUOTE t) eqn:Eq.
  { apply settles_ok_if. apply orb_true_iff in Eq.
    destruct Eq as [Eq|Eq]; apply andb_true_iff in Eq; destruct Eq as [Eq _];
      apply Hws; apply (startsWith_other _ _ _ Eq); discriminate. }
  destruct (startsWith c_LBRACE t) eqn:Eo.
  { eapply settles_iff; [|symmetry; exact Htrim].
    apply parseObject_settles; auto. subst t. apply trim_idem. }
  destruct (startsWith c_LBRACKET t) eqn:Ea.
  { eapply settles_iff; [|symmetry; exact Htrim].
    apply parseArray_settles; auto. subst t. apply trim_idem. }
  destruct (regex_test re_number t).
  { destruct (parseFloat t) as [| | [|] |]; apply settles_ok_if; apply Hws; auto. }
  destruct (regex_test_prefix re_datetime t);
    apply settles_ok_if; apply Hws; auto.
Qed.
End ThrowsBody.

(** Fuel beyond the length of the text is never used up. *)
Lemma parseValue_settles (fuel : nat) :
  forall v, (length v < fuel)%nat ->
            settles (parseValue fuel v) (malformed_within v).
Proof.
  induction fuel as [|fuel IH]; intros v Hlen; [lia|].
  cbn [parseValue]. apply parseValue_body_settles.
  intros u Hu. apply IH. lia.
Qed.

Lemma parseValue_fuel_enough (fuel : nat) (v : jstring) :
  (length v < fuel)%nat -> parseValue fuel v <> OutOfFuel.
Proof. intros H. apply (parseValue_settles fuel v H). Qed.

Lemma parse_settles (text : jstring) :
  settles (parse text) (reaches_malformed text).
Proof.
  unfold parse, reaches_malformed, top_values.
  pose proof (trim_length text) as Hlen.
  assert (Hrec : forall u, (length u < length (trim text))%nat ->
            settles (parseValue (length text) u) (malformed_within u)).
  { intros u Hu. apply parseValue_settles. lia. }
  assert (Hone : forall t : jstring,
             malformed_within t <-> exists v, In v [t] /\ malformed_within v).
  { intros t. split; [intros H; exists t; simpl; auto|].
    intros (v & [<-|[]] & H). exact H. }
  remember (trim text) as t eqn:Et.
  assert (Ht : trim t = t) by (subst t; apply trim_idem).
  destruct (is_empty t) eqn:E0.
  { apply settles_ok_if. apply is_empty_true in E0. rewrite E0. simpl.
    intros (v & [<-|[]] & H). revert H.
    apply not_bracketed_well_formed; reflexivity. }
  destruct (startsWith c_LBRACE t) eqn:Eo.
  { cbn [orb]. eapply settles_iff; [|apply (Hone t)].
    apply parseObject_settles; assumption. }
  destruct (startsWith c_LBRACKET t) eqn:Ea.
  { cbn [orb]. eapply settles_iff; [|apply (Hone t)].
    apply parseArray_settles; assumption. }
  cbn [orb].
  destruct (includes c_PIPE t && includes c_COLON t).
  { apply parsePipeDelimited_settles. intros u Hu. apply Hrec.
    apply (pair_values_length t u Hu). }
  eapply settles_iff; [|apply (Hone t)].
  apply parseValue_body_settles. intros u Hu. apply Hrec. lia.
Qed.

(* ================================================================== *)
(** * Regular expressions: the derivative test accepts the language *)
(* ================================================================== *)

Lemma nullable_lang (r : regex) (s : jstring) :
  lang r s -> s = [] -> nullable r = true.
Proof.
  induction 1 as [ | p c Hp | r1 r2 s1 s2 H1 IH1 H2 IH2 | r1 r2 s H IH
                 | r1 r2 s H IH | r | r s1 s2 H1 IH1 H2 IH2 ];
    intros E; simpl; auto.
  - discriminate.
  - apply app_eq_nil in E. destruct E. rewrite IH1, IH2; auto.
  - rewrite IH; auto.
  - rewrite IH; auto. apply orb_true_r.
Qed.

Lemma deriv_lang (r : regex) (s : jstring) :
  lang r s -> forall c s', s = c :: s' -> lang (deriv c r) s'.
Proof.
  induction 1 as [ | p d Hp | r1 r2 s1 s2 H1 IH1 H2 IH2 | r1 r2 s H IH
                 | r1 r2 s H IH | r | r s1 s2 H1 IH1 H2 IH2 ];
    intros c s' E; simpl.
  - discriminate.
  - injection E as -> <-. rewrite Hp. constructor.
  - destruct s1 as [|x s1].
    + simpl in E. rewrite (nullable_lang r1 [] H1 eq_refl).
      apply L_alt_r. apply IH2. exact E.
    + simpl in E. injection E as -> <-.
      assert (L : lang (RCat (deriv c r1) r2) (s1 ++ s2))
        by (constructor; [apply IH1; reflexivity|exact H2]).
      destruct (nullable r1); [apply L_alt_l|]; exact L.
  - apply L_alt_l. apply IH. exact E.
  - apply L_alt_r. apply IH. exact E.
  - discriminate.
  - destruct s1 as [|x s1].
    + simpl in E. apply (IH2 c s' E).
    + simpl in E. injection E as -> <-.
      constructor; [apply IH1; reflexivity|exact H2].
Qed.

Lemma regex_test_complete (s : jstring) :
  forall r, lang r s -> regex_test r s = true.
Proof.
  induction s as [|c s IH]; intros r H; simpl.
  - apply (nullable_lang r [] H eq_refl).
  - apply IH. apply (deriv_lang r (c :: s) H c s eq_refl).
Qed.

Lemma lang_star_digits (s : jstring) : all_digits s -> lang (RStar RDigit) s.
Proof.
  unfold all_digits. induction s as [|c s IH]; simpl; intros H.
  - constructor.
  - apply andb_true_iff in H. destruct H as [Hc Hs].
    apply (L_star_cons RDigit [c] s); [constructor; exact Hc|apply IH, Hs].
Qed.

Lemma lang_plus_digits (s : jstring) :
  all_digits s -> s <> [] -> lang (RPlus RDigit) s.
Proof.
  unfold all_digits. destruct s as [|c s]; [congruence|]. simpl. intros H _.
  apply andb_true_iff in H. destruct H as [Hc Hs].
  apply (L_cat RDigit (RStar RDigit) [c] s);
    [constructor; exact Hc|apply lang_star_digits, Hs].
Qed.

Lemma lang_opt_nil (r : regex) : lang (ROpt r) [].
Proof. apply L_alt_r. constructor. Qed.

Lemma lang_chr (c : char) : lang (RChr c) [c].
Proof. constructor. apply N.eqb_refl. Qed.

(* ================================================================== *)
(** * Numbers: [parseFloat] reads back what [number_toString] writes *)
(* ================================================================== *)

Lemma digit_char_is_digit (d : N) : d < 10 -> is_digit (digit_char d) = true.
Proof.
  intros H. unfold is_digit, digit_char.
  apply andb_true_iff. split; apply N.leb_le; lia.
Qed.

Lemma digits_str_all_digits (ds : list N) :
  Forall (fun d => d < 10) ds -> all_digits (digits_str ds).
Proof.
  unfold all_digits, digits_str. induction 1 as [|d ds Hd _ IH]; simpl; auto.
  rewrite digit_char_is_digit by exact Hd. exact IH.
Qed.

Lemma all_digits_app (a b : jstring) :
  all_digits a -> all_digits b -> all_digits (a ++ b).
Proof.
  unfold all_digits. intros Ha Hb. rewrite forallb_app, Ha, Hb. reflexivity.
Qed.

Lemma all_digits_repeat_zero (n : nat) : all_digits (repeat c_0 n).
Proof. unfold all_digits. induction n; simpl; auto. Qed.

Lemma decimal_fuel_all_digits (fuel : nat) :
  forall n acc, all_digits acc -> all_digits (decimal_fuel fuel n acc).
Proof.
  induction fuel as [|fuel IH]; intros n acc Hacc; simpl; auto.
  assert (H : all_digits (digit_char (n mod 10) :: acc)).
  { unfold all_digits. simpl. rewrite digit_char_is_digit; [exact Hacc|].
    apply N.mod_lt. discriminate. }
  destruct (n / 10 =? 0); [exact H|apply IH, H].
Qed.

Lemma decimal_fuel_nonempty (fuel : nat) :
  forall n acc, acc <> [] -> decimal_fuel fuel n acc <> [].
Proof.
  induction fuel as [|fuel IH]; intros n acc Hacc; simpl; auto.
  destruct (n / 10 =? 0); [|apply IH]; discriminate.
Qed.

Lemma decimal_all_digits (n : N) : all_digits (decimal n).
Proof. apply decimal_fuel_all_digits. reflexivity. Qed.

Lemma decimal_nonempty (n : N) : decimal n <> [].
Proof.
  unfold decimal. simpl.
  destruct (n / 10 =? 0); [|apply decimal_fuel_nonempty]; discriminate.
Qed.

Lemma parse_nat_decimal_fuel (fuel : nat) :
  forall n acc,
    (N.to_nat n < fuel)%nat ->
    fold_left (fun a c => 10 * a + (c - 48)) (decimal_fuel fuel n acc) 0
    = fold_left (fun a c => 10 * a + (c - 48)) acc n.
Proof.
  induction fuel as [|fuel IH]; intros n acc Hn; [lia|].
  simpl decimal_fuel.
  assert (Hd : 10 * (n / 10) + (digit_char (n mod 10) - 48) = n).
  { unfold digit_char. pose proof (N.div_mod' n 10) as H.
    generalize dependent (n / 10). generalize (n mod 10). intros. lia. }
  destruct (N.eqb_spec (n / 10) 0) as [E|E].
  - cbn [fold_left]. rewrite E in Hd. rewrite Hd. reflexivity.
  - rewrite IH.
    + cbn [fold_left]. rewrite Hd. reflexivity.
    + assert (n / 10 < n).
      { apply N.div_lt; [|lia].
        destruct n; [exfalso; apply E; reflexivity|lia]. }
      lia.
Qed.

Lemma parse_nat_decimal (n : N) : parse_nat (decimal n) = n.
Proof.
  unfold parse_nat, decimal. rewrite parse_nat_decimal_fuel by lia. reflexivity.
Qed.

Lemma span_digits_app (a rest : jstring) :
  all_digits a -> no_digit_head rest -> span_digits (a ++ rest) = (a, rest).
Proof.
  unfold all_digits. induction a as [|c a IH]; simpl; intros Ha Hr.
  - destruct rest as [|d rest]; simpl in *; [reflexivity|].
    rewrite Hr. reflexivity.
  - apply andb_true_iff in Ha. destruct Ha as [Hc Ha].
    rewrite Hc, (IH Ha Hr). reflexivity.
Qed.

Lemma span_digits_all (a : jstring) : all_digits a -> span_digits a = (a, []).
Proof.
  intros H. rewrite <- (app_nil_r a) at 1. apply span_digits_app; simpl; auto.
Qed.

Section Literals.
Variables (neg : bool) (ip : jstring) (fp : option jstring)
          (ex : option (bool * N)).
Hypothesis ip_digits : all_digits ip.
Hypothesis ip_nonempty : ip <> [].
Hypothesis fp_digits : all_digits (fraction_digits fp).

Lemma literal_text_lang : lang re_number (literal_text neg ip fp ex).
Proof.
  unfold literal_text, re_number.
  apply L_cat; [destruct neg; [apply L_alt_l, lang_chr|apply lang_opt_nil]|].
  set (dot := match fp with None => [] | Some f => c_DOT :: f end).
  rewrite app_assoc. apply L_cat.
  - apply L_alt_l. apply L_cat; [apply lang_plus_digits; assumption|].
    subst dot. destruct fp as [f|].
    + apply (L_cat _ _ [c_DOT] f);
        [apply L_alt_l, lang_chr|apply lang_star_digits, fp_digits].
    + apply (L_cat _ _ [] []); [apply lang_opt_nil|constructor].
  - destruct ex as [[eneg m]|]; [|apply lang_opt_nil].
    apply L_alt_l.
    apply (L_cat _ _ [101] ((if eneg then c_MINUS else c_PLUS) :: decimal m));
      [constructor; reflexivity|].
    apply (L_cat _ _ [if eneg then c_MINUS else c_PLUS] (decimal m)).
    + apply L_alt_l. constructor. destruct eneg; reflexivity.
    + apply lang_plus_digits; [apply decimal_all_digits|apply decimal_nonempty].
Qed.

Lemma literal_text_regex : regex_test re_number (literal_text neg ip fp ex) = true.
Proof. apply regex_test_complete, literal_text_lang. Qed.

Lemma parse_exponent_literal :
  parse_exponent
    match ex with
    | None => []
    | Some (eneg, m) => 101 :: (if eneg then c_MINUS else c_PLUS) :: decimal m
    end
  = exponent_value ex.
Proof.
  destruct ex as [[eneg m]|]; [|reflexivity].
  unfold parse_exponent, exponent_value. cbn [N.eqb Pos.eqb orb].
  pose proof (decimal_nonempty m) as Hne.
  destruct eneg; cbn [N.eqb Pos.eqb];
    rewrite (span_digits_all _ (decimal_all_digits m));
    destruct (decimal m) eqn:E; try congruence;
    rewrite <- E, parse_nat_decimal; reflexivity.
Qed.

Lemma ip_head : exists d ip', ip = d :: ip' /\ is_digit d = true.
Proof.
  destruct ip as [|d ip'] eqn:E; [congruence|]. exists d, ip'. split; auto.
  unfold all_digits in ip_digits. simpl in ip_digits.
  apply andb_true_iff in ip_digits. tauto.
Qed.

Lemma is_digit_range (c : char) : is_digit c = true -> 48 <= c <= 57.
Proof.
  unfold is_digit. intros H. apply andb_true_iff in H. destruct H as [H1 H2].
  apply N.leb_le in H1, H2. lia.
Qed.

Lemma parseFloat_literal :
  parseFloat (literal_text neg ip fp ex)
  = normalize neg (map (fun c => c - 48) (ip ++ fraction_digits fp))
      (Z.of_nat (length ip) + exponent_value ex).
Proof.
  destruct ip_head as (d & ip' & Eip & Hd).
  pose proof (is_digit_range d Hd) as Hr.
  set (exs := match ex with
              | None => []
              | Some (eneg, m) =>
                  101 :: (if eneg then c_MINUS else c_PLUS) :: decimal m
              end).
  assert (Hexs : no_digit_head exs)
    by (subst exs; destruct ex as [[? ?]|]; simpl; auto).
  set (dot := match fp with None => [] | Some f => c_DOT :: f end).
  assert (Hdot : no_digit_head (dot ++ exs)).
  { subst dot. destruct fp; simpl; auto. }
  assert (Htail :
    (let (ip0, s2) := span_digits (ip ++ dot ++ exs) in
     let (fp0, s3) :=
       match s2 with
       | c :: r => if c =? c_DOT then span_digits r else ([], s2)
       | [] => ([], s2)
       end in
     match ip0 ++ fp0 with
     | [] => NaN
     | ds => normalize neg (map (fun c => c - 48) ds)
               (Z.of_nat (length ip0) + parse_exponent s3)
     end)
    = normalize neg (map (fun c => c - 48) (ip ++ fraction_digits fp))
        (Z.of_nat (length ip) + exponent_value ex)).
  { rewrite (span_digits_app ip (dot ++ exs) ip_digits Hdot).
    pose proof parse_exponent_literal as Hpe. fold exs in Hpe.
    subst dot. destruct fp as [f|]; cbn [fraction_digits].
    - cbn [app N.eqb Pos.eqb].
      rewrite (span_digits_app f exs fp_digits Hexs), Hpe.
      rewrite Eip. reflexivity.
    - cbn [app]. rewrite app_nil_r.
      assert (E : match exs with
                  | [] => ([], exs)
                  | c :: r => if c =? c_DOT then span_digits r else ([], exs)
                  end = (@nil char, exs)).
      { subst exs. destruct ex as [[? ?]|]; reflexivity. }
      rewrite E, Hpe, app_nil_r, Eip. reflexivity. }
  unfold parseFloat, literal_text. fold dot exs.
  destruct neg.
  - cbn [app trimStart is_ws N.eqb N.leb N.compare Pos.compare Pos.compare_cont
         Pos.eqb andb orb]. exact Htail.
  - cbn [app]. rewrite Eip. cbn [app].
    rewrite trimStart_head.
    + replace (d =? c_MINUS) with false by (symmetry; apply N.eqb_neq; lia).
      replace (d =? c_PLUS) with false by (symmetry; apply N.eqb_neq; lia).
      rewrite Eip in Htail. exact Htail.
    + unfold is_ws.
      repeat match goal with
      | |- context [N.leb ?a ?b] => destruct (N.leb_spec a b); try lia
      | |- context [N.eqb ?a ?b] => destruct (N.eqb_spec a b); try lia
      end; reflexivity.
Qed.

Lemma literal_text_numchars :
  Forall (fun c => is_numchar c = true) (literal_text neg ip fp ex).
Proof.
  assert (Hdig : forall s, all_digits s -> Forall (fun c => is_numchar c = true) s).
  { intros s Hs. apply Forall_forall. intros c Hc.
    unfold all_digits in Hs. rewrite forallb_forall in Hs.
    unfold is_numchar. rewrite (Hs c Hc). reflexivity. }
  unfold literal_text.
  apply Forall_app; split; [|apply Forall_app; split; [|apply Forall_app; split]].
  - destruct neg; repeat constructor.
  - apply Hdig, ip_digits.
  - destruct fp as [f|]; [constructor; [reflexivity|apply Hdig, fp_digits]|constructor].
  - destruct ex as [[eneg m]|]; [|constructor].
    constructor; [reflexivity|]. constructor; [destruct eneg; reflexivity|].
    apply Hdig, decimal_all_digits.
Qed.

(** The text starts with a digit, or with a minus sign and a digit. *)
Lemma literal_text_head :
  exists c rest,
    literal_text neg ip fp ex = c :: rest
    /\ (is_digit c = true
        \/ (c = c_MINUS /\ exists d rest', rest = d :: rest' /\ is_digit d = true)).
Proof.
  destruct ip_head as (d & ip' & Eip & Hd). unfold literal_text. rewrite Eip.
  destruct neg; cbn [app].
  - eexists _, _. split; [reflexivity|]. right. split; [reflexivity|].
    eexists _, _. split; [reflexivity|exact Hd].
  - eexists _, _. split; [reflexivity|]. left. exact Hd.
Qed.
End Literals.

Lemma digits_of_digits_str (ds : list N) :
  map (fun c => c - 48) (digits_str ds) = ds.
Proof.
  unfold digits_str, digit_char. rewrite map_map.
  rewrite <- (map_id ds) at 2. apply map_ext. intros d. lia.
Qed.

Lemma digits_of_zeros (j : nat) :
  map (fun c => c - 48) (repeat c_0 j) = repeat 0 j.
Proof. induction j; simpl; congruence. Qed.

Lemma strip_leading_zeros_repeat (i : nat) (ds : list N) (pt : Z) :
  strip_leading_zeros (repeat 0 i ++ ds) pt
  = strip_leading_zeros ds (pt - Z.of_nat i).
Proof.
  revert pt. induction i as [|i IH]; intros pt.
  - simpl. f_equal. lia.
  - cbn [repeat app strip_leading_zeros N.eqb]. rewrite IH. f_equal. lia.
Qed.

Lemma strip_leading_zeros_nonzero (ds : list N) (pt : Z) :
  hd 0 ds <> 0 -> strip_leading_zeros ds pt = (ds, pt).
Proof.
  destruct ds as [|d ds]; simpl; [congruence|]. intros H.
  apply N.eqb_neq in H. rewrite H. reflexivity.
Qed.

Lemma drop_zeros_repeat (j : nat) (ds : list N) :
  drop_zeros (repeat 0 j ++ ds) = drop_zeros ds.
Proof. induction j; simpl; auto. Qed.

Lemma drop_zeros_nonzero (ds : list N) : hd 0 ds <> 0 -> drop_zeros ds = ds.
Proof.
  destruct ds as [|d ds]; simpl; [congruence|]. intros H.
  apply N.eqb_neq in H. rewrite H. reflexivity.
Qed.

Lemma hd_rev_last {A : Type} (l : list A) (d : A) : hd d (rev l) = last l d.
Proof.
  induction l as [|a l IH]; [reflexivity|].
  simpl rev. destruct l as [|b l]; [reflexivity|].
  change (last (a :: b :: l) d) with (last (b :: l) d). rewrite <- IH.
  simpl rev. destruct (rev l); reflexivity.
Qed.

Lemma repeat_rev {A : Type} (x : A) (n : nat) : rev (repeat x n) = repeat x n.
Proof.
  induction n as [|n IH]; [reflexivity|].
  simpl. rewrite IH. symmetry. apply repeat_cons.
Qed.

Lemma normalize_padded (neg : bool) (i j : nat) (ds : list N) (pt : Z) :
  canonical_digits ds ->
  normalize neg (repeat 0 i ++ ds ++ repeat 0 j) pt
  = Finite neg ds (pt - Z.of_nat i).
Proof.
  intros (Hne & _ & Hhd & Hlast). unfold normalize.
  rewrite strip_leading_zeros_repeat.
  rewrite strip_leading_zeros_nonzero by (destruct ds; [congruence|exact Hhd]).
  rewrite rev_app_distr, repeat_rev, drop_zeros_repeat.
  rewrite drop_zeros_nonzero by (rewrite hd_rev_last; exact Hlast).
  rewrite rev_involutive. destruct ds; [congruence|reflexivity].
Qed.

Lemma normalize_canonical (neg : bool) (ds : list N) (pt : Z) :
  canonical_digits ds -> normalize neg ds pt = Finite neg ds pt.
Proof.
  intros H. pose proof (normalize_padded neg 0 0 ds pt H) as E.
  simpl in E. rewrite app_nil_r, Z.sub_0_r in E. exact E.
Qed.

Lemma normalize_trailing (neg : bool) (j : nat) (ds : list N) (pt : Z) :
  canonical_digits ds -> normalize neg (ds ++ repeat 0 j) pt = Finite neg ds pt.
Proof.
  intros H. pose proof (normalize_padded neg 0 j ds pt H) as E.
  simpl in E. rewrite Z.sub_0_r in E. exact E.
Qed.

Lemma normalize_leading (neg : bool) (i : nat) (ds : list N) (pt : Z) :
  canonical_digits ds ->
  normalize neg (repeat 0 i ++ ds) pt = Finite neg ds (pt - Z.of_nat i).
Proof.
  intros H. pose proof (normalize_padded neg i 0 ds pt H) as E.
  simpl in E. rewrite app_nil_r in E. exact E.
Qed.

Lemma exponent_value_signed (e : Z) :
  exponent_value (Some ((e <? 0)%Z, Z.abs_N e)) = e.
Proof.
  unfold exponent_value. rewrite N2Z.inj_abs_N.
  destruct (Z.ltb_spec e 0); lia.
Qed.

(** The text of a finite number is a decimal literal whose reading is the
    number. *)
Lemma number_toString_literal (neg : bool) (ds : list N) (n : Z) :
  canonical_digits ds ->
  exists ip fp ex,
    number_toString (Finite neg ds n) = literal_text neg ip fp ex
    /\ all_digits ip /\ ip <> [] /\ all_digits (fraction_digits fp)
    /\ normalize neg (map (fun c => c - 48) (ip ++ fraction_digits fp))
         (Z.of_nat (length ip) + exponent_value ex)
       = Finite neg ds n.
Proof.
  intros Hcan. pose proof Hcan as (Hne & Hall & Hhd & Hlast).
  pose proof (digits_str_all_digits ds Hall) as Hds.
  assert (Hlen : length (digits_str ds) = length ds)
    by (unfold digits_str; apply length_map).
  unfold number_toString.
  destruct ((Z.of_nat (length ds) <=? n) && (n <=? 21))%Z eqn:EA.
  { apply andb_true_iff in EA. destruct EA as [EA _]. apply Z.leb_le in EA.
    exists (digits_str ds ++ repeat c_0 (Z.to_nat (n - Z.of_nat (length ds)))),
      None, None.
    unfold literal_text. rewrite !app_nil_r. split; [reflexivity|].
    split; [apply all_digits_app; [exact Hds|apply all_digits_repeat_zero]|].
    split; [destruct ds; [congruence|discriminate]|].
    split; [reflexivity|].
    cbn [fraction_digits]. rewrite map_app.
    rewrite digits_of_digits_str, digits_of_zeros.
    rewrite (normalize_trailing neg _ ds _ Hcan).
    f_equal. rewrite length_app, Hlen, repeat_length. simpl. lia. }
  destruct ((0 <? n) && (n <=? 21))%Z eqn:EB.
  { apply andb_true_iff in EB. destruct EB as [EB1 EB2].
    rewrite EB2, andb_true_r in EA. apply Z.leb_gt in EA.
    apply Z.ltb_lt in EB1. apply Z.leb_le in EB2.
    exists (digits_str (firstn (Z.to_nat n) ds)),
      (Some (digits_str (skipn (Z.to_nat n) ds))), None.
    unfold literal_text. rewrite !app_nil_r. split; [reflexivity|].
    assert (Hboth : Forall (fun d => d < 10) (firstn (Z.to_nat n) ds)
                    /\ Forall (fun d => d < 10) (skipn (Z.to_nat n) ds)).
    { apply Forall_app. rewrite firstn_skipn. exact Hall. }
    destruct Hboth as [Hfirst Hskip].
    split; [apply digits_str_all_digits, Hfirst|].
    split.
    { destruct ds as [|d ds']; [congruence|].
      destruct (Z.to_nat n) eqn:En; [lia|discriminate]. }
    split; [apply digits_str_all_digits, Hskip|].
    cbn [fraction_digits]. unfold digits_str at 1 2.
    rewrite <- map_app, firstn_skipn. fold (digits_str ds).
    rewrite digits_of_digits_str, (normalize_canonical neg ds _ Hcan).
    f_equal. unfold digits_str. rewrite length_map, length_firstn. simpl. lia. }
  destruct ((-6 <? n) && (n <=? 0))%Z eqn:EC.
  { apply andb_true_iff in EC. destruct EC as [EC1 EC2].
    apply Z.ltb_lt in EC1. apply Z.leb_le in EC2.
    exists [c_0], (Some (repeat c_0 (Z.to_nat (- n)) ++ digits_str ds)), None.
    unfold literal_text. rewrite !app_nil_r. split; [reflexivity|].
    split; [reflexivity|]. split; [discriminate|].
    split; [apply all_digits_app; [apply all_digits_repeat_zero|exact Hds]|].
    cbn [fraction_digits]. cbn [app map]. rewrite map_app.
    rewrite digits_of_digits_str, digits_of_zeros.
    change (48 - 48 :: repeat 0 (Z.to_nat (- n)) ++ ds)
      with (repeat 0 (S (Z.to_nat (- n))) ++ ds).
    rewrite (normalize_leading neg _ ds _ Hcan).
    f_equal. simpl length. simpl exponent_value. lia. }
  pose proof (exponent_value_signed (n - 1)) as He.
  destruct ds as [|d [|d' rest]]; [congruence| |].
  - exists [digit_char d], None, (Some ((n - 1 <? 0)%Z, Z.abs_N (n - 1))).
    split; [reflexivity|].
    split; [exact Hds|]. split; [discriminate|]. split; [reflexivity|].
    rewrite He. cbn [fraction_digits]. rewrite app_nil_r.
    change [digit_char d] with (digits_str [d]).
    rewrite digits_of_digits_str, (normalize_canonical neg [d] _ Hcan).
    f_equal. simpl length. lia.
  - exists [digit_char d], (Some (digits_str (d' :: rest))),
      (Some ((n - 1 <? 0)%Z, Z.abs_N (n - 1))).
    split; [reflexivity|].
    inversion Hall as [|? ? Hd Hrest]; subst.
    split; [unfold all_digits; simpl; rewrite digit_char_is_digit; auto|].
    split; [discriminate|].
    split; [apply digits_str_all_digits, Hrest|].
    rewrite He. cbn [fraction_digits].
    change ([digit_char d] ++ digits_str (d' :: rest))
      with (digits_str (d :: d' :: rest)).
    rewrite digits_of_digits_str, (normalize_canonical neg _ _ Hcan).
    f_equal. simpl length. lia.
Qed.

(* ================================================================== *)
(** * Facts about the scanners *)
(* ================================================================== *)

Lemma prev_after_nil (prevChar : option char) : prev_after [] prevChar = prevChar.
Proof. reflexivity. Qed.

Lemma last_default {A : Type} (l : list A) (d d' : A) :
  l <> [] -> last l d = last l d'.
Proof.
  induction l as [|a l IH]; [congruence|]. intros _.
  destruct l as [|b l]; [reflexivity|].
  change (last (b :: l) d = last (b :: l) d'). apply IH. discriminate.
Qed.

Lemma prev_after_cons (c : char) (s : jstring) (prevChar : option char) :
  prev_after (c :: s) prevChar = prev_after s (Some c).
Proof.
  unfold prev_after. destruct s as [|d s]; [reflexivity|].
  change (last (map Some (d :: s)) prevChar = last (map Some (d :: s)) (Some c)).
  apply last_default. discriminate.
Qed.

Lemma prev_after_app (a b : jstring) (prevChar : option char) :
  prev_after (a ++ b) prevChar = prev_after b (prev_after a prevChar).
Proof.
  revert prevChar. induction a as [|c a IH]; intros prevChar; [reflexivity|].
  cbn [app]. rewrite !prev_after_cons. apply IH.
Qed.

Lemma prev_after_nonempty (s : jstring) (p q : option char) :
  s <> [] -> prev_after s p = prev_after s q.
Proof.
  destruct s as [|c s]; [congruence|]. intros _. rewrite !prev_after_cons.
  reflexivity.
Qed.

Lemma scan_run_app (a b : jstring) :
  forall prevChar st,
    scan_run (a ++ b) prevChar st
    = scan_run b (prev_after a prevChar) (scan_run a prevChar st).
Proof.
  induction a as [|c a IH]; intros prevChar st; [reflexivity|].
  cbn [app scan_run]. rewrite IH, prev_after_cons. reflexivity.
Qed.

Lemma scan_quiet_app (sep : char) (a b : jstring) :
  forall prevChar st,
    scan_quiet sep (a ++ b) prevChar st
    = scan_quiet sep a prevChar st
      && scan_quiet sep b (prev_after a prevChar) (scan_run a prevChar st).
Proof.
  induction a as [|c a IH]; intros prevChar st; [reflexivity|].
  cbn [app scan_quiet scan_run]. rewrite IH, prev_after_cons.
  rewrite andb_assoc. reflexivity.
Qed.

Lemma scan_step_hit (sep c : char) (st : scan) (prevChar : option char) :
  negb (inString (scan_step st c prevChar)) && (c =? sep)
    && (depth (scan_step st c prevChar) =? 0)%Z
  = negb (inString (track_quote st c prevChar))
    && ((c =? sep)
        && (depth (track_depth (track_quote st c prevChar) c) =? 0)%Z).
Proof.
  unfold scan_step.
  destruct (negb (inString (track_quote st c prevChar))) eqn:E.
  - cbn [track_depth inString]. rewrite E. rewrite <- andb_assoc. reflexivity.
  - rewrite E. reflexivity.
Qed.

(** The three loops pass over a quiet text without splitting. *)
Lemma splitByPipe_loop_quiet (s rest : jstring) :
  forall prevChar st current parts,
    scan_quiet c_PIPE s prevChar st = true ->
    splitByPipe_loop (s ++ rest) prevChar st current parts
    = splitByPipe_loop rest (prev_after s prevChar) (scan_run s prevChar st)
        (current ++ s) parts.
Proof.
  induction s as [|c s IH]; intros prevChar st current parts Hq.
  - simpl. rewrite app_nil_r. reflexivity.
  - cbn [app splitByPipe_loop scan_run]. rewrite prev_after_cons.
    cbn [scan_quiet] in Hq. apply andb_true_iff in Hq. destruct Hq as [Hc Hq].
    rewrite scan_step_hit in Hc. unfold scan_step in *.
    replace (current ++ c :: s) with ((current ++ [c]) ++ s)
      by (rewrite <- app_assoc; reflexivity).
    destruct (negb (inString (track_quote st c prevChar))) eqn:E.
    + cbn [andb] in Hc. destruct ((c =? c_PIPE) && _); [discriminate Hc|].
      apply IH. exact Hq.
    + apply IH. exact Hq.
Qed.

Lemma splitArrayItems_loop_quiet (s rest : jstring) :
  forall prevChar st current parts,
    scan_quiet c_COMMA s prevChar st = true ->
    splitArrayItems_loop (s ++ rest) prevChar st current parts
    = splitArrayItems_loop rest (prev_after s prevChar) (scan_run s prevChar st)
        (current ++ s) parts.
Proof.
  induction s as [|c s IH]; intros prevChar st current parts Hq.
  - simpl. rewrite app_nil_r. reflexivity.
  - cbn [app splitArrayItems_loop scan_run]. rewrite prev_after_cons.
    cbn [scan_quiet] in Hq. apply andb_true_iff in Hq. destruct Hq as [Hc Hq].
    rewrite scan_step_hit in Hc. unfold scan_step in *.
    replace (current ++ c :: s) with ((current ++ [c]) ++ s)
      by (rewrite <- app_assoc; reflexivity).
    destruct (negb (inString (track_quote st c prevChar))) eqn:E.
    + cbn [andb] in Hc. destruct ((c =? c_COMMA) && _); [discriminate Hc|].
      apply IH. exact Hq.
    + apply IH. exact Hq.
Qed.

Lemma findTopLevelColon_loop_quiet (s rest : jstring) :
  forall i prevChar st,
    scan_quiet c_COLON s prevChar st = true ->
    findTopLevelColon_loop (s ++ rest) i prevChar st
    = findTopLevelColon_loop rest (i + length s) (prev_after s prevChar)
        (scan_run s prevChar st).
Proof.
  induction s as [|c s IH]; intros i prevChar st Hq.
  - simpl. rewrite Nat.add_0_r. reflexivity.
  - cbn [app findTopLevelColon_loop scan_run length]. rewrite prev_after_cons.
    cbn [scan_quiet] in Hq. apply andb_true_iff in Hq. destruct Hq as [Hc Hq].
    rewrite scan_step_hit in Hc. unfold scan_step in *.
    replace (i + S (length s))%nat with (S i + length s)%nat by lia.
    destruct (negb (inString (track_quote st c prevChar))) eqn:E.
    + cbn [andb] in Hc. destruct ((c =? c_COLON) && _); [discriminate Hc|].
      apply IH. exact Hq.
    + apply IH. exact Hq.
Qed.

(** ** Sealed texts *)

Lemma track_depth_eta (st : scan) (c : char) :
  (c =? c_LBRACE) || (c =? c_LBRACKET) = false ->
  (c =? c_RBRACE) || (c =? c_RBRACKET) = false ->
  track_depth st c = st.
Proof.
  intros H1 H2. unfold track_depth. rewrite H1, H2. destruct st; reflexivity.
Qed.

Lemma scan_step_inert (sep c : char) (st : scan) (prevChar : option char) :
  inert_for sep c = true -> scan_step st c prevChar = st.
Proof.
  unfold inert_for. intros H. apply negb_true_iff in H.
  repeat match goal with
  | H : _ || _ = false |- _ => apply orb_false_iff in H; destruct H
  end.
  unfold scan_step, track_quote, track_depth.
  repeat match goal with
  | H : (_ =? _) = false |- _ => rewrite ?H; clear H
  end.
  cbn [orb andb]. destruct (negb (inString st)); destruct st; reflexivity.
Qed.

Lemma inert_not_sep (sep c : char) : inert_for sep c = true -> (c =? sep) = false.
Proof.
  unfold inert_for. intros H. apply negb_true_iff in H.
  apply orb_false_iff in H. tauto.
Qed.

Lemma scan_run_inert (sep : char) (s : jstring) :
  forallb (inert_for sep) s = true ->
  forall prevChar st, scan_run s prevChar st = st.
Proof.
  induction s as [|c s IH]; intros H prevChar st; [reflexivity|].
  simpl in H. apply andb_true_iff in H. destruct H as [Hc Hs].
  cbn [scan_run]. rewrite (scan_step_inert sep c st prevChar Hc). apply IH, Hs.
Qed.

Lemma scan_quiet_inert (sep : char) (s : jstring) :
  forallb (inert_for sep) s = true ->
  forall prevChar st, scan_quiet sep s prevChar st = true.
Proof.
  induction s as [|c s IH]; intros H prevChar st; [reflexivity|].
  simpl in H. apply andb_true_iff in H. destruct H as [Hc Hs].
  cbn [scan_quiet]. rewrite (scan_step_inert sep c st prevChar Hc).
  rewrite (inert_not_sep sep c Hc), andb_false_r. cbn [negb andb].
  apply IH, Hs.
Qed.

Lemma sealed_at_inert (m : Z) (sep : char) (s : jstring) :
  forallb (inert_for sep) s = true -> sealed_at m sep s.
Proof.
  intros H prevChar st _ Hst _.
  rewrite (scan_quiet_inert sep s H), (scan_run_inert sep s H). auto.
Qed.

Lemma sealed_at_nil (m : Z) (sep : char) : sealed_at m sep [].
Proof. intros prevChar st _ Hst _. simpl. auto. Qed.

Lemma sealed_at_mono (m m' : Z) (sep : char) (t : jstring) :
  (m <= m')%Z -> sealed_at m sep t -> sealed_at m' sep t.
Proof. intros Hm H prevChar st Hp Hi Hd. apply H; auto. lia. Qed.

(** A sealed text followed by inert characters and another sealed text. *)
Lemma sealed_at_app_inert (m : Z) (sep : char) (a mid b : jstring) :
  sealed_at m sep a -> forallb (inert_for sep) mid = true -> mid <> [] ->
  is_backslash (prev_after mid None) = false ->
  sealed_at m sep b -> sealed_at m sep (a ++ mid ++ b).
Proof.
  intros Ha Hmid Hne Hbs Hb prevChar st Hprev Hst Hdepth.
  destruct (Ha prevChar st Hprev Hst Hdepth) as (Hqa & Hia & Hda).
  rewrite !scan_quiet_app, !scan_run_app.
  rewrite (scan_run_inert sep mid Hmid), (scan_quiet_inert sep mid Hmid).
  assert (Hp : is_backslash (prev_after mid (prev_after a prevChar)) = false)
    by (rewrite (prev_after_nonempty mid _ None Hne); exact Hbs).
  destruct (Hb _ _ Hp Hia) as (Hqb & Hib & Hdb); [lia|].
  rewrite Hqa, Hqb, Hib, Hdb, Hda. auto.
Qed.

Lemma sealed_at_join (m : Z) (sep sep' : char) (items : list jstring) :
  inert_for sep sep' = true -> sep' <> c_BACKSLASH ->
  Forall (sealed_at m sep) items -> sealed_at m sep (join [sep'] items).
Proof.
  intros Hin Hbs Hall. induction Hall as [|item items Hitem Hrest IH].
  - apply sealed_at_nil.
  - destruct items as [|item' items]; [exact Hitem|].
    change (join [sep'] (item :: item' :: items))
      with (item ++ [sep'] ++ join [sep'] (item' :: items)).
    apply sealed_at_app_inert; auto.
    + simpl. rewrite Hin. reflexivity.
    + discriminate.
    + simpl. apply N.eqb_neq. exact Hbs.
Qed.

(** Below the top level the separator itself is passed over. *)
Lemma scan_sep_nested (sep : char) (st : scan) (prevChar : option char) :
  inert_for c_BACKSLASH sep = true ->
  inString st = false -> (1 <= depth st)%Z ->
  scan_step st sep prevChar = st
  /\ scan_quiet sep [sep] prevChar st = true.
Proof.
  intros Hsep Hi Hd.
  assert (Hstep : scan_step st sep prevChar = st)
    by (apply (scan_step_inert c_BACKSLASH); exact Hsep).
  split; [exact Hstep|].
  cbn [scan_quiet]. rewrite Hstep, Hi.
  replace (depth st =? 0)%Z with false by (symmetry; apply Z.eqb_neq; lia).
  rewrite andb_false_r. reflexivity.
Qed.

(** Texts sealed below the top level, joined by the separator itself. *)
Lemma sealed_at_join_sep (m : Z) (sep : char) (items : list jstring) :
  (1 <= m)%Z -> inert_for c_BACKSLASH sep = true ->
  Forall (sealed_at m sep) items -> sealed_at m sep (join [sep] items).
Proof.
  intros Hm Hsep Hall. induction Hall as [|item items Hitem Hrest IH].
  - apply sealed_at_nil.
  - destruct items as [|item' items]; [exact Hitem|].
    change (join [sep] (item :: item' :: items))
      with (item ++ [sep] ++ join [sep] (item' :: items)).
    intros prevChar st Hprev Hst Hdepth.
    destruct (Hitem prevChar st Hprev Hst Hdepth) as (Hqa & Hia & Hda).
    rewrite !scan_quiet_app, !scan_run_app.
    set (st1 := scan_run item prevChar st) in *.
    destruct (scan_sep_nested sep st1 (prev_after item prevChar) Hsep Hia)
      as [Hstep Hq]; [lia|].
    assert (Hrun : scan_run [sep] (prev_after item prevChar) st1 = st1)
      by (cbn [scan_run]; exact Hstep).
    rewrite Hrun, Hq.
    assert (Hp : is_backslash (prev_after [sep] (prev_after item prevChar))
                 = false).
    { unfold prev_after. simpl. unfold inert_for in Hsep.
      apply negb_true_iff in Hsep. apply orb_false_iff in Hsep. tauto. }
    destruct (IH _ _ Hp Hia) as (Hqb & Hib & Hdb); [lia|].
    rewrite Hqa, Hqb, Hib, Hdb, Hda. auto.
Qed.

(** A text sealed one level down, between an opening and a closing brace
    or bracket. *)
Lemma sealed_at_wrap (m : Z) (sep o c : char) (body : jstring) :
  o = c_LBRACE \/ o = c_LBRACKET -> c = c_RBRACE \/ c = c_RBRACKET ->
  sep <> o -> sep <> c ->
  sealed_at (m + 1) sep body -> sealed_at m sep ([o] ++ body ++ [c]).
Proof.
  intros Ho Hc H1 H2 Hbody prevChar st Hprev Hst Hdepth.
  apply N.eqb_neq in H1, H2. rewrite N.eqb_sym in H1, H2.
  destruct st as [d i q]. simpl in Hst, Hdepth. subst i.
  set (st1 := mkScan (d + 1) false q).
  assert (E1 : scan_step (mkScan d false q) o prevChar = st1)
    by (destruct Ho; subst o; reflexivity).
  destruct (Hbody (Some o) st1) as (Hq & Hi & Hd);
    [destruct Ho; subst o; reflexivity|reflexivity|simpl; lia|].
  remember (scan_run body (Some o) st1) as st2 eqn:E.
  assert (E2 : forall p, scan_step st2 c p = mkScan d false (stringChar st2)).
  { intros p. destruct st2 as [d2 i2 q2]. simpl in Hi, Hd. subst i2 d2.
    destruct Hc; subst c; unfold scan_step, track_quote, track_depth; simpl;
      f_equal; lia. }
  cbn [app scan_quiet scan_run]. rewrite E1.
  rewrite scan_quiet_app, scan_run_app. rewrite <- E, Hq.
  cbn [scan_quiet scan_run]. rewrite E2. cbn [inString depth negb andb].
  rewrite H1, H2. auto.
Qed.

Lemma sealed_braces (sep : char) (body : jstring) :
  sep <> c_LBRACE -> sep <> c_RBRACE ->
  sealed sep body -> sealed sep ([c_LBRACE] ++ body ++ [c_RBRACE]).
Proof.
  intros H1 H2 Hbody. apply sealed_at_wrap; auto.
  apply (sealed_at_mono 0); [lia|exact Hbody].
Qed.

(* ================================================================== *)
(** * The scanners of the code and the splitter of the specification *)
(* ================================================================== *)

(** ** One character *)

Lemma tracks_step (st : scan) (quote : option char) (nesting : Z)
    (prevChar : option char) (escaped : bool) (c : char) :
  tracks st quote nesting ->
  (Spec.is_quote c = true -> is_backslash prevChar = escaped) ->
  let st1 := track_quote st c prevChar in
  let quote' := Spec.lex_quote quote escaped c in
  let nesting' := Spec.lex_nesting quote' nesting c in
  (inString st1 = false ->
   quote' = None /\ tracks (track_depth st1 c) quote' nesting')
  /\ (inString st1 = true ->
      quote' <> None /\ tracks st1 quote' nesting').
Proof.
  intros [Hd Hq] Hagree. destruct st as [d i sc]. cbn [depth inString
    stringChar] in *. subst d.
  unfold track_quote, Spec.lex_quote, Spec.is_quote, is_stringChar in *.
  cbn [depth inString stringChar] in *.
  destruct ((c =? c_DQUOTE) || (c =? c_SQUOTE)) eqn:Equote.
  - rewrite (Hagree eq_refl). destruct escaped; cbn [negb andb].
    + destruct quote as [q|]; [destruct Hq as [-> ->]|rewrite Hq];
        cbn [inString]; split; intros Hin; try discriminate.
      * split; [discriminate|]. split; [reflexivity|]. split; reflexivity.
      * split; [reflexivity|]. unfold track_depth, tracks, Spec.lex_nesting.
        cbn [depth inString stringChar].
        destruct (N.eqb_spec c c_DQUOTE), (N.eqb_spec c c_SQUOTE); subst;
          try discriminate; split; reflexivity.
    + destruct quote as [q|]; [destruct Hq as [-> ->]|rewrite Hq];
        cbn [negb inString].
      * destruct (c =? q) eqn:Ecq; cbn [inString]; split; intros Hin;
          try discriminate.
        -- split; [reflexivity|]. unfold track_depth, tracks, Spec.lex_nesting.
           cbn [depth inString stringChar].
           destruct (N.eqb_spec c c_DQUOTE), (N.eqb_spec c c_SQUOTE); subst;
             try discriminate; split; reflexivity.
        -- split; [discriminate|]. split; [reflexivity|]. split; reflexivity.
      * split; intros Hin; try discriminate.
        split; [discriminate|]. split; [reflexivity|]. split; reflexivity.
  - cbn [andb]. destruct quote as [q|]; [destruct Hq as [-> ->]|rewrite Hq];
      cbn [inString]; split; intros Hin; try discriminate.
    + split; [discriminate|]. split; [reflexivity|]. split; reflexivity.
    + split; [reflexivity|]. unfold track_depth, tracks, Spec.lex_nesting.
      cbn [depth inString stringChar]. split; [|reflexivity].
      destruct (N.eqb_spec c c_LBRACE), (N.eqb_spec c c_LBRACKET),
        (N.eqb_spec c c_RBRACE), (N.eqb_spec c c_RBRACKET); subst;
        try discriminate; cbn [orb]; lia.
Qed.

Lemma tracks_top_level (st : scan) (nesting : Z) :
  tracks st None nesting -> Spec.top_level None nesting = (depth st =? 0)%Z.
Proof. intros [<- _]. reflexivity. Qed.

Lemma tracks_init : tracks scan_init None 0.
Proof. split; reflexivity. Qed.

Lemma quote_rules_agree_head (after_backslash escaped : bool) (c : char)
    (rest : jstring) :
  Spec.quote_rules_agree after_backslash escaped (c :: rest) = true ->
  (Spec.is_quote c = true -> after_backslash = escaped)
  /\ Spec.quote_rules_agree (is_backslash (Some c))
       (Spec.lex_escaped escaped c) rest = true.
Proof.
  cbn [Spec.quote_rules_agree is_backslash]. intros H.
  apply andb_prop in H. destruct H as [H1 H2]. split; [|exact H2].
  intros Hq. rewrite Hq in H1. apply Bool.eqb_prop, H1.
Qed.

(** ** The three scanners *)

Lemma splitByPipe_loop_spec (input : jstring) :
  forall prevChar st quote nesting escaped current parts,
    tracks st quote nesting ->
    Spec.quote_rules_agree (is_backslash prevChar) escaped input = true ->
    splitByPipe_loop input prevChar st current parts
    = parts ++ Spec.without_final_empty
                 (prepend current
                    (Spec.segments c_PIPE input quote nesting escaped)).
Proof.
  induction input as [|c rest IH];
    intros prevChar st quote nesting escaped current parts Ht Hagree.
  - cbn [splitByPipe_loop Spec.segments prepend fst snd
         Spec.without_final_empty]. rewrite app_nil_r.
    destruct (is_empty current); [rewrite app_nil_r|]; reflexivity.
  - apply quote_rules_agree_head in Hagree. destruct Hagree as [Hq Hrest].
    destruct (tracks_step st quote nesting prevChar escaped c Ht Hq)
      as [Hout Hin].
    cbn [splitByPipe_loop Spec.segments]. cbn zeta.
    destruct (inString (track_quote st c prevChar)) eqn:Ein; cbn [negb].
    + destruct (Hin eq_refl) as [Hsome Ht']. clear Hin Hout.
      rewrite (IH _ _ _ _ _ (current ++ [c]) parts Ht' Hrest).
      destruct (Spec.lex_quote quote escaped c) as [q|]; [|congruence].
      cbn [Spec.top_level]. rewrite andb_false_r.
      destruct (Spec.segments _ rest _ _ _) as [segment others].
      unfold prepend. cbn [fst snd]. rewrite <- app_assoc. reflexivity.
    + destruct (Hout eq_refl) as [Hnone Ht']. clear Hin Hout.
      rewrite Hnone in *. rewrite (tracks_top_level _ _ Ht').
      destruct ((c =? c_PIPE) && (depth _ =? 0)%Z).
      * rewrite (IH _ _ _ _ _ [] (parts ++ [current]) Ht' Hrest).
        destruct (Spec.segments _ rest _ _ _) as [segment others].
        unfold prepend. cbn [fst snd app Spec.without_final_empty].
        rewrite app_nil_r, <- app_assoc. reflexivity.
      * rewrite (IH _ _ _ _ _ (current ++ [c]) parts Ht' Hrest).
        destruct (Spec.segments _ rest _ _ _) as [segment others].
        unfold prepend. cbn [fst snd]. rewrite <- app_assoc. reflexivity.
Qed.

Lemma splitArrayItems_loop_spec (input : jstring) :
  forall prevChar st quote nesting escaped current parts,
    tracks st quote nesting ->
    Spec.quote_rules_agree (is_backslash prevChar) escaped input = true ->
    splitArrayItems_loop input prevChar st current parts
    = parts ++ filter (fun segment => negb (is_empty (trim segment)))
                 (prepend current
                    (Spec.segments c_COMMA input quote nesting escaped)).
Proof.
  induction input as [|c rest IH];
    intros prevChar st quote nesting escaped current parts Ht Hagree.
  - cbn [splitArrayItems_loop Spec.segments prepend fst snd filter].
    rewrite app_nil_r.
    destruct (is_empty (trim current)); cbn [negb];
      [rewrite app_nil_r|]; reflexivity.
  - apply quote_rules_agree_head in Hagree. destruct Hagree as [Hq Hrest].
    destruct (tracks_step st quote nesting prevChar escaped c Ht Hq)
      as [Hout Hin].
    cbn [splitArrayItems_loop Spec.segments]. cbn zeta.
    destruct (inString (track_quote st c prevChar)) eqn:Ein; cbn [negb].
    + destruct (Hin eq_refl) as [Hsome Ht']. clear Hin Hout.
      rewrite (IH _ _ _ _ _ (current ++ [c]) parts Ht' Hrest).
      destruct (Spec.lex_quote quote escaped c) as [q|]; [|congruence].
      cbn [Spec.top_level]. rewrite andb_false_r.
      destruct (Spec.segments _ rest _ _ _) as [segment others].
      unfold prepend. cbn [fst snd]. rewrite <- app_assoc. reflexivity.
    + destruct (Hout eq_refl) as [Hnone Ht']. clear Hin Hout.
      rewrite Hnone in *. rewrite (tracks_top_level _ _ Ht').
      destruct ((c =? c_COMMA) && (depth _ =? 0)%Z).
      * rewrite (IH _ _ _ _ _ [] _ Ht' Hrest).
        destruct (Spec.segments _ rest _ _ _) as [segment others].
        unfold prepend. cbn [fst snd app filter].
        rewrite app_nil_r.
        destruct (is_empty (trim current)); cbn [negb];
          [reflexivity|rewrite <- app_assoc; reflexivity].
      * rewrite (IH _ _ _ _ _ (current ++ [c]) parts Ht' Hrest).
        destruct (Spec.segments _ rest _ _ _) as [segment others].
        unfold prepend. cbn [fst snd]. rewrite <- app_assoc. reflexivity.
Qed.

Lemma findTopLevelColon_loop_spec (input : jstring) :
  forall i prevChar st quote nesting escaped,
    tracks st quote nesting ->
    Spec.quote_rules_agree (is_backslash prevChar) escaped input = true ->
    findTopLevelColon_loop input i prevChar st
    = option_map (fun k => (i + k)%nat)
        (Spec.colon_from input quote nesting escaped).
Proof.
  induction input as [|c rest IH];
    intros i prevChar st quote nesting escaped Ht Hagree; [reflexivity|].
  apply quote_rules_agree_head in Hagree. destruct Hagree as [Hq Hrest].
  destruct (tracks_step st quote nesting prevChar escaped c Ht Hq)
    as [Hout Hin].
  cbn [findTopLevelColon_loop Spec.colon_from]. cbn zeta.
  destruct (inString (track_quote st c prevChar)) eqn:Ein; cbn [negb].
  - destruct (Hin eq_refl) as [Hsome Ht']. clear Hin Hout.
    rewrite (IH _ _ _ _ _ _ Ht' Hrest).
    destruct (Spec.lex_quote quote escaped c) as [q|]; [|congruence].
    cbn [Spec.top_level]. rewrite andb_false_r.
    destruct (Spec.colon_from rest _ _ _); cbn [option_map];
      [f_equal; lia|reflexivity].
  - destruct (Hout eq_refl) as [Hnone Ht']. clear Hin Hout.
    rewrite Hnone in *. rewrite (tracks_top_level _ _ Ht').
    destruct ((c =? c_COLON) && (depth _ =? 0)%Z).
    + cbn [option_map]. f_equal. lia.
    + rewrite (IH _ _ _ _ _ _ Ht' Hrest).
      destruct (Spec.colon_from rest _ _ _); cbn [option_map];
        [f_equal; lia|reflexivity].
Qed.

(** On a text in which no quote follows an escaped backslash the
    scanners of the code split as the specification says. *)
Lemma splitByPipe_spec (text : jstring) :
  Spec.no_quote_after_escaped_backslash text ->
  splitByPipe text = Spec.pipe_split text.
Proof.
  intros H. unfold splitByPipe, Spec.pipe_split, Spec.splitTopLevel.
  rewrite (splitByPipe_loop_spec text None scan_init None 0 false [] []
             tracks_init H).
  unfold prepend. destruct (Spec.segments _ _ _ _ _). reflexivity.
Qed.

Lemma splitArrayItems_spec (text : jstring) :
  Spec.no_quote_after_escaped_backslash text ->
  splitArrayItems text = Spec.comma_split text.
Proof.
  intros H. unfold splitArrayItems, Spec.comma_split, Spec.splitTopLevel.
  rewrite (splitArrayItems_loop_spec text None scan_init None 0 false [] []
             tracks_init H).
  unfold prepend. destruct (Spec.segments _ _ _ _ _). reflexivity.
Qed.

Lemma findTopLevelColon_spec (text : jstring) :
  Spec.no_quote_after_escaped_backslash text ->
  findTopLevelColon text = Spec.findTopLevelColon text.
Proof.
  intros H. unfold findTopLevelColon, Spec.findTopLevelColon.
  rewrite (findTopLevelColon_loop_spec text 0 None scan_init None 0 false
             tracks_init H).
  destruct (Spec.colon_from _ _ _ _); reflexivity.
Qed.

(** ** The parts of such a text *)

Lemma quote_rules_agree_prefix (a b : jstring) :
  forall after_backslash escaped,
    Spec.quote_rules_agree after_backslash escaped (a ++ b) = true ->
    Spec.quote_rules_agree after_backslash escaped a = true.
Proof.
  induction a as [|c a IH]; intros after_backslash escaped H; [reflexivity|].
  cbn [app Spec.quote_rules_agree] in *. apply andb_prop in H.
  destruct H as [H1 H2]. rewrite H1. apply (IH _ _ H2).
Qed.

Lemma quote_rules_agree_suffix (a b : jstring) :
  forall after_backslash escaped,
    is_backslash (prev_after a None) = false ->
    Spec.quote_rules_agree after_backslash escaped (a ++ b) = true ->
    (a = [] -> after_backslash = false /\ escaped = false) ->
    Spec.quote_rules_agree false false b = true.
Proof.
  induction a as [|c a IH]; intros after_backslash escaped Hlast H Hnil.
  - destruct (Hnil eq_refl) as [-> ->]. exact H.
  - cbn [app Spec.quote_rules_agree] in H. apply andb_prop in H.
    destruct H as [_ H]. apply (IH _ _) in H; [exact H| |].
    + destruct a as [|d a]; [reflexivity|].
      unfold prev_after in *. cbn [map last] in Hlast |- *. exact Hlast.
    + intros ->. unfold prev_after in Hlast. cbn [map last is_backslash] in Hlast.
      unfold Spec.lex_escaped. rewrite Hlast. split; reflexivity.
Qed.

Lemma clean_part_agree (u v : jstring) :
  clean_part u v ->
  Spec.no_quote_after_escaped_backslash v ->
  Spec.no_quote_after_escaped_backslash u.
Proof.
  intros (a & b & -> & Hlast) H. unfold Spec.no_quote_after_escaped_backslash in *.
  apply (quote_rules_agree_suffix a (u ++ b) false false Hlast) in H;
    [|auto]. apply (quote_rules_agree_prefix u b _ _ H).
Qed.

Lemma clean_part_refl (v : jstring) : clean_part v v.
Proof. exists [], []. rewrite app_nil_r. split; reflexivity. Qed.

Lemma clean_part_trans (u v w : jstring) :
  clean_part u v -> clean_part v w -> clean_part u w.
Proof.
  intros (a & b & -> & Ha) (a' & b' & -> & Ha').
  exists (a' ++ a), (b ++ b'). split; [rewrite <- !app_assoc; reflexivity|].
  rewrite prev_after_app. destruct a as [|c a]; [exact Ha'|].
  rewrite (prev_after_nonempty (c :: a) _ None) by discriminate. exact Ha.
Qed.

Lemma trimStart_split (s : jstring) :
  exists a, s = a ++ trimStart s /\ forallb is_ws a = true.
Proof.
  induction s as [|c s (a & IH & Ha)]; [exists []; split; reflexivity|].
  cbn [trimStart]. destruct (is_ws c) eqn:E.
  - exists (c :: a). cbn [app forallb]. rewrite E, Ha, <- IH. split; reflexivity.
  - exists []. split; reflexivity.
Qed.

Lemma ws_not_backslash (a : jstring) :
  forallb is_ws a = true -> is_backslash (prev_after a None) = false.
Proof.
  induction a as [|c a IH] using rev_ind; [reflexivity|].
  rewrite forallb_app. cbn [forallb]. intros H.
  apply andb_prop in H. destruct H as [_ H]. rewrite andb_true_r in H.
  unfold prev_after. rewrite map_app. cbn [map]. rewrite last_last.
  cbn [is_backslash]. destruct (N.eqb_spec c c_BACKSLASH); [|reflexivity].
  subst c. discriminate H.
Qed.

Lemma clean_part_trim (s : jstring) : clean_part (trim s) s.
Proof.
  destruct (trimStart_split s) as (a & Hs & Ha).
  destruct (trimStart_split (rev (trimStart s))) as (a' & Hs' & _).
  exists a, (rev a'). split; [|apply ws_not_backslash, Ha].
  unfold trim, trimEnd. rewrite Hs at 1. f_equal.
  rewrite <- (rev_involutive (trimStart s)) at 1. rewrite Hs' at 1.
  apply rev_app_distr.
Qed.

Lemma clean_part_slice (c : char) (v : jstring) :
  startsWith c v = true -> c <> c_BACKSLASH -> clean_part (slice_1_m1 v) v.
Proof.
  intros Hc Hne. destruct v as [|x v]; [discriminate|].
  cbn [startsWith] in Hc. apply N.eqb_eq in Hc. subst x.
  unfold slice_1_m1. cbn [tl].
  exists [c]. destruct v as [|y v] using rev_ind.
  - exists []. split; [reflexivity|]. cbn. apply N.eqb_neq, Hne.
  - exists [y]. rewrite removelast_last. split; [reflexivity|].
    cbn. apply N.eqb_neq, Hne.
Qed.

Lemma clean_part_after (a b : jstring) (c : char) :
  c <> c_BACKSLASH -> clean_part b (a ++ [c] ++ b).
Proof.
  intros Hne. exists (a ++ [c]), []. rewrite app_nil_r, <- app_assoc.
  split; [reflexivity|]. unfold prev_after. rewrite map_app. cbn [map].
  rewrite last_last. cbn. apply N.eqb_neq, Hne.
Qed.

(** Every segment stands at the start of the text or after a
    separator. *)
Lemma segments_parts (separator : char) (text : jstring) :
  forall quote nesting escaped,
    let segs := Spec.segments separator text quote nesting escaped in
    (exists b, text = fst segs ++ b)
    /\ Forall (fun u => exists a b, text = a ++ [separator] ++ u ++ b)
         (snd segs).
Proof.
  induction text as [|c rest IH]; intros quote nesting escaped.
  - cbn. split; [exists []; reflexivity|constructor].
  - cbn [Spec.segments]. cbn zeta.
    specialize (IH (Spec.lex_quote quote escaped c)
                   (Spec.lex_nesting (Spec.lex_quote quote escaped c)
                      nesting c)
                   (Spec.lex_escaped escaped c)).
    cbn zeta in IH.
    destruct (Spec.segments separator rest _ _ _) as [segment others].
    cbn [fst snd] in IH. destruct IH as [(b & Hb) Hothers].
    assert (Hshift : Forall (fun u => exists a b0,
                                c :: rest = a ++ [separator] ++ u ++ b0)
                       others).
    { eapply Forall_impl; [|exact Hothers]. cbn beta.
      intros u (a & b0 & ->). exists (c :: a), b0. reflexivity. }
    destruct ((c =? separator) && _) eqn:E; cbn [fst snd].
    + apply andb_prop in E. destruct E as [E _]. apply N.eqb_eq in E.
      subst c. split; [exists (separator :: rest); reflexivity|].
      constructor; [|exact Hshift].
      exists [], b. rewrite Hb. reflexivity.
    + split; [exists b; rewrite Hb; reflexivity|exact Hshift].
Qed.

Lemma splitTopLevel_clean (text : jstring) (separator : char) (u : jstring) :
  separator <> c_BACKSLASH ->
  In u (Spec.splitTopLevel text separator) -> clean_part u text.
Proof.
  intros Hne. unfold Spec.splitTopLevel.
  pose proof (segments_parts separator text None 0 false) as H.
  cbn zeta in H. destruct (Spec.segments _ _ _ _ _) as [segment others].
  cbn [fst snd] in H. destruct H as [(b & Hb) Hothers].
  intros [<-|Hu].
  - exists [], b. split; [exact Hb|reflexivity].
  - rewrite Forall_forall in Hothers. destruct (Hothers u Hu) as (a & b0 & ->).
    exists (a ++ [separator]), b0. split; [rewrite <- app_assoc; reflexivity|].
    unfold prev_after. rewrite map_app. cbn [map]. rewrite last_last.
    cbn. apply N.eqb_neq, Hne.
Qed.

Lemma without_final_empty_in (segs : list jstring) (u : jstring) :
  In u (Spec.without_final_empty segs) -> In u segs.
Proof.
  induction segs as [|s segs IH]; [intros []|].
  cbn [Spec.without_final_empty]. destruct segs as [|s' segs].
  - destruct (is_empty s); [intros []|exact (fun H => H)].
  - intros [<-|H]; [left; reflexivity|right; apply IH, H].
Qed.

Lemma pipe_split_clean (text u : jstring) :
  In u (Spec.pipe_split text) -> clean_part u text.
Proof.
  intros H. apply without_final_empty_in in H.
  apply (splitTopLevel_clean text c_PIPE); [discriminate|exact H].
Qed.

Lemma comma_split_clean (text u : jstring) :
  In u (Spec.comma_split text) -> clean_part u text.
Proof.
  intros H. apply filter_In in H. destruct H as [H _].
  apply (splitTopLevel_clean text c_COMMA); [discriminate|exact H].
Qed.

Lemma colon_from_split (text : jstring) :
  forall quote nesting escaped i,
    Spec.colon_from text quote nesting escaped = Some i ->
    text = firstn i text ++ [c_COLON] ++ skipn (i + 1) text.
Proof.
  induction text as [|c rest IH]; intros quote nesting escaped i H;
    [discriminate|].
  cbn [Spec.colon_from] in H. cbn zeta in H.
  destruct ((c =? c_COLON) && _) eqn:E.
  - injection H as <-. apply andb_prop in E. destruct E as [E _].
    apply N.eqb_eq in E. subst c. reflexivity.
  - destruct (Spec.colon_from rest _ _ _) as [k|] eqn:Ek; [|discriminate].
    injection H as <-. cbn [firstn skipn Nat.add app].
    f_equal. apply (IH _ _ _ _ Ek).
Qed.

Lemma after_colon_clean (segment : jstring) (i : nat) :
  Spec.findTopLevelColon segment = Some i ->
  clean_part (trim (skipn (i + 1) segment)) segment.
Proof.
  intros H. apply colon_from_split in H.
  apply (clean_part_trans _ (skipn (i + 1) segment));
    [apply clean_part_trim|].
  rewrite H at 2. apply clean_part_after. discriminate.
Qed.

(** ** The values of such a text *)

Lemma pair_value_spec (segment : jstring) :
  Spec.no_quote_after_escaped_backslash segment ->
  pair_value segment = Spec.pair_value segment
  /\ forall u, In u (pair_value segment) -> clean_part u segment.
Proof.
  intros H. unfold pair_value, Spec.pair_value, substring_from.
  rewrite (findTopLevelColon_spec segment H).
  split; [reflexivity|]. intros u.
  destruct (is_empty (trim segment)); [intros []|].
  destruct (Spec.findTopLevelColon segment) as [i|] eqn:E; [|intros []].
  intros [<-|[]]. apply after_colon_clean, E.
Qed.

Lemma column_value_spec (segment : jstring) :
  Spec.no_quote_after_escaped_backslash segment ->
  column_value segment = Spec.column_value segment
  /\ forall u, In u (column_value segment) -> clean_part u segment.
Proof.
  intros H. unfold column_value, Spec.column_value, substring_from.
  rewrite (findTopLevelColon_spec segment H).
  destruct (is_empty (trim segment)); [split; [reflexivity|intros _ []]|].
  destruct (Spec.findTopLevelColon segment) as [i|] eqn:E;
    [|split; [reflexivity|intros _ []]].
  pose proof (after_colon_clean segment i E) as Hclean.
  rewrite (splitArrayItems_spec _ (clean_part_agree _ _ Hclean H)).
  split; [reflexivity|]. intros u Hu. apply in_map_iff in Hu.
  destruct Hu as (item & <- & Hitem).
  apply (clean_part_trans _ item); [apply clean_part_trim|].
  apply (clean_part_trans _ (trim (skipn (i + 1) segment))); [|exact Hclean].
  apply comma_split_clean, Hitem.
Qed.

Lemma flat_map_spec (f g : jstring -> list jstring) (content : jstring)
    (segs : list jstring) :
  (forall s, In s segs -> clean_part s content) ->
  (forall s, clean_part s content ->
             f s = g s /\ forall u, In u (f s) -> clean_part u s) ->
  flat_map f segs = flat_map g segs
  /\ forall u, In u (flat_map f segs) -> clean_part u content.
Proof.
  intros Hsegs Hf. induction segs as [|s segs IH].
  - split; [reflexivity|intros _ []].
  - destruct IH as [IH1 IH2]; [intros s' Hs'; apply Hsegs; right; exact Hs'|].
    destruct (Hf s (Hsegs s (or_introl eq_refl))) as [E Hu].
    cbn [flat_map]. rewrite E, IH1. split; [reflexivity|].
    intros u Hin. rewrite <- E in Hin. apply in_app_or in Hin.
    destruct Hin as [Hin|Hin]; [|rewrite <- IH1 in Hin; apply IH2, Hin].
    apply (clean_part_trans _ s); [apply Hu, Hin|].
    apply Hsegs. left. reflexivity.
Qed.

Lemma pair_values_spec (content : jstring) :
  Spec.no_quote_after_escaped_backslash content ->
  pair_values content = Spec.pair_values content
  /\ forall u, In u (pair_values content) -> clean_part u content.
Proof.
  intros H. unfold pair_values, Spec.pair_values.
  rewrite (splitByPipe_spec content H).
  apply flat_map_spec; [intros s; apply pipe_split_clean|].
  intros s Hs. apply pair_value_spec, (clean_part_agree _ _ Hs H).
Qed.

Lemma column_values_spec (content : jstring) :
  Spec.no_quote_after_escaped_backslash content ->
  column_values content = Spec.column_values content
  /\ forall u, In u (column_values content) -> clean_part u content.
Proof.
  intros H. unfold column_values, Spec.column_values.
  rewrite (splitByPipe_spec content H).
  apply flat_map_spec; [intros s; apply pipe_split_clean|].
  intros s Hs. apply column_value_spec, (clean_part_agree _ _ Hs H).
Qed.

Lemma array_values_spec (content : jstring) :
  Spec.no_quote_after_escaped_backslash content ->
  array_values content = Spec.array_values content
  /\ forall u, In u (array_values content) -> clean_part u content.
Proof.
  intros H. unfold array_values, Spec.array_values.
  destruct (includes c_PIPE content && includes c_COLON content);
    [apply column_values_spec, H|].
  rewrite (splitArrayItems_spec content H). split; [reflexivity|].
  intros u Hu. apply in_map_iff in Hu. destruct Hu as (item & <- & Hitem).
  apply (clean_part_trans _ item); [apply clean_part_trim|].
  apply comma_split_clean, Hitem.
Qed.

Lemma nested_values_spec (value : jstring) :
  Spec.no_quote_after_escaped_backslash value ->
  nested_values value = Spec.nested_values value
  /\ forall u, In u (nested_values value) -> clean_part u value.
Proof.
  intros H. unfold nested_values, Spec.nested_values.
  assert (Hcontent : forall c, startsWith c value = true ->
            c <> c_BACKSLASH ->
            clean_part (trim (slice_1_m1 value)) value).
  { intros c Hc Hne. apply (clean_part_trans _ (slice_1_m1 value));
      [apply clean_part_trim|apply (clean_part_slice c); assumption]. }
  destruct (startsWith c_LBRACE value) eqn:Eo.
  { cbn [andb]. destruct (endsWith c_RBRACE value).
    - pose proof (Hcontent _ Eo ltac:(discriminate)) as Hc.
      destruct (pair_values_spec _ (clean_part_agree _ _ Hc H)) as [E Hu].
      split; [exact E|]. intros u Hin.
      apply (clean_part_trans _ _ _ (Hu u Hin) Hc).
    - assert (startsWith c_LBRACKET value = false) as ->.
      { destruct value as [|x value]; [reflexivity|]. cbn in *.
        apply N.eqb_eq in Eo. subst x. reflexivity. }
      split; [reflexivity|intros _ []]. }
  cbn [andb]. destruct (startsWith c_LBRACKET value) eqn:Ea;
    [|split; [reflexivity|intros _ []]].
  cbn [andb]. destruct (endsWith c_RBRACKET value);
    [|split; [reflexivity|intros _ []]].
  pose proof (Hcontent _ Ea ltac:(discriminate)) as Hc.
  destruct (array_values_spec _ (clean_part_agree _ _ Hc H)) as [E Hu].
  split; [exact E|]. intros u Hin.
  apply (clean_part_trans _ _ _ (Hu u Hin) Hc).
Qed.

Lemma value_span_spec (v w : jstring) :
  Spec.no_quote_after_escaped_backslash v ->
  value_span v w <-> Spec.nested v w.
Proof.
  intros H. split; intros Hspan.
  - induction Hspan as [v|v u w Hu Hspan IH]; [constructor|].
    pose proof (clean_part_agree _ _ (clean_part_trim v) H) as Ht.
    destruct (nested_values_spec _ Ht) as [E Hclean].
    apply (Spec.nested_inside v u w); [rewrite <- E; exact Hu|].
    apply IH. apply (clean_part_agree _ _ (Hclean u Hu) Ht).
  - induction Hspan as [v|v u w Hu Hspan IH]; [constructor|].
    pose proof (clean_part_agree _ _ (clean_part_trim v) H) as Ht.
    destruct (nested_values_spec _ Ht) as [E Hclean].
    rewrite <- E in Hu.
    apply (span_nested v u w); [exact Hu|].
    apply IH. apply (clean_part_agree _ _ (Hclean u Hu) Ht).
Qed.

Lemma top_values_spec (text : jstring) :
  Spec.no_quote_after_escaped_backslash text ->
  top_values text = Spec.top_values text
  /\ forall v, In v (top_values text) ->
               Spec.no_quote_after_escaped_backslash v.
Proof.
  intros H. unfold top_values, Spec.top_values. cbn zeta.
  pose proof (clean_part_agree _ _ (clean_part_trim text) H) as Ht.
  assert (Hone : forall v, In v [trim text] ->
                           Spec.no_quote_after_escaped_backslash v)
    by (intros v [<-|[]]; exact Ht).
  destruct (startsWith c_LBRACE (trim text) || startsWith c_LBRACKET (trim text));
    [split; [reflexivity|exact Hone]|].
  destruct (includes c_PIPE (trim text) && includes c_COLON (trim text));
    [|split; [reflexivity|exact Hone]].
  destruct (pair_values_spec _ Ht) as [E Hclean].
  split; [exact E|]. intros v Hv. apply (clean_part_agree _ _ (Hclean v Hv) Ht).
Qed.

(** On a text in which no quote follows an escaped backslash, the parser
    comes to a malformed text exactly when bracket pairing is malformed
    as the specification defines it. *)
Lemma reaches_malformed_spec (text : jstring) :
  Spec.no_quote_after_escaped_backslash text ->
  reaches_malformed text <-> Spec.malformed_text text.
Proof.
  intros H. destruct (top_values_spec text H) as [E Hsafe].
  unfold reaches_malformed, malformed_within, Spec.malformed_text.
  rewrite <- E. split.
  - intros (v & Hv & w & Hspan & Hw). exists v, w.
    split; [exact Hv|]. split; [|exact Hw].
    apply (value_span_spec v w (Hsafe v Hv)), Hspan.
  - intros (v & w & Hv & Hspan & Hw). exists v. split; [exact Hv|].
    exists w. split; [|exact Hw].
    apply (value_span_spec v w (Hsafe v Hv)), Hspan.
Qed.

(* ================================================================== *)
(** * Facts about escaping *)
(* ================================================================== *)

Lemma replace_chars_flat_map (p : char -> bool) (g : char -> jstring)
    (f : char -> jstring) (s : jstring) :
  replace_chars p g (flat_map f s)
  = flat_map (fun c => replace_chars p g (f c)) s.
Proof.
  unfold replace_chars. induction s as [|c s IH]; [reflexivity|].
  simpl. rewrite flat_map_app, IH. reflexivity.
Qed.

Lemma hex_digit_range (d : N) :
  d < 16 -> (48 <= hex_digit d <= 57) \/ (97 <= hex_digit d <= 102).
Proof.
  unfold hex_digit. intros H. destruct (N.ltb_spec d 10); lia.
Qed.

Lemma hex4_chars (c x : char) :
  In x (hex4 c) -> (48 <= x <= 57) \/ (97 <= x <= 102).
Proof.
  unfold hex4. simpl.
  intros [<-|[<-|[<-|[<-|[]]]]]; apply hex_digit_range; apply N.mod_lt; discriminate.
Qed.

Lemma hex4_not_control (c : char) :
  replace_chars is_control (fun c => [c_BACKSLASH; 117] ++ hex4 c) (hex4 c)
  = hex4 c.
Proof.
  apply replace_chars_id. intros x Hx. apply hex4_chars in Hx.
  unfold is_control.
  destruct (N.leb_spec x 31); [lia|].
  destruct (N.leb_spec 127 x); [lia|]. reflexivity.
Qed.

(** [escapeString] works character by character. *)
Lemma escapeString_flat_map (s : jstring) :
  escapeString s = flat_map escape_char s.
Proof.
  unfold escapeString. cbv zeta.
  unfold replace_chars at 6.
  rewrite !replace_chars_flat_map.
  apply flat_map_ext. intros c. unfold escape_char.
  rewrite (N.eqb_sym c c_BACKSLASH).
  destruct (N.eqb_spec c_BACKSLASH c) as [<-|H1]; [reflexivity|].
  unfold replace_chars at 5. cbn [flat_map app].
  rewrite (N.eqb_sym c c_DQUOTE).
  destruct (N.eqb_spec c_DQUOTE c) as [<-|H2]; [reflexivity|].
  unfold replace_chars at 4. cbn [flat_map app].
  rewrite (N.eqb_sym c c_LF).
  destruct (N.eqb_spec c_LF c) as [<-|H3]; [reflexivity|].
  unfold replace_chars at 3. cbn [flat_map app].
  rewrite (N.eqb_sym c c_TAB).
  destruct (N.eqb_spec c_TAB c) as [<-|H4]; [reflexivity|].
  unfold replace_chars at 2. cbn [flat_map app].
  rewrite (N.eqb_sym c c_CR).
  destruct (N.eqb_spec c_CR c) as [<-|H5]; [reflexivity|].
  unfold replace_chars. cbn [flat_map app].
  destruct (is_control c); rewrite app_nil_r; reflexivity.
Qed.

Lemma guarded_app (a b : jstring) (prevChar : option char) :
  guarded prevChar (a ++ b)
  = guarded prevChar a && guarded (prev_after a prevChar) b.
Proof.
  revert prevChar. induction a as [|c a IH]; intros prevChar; [reflexivity|].
  cbn [app guarded]. rewrite IH, prev_after_cons, andb_assoc. reflexivity.
Qed.

Lemma guarded_escape_char (c : char) (prevChar : option char) :
  guarded prevChar (escape_char c) = true.
Proof.
  unfold escape_char.
  destruct (N.eqb_spec c c_BACKSLASH) as [->|H1]; [reflexivity|].
  destruct (N.eqb_spec c c_DQUOTE) as [->|H2]; [reflexivity|].
  destruct (N.eqb_spec c c_LF) as [->|H3]; [reflexivity|].
  destruct (N.eqb_spec c c_TAB) as [->|H4]; [reflexivity|].
  destruct (N.eqb_spec c c_CR) as [->|H5]; [reflexivity|].
  destruct (is_control c).
  - cbn [app guarded N.eqb Pos.eqb negb orb andb].
    assert (H : forall x, In x (hex4 c) -> (x =? c_DQUOTE) = false).
    { intros x Hx. apply hex4_chars in Hx. apply N.eqb_neq. lia. }
    unfold hex4 in *. cbn [guarded].
    rewrite !H by (simpl; auto). reflexivity.
  - cbn [guarded]. apply N.eqb_neq in H2. rewrite H2. reflexivity.
Qed.

Lemma guarded_escape (s : jstring) :
  forall prevChar, guarded prevChar (flat_map escape_char s) = true.
Proof.
  induction s as [|c s IH]; intros prevChar; [reflexivity|].
  cbn [flat_map]. rewrite guarded_app, guarded_escape_char, IH. reflexivity.
Qed.

Lemma escape_char_nonempty (c : char) : escape_char c <> [].
Proof.
  unfold escape_char.
  repeat match goal with
  | |- context [if ?b then _ else _] => destruct b
  end; discriminate.
Qed.

Lemma escape_char_last (c : char) (prevChar : option char) :
  c <> c_BACKSLASH -> is_backslash (prev_after (escape_char c) prevChar) = false.
Proof.
  intros Hc. unfold escape_char.
  destruct (N.eqb_spec c c_BACKSLASH) as [->|H1]; [congruence|].
  destruct (N.eqb_spec c c_DQUOTE) as [->|H2]; [reflexivity|].
  destruct (N.eqb_spec c c_LF) as [->|H3]; [reflexivity|].
  destruct (N.eqb_spec c c_TAB) as [->|H4]; [reflexivity|].
  destruct (N.eqb_spec c c_CR) as [->|H5]; [reflexivity|].
  destruct (is_control c).
  - unfold hex4, prev_after. simpl. apply N.eqb_neq.
    assert (In (hex_digit (c mod 16)) (hex4 c)) by (unfold hex4; simpl; auto).
    apply hex4_chars in H. lia.
  - unfold prev_after. simpl. apply N.eqb_neq. exact H1.
Qed.

Lemma escape_last (s : jstring) (prevChar : option char) :
  is_backslash prevChar = false ->
  is_backslash (prev_after s None) = false ->
  is_backslash (prev_after (flat_map escape_char s) prevChar) = false.
Proof.
  intros Hp. destruct s as [|c0 s0] using rev_ind; [intros _; exact Hp|].
  clear IHs0. intros H. rewrite prev_after_app in H. simpl in H.
  rewrite flat_map_app. cbn [flat_map]. rewrite app_nil_r, prev_after_app.
  apply escape_char_last. unfold prev_after in H. simpl in H.
  apply N.eqb_neq in H. exact H.
Qed.

(** Inside a string opened by a double quote, a guarded text changes
    nothing. *)
Lemma scan_guarded (sep : char) (e : jstring) :
  forall prevChar st,
    guarded prevChar e = true ->
    inString st = true -> stringChar st = Some c_DQUOTE ->
    scan_run e prevChar st = st /\ scan_quiet sep e prevChar st = true.
Proof.
  induction e as [|c e IH]; intros prevChar st Hg Hin Hq; [auto|].
  cbn [guarded] in Hg. apply andb_true_iff in Hg. destruct Hg as [Hc Hg].
  assert (Hstep : scan_step st c prevChar = st).
  { unfold scan_step, track_quote. rewrite Hin. cbn [negb].
    unfold is_stringChar. rewrite Hq.
    destruct (N.eqb_spec c c_DQUOTE) as [->|Hne].
    - cbn [negb orb] in Hc. rewrite Hc. cbn [orb negb andb].
      rewrite Hin. reflexivity.
    - cbn [orb]. destruct ((c =? c_SQUOTE) && negb (is_backslash prevChar));
        rewrite Hin; reflexivity. }
  cbn [scan_run scan_quiet]. rewrite Hstep, Hin. cbn [negb andb].
  apply IH; assumption.
Qed.

Lemma sealed_at_quoted (m : Z) (sep : char) (s : jstring) :
  sep <> c_DQUOTE ->
  is_backslash (prev_after s None) = false ->
  sealed_at m sep (quoted_text s).
Proof.
  intros Hsep Hlast prevChar st Hprev Hst _.
  unfold quoted_text. rewrite escapeString_flat_map.
  set (e := flat_map escape_char s).
  set (st1 := mkScan (depth st) true (Some c_DQUOTE)).
  assert (H1 : scan_step st c_DQUOTE prevChar = st1).
  { unfold scan_step, track_quote. rewrite Hprev, Hst. reflexivity. }
  destruct (scan_guarded sep e (Some c_DQUOTE) st1 (guarded_escape s _)
              eq_refl eq_refl) as [Hrun Hquiet].
  assert (Hp : is_backslash (prev_after e (Some c_DQUOTE)) = false)
    by (apply escape_last; [reflexivity|exact Hlast]).
  assert (H2 : scan_step st1 c_DQUOTE (prev_after e (Some c_DQUOTE))
               = mkScan (depth st) false (Some c_DQUOTE)).
  { unfold scan_step, track_quote. rewrite Hp. reflexivity. }
  cbn [app scan_quiet scan_run]. rewrite H1.
  rewrite scan_quiet_app, scan_run_app, Hrun, Hquiet.
  cbn [scan_quiet scan_run]. rewrite H2. cbn [inString depth negb andb].
  apply N.eqb_neq in Hsep. rewrite N.eqb_sym in Hsep. rewrite Hsep.
  auto.
Qed.

(** ** Unescaping the escaped form *)

Lemma replace_pair_skip (a b x : char) (rep tl : jstring) :
  x <> a ->
  replace_pair a b rep (x :: tl) = x :: replace_pair a b rep tl.
Proof.
  intros H. apply N.eqb_neq in H. cbn [replace_pair].
  destruct tl as [|y rest]; [reflexivity|]. rewrite H. reflexivity.
Qed.

Lemma replace_pair_hit (a b : char) (rep tl : jstring) :
  replace_pair a b rep (a :: b :: tl) = rep ++ replace_pair a b rep tl.
Proof. cbn [replace_pair]. rewrite !N.eqb_refl. reflexivity. Qed.

Lemma replace_pair_miss (a b y : char) (rep tl : jstring) :
  y <> b ->
  replace_pair a b rep (a :: y :: tl) = a :: replace_pair a b rep (y :: tl).
Proof.
  intros H. apply N.eqb_neq in H.
  change (replace_pair a b rep (a :: y :: tl))
    with (if (a =? a) && (y =? b) then rep ++ replace_pair a b rep tl
          else a :: replace_pair a b rep (y :: tl)).
  rewrite H, andb_false_r. reflexivity.
Qed.

Lemma replace_unicode_skip (x : char) (tl : jstring) :
  x <> c_BACKSLASH -> replace_unicode (x :: tl) = x :: replace_unicode tl.
Proof.
  intros H. apply N.eqb_neq in H. cbn [replace_unicode].
  destruct tl as [|u [|h1 [|h2 [|h3 [|h4 rest]]]]]; try reflexivity.
  rewrite H. reflexivity.
Qed.

Lemma replace_unicode_hit (h1 h2 h3 h4 : char) (rest : jstring) :
  is_hex h1 = true -> is_hex h2 = true -> is_hex h3 = true ->
  is_hex h4 = true ->
  replace_unicode (c_BACKSLASH :: 117 :: h1 :: h2 :: h3 :: h4 :: rest)
  = fromCharCode_hex h1 h2 h3 h4 :: replace_unicode rest.
Proof.
  intros H1 H2 H3 H4.
  change (replace_unicode (c_BACKSLASH :: 117 :: h1 :: h2 :: h3 :: h4 :: rest))
    with (if (c_BACKSLASH =? c_BACKSLASH) && (117 =? 117)
             && is_hex h1 && is_hex h2 && is_hex h3 && is_hex h4
          then fromCharCode_hex h1 h2 h3 h4 :: replace_unicode rest
          else c_BACKSLASH
                 :: replace_unicode (117 :: h1 :: h2 :: h3 :: h4 :: rest)).
  rewrite H1, H2, H3, H4. reflexivity.
Qed.

Lemma replace_chars_cons (p : char -> bool) (f : char -> jstring) (x : char)
    (tl : jstring) :
  replace_chars p f (x :: tl)
  = (if p x then f x else [x]) ++ replace_chars p f tl.
Proof. reflexivity. Qed.

Lemma hex_digit_is_hex (d : N) : d < 16 -> is_hex (hex_digit d) = true.
Proof.
  intros H. unfold is_hex, is_digit, hex_digit.
  destruct (N.ltb_spec d 10);
    repeat match goal with
    | |- context [N.leb ?a ?b] => destruct (N.leb_spec a b); try lia
    end; reflexivity.
Qed.

Lemma hex_val_hex_digit (d : N) : d < 16 -> hex_val (hex_digit d) = d.
Proof.
  intros H. unfold hex_val, is_digit, hex_digit.
  destruct (N.ltb_spec d 10);
    repeat match goal with
    | |- context [N.leb ?a ?b] => destruct (N.leb_spec a b); try lia
    end; cbn [andb]; lia.
Qed.

Lemma is_control_bound (c : char) : is_control c = true -> c < 256.
Proof.
  unfold is_control. intros H. apply orb_true_iff in H.
  destruct H as [H|H]; [apply N.leb_le in H; lia|].
  apply andb_true_iff in H. destruct H as [_ H]. apply N.leb_le in H. lia.
Qed.

Lemma fromCharCode_hex4 (c : char) :
  c < 256 ->
  fromCharCode_hex (hex_digit ((c / 4096) mod 16)) (hex_digit ((c / 256) mod 16))
    (hex_digit ((c / 16) mod 16)) (hex_digit (c mod 16)) = c.
Proof.
  intros H. unfold fromCharCode_hex.
  rewrite !hex_val_hex_digit by (apply N.mod_lt; discriminate).
  rewrite (N.div_small c 4096) by lia. rewrite (N.div_small c 256) by lia.
  assert (H16 : c / 16 < 16) by (apply N.Div0.div_lt_upper_bound; lia).
  rewrite (N.mod_small (c / 16) 16) by exact H16.
  pose proof (N.div_mod' c 16) as E.
  change (0 mod 16) with 0.
  rewrite N.mod_small; lia.
Qed.

(** One step of the chain of replacements on the first characters of the
    text. *)
Ltac unescape_step :=
  match goal with
  | |- context [replace_pair ?a ?b ?rep (?a :: ?b :: ?tl)] =>
      rewrite (replace_pair_hit a b rep tl)
  | |- context [replace_pair ?a ?b ?rep (?a :: ?y :: ?tl)] =>
      rewrite (replace_pair_miss a b y rep tl) by lia
  | |- context [replace_pair ?a ?b ?rep (?x :: ?tl)] =>
      rewrite (replace_pair_skip a b x rep tl) by lia
  | |- context [replace_unicode (?x :: ?tl)] =>
      rewrite (replace_unicode_skip x tl) by lia
  end;
  cbn [app].

(** What the chain of replacements of [unescapeString] makes of the
    escape of one character, in front of any text. *)
Lemma unescape_escape_char (c : char) (rest : jstring) :
  unescapeString (escape_char c ++ rest)
  = (if c =? c_NUL then c_BACKSLASH else c) :: unescapeString rest.
Proof.
  unfold unescapeString. cbv zeta. unfold escape_char.
  destruct (N.eqb_spec c c_BACKSLASH) as [->|H1].
  { cbn [app]. repeat unescape_step. reflexivity. }
  destruct (N.eqb_spec c c_DQUOTE) as [->|H2].
  { cbn [app]. repeat unescape_step. reflexivity. }
  destruct (N.eqb_spec c c_LF) as [->|H3].
  { cbn [app]. repeat unescape_step. reflexivity. }
  destruct (N.eqb_spec c c_TAB) as [->|H4].
  { cbn [app]. repeat unescape_step. reflexivity. }
  destruct (N.eqb_spec c c_CR) as [->|H5].
  { cbn [app]. repeat unescape_step. reflexivity. }
  destruct (is_control c) eqn:Hctl.
  - pose proof (is_control_bound c Hctl) as Hb.
    unfold hex4. cbn [app].
    assert (R1 := hex_digit_range ((c / 4096) mod 16)).
    assert (R2 := hex_digit_range ((c / 256) mod 16)).
    assert (R3 := hex_digit_range ((c / 16) mod 16)).
    assert (R4 := hex_digit_range (c mod 16)).
    assert (X1 := hex_digit_is_hex ((c / 4096) mod 16)).
    assert (X2 := hex_digit_is_hex ((c / 256) mod 16)).
    assert (X3 := hex_digit_is_hex ((c / 16) mod 16)).
    assert (X4 := hex_digit_is_hex (c mod 16)).
    pose proof (fromCharCode_hex4 c Hb) as Hc.
    assert (M : forall x, x mod 16 < 16) by (intros; apply N.mod_lt; discriminate).
    specialize (R1 (M _)). specialize (R2 (M _)). specialize (R3 (M _)).
    specialize (R4 (M _)). specialize (X1 (M _)). specialize (X2 (M _)).
    specialize (X3 (M _)). specialize (X4 (M _)). clear M.
    revert R1 R2 R3 R4 X1 X2 X3 X4 Hc.
    generalize (hex_digit ((c / 4096) mod 16)) (hex_digit ((c / 256) mod 16))
      (hex_digit ((c / 16) mod 16)) (hex_digit (c mod 16)).
    intros h1 h2 h3 h4 R1 R2 R3 R4 X1 X2 X3 X4 Hc.
    repeat unescape_step.
    rewrite (replace_unicode_hit h1 h2 h3 h4 _ X1 X2 X3 X4), Hc.
    rewrite replace_chars_cons, (N.eqb_sym c_NUL c).
    destruct (c =? c_NUL); reflexivity.
  - cbn [app]. repeat unescape_step.
    rewrite replace_chars_cons.
    destruct (N.eqb_spec c c_NUL) as [->|H0]; [discriminate Hctl|].
    apply N.eqb_neq in H0. rewrite N.eqb_sym in H0. rewrite H0. reflexivity.
Qed.

(** [unescapeString] undoes [escapeString], except that it turns NUL into
    a backslash. *)
Lemma unescape_escape_map (s : jstring) :
  unescapeString (escapeString s)
  = map (fun c => if c =? c_NUL then c_BACKSLASH else c) s.
Proof.
  rewrite escapeString_flat_map.
  induction s as [|c s IH]; [reflexivity|].
  cbn [flat_map map]. rewrite unescape_escape_char, IH. reflexivity.
Qed.

Lemma unescape_escape (s : jstring) :
  ~ In c_NUL s -> unescapeString (escapeString s) = s.
Proof.
  intros H. rewrite unescape_escape_map. rewrite <- (map_id s) at 2.
  apply map_ext_in. intros c Hc.
  destruct (N.eqb_spec c c_NUL) as [->|_]; [contradiction|reflexivity].
Qed.

(* ================================================================== *)
(** * Splitting joined texts *)
(* ================================================================== *)

Lemma splitByPipe_loop_sep (rest : jstring) (prevChar : option char)
    (st : scan) (current : jstring) (parts : list jstring) :
  inString st = false -> depth st = 0%Z ->
  splitByPipe_loop (c_PIPE :: rest) prevChar st current parts
  = splitByPipe_loop rest (Some c_PIPE) st [] (parts ++ [current]).
Proof.
  intros Hi Hd. destruct st as [d i q]. simpl in Hi, Hd. subst d i.
  reflexivity.
Qed.

Lemma splitByPipe_loop_join (cols : list jstring) :
  forall prevChar st parts,
    cols <> [] ->
    Forall (fun col => sealed c_PIPE col /\ col <> []) cols ->
    is_backslash prevChar = false ->
    inString st = false -> depth st = 0%Z ->
    splitByPipe_loop (join [c_PIPE] cols) prevChar st [] parts = parts ++ cols.
Proof.
  induction cols as [|col cols IH]; intros prevChar st parts Hne Hall Hp Hi Hd;
    [congruence|].
  inversion Hall as [|? ? [Hseal Hcol] Hrest]; subst.
  destruct (Hseal prevChar st Hp Hi) as (Hq & Hi' & Hd'); [lia|].
  destruct cols as [|col' cols].
  - cbn [join]. rewrite <- (app_nil_r col) at 1.
    rewrite (splitByPipe_loop_quiet col [] _ _ _ _ Hq).
    cbn [splitByPipe_loop app]. destruct col; [congruence|reflexivity].
  - change (join [c_PIPE] (col :: col' :: cols))
      with (col ++ c_PIPE :: join [c_PIPE] (col' :: cols)).
    rewrite (splitByPipe_loop_quiet col _ _ _ _ _ Hq).
    rewrite splitByPipe_loop_sep by (rewrite ?Hi', ?Hd'; auto; congruence).
    rewrite IH; [|discriminate|exact Hrest|reflexivity|exact Hi'|congruence].
    rewrite <- app_assoc. reflexivity.
Qed.

(** Splitting the pipe-joined text of sealed, non-empty columns gives the
    columns back. *)
Lemma splitByPipe_join (cols : list jstring) :
  cols <> [] ->
  Forall (fun col => sealed c_PIPE col /\ col <> []) cols ->
  splitByPipe (join [c_PIPE] cols) = cols.
Proof.
  intros Hne Hall. unfold splitByPipe.
  rewrite splitByPipe_loop_join; auto.
Qed.

Lemma splitArrayItems_loop_sep (rest : jstring) (prevChar : option char)
    (st : scan) (current : jstring) (parts : list jstring) :
  inString st = false -> depth st = 0%Z ->
  splitArrayItems_loop (c_COMMA :: rest) prevChar st current parts
  = splitArrayItems_loop rest (Some c_COMMA) st []
      (if is_empty (trim current) then parts else parts ++ [current]).
Proof.
  intros Hi Hd. destruct st as [d i q]. simpl in Hi, Hd. subst d i.
  reflexivity.
Qed.

Lemma splitArrayItems_loop_join (items : list jstring) :
  forall prevChar st parts,
    items <> [] ->
    Forall (fun item => sealed c_COMMA item /\ trim item <> []) items ->
    is_backslash prevChar = false ->
    inString st = false -> depth st = 0%Z ->
    splitArrayItems_loop (join [c_COMMA] items) prevChar st [] parts
    = parts ++ items.
Proof.
  induction items as [|item items IH];
    intros prevChar st parts Hne Hall Hp Hi Hd; [congruence|].
  inversion Hall as [|? ? [Hseal Hitem] Hrest]; subst.
  destruct (Hseal prevChar st Hp Hi) as (Hq & Hi' & Hd'); [lia|].
  assert (He : is_empty (trim item) = false)
    by (destruct (trim item); [congruence|reflexivity]).
  destruct items as [|item' items].
  - cbn [join]. rewrite <- (app_nil_r item) at 1.
    rewrite (splitArrayItems_loop_quiet item [] _ _ _ _ Hq).
    cbn [splitArrayItems_loop app]. rewrite He. reflexivity.
  - change (join [c_COMMA] (item :: item' :: items))
      with (item ++ c_COMMA :: join [c_COMMA] (item' :: items)).
    rewrite (splitArrayItems_loop_quiet item _ _ _ _ _ Hq).
    rewrite splitArrayItems_loop_sep by (rewrite ?Hi', ?Hd'; auto; congruence).
    cbn [app]. rewrite He.
    rewrite IH; [|discriminate|exact Hrest|reflexivity|exact Hi'|congruence].
    rewrite <- app_assoc. reflexivity.
Qed.

(** Splitting the comma-joined text of sealed, non-blank items gives the
    items back. *)
Lemma splitArrayItems_join (items : list jstring) :
  items <> [] ->
  Forall (fun item => sealed c_COMMA item /\ trim item <> []) items ->
  splitArrayItems (join [c_COMMA] items) = items.
Proof.
  intros Hne Hall. unfold splitArrayItems.
  rewrite splitArrayItems_loop_join; auto.
Qed.

(** The top-level colon after a key without quotes, brackets or colon. *)
Lemma findTopLevelColon_key (key rest : jstring) :
  forallb (inert_for c_COLON) key = true ->
  findTopLevelColon (key ++ c_COLON :: rest) = Some (length key).
Proof.
  intros H. unfold findTopLevelColon.
  rewrite (findTopLevelColon_loop_quiet key _ _ _ _ (scan_quiet_inert _ _ H _ _)).
  rewrite (scan_run_inert _ _ H). reflexivity.
Qed.

(* ================================================================== *)
(** * The text of a scalar *)
(* ================================================================== *)

Lemma trim_no_ws (t : jstring) :
  Forall (fun c => is_ws c = false) t -> trim t = t.
Proof.
  intros H. apply trimmed_trim. split.
  - destruct H as [|c t Hc _]; [reflexivity|]. apply trimStart_head, Hc.
  - apply Forall_rev in H. destruct H as [|c t' Hc _]; [reflexivity|].
    apply trimStart_head, Hc.
Qed.

Lemma trim_ends (a b : char) (m : jstring) :
  is_ws a = false -> is_ws b = false -> trim (a :: m ++ [b]) = a :: m ++ [b].
Proof.
  intros Ha Hb. apply trimmed_trim. split.
  - apply trimStart_head, Ha.
  - change (a :: m ++ [b]) with ((a :: m) ++ [b]). rewrite rev_app_distr.
    apply trimStart_head, Hb.
Qed.

Lemma startsWith_includes (c : char) (s : jstring) :
  includes c s = false -> startsWith c s = false.
Proof.
  destruct s as [|x s]; [reflexivity|]. unfold includes. simpl.
  intros H. apply orb_false_iff in H. destruct H as [H _].
  rewrite N.eqb_sym. exact H.
Qed.

(** The characters of a text that needs no quoting. *)
Lemma needsQuoting_false (s : jstring) :
  needsQuoting s = false ->
  includes c_COLON s = false /\ includes c_PIPE s = false
  /\ includes c_COMMA s = false /\ includes c_SPACE s = false
  /\ includes c_LBRACE s = false /\ includes c_RBRACE s = false
  /\ includes c_LBRACKET s = false /\ includes c_RBRACKET s = false
  /\ includes c_DQUOTE s = false /\ includes c_SQUOTE s = false
  /\ includes c_LF s = false /\ includes c_TAB s = false.
Proof.
  unfold needsQuoting. intros H.
  repeat match goal with
  | H : _ || _ = false |- _ => apply orb_false_iff in H; destruct H
  end.
  repeat split; assumption.
Qed.

Lemma includes_false_forallb (c : char) (s : jstring) :
  includes c s = false -> forallb (fun x => negb (x =? c)) s = true.
Proof.
  unfold includes. induction s as [|x s IH]; [reflexivity|]. simpl.
  intros H. apply orb_false_iff in H. destruct H as [H1 H2].
  rewrite N.eqb_sym, H1. simpl. apply IH, H2.
Qed.

Lemma needsQuoting_false_inert (sep : char) (s : jstring) :
  needsQuoting s = false ->
  sep = c_PIPE \/ sep = c_COMMA \/ sep = c_COLON ->
  forallb (inert_for sep) s = true.
Proof.
  intros H Hsep. apply needsQuoting_false in H.
  destruct H as (Hcolon & Hpipe & Hcomma & _ & Hlb & Hrb & Hlk & Hrk & Hdq
                 & Hsq & _ & _).
  apply forallb_forall. intros x Hx. unfold inert_for.
  assert (N : forall c, includes c s = false -> (x =? c) = false).
  { intros c Hc. apply N.eqb_neq. intros ->.
    apply includes_false in Hc. contradiction. }
  rewrite (N _ Hdq), (N _ Hsq), (N _ Hlb), (N _ Hrb), (N _ Hlk), (N _ Hrk).
  destruct Hsep as [E|[E|E]]; subst sep;
    [rewrite (N _ Hpipe)|rewrite (N _ Hcomma)|rewrite (N _ Hcolon)];
    reflexivity.
Qed.

(** A text that needs no quoting is sealed for every separator. *)
Lemma sealed_at_plain (m : Z) (sep : char) (s : jstring) :
  needsQuoting s = false ->
  sep = c_PIPE \/ sep = c_COMMA \/ sep = c_COLON ->
  sealed_at m sep s.
Proof.
  intros H Hsep. apply sealed_at_inert, needsQuoting_false_inert; assumption.
Qed.

Lemma is_numchar_cases (c : char) :
  is_numchar c = true ->
  48 <= c <= 57 \/ c = c_DOT \/ c = 101 \/ c = c_PLUS \/ c = c_MINUS.
Proof.
  unfold is_numchar. intros H.
  repeat match goal with
  | H : _ || _ = true |- _ => apply orb_true_iff in H; destruct H as [H|H]
  end; try (apply N.eqb_eq in H; auto).
  left. apply is_digit_range, H.
Qed.

Lemma numchars_no_ws (t : jstring) :
  Forall (fun c => is_numchar c = true) t -> Forall (fun c => is_ws c = false) t.
Proof.
  apply Forall_impl. intros c Hc. apply is_numchar_cases in Hc. unfold is_ws.
  repeat match goal with
  | |- context [N.leb ?a ?b] => destruct (N.leb_spec a b); try lia
  | |- context [N.eqb ?a ?b] => destruct (N.eqb_spec a b); try lia
  end; reflexivity.
Qed.

Lemma numchars_needsQuoting (t : jstring) :
  Forall (fun c => is_numchar c = true) t -> needsQuoting t = false.
Proof.
  intros H. unfold needsQuoting.
  assert (N : forall c, ~ (48 <= c <= 57) -> c <> c_DOT -> c <> 101 ->
                        c <> c_PLUS -> c <> c_MINUS -> includes c t = false).
  { intros c H1 H2 H3 H4 H5. apply includes_false. intros Hin.
    rewrite Forall_forall in H. apply H in Hin. apply is_numchar_cases in Hin.
    lia. }
  rewrite !N by lia. reflexivity.
Qed.

(** A text that starts with a digit, or with a minus sign and a digit, is
    no keyword. *)
Lemma number_head_not_keyword (t : jstring) :
  (exists c rest,
     t = c :: rest
     /\ (is_digit c = true
         \/ (c = c_MINUS
             /\ exists d rest', rest = d :: rest' /\ is_digit d = true))) ->
  is_keyword t = false.
Proof.
  intros (c & rest & Et & [Hc|(Ec & d & rest' & Er & Hd)]); subst.
  - apply is_digit_range in Hc. unfold is_keyword. cbn [str map jstring_eqb
      String.list_ascii_of_string Ascii.N_of_ascii].
    cbv [Ascii.N_of_digits N.add N.mul Pos.add Pos.mul Pos.succ].
    repeat match goal with
    | |- context [N.eqb c ?b] => destruct (N.eqb_spec c b); try lia
    end; try reflexivity.
  - apply is_digit_range in Hd. unfold is_keyword. cbn [str map jstring_eqb
      String.list_ascii_of_string Ascii.N_of_ascii].
    cbv [Ascii.N_of_digits N.add N.mul Pos.add Pos.mul Pos.succ].
    cbn [N.eqb Pos.eqb andb orb].
    repeat match goal with
    | |- context [N.eqb d ?b] => destruct (N.eqb_spec d b); try lia
    end; try reflexivity.
Qed.

Section ParseScalar.
Variable pv : jstring -> result Value.
Variable pi : jstring -> bool.

(** [parseValue] on a trimmed text without special characters that is no
    keyword: a Number if it looks like one, the text itself otherwise. *)
Lemma parseValue_body_plain (t : jstring) :
  trim t = t -> t <> [] -> is_keyword t = false -> needsQuoting t = false ->
  parseValue_body pv pi t
  = if regex_test re_number t then Ok (VNumber (parseFloat t))
    else Ok (VString t).
Proof.
  intros Htrim Hne Hkw Hq. unfold parseValue_body. rewrite Htrim.
  destruct t as [|c t'] eqn:Et; [congruence|]. rewrite <- Et in *.
  replace (is_empty t) with false by (rewrite Et; reflexivity).
  unfold is_keyword in Hkw.
  repeat match goal with
  | H : _ || _ = false |- _ => apply orb_false_iff in H; destruct H
  end.
  repeat match goal with
  | H : jstring_eqb _ _ = false |- _ => rewrite H; clear H
  end.
  apply needsQuoting_false in Hq.
  destruct Hq as (_ & _ & _ & _ & Hlb & _ & Hlk & _ & Hdq & Hsq & _ & _).
  rewrite (startsWith_includes _ _ Hdq), (startsWith_includes _ _ Hsq).
  rewrite (startsWith_includes _ _ Hlb), (startsWith_includes _ _ Hlk).
  cbn [andb orb].
  destruct (regex_test re_number t).
  - destruct (parseFloat t) as [| | [|] |]; reflexivity.
  - destruct (regex_test_prefix re_datetime t); reflexivity.
Qed.

Lemma parseValue_body_bare (s : jstring) :
  bare_string s -> parseValue_body pv pi s = Ok (VString s).
Proof.
  intros (Hq & Hne & Htrim & Hkw & Hnum).
  rewrite parseValue_body_plain by assumption. rewrite Hnum. reflexivity.
Qed.

Lemma quoted_text_trim (s : jstring) : trim (quoted_text s) = quoted_text s.
Proof. unfold quoted_text. apply (trim_ends c_DQUOTE c_DQUOTE); reflexivity. Qed.

Lemma parseValue_body_quoted (s : jstring) :
  ~ In c_NUL s -> parseValue_body pv pi (quoted_text s) = Ok (VString s).
Proof.
  intros Hnul. unfold parseValue_body. rewrite quoted_text_trim.
  assert (Hend : endsWith c_DQUOTE (quoted_text s) = true).
  { unfold endsWith, quoted_text.
    change ([c_DQUOTE] ++ escapeString s ++ [c_DQUOTE])
      with ((c_DQUOTE :: escapeString s) ++ [c_DQUOTE]).
    rewrite rev_app_distr. reflexivity. }
  assert (Hslice : slice_1_m1 (quoted_text s) = escapeString s).
  { unfold slice_1_m1, quoted_text. cbn [app tl]. apply removelast_last. }
  rewrite Hend, Hslice, (unescape_escape s Hnul). reflexivity.
Qed.

Lemma parseValue_body_number (neg : bool) (ds : list N) (n : Z) :
  canonical_digits ds ->
  parseValue_body pv pi (number_toString (Finite neg ds n))
  = Ok (VNumber (Finite neg ds n)).
Proof.
  intros Hcan.
  destruct (number_toString_literal neg ds n Hcan)
    as (ip & fp & ex & -> & Hip & Hne & Hfp & Hnorm).
  pose proof (literal_text_numchars neg ip fp ex Hip Hfp) as Hchars.
  pose proof (literal_text_head neg ip fp ex Hip Hne) as Hhead.
  rewrite parseValue_body_plain.
  - rewrite (literal_text_regex neg ip fp ex Hip Hne Hfp).
    rewrite (parseFloat_literal neg ip fp ex Hip Hne Hfp), Hnorm. reflexivity.
  - apply trim_no_ws, numchars_no_ws, Hchars.
  - destruct Hhead as (c & rest & -> & _). discriminate.
  - apply number_head_not_keyword, Hhead.
  - apply numchars_needsQuoting, Hchars.
Qed.

(** [parseValue] reads a scalar back from its text. *)
Lemma parseValue_body_scalar (v : Value) :
  scalar v -> parseValue_body pv pi (flat_text v) = Ok v.
Proof.
  destruct v as [| | [|] | [| [|] | [|] | neg ds n] | s | |]; cbn [scalar];
    intros H; try reflexivity; try contradiction.
  - apply parseValue_body_number, H.
  - unfold flat_text. cbn [stringifyValue].
    destruct H as [Hb|(Hq & Hnul & Hlast)].
    + destruct Hb as (Hq & Hrest). rewrite Hq. apply parseValue_body_bare.
      split; assumption.
    + rewrite Hq. apply parseValue_body_quoted, Hnul.
Qed.
End ParseScalar.

Lemma stringifyValue_scalar (v : Value) (depth : nat) (pretty columnar : bool) :
  scalar v -> stringifyValue v depth pretty columnar = flat_text v.
Proof. destruct v; cbn [scalar]; intros H; try reflexivity; contradiction. Qed.

(** The text of a scalar is either free of special characters, or the
    quoted text of a String. *)
Lemma scalar_text_cases (v : Value) :
  scalar v ->
  (needsQuoting (flat_text v) = false
   /\ trim (flat_text v) = flat_text v /\ flat_text v <> [])
  \/ (exists s, v = VString s /\ quoted_string s
                /\ flat_text v = quoted_text s).
Proof.
  destruct v as [| | [|] | [| [|] | [|] | neg ds n] | s | |]; cbn [scalar];
    intros H; try contradiction;
    try (left; split; [reflexivity|split; [reflexivity|discriminate]]).
  - left. unfold flat_text. cbn [stringifyValue].
    destruct (number_toString_literal neg ds n H)
      as (ip & fp & ex & -> & Hip & Hne & Hfp & Hnorm).
    pose proof (literal_text_numchars neg ip fp ex Hip Hfp) as Hchars.
    split; [apply numchars_needsQuoting, Hchars|].
    split; [apply trim_no_ws, numchars_no_ws, Hchars|].
    destruct (literal_text_head neg ip fp ex Hip Hne) as (c & rest & -> & _).
    discriminate.
  - unfold flat_text. cbn [stringifyValue].
    destruct H as [(Hq & Hne & Htrim & _)|Hqs].
    + left. rewrite Hq. auto.
    + right. exists s. destruct Hqs as (Hq & Hrest). rewrite Hq.
      repeat split; auto; apply Hrest.
Qed.

Lemma scalar_text_trim (v : Value) :
  scalar v -> trim (flat_text v) = flat_text v /\ flat_text v <> [].
Proof.
  intros H. destruct (scalar_text_cases v H) as [(_ & H1 & H2)|(s & _ & _ & ->)].
  - auto.
  - split; [apply quoted_text_trim|discriminate].
Qed.

Lemma scalar_text_sealed (m : Z) (sep : char) (v : Value) :
  scalar v -> sep = c_PIPE \/ sep = c_COMMA \/ sep = c_COLON ->
  sealed_at m sep (flat_text v).
Proof.
  intros H Hsep.
  destruct (scalar_text_cases v H) as [(Hq & _)|(s & _ & Hqs & ->)].
  - apply sealed_at_plain; assumption.
  - apply sealed_at_quoted; [destruct Hsep as [E|[E|E]]; subst; discriminate|].
    apply Hqs.
Qed.

(** A whole input without special characters goes to [parseValue]. *)
Lemma parse_plain (t : jstring) :
  trim t = t -> needsQuoting t = false ->
  parse t
  = parseValue_body (parseValue (length t)) (valueInherits (length t)) t.
Proof.
  intros Htrim Hq. unfold parse. rewrite Htrim.
  apply needsQuoting_false in Hq.
  destruct Hq as (_ & Hpipe & _ & _ & Hlb & _ & Hlk & _).
  rewrite (startsWith_includes _ _ Hlb), (startsWith_includes _ _ Hlk), Hpipe.
  cbn [andb]. destruct t; reflexivity.
Qed.

(* ================================================================== *)
(** * Tight texts and objects built by assignment *)
(* ================================================================== *)

(** ** Tight texts *)

Lemma tight_trimmed (t : jstring) : tight t -> trimmed t /\ t <> [].
Proof.
  intros [Hne Htrim]. split; [|exact Hne]. rewrite <- Htrim. apply trim_trimmed.
Qed.

Lemma tight_app (a m b : jstring) : tight a -> tight b -> tight (a ++ m ++ b).
Proof.
  intros Ha Hb.
  destruct (tight_trimmed a Ha) as [[Ha1 _] Ha2].
  destruct (tight_trimmed b Hb) as [[_ Hb1] Hb2].
  split; [destruct a; [congruence|discriminate]|].
  apply trimmed_trim. split.
  - rewrite trimStart_app; rewrite Ha1; auto.
  - rewrite !rev_app_distr, <- app_assoc.
    assert (rev b <> []) by (intros E; apply Hb2; rewrite <- (rev_involutive b), E;
                             reflexivity).
    rewrite trimStart_app; rewrite Hb1; auto.
Qed.

Lemma tight_join (sep : jstring) (items : list jstring) :
  items <> [] -> Forall tight items -> tight (join sep items).
Proof.
  intros Hne Hall. induction Hall as [|item items Hitem Hrest IH]; [congruence|].
  destruct items as [|item' items]; [exact Hitem|].
  change (join sep (item :: item' :: items))
    with (item ++ sep ++ join sep (item' :: items)).
  apply tight_app; [exact Hitem|apply IH; discriminate].
Qed.

Lemma tight_nonblank (t : jstring) : tight t -> is_empty (trim t) = false.
Proof. intros [Hne Htrim]. rewrite Htrim. destruct t; [congruence|reflexivity]. Qed.

Lemma tight_brackets (a b : char) (m : jstring) :
  is_ws a = false -> is_ws b = false -> tight ([a] ++ m ++ [b]).
Proof.
  intros Ha Hb. split; [discriminate|]. apply (trim_ends a b m Ha Hb).
Qed.

Lemma scalar_text_tight (v : Value) : scalar v -> tight (flat_text v).
Proof. intros H. destruct (scalar_text_trim v H). split; assumption. Qed.

Lemma plain_key_tight (k : jstring) : plain_key k -> tight k.
Proof. intros (H1 & H2 & _). split; assumption. Qed.

Lemma plain_key_inert (sep : char) (k : jstring) :
  plain_key k -> sep = c_PIPE \/ sep = c_COMMA \/ sep = c_COLON ->
  forallb (inert_for sep) k = true.
Proof.
  intros (_ & _ & H & _) Hsep. rewrite forallb_forall in *.
  intros c Hc. specialize (H c Hc).
  apply andb_true_iff in H. destruct H as [H H3].
  apply andb_true_iff in H. destruct H as [H1 H2].
  destruct Hsep as [E|[E|E]]; subst sep; assumption.
Qed.

(** ** Objects built by assignment *)

Lemma obj_get_app_fresh {A : Type} (o : list (jstring * A)) (k : jstring) (v : A) :
  obj_get o k = None -> obj_get (o ++ [(k, v)]) k = Some v.
Proof.
  induction o as [|[k' v'] o IH]; simpl.
  - rewrite jstring_eqb_refl. reflexivity.
  - destruct (jstring_eqb k' k); [discriminate|exact IH].
Qed.

Lemma obj_get_app_other {A : Type} (o : list (jstring * A)) (k k' : jstring)
    (v : A) :
  k' <> k -> obj_get (o ++ [(k', v)]) k = obj_get o k.
Proof.
  intros Hne. induction o as [|[k0 v0] o IH]; simpl.
  - rewrite (jstring_eqb_neq _ _ Hne). reflexivity.
  - destruct (jstring_eqb k0 k); [reflexivity|exact IH].
Qed.

Lemma obj_get_none {A : Type} (o : list (jstring * A)) (k : jstring) :
  ~ In k (obj_keys o) -> obj_get o k = None.
Proof.
  induction o as [|[k' v'] o IH]; simpl; [reflexivity|]. intros H.
  rewrite jstring_eqb_neq by (intros E; apply H; left; exact E).
  apply IH. intros Hin. apply H. right. exact Hin.
Qed.

(** A new plain key goes last. *)
Lemma obj_set_fresh {A : Type} (o : list (jstring * A)) (k : jstring) (v : A) :
  plain_key k -> ~ In k (obj_keys o) -> obj_set o k v = o ++ [(k, v)].
Proof.
  intros (_ & _ & _ & Hidx & Hproto) Hfresh. unfold obj_set.
  rewrite (jstring_eqb_neq _ _ Hproto), (obj_get_none o k Hfresh), Hidx.
  reflexivity.
Qed.

(** An assignment to a key other than [__proto__] does not look at the
    prototype. *)
Lemma obj_assign_other (o : list (jstring * Value)) (inh : bool)
    (k : jstring) (v : Value) (vinh : bool) :
  k <> str "__proto__" -> obj_assign o inh k v vinh = (obj_set o k v, inh).
Proof.
  intros Hk. unfold obj_assign. rewrite (jstring_eqb_neq _ _ Hk).
  reflexivity.
Qed.

Lemma obj_assign_plain (o : list (jstring * Value)) (inh : bool)
    (k : jstring) (v : Value) (vinh : bool) :
  plain_key k -> obj_assign o inh k v vinh = (obj_set o k v, inh).
Proof. intros (_ & _ & _ & _ & Hk). apply obj_assign_other, Hk. Qed.

Lemma obj_keys_app {A : Type} (o o' : list (jstring * A)) :
  obj_keys (o ++ o') = obj_keys o ++ obj_keys o'.
Proof. apply map_app. Qed.

(** Assigning the plain, distinct keys [ks] one after the other. *)
Lemma fold_obj_set_fresh {A : Type} (f : jstring -> A) (ks : list jstring) :
  forall acc,
    Forall plain_key ks -> NoDup ks ->
    (forall k, In k ks -> ~ In k (obj_keys acc)) ->
    fold_left (fun row key => obj_set row key (f key)) ks acc
    = acc ++ map (fun key => (key, f key)) ks.
Proof.
  induction ks as [|k ks IH]; intros acc Hplain Hnd Hfresh.
  - simpl. rewrite app_nil_r. reflexivity.
  - inversion Hplain as [|? ? Hk Hks]; subst.
    inversion Hnd as [|? ? Hnotin Hnd']; subst.
    cbn [fold_left map].
    rewrite obj_set_fresh by (auto; apply Hfresh; left; reflexivity).
    rewrite IH; auto.
    + rewrite <- app_assoc. reflexivity.
    + intros k' Hk' Hin. rewrite obj_keys_app in Hin. apply in_app_or in Hin.
      destruct Hin as [Hin|[<-|[]]].
      * apply (Hfresh k'); [right; exact Hk'|exact Hin].
      * contradiction.
Qed.

Lemma obj_get_map {A : Type} (g : jstring -> A) (keys : list jstring)
    (k : jstring) :
  In k keys -> obj_get (map (fun key => (key, g key)) keys) k = Some (g k).
Proof.
  induction keys as [|k' keys IH]; simpl; [intros []|].
  intros H. destruct (jstring_eqb_spec k' k) as [->|Hne]; [reflexivity|].
  destruct H as [H|H]; [congruence|apply IH, H].
Qed.

Lemma map_result_map {A B C : Type} (f : B -> result C) (g : A -> B)
    (h : A -> C) (xs : list A) :
  (forall x, In x xs -> f (g x) = Ok (h x)) ->
  map_result f (map g xs) = Ok (map h xs).
Proof.
  induction xs as [|x xs IH]; intros H; [reflexivity|].
  cbn [map map_result]. rewrite (H x) by (left; reflexivity).
  cbn [bind]. rewrite IH by (intros; apply H; right; assumption).
  reflexivity.
Qed.

Lemma map_nth_seq {A B : Type} (F : A -> B) (d : A) (l : list A) :
  map (fun i => F (nth i l d)) (seq 0 (length l)) = map F l.
Proof.
  induction l as [|a l IH]; [reflexivity|].
  cbn [length seq map nth]. f_equal.
  rewrite <- seq_shift, map_map. exact IH.
Qed.

(* ================================================================== *)
(** * Nested values: what is written flat is read back *)
(* ================================================================== *)

(** ** The flat text of objects and arrays *)

Lemma stringifyValue_flat_object (props : list (jstring * Value)) (depth : nat)
    (columnar : bool) :
  props <> [] ->
  stringifyValue (VObject props) depth false columnar
  = [c_LBRACE]
      ++ join [c_PIPE]
           (map (fun entry =>
                   fst entry ++ [c_COLON]
                     ++ stringifyValue (snd entry) (S depth) false columnar)
              props)
      ++ [c_RBRACE].
Proof.
  intros Hne. destruct props as [|entry props]; [congruence|].
  cbn [stringifyValue andb]. do 2 f_equal. f_equal.
  apply map_ext. intros [k v]. reflexivity.
Qed.

(** Written flat, a value has the same text at every depth. *)
Lemma flat_text_depth (v : Value) :
  forall depth, stringifyValue v depth false false = flat_text v.
Proof.
  unfold flat_text.
  induction v as [| | | | |items IH|props IH] using Value_nested_ind;
    intros depth; try reflexivity.
  - destruct items as [|item items]; [reflexivity|].
    rewrite !stringifyValue_standard_array by (discriminate || reflexivity).
    do 2 f_equal. f_equal. f_equal. apply map_ext_in. intros x Hx.
    rewrite Forall_forall in IH. rewrite (IH x Hx (S depth)).
    symmetry. apply (IH x Hx).
  - destruct props as [|entry props]; [reflexivity|].
    rewrite !stringifyValue_flat_object by discriminate.
    do 2 f_equal. f_equal. apply map_ext_in. intros x Hx.
    rewrite Forall_forall in IH. rewrite (IH x Hx (S depth)).
    do 2 f_equal. symmetry. apply (IH x Hx).
Qed.

Lemma object_text (props : list (jstring * Value)) :
  props <> [] ->
  flat_text (VObject props)
  = [c_LBRACE] ++ join [c_PIPE] (map entry_text props) ++ [c_RBRACE].
Proof.
  intros Hne. unfold flat_text at 1.
  rewrite stringifyValue_flat_object by exact Hne.
  do 2 f_equal. f_equal. apply map_ext. intros entry.
  unfold entry_text, pair_text. rewrite flat_text_depth. reflexivity.
Qed.

Lemma includes_join_false (c : char) (sep : jstring) (items : list jstring) :
  includes c sep = false ->
  Forall (fun t => includes c t = false) items ->
  includes c (join sep items) = false.
Proof.
  intros Hsep Hall. induction Hall as [|item items Hitem Hrest IH];
    [reflexivity|].
  destruct items as [|item' items]; [exact Hitem|].
  change (join sep (item :: item' :: items))
    with (item ++ sep ++ join sep (item' :: items)).
  rewrite !includes_app, Hitem, Hsep, IH. reflexivity.
Qed.

Lemma array_text (items : list Value) :
  items <> [] ->
  Forall (fun item => includes c_PIPE (flat_text item) = false) items ->
  flat_text (VArray items)
  = [c_LBRACKET] ++ join [c_COMMA] (map flat_text items) ++ [c_RBRACKET].
Proof.
  intros Hne Hpipe. unfold flat_text at 1.
  rewrite stringifyValue_standard_array by (assumption || reflexivity).
  rewrite (map_ext _ flat_text) by (intros; apply flat_text_depth).
  rewrite replace_chars_id; [reflexivity|].
  intros c Hc. apply N.eqb_neq. intros <-. revert Hc. apply includes_false.
  apply includes_join_false; [reflexivity|].
  apply Forall_forall. intros t Ht. apply in_map_iff in Ht.
  destruct Ht as (item & <- & Hitem).
  rewrite Forall_forall in Hpipe. apply Hpipe, Hitem.
Qed.

Lemma length_join_in (sep : jstring) (items : list jstring) (x : jstring) :
  In x items -> (length x <= length (join sep items))%nat.
Proof.
  induction items as [|a items IH]; [intros []|].
  intros Hin. destruct items as [|b items].
  - destruct Hin as [<-|[]]. simpl. lia.
  - change (join sep (a :: b :: items)) with (a ++ sep ++ join sep (b :: items)).
    rewrite !length_app. destruct Hin as [<-|Hin]; [lia|].
    specialize (IH Hin). lia.
Qed.

(** ** Readable values *)

Lemma readable_atom (v : Value) :
  readable v ->
  match v with
  | VArray _ | VObject _ => True
  | _ => scalar v
  end.
Proof.
  intros H. inversion H as [v' Hs|props Hnd Hall|items Hall]; subst; auto.
  destruct v; auto.
Qed.

Lemma readable_object_inv (props : list (jstring * Value)) :
  readable (VObject props) ->
  NoDup (obj_keys props)
  /\ Forall (fun entry => plain_key (fst entry) /\ readable (snd entry)) props.
Proof.
  intros H. inversion H as [v' Hs|props' Hnd Hall|]; subst;
    [destruct Hs|auto].
Qed.

Lemma readable_array_inv (items : list Value) :
  readable (VArray items) ->
  Forall (fun item => readable item /\ item <> VUndefined
                      /\ includes c_PIPE (flat_text item) = false) items.
Proof.
  intros H. inversion H as [v' Hs| |items' Hall]; subst; [destruct Hs|auto].
Qed.

Lemma readable_array_no_pipe (items : list Value) :
  readable (VArray items) ->
  Forall (fun item => includes c_PIPE (flat_text item) = false) items.
Proof.
  intros H. apply readable_array_inv in H.
  eapply Forall_impl; [|exact H]. cbn beta. tauto.
Qed.

Lemma readable_tight (v : Value) : readable v -> tight (flat_text v).
Proof.
  intros H. pose proof H as H'.
  inversion H as [v' Hs|props Hnd Hall|items Hall]; subst.
  - apply scalar_text_tight, Hs.
  - destruct props as [|entry props]; [split; [discriminate|reflexivity]|].
    rewrite object_text by discriminate.
    apply (tight_brackets c_LBRACE c_RBRACE); reflexivity.
  - destruct items as [|item items]; [split; [discriminate|reflexivity]|].
    rewrite array_text by (discriminate || apply readable_array_no_pipe, H').
    apply (tight_brackets c_LBRACKET c_RBRACKET); reflexivity.
Qed.

(** ** Readable values are sealed for the pipe and for the comma *)

Lemma pair_text_sealed (m : Z) (sep : char) (k : jstring) (v : Value) :
  plain_key k -> sep = c_PIPE \/ sep = c_COMMA ->
  sealed_at m sep (flat_text v) -> sealed_at m sep (pair_text k v).
Proof.
  intros Hk Hsep Hv. unfold pair_text.
  rewrite <- (app_nil_l (k ++ [c_COLON] ++ flat_text v)).
  rewrite (app_assoc k). apply sealed_at_app_inert.
  - apply sealed_at_nil.
  - rewrite forallb_app, (plain_key_inert sep k Hk) by tauto.
    destruct Hsep; subst sep; reflexivity.
  - destruct k; discriminate.
  - rewrite prev_after_app. reflexivity.
  - exact Hv.
Qed.

(** Texts sealed one level down, joined by a pipe or by a comma. *)
Lemma sealed_at_join_any (m : Z) (sep sep' : char) (items : list jstring) :
  (1 <= m)%Z ->
  sep = c_PIPE \/ sep = c_COMMA -> sep' = c_PIPE \/ sep' = c_COMMA ->
  Forall (sealed_at m sep) items -> sealed_at m sep (join [sep'] items).
Proof.
  intros Hm Hsep Hsep' Hall.
  destruct (N.eq_dec sep' sep) as [->|Hne].
  - apply sealed_at_join_sep; [exact Hm| |exact Hall].
    destruct Hsep; subst sep; reflexivity.
  - apply sealed_at_join; [| |exact Hall].
    + destruct Hsep, Hsep'; subst sep sep'; try reflexivity; congruence.
    + destruct Hsep'; subst sep'; discriminate.
Qed.

Lemma readable_sealed (v : Value) :
  readable v ->
  forall sep m, sep = c_PIPE \/ sep = c_COMMA -> (0 <= m)%Z ->
  sealed_at m sep (flat_text v).
Proof.
  induction v as [| | | | |items IH|props IH] using Value_nested_ind;
    intros Hr sep m Hsep Hm;
    try (apply scalar_text_sealed; [apply (readable_atom _ Hr)|tauto]).
  - pose proof (readable_array_no_pipe items Hr) as Hpipe.
    apply readable_array_inv in Hr.
    assert (Hwrap : forall body,
              sealed_at (m + 1) sep body ->
              sealed_at m sep ([c_LBRACKET] ++ body ++ [c_RBRACKET])).
    { intros body. apply sealed_at_wrap; auto;
        destruct Hsep; subst sep; discriminate. }
    destruct items as [|item items]; [apply (Hwrap []), sealed_at_nil|].
    rewrite array_text by (discriminate || exact Hpipe).
    apply Hwrap. apply sealed_at_join_any; [lia|exact Hsep|auto|].
    apply Forall_forall. intros t Ht. apply in_map_iff in Ht.
    destruct Ht as (x & <- & Hx). rewrite Forall_forall in IH, Hr.
    apply (IH x Hx); [apply (Hr x Hx)|exact Hsep|lia].
  - apply readable_object_inv in Hr. destruct Hr as [_ Hall].
    assert (Hwrap : forall body,
              sealed_at (m + 1) sep body ->
              sealed_at m sep ([c_LBRACE] ++ body ++ [c_RBRACE])).
    { intros body. apply sealed_at_wrap; auto;
        destruct Hsep; subst sep; discriminate. }
    destruct props as [|entry props]; [apply (Hwrap []), sealed_at_nil|].
    rewrite object_text by discriminate.
    apply Hwrap. apply sealed_at_join_any; [lia|exact Hsep|auto|].
    apply Forall_forall. intros t Ht. apply in_map_iff in Ht.
    destruct Ht as (x & <- & Hx). rewrite Forall_forall in IH, Hall.
    destruct (Hall x Hx) as [Hk Hv].
    apply pair_text_sealed; [exact Hk|exact Hsep|].
    apply (IH x Hx); [exact Hv|exact Hsep|lia].
Qed.

(** ** Reading a text between braces or brackets *)

Lemma parseValue_body_object (pv : jstring -> result Value)
    (pi : jstring -> bool) (t : jstring) :
  trim t = t -> startsWith c_LBRACE t = true ->
  parseValue_body pv pi t = parseObject pv pi t.
Proof.
  intros Htrim Hs. unfold parseValue_body. rewrite Htrim.
  destruct t as [|c t']; [discriminate|]. simpl in Hs.
  apply N.eqb_eq in Hs. subst c. reflexivity.
Qed.

Lemma parseObject_braces (pv : jstring -> result Value)
    (pi : jstring -> bool) (body : jstring) :
  parseObject pv pi ([c_LBRACE] ++ body ++ [c_RBRACE])
  = if is_empty (trim body) then Ok (VObject [])
    else parsePipeDelimited pv pi (trim body).
Proof.
  unfold parseObject. cbn [app].
  rewrite (trim_ends c_LBRACE c_RBRACE body) by reflexivity.
  assert (Hend : endsWith c_RBRACE (c_LBRACE :: body ++ [c_RBRACE]) = true).
  { unfold endsWith.
    change (c_LBRACE :: body ++ [c_RBRACE]) with ((c_LBRACE :: body) ++ [c_RBRACE]).
    rewrite rev_app_distr. reflexivity. }
  assert (Hslice : slice_1_m1 (c_LBRACE :: body ++ [c_RBRACE]) = body)
    by (unfold slice_1_m1; cbn [tl]; apply removelast_last).
  rewrite Hend, Hslice. reflexivity.
Qed.

Lemma parseValue_body_array (pv : jstring -> result Value)
    (pi : jstring -> bool) (t : jstring) :
  trim t = t -> startsWith c_LBRACKET t = true ->
  parseValue_body pv pi t = parseArray pv t.
Proof.
  intros Htrim Hs. unfold parseValue_body. rewrite Htrim.
  destruct t as [|c t']; [discriminate|]. simpl in Hs.
  apply N.eqb_eq in Hs. subst c. reflexivity.
Qed.

Lemma parseArray_brackets (pv : jstring -> result Value) (body : jstring) :
  parseArray pv ([c_LBRACKET] ++ body ++ [c_RBRACKET])
  = if is_empty (trim body) then Ok (VArray [])
    else if includes c_PIPE (trim body) && includes c_COLON (trim body) then
      parseColumnarArray pv (trim body)
    else
      vs <- map_result (fun item => pv (trim item))
              (splitArrayItems (trim body)) ;;
      Ok (VArray (filter (fun v => negb (is_undefined v)) vs)).
Proof.
  unfold parseArray. cbn [app].
  rewrite (trim_ends c_LBRACKET c_RBRACKET body) by reflexivity.
  assert (Hend : endsWith c_RBRACKET (c_LBRACKET :: body ++ [c_RBRACKET])
                 = true).
  { unfold endsWith.
    change (c_LBRACKET :: body ++ [c_RBRACKET])
      with ((c_LBRACKET :: body) ++ [c_RBRACKET]).
    rewrite rev_app_distr. reflexivity. }
  assert (Hslice : slice_1_m1 (c_LBRACKET :: body ++ [c_RBRACKET]) = body)
    by (unfold slice_1_m1; cbn [tl]; apply removelast_last).
  rewrite Hend, Hslice. reflexivity.
Qed.

(** ** The pairs of an object *)

(** One turn of the loop of [parsePipeDelimited] on a pair whose value
    text [t] is read as [v]. *)
Lemma parsePipeDelimited_loop_step (pv : jstring -> result Value)
    (pi : jstring -> bool)
    (k t : jstring) (v : Value) (rest : list jstring)
    (obj : list (jstring * Value)) (inh : bool) :
  plain_key k -> tight t -> pv t = Ok v ->
  parsePipeDelimited_loop pv pi ((k ++ [c_COLON] ++ t) :: rest) obj inh
  = parsePipeDelimited_loop pv pi rest (obj_set obj k v) inh.
Proof.
  intros Hk Ht Hpv. cbn [parsePipeDelimited_loop].
  rewrite (tight_nonblank _ (tight_app k [c_COLON] t (plain_key_tight k Hk) Ht)).
  cbn [app].
  rewrite (findTopLevelColon_key k _ (plain_key_inert c_COLON k Hk
                                        ltac:(auto))).
  unfold substring_to, substring_from.
  rewrite firstn_app, firstn_all, Nat.sub_diag, app_nil_r.
  rewrite skipn_app, skipn_all2 by lia.
  replace (length k + 1 - length k)%nat with 1%nat by lia.
  cbn [skipn app firstn].
  destruct (plain_key_tight k Hk) as [_ ->].
  destruct Ht as [_ ->].
  rewrite Hpv. cbn [bind]. rewrite obj_assign_plain by exact Hk.
  reflexivity.
Qed.

Section OnePair.
Variable pv : jstring -> result Value.
Variable pi : jstring -> bool.
Variables (k : jstring) (v : Value).
Hypothesis k_plain : plain_key k.
Hypothesis v_tight : tight (flat_text v).
Hypothesis pv_v : pv (flat_text v) = Ok v.

Lemma pair_text_tight : tight (pair_text k v).
Proof.
  unfold pair_text.
  apply tight_app; [apply plain_key_tight, k_plain|exact v_tight].
Qed.

(** One turn of the loop of [parsePipeDelimited] on the text of a pair. *)
Lemma parsePipeDelimited_loop_pair (rest : list jstring)
    (obj : list (jstring * Value)) (inh : bool) :
  parsePipeDelimited_loop pv pi (pair_text k v :: rest) obj inh
  = parsePipeDelimited_loop pv pi rest (obj_set obj k v) inh.
Proof.
  apply parsePipeDelimited_loop_step; [exact k_plain|exact v_tight|exact pv_v].
Qed.
End OnePair.

(** The loop over the texts of the pairs adds them in order. *)
Lemma parsePipeDelimited_loop_entries (pv : jstring -> result Value)
    (pi : jstring -> bool)
    (props : list (jstring * Value)) :
  forall obj inh,
    Forall (fun entry => plain_key (fst entry)
                         /\ tight (flat_text (snd entry))
                         /\ pv (flat_text (snd entry)) = Ok (snd entry))
      props ->
    NoDup (obj_keys props) ->
    (forall k, In k (obj_keys props) -> ~ In k (obj_keys obj)) ->
    parsePipeDelimited_loop pv pi (map entry_text props) obj inh
    = Ok (obj ++ props, inh).
Proof.
  induction props as [|[k v] props IH]; intros obj inh Hall Hnd Hfresh.
  - simpl. rewrite app_nil_r. reflexivity.
  - inversion Hall as [|? ? (Hk & Ht & Hpv) Hrest]; subst.
    cbn [fst snd] in Hk, Ht, Hpv.
    unfold obj_keys in Hnd. cbn [map fst] in Hnd.
    inversion Hnd as [|? ? Hnotin Hnd']; subst.
    cbn [map]. unfold entry_text at 1. cbn [fst snd].
    rewrite parsePipeDelimited_loop_pair by assumption.
    rewrite obj_set_fresh by (auto; apply Hfresh; left; reflexivity).
    rewrite IH; auto.
    + rewrite <- app_assoc. reflexivity.
    + intros k' Hk' Hin. rewrite obj_keys_app in Hin. apply in_app_or in Hin.
      destruct Hin as [Hin|[<-|[]]].
      * apply (Hfresh k'); [right; exact Hk'|exact Hin].
      * contradiction.
Qed.

Lemma filter_defined (items : list Value) :
  Forall (fun item => item <> VUndefined) items ->
  filter (fun v => negb (is_undefined v)) items = items.
Proof.
  induction 1 as [|item items Hitem _ IH]; [reflexivity|].
  cbn [filter]. rewrite IH. destruct item; try reflexivity. congruence.
Qed.

(** ** Readable values are read back *)

Theorem readable_parse (v : Value) :
  readable v ->
  forall fuel, (length (flat_text v) <= fuel)%nat ->
  parseValue fuel (flat_text v) = Ok v.
Proof.
  induction v as [| | | | |items IH|props IH] using Value_nested_ind;
    intros Hr fuel Hfuel;
    try (destruct fuel as [|fuel];
         [destruct (readable_tight _ Hr) as [Hne _];
          destruct (flat_text _); [congruence|simpl in Hfuel; lia]
         |apply parseValue_body_scalar, (readable_atom _ Hr)]).
  - pose proof (readable_array_no_pipe items Hr) as Hpipe.
    apply readable_array_inv in Hr.
    destruct fuel as [|fuel]; [destruct items; simpl in Hfuel; lia|].
    destruct items as [|item items]; [reflexivity|].
    remember (item :: items) as its eqn:Eits.
    assert (Hits : its <> []) by (subst its; discriminate).
    rewrite array_text in Hfuel |- * by assumption.
    assert (Htexts : map flat_text its <> [])
      by (subst its; discriminate).
    assert (Htight : Forall tight (map flat_text its)).
    { apply Forall_forall. intros t Ht. apply in_map_iff in Ht.
      destruct Ht as (x & <- & Hx). rewrite Forall_forall in Hr.
      apply readable_tight, (Hr x Hx). }
    pose proof (tight_join [c_COMMA] _ Htexts Htight) as Hbody.
    cbn [parseValue].
    rewrite parseValue_body_array;
      [|apply (tight_brackets c_LBRACKET c_RBRACKET); reflexivity|reflexivity].
    rewrite parseArray_brackets, (tight_nonblank _ Hbody).
    destruct Hbody as [_ Htrim]. rewrite Htrim.
    rewrite (includes_join_false c_PIPE [c_COMMA] (map flat_text its));
      [|reflexivity|].
    2:{ apply Forall_forall. intros t Ht. apply in_map_iff in Ht.
        destruct Ht as (x & <- & Hx). rewrite Forall_forall in Hpipe.
        apply (Hpipe x Hx). }
    cbn [andb]. rewrite splitArrayItems_join; [|exact Htexts|].
    2:{ apply Forall_forall. intros t Ht. pose proof Ht as Ht'.
        apply in_map_iff in Ht.
        destruct Ht as (x & <- & Hx). rewrite Forall_forall in Hr, Htight.
        split; [apply readable_sealed; [apply (Hr x Hx)|auto|lia]|].
        destruct (Htight _ Ht') as [Hne ->]. exact Hne. }
    rewrite (map_result_map _ flat_text (fun x => x) its).
    + cbn [bind]. rewrite map_id. rewrite filter_defined; [reflexivity|].
      eapply Forall_impl; [|exact Hr]. cbn beta. tauto.
    + intros x Hx. rewrite Forall_forall in IH, Hr.
      destruct (readable_tight x) as [_ ->]; [apply (Hr x Hx)|].
      apply (IH x Hx); [apply (Hr x Hx)|].
      pose proof (length_join_in [c_COMMA] (map flat_text its) (flat_text x)
                    (in_map flat_text its x Hx)) as Hlen.
      cbn [app length] in Hfuel. rewrite length_app in Hfuel. lia.
  - apply readable_object_inv in Hr. destruct Hr as [Hnd Hall].
    destruct fuel as [|fuel]; [destruct props; simpl in Hfuel; lia|].
    destruct props as [|entry props]; [reflexivity|].
    remember (entry :: props) as ps eqn:Eps.
    assert (Hps : ps <> []) by (subst ps; discriminate).
    rewrite object_text in Hfuel |- * by assumption.
    assert (Htexts : map entry_text ps <> [])
      by (subst ps; discriminate).
    assert (Htight : Forall tight (map entry_text ps)).
    { apply Forall_forall. intros t Ht. apply in_map_iff in Ht.
      destruct Ht as (x & <- & Hx). rewrite Forall_forall in Hall.
      destruct (Hall x Hx) as [Hk Hv].
      apply pair_text_tight; [exact Hk|apply readable_tight, Hv]. }
    pose proof (tight_join [c_PIPE] _ Htexts Htight) as Hbody.
    cbn [parseValue].
    rewrite parseValue_body_object;
      [|apply (tight_brackets c_LBRACE c_RBRACE); reflexivity|reflexivity].
    rewrite parseObject_braces, (tight_nonblank _ Hbody).
    destruct Hbody as [_ Htrim]. rewrite Htrim.
    unfold parsePipeDelimited. rewrite splitByPipe_join; [|exact Htexts|].
    2:{ apply Forall_forall. intros t Ht. pose proof Ht as Ht'.
        apply in_map_iff in Ht.
        destruct Ht as (x & <- & Hx). rewrite Forall_forall in Hall, Htight.
        destruct (Hall x Hx) as [Hk Hv].
        split; [|apply (Htight _ Ht')].
        apply pair_text_sealed; [exact Hk|auto|].
        apply readable_sealed; [exact Hv|auto|lia]. }
    rewrite parsePipeDelimited_loop_entries; [reflexivity| |exact Hnd|].
    + apply Forall_forall. intros x Hx. rewrite Forall_forall in IH, Hall.
      destruct (Hall x Hx) as [Hk Hv].
      split; [exact Hk|]. split; [apply readable_tight, Hv|].
      apply (IH x Hx); [exact Hv|].
      pose proof (length_join_in [c_PIPE] (map entry_text ps) (entry_text x)
                    (in_map entry_text ps x Hx)) as Hlen.
      assert (Hpair : (length (flat_text (snd x)) <= length (entry_text x))%nat)
        by (unfold entry_text, pair_text; rewrite !length_app; lia).
      cbn [app length] in Hfuel. rewrite length_app in Hfuel. lia.
    + intros k _ [].
Qed.
(* ================================================================== *)
(** * Arrays in columns: what is written is read back *)
(* ================================================================== *)

Section Columns.
Variable pv : jstring -> result Value.
Variable rows : list (list (jstring * Value)).
Hypothesis rows_nonempty : rows <> [].

Local Abbreviation cells := (column_cells rows).
Local Abbreviation texts := (column_texts rows).

Section OneColumn.
Variable key : jstring.
Hypothesis key_plain : plain_key key.
Hypothesis cells_readable :
  forall row, In row rows -> readable (row_get row key).

Lemma texts_tight : Forall tight (texts key).
Proof.
  apply Forall_forall. intros t Ht. apply in_map_iff in Ht.
  destruct Ht as (row & <- & Hrow). apply readable_tight, cells_readable, Hrow.
Qed.

Lemma texts_nonempty : texts key <> [].
Proof. unfold column_texts. destruct rows; [congruence|discriminate]. Qed.

Lemma texts_sealed (sep : char) :
  sep = c_PIPE \/ sep = c_COMMA ->
  Forall (sealed sep) (texts key).
Proof.
  intros Hsep. apply Forall_forall. intros t Ht. apply in_map_iff in Ht.
  destruct Ht as (row & <- & Hrow).
  apply readable_sealed; [apply cells_readable, Hrow|exact Hsep|lia].
Qed.

Lemma column_text_tight : tight (column_text rows key).
Proof.
  unfold column_text. apply tight_app; [apply plain_key_tight, key_plain|].
  apply tight_join; [apply texts_nonempty|apply texts_tight].
Qed.

Lemma column_text_sealed : sealed c_PIPE (column_text rows key).
Proof.
  unfold column_text.
  rewrite <- (app_nil_l (key ++ [c_COLON] ++ join [c_COMMA] (texts key))).
  rewrite (app_assoc key). apply (sealed_at_app_inert 0).
  - apply (sealed_at_nil 0).
  - rewrite forallb_app, (plain_key_inert c_PIPE key key_plain) by auto.
    reflexivity.
  - destruct key; discriminate.
  - rewrite prev_after_app. reflexivity.
  - apply (sealed_at_join 0); [reflexivity|discriminate|apply texts_sealed; auto].
Qed.

Lemma splitArrayItems_texts :
  splitArrayItems (join [c_COMMA] (texts key)) = texts key.
Proof.
  apply splitArrayItems_join; [apply texts_nonempty|].
  pose proof texts_tight as Ht. pose proof (texts_sealed c_COMMA) as Hs.
  rewrite Forall_forall in *. intros t Hin. split; [apply Hs; auto|].
  destruct (Ht t Hin) as [Hne Htrim]. rewrite Htrim. exact Hne.
Qed.

Hypothesis cells_read :
  forall row, In row rows ->
    pv (flat_text (row_get row key)) = Ok (row_get row key).

Lemma parse_texts :
  map_result (fun v => pv (trim v)) (texts key) = Ok (cells key).
Proof.
  unfold column_texts, column_cells. apply map_result_map. intros row Hrow.
  destruct (readable_tight _ (cells_readable row Hrow)) as [_ ->].
  apply cells_read, Hrow.
Qed.

(** One turn of the loop of [parseColumnarArray] on the text of a column. *)
Lemma parseColumnarArray_loop_column (rest : list jstring)
    (columns : list (jstring * list Value)) :
  parseColumnarArray_loop pv (column_text rows key :: rest) columns
  = parseColumnarArray_loop pv rest (obj_set columns key (cells key)).
Proof.
  cbn [parseColumnarArray_loop].
  rewrite (tight_nonblank _ column_text_tight).
  unfold column_text at 1 2 3. cbn [app].
  rewrite (findTopLevelColon_key key _ (plain_key_inert c_COLON key key_plain
                                          ltac:(auto))).
  unfold substring_to, substring_from.
  rewrite firstn_app, firstn_all, Nat.sub_diag, app_nil_r.
  replace (length key + 1)%nat with (length key + 1)%nat by reflexivity.
  rewrite skipn_app, skipn_all2 by lia.
  replace (length key + 1 - length key)%nat with 1%nat by lia.
  cbn [skipn app firstn].
  destruct (plain_key_tight key key_plain) as [_ ->].
  destruct (tight_join [c_COMMA] (texts key) texts_nonempty texts_tight)
    as [_ ->].
  rewrite splitArrayItems_texts, parse_texts. reflexivity.
Qed.
End OneColumn.

(** The loop over the texts of the columns [ks] adds them in order. *)
Lemma parseColumnarArray_loop_columns (ks : list jstring) :
  forall columns,
    Forall plain_key ks -> NoDup ks ->
    (forall key row, In key ks -> In row rows ->
       readable (row_get row key)
       /\ pv (flat_text (row_get row key)) = Ok (row_get row key)) ->
    (forall key, In key ks -> ~ In key (obj_keys columns)) ->
    parseColumnarArray_loop pv (map (column_text rows) ks) columns
    = Ok (columns ++ map (fun key => (key, cells key)) ks).
Proof.
  induction ks as [|k ks IH]; intros columns Hplain Hnd Hcells Hfresh.
  - simpl. rewrite app_nil_r. reflexivity.
  - inversion Hplain as [|? ? Hk Hks]; subst.
    inversion Hnd as [|? ? Hnotin Hnd']; subst.
    cbn [map]. rewrite parseColumnarArray_loop_column;
      [|exact Hk
       |intros row Hrow; apply Hcells; [left; reflexivity|exact Hrow]
       |intros row Hrow; apply Hcells; [left; reflexivity|exact Hrow]].
    rewrite obj_set_fresh by (auto; apply Hfresh; left; reflexivity).
    rewrite IH; auto.
    + rewrite <- app_assoc. reflexivity.
    + intros key row Hkey Hrow. apply Hcells; [right; exact Hkey|exact Hrow].
    + intros k' Hk' Hin. rewrite obj_keys_app in Hin. apply in_app_or in Hin.
      destruct Hin as [Hin|[<-|[]]].
      * apply (Hfresh k'); [right; exact Hk'|exact Hin].
      * contradiction.
Qed.

Variable keys : list jstring.
Hypothesis keys_plain : Forall plain_key keys.
Hypothesis keys_nodup : NoDup keys.
Hypothesis keys_nonempty : keys <> [].
Hypothesis cells_readable :
  forall key row, In key keys -> In row rows -> readable (row_get row key).
Hypothesis cells_read :
  forall key row, In key keys -> In row rows ->
    pv (flat_text (row_get row key)) = Ok (row_get row key).

Lemma columnar_row_rows (i : nat) :
  columnar_row (map (fun key => (key, cells key)) keys) keys i
  = VObject (map (fun key => (key, row_get (nth i rows []) key)) keys).
Proof.
  unfold columnar_row. f_equal.
  rewrite fold_obj_set_fresh; auto. cbn [app].
  apply map_ext_in. intros key Hkey.
  rewrite (obj_get_map cells keys key Hkey). unfold column_at, column_cells.
  f_equal.
  change VUndefined with ((fun row => row_get row key) []).
  apply map_nth.
Qed.

Lemma columns_cover :
  Forall (fun col => sealed c_PIPE col /\ col <> [])
    (map (column_text rows) keys).
Proof.
  apply Forall_forall. intros col Hcol. apply in_map_iff in Hcol.
  destruct Hcol as (key & <- & Hkey).
  assert (Hk : plain_key key) by (revert key Hkey; apply Forall_forall, keys_plain).
  split.
  - apply column_text_sealed; [exact Hk|]. intros row Hrow. auto.
  - apply column_text_tight; [exact Hk|]. intros row Hrow. auto.
Qed.

(** [parseColumnarArray] on the pipe-joined texts of the columns gives the
    rows. *)
Lemma parseColumnarArray_columns :
  parseColumnarArray pv (join [c_PIPE] (map (column_text rows) keys))
  = Ok (VArray (rows_by_keys keys rows)).
Proof.
  unfold parseColumnarArray.
  rewrite splitByPipe_join;
    [|destruct keys; [congruence|discriminate]|apply columns_cover].
  rewrite parseColumnarArray_loop_columns; auto. cbn [app bind].
  unfold obj_keys. rewrite map_map. cbn [fst]. rewrite map_id.
  assert (Hrows : map (columnar_row (map (fun key => (key, cells key)) keys) keys)
                    (seq 0 (length rows))
                  = rows_by_keys keys rows).
  { unfold rows_by_keys.
    rewrite <- (map_nth_seq
                  (fun row => VObject (map (fun key => (key, row_get row key)) keys))
                  [] rows).
    apply map_ext. intros i. apply columnar_row_rows. }
  assert (Hlen : forall key0, In key0 keys ->
            obj_get (map (fun key => (key, cells key)) keys) key0
            = Some (cells key0))
    by (intros; apply obj_get_map; assumption).
  revert Hrows Hlen. generalize (map (fun key => (key, cells key)) keys).
  intros columns Hrows Hlen.
  pose proof keys_nonempty as Hne.
  destruct keys as [|key0 keys']; [congruence|].
  rewrite (Hlen key0) by (left; reflexivity).
  unfold column_cells at 1. rewrite length_map, Hrows. reflexivity.
Qed.
End Columns.

Lemma parseValue_scalar (fuel : nat) (v : Value) :
  scalar v -> parseValue (S fuel) (flat_text v) = Ok v.
Proof. intros H. cbn [parseValue]. apply parseValue_body_scalar, H. Qed.

Lemma column_text_length (rows : list (list (jstring * Value)))
    (key : jstring) (row : list (jstring * Value)) :
  In row rows ->
  (length (flat_text (row_get row key)) <= length (column_text rows key))%nat.
Proof.
  intros Hrow. unfold column_text. rewrite !length_app.
  pose proof (length_join_in [c_COMMA] (column_texts rows key)
                (flat_text (row_get row key))) as H.
  unfold column_texts in H at 1.
  specialize (H (in_map (fun r => flat_text (row_get r key)) rows row Hrow)).
  lia.
Qed.

Lemma includes_join_sep (c : char) (a b : jstring) (rest : list jstring) :
  includes c (join [c] (a :: b :: rest)) = true.
Proof.
  change (join [c] (a :: b :: rest)) with (a ++ [c] ++ join [c] (b :: rest)).
  rewrite !includes_app. simpl. rewrite N.eqb_refl.
  rewrite orb_true_r. reflexivity.
Qed.

Lemma includes_join_item (c : char) (sep : jstring) (items : list jstring) :
  (exists item, In item items /\ includes c item = true) ->
  includes c (join sep items) = true.
Proof.
  intros (item & Hin & Hc). induction items as [|a items IH]; [destruct Hin|].
  destruct items as [|b items].
  - destruct Hin as [<-|[]]. exact Hc.
  - change (join sep (a :: b :: items)) with (a ++ sep ++ join sep (b :: items)).
    rewrite !includes_app. destruct Hin as [<-|Hin].
    + rewrite Hc. reflexivity.
    + rewrite IH by exact Hin. rewrite !orb_true_r. reflexivity.
Qed.

(** An array text between brackets, with a tight content. *)
Lemma parse_bracketed (content : jstring) :
  tight content ->
  parse ([c_LBRACKET] ++ content ++ [c_RBRACKET])
  = if includes c_PIPE content && includes c_COLON content then
      parseColumnarArray (parseValue (S (length content + 1))) content
    else
      vs <- map_result
              (fun item => parseValue (S (length content + 1)) (trim item))
              (splitArrayItems content) ;;
      Ok (VArray (filter (fun v => negb (is_undefined v)) vs)).
Proof.
  intros [Hne Htrim]. unfold parse.
  assert (Ht : trim ([c_LBRACKET] ++ content ++ [c_RBRACKET])
               = [c_LBRACKET] ++ content ++ [c_RBRACKET])
    by (apply (trim_ends c_LBRACKET c_RBRACKET); reflexivity).
  assert (Hlen : length ([c_LBRACKET] ++ content ++ [c_RBRACKET])
                 = S (length content + 1))
    by (cbn [app length]; rewrite length_app; reflexivity).
  rewrite Ht, Hlen. cbn [app is_empty startsWith N.eqb Pos.eqb].
  unfold parseArray. change (c_LBRACKET :: content ++ [c_RBRACKET])
    with ([c_LBRACKET] ++ content ++ [c_RBRACKET]).
  rewrite Ht.
  assert (Hend : endsWith c_RBRACKET ([c_LBRACKET] ++ content ++ [c_RBRACKET])
                 = true).
  { unfold endsWith. rewrite app_assoc, rev_app_distr. reflexivity. }
  assert (Hslice : slice_1_m1 ([c_LBRACKET] ++ content ++ [c_RBRACKET])
                   = content)
    by (unfold slice_1_m1; cbn [app tl]; apply removelast_last).
  rewrite Hend, Hslice, Htrim. cbn [app startsWith N.eqb Pos.eqb negb orb].
  destruct content; [congruence|reflexivity].
Qed.

(** [parse] reads the text of an array in columns back as the rows, when
    there are at least two columns. *)
Lemma parse_columnar_text (keys : list jstring)
    (rows : list (list (jstring * Value))) :
  Forall plain_key keys -> NoDup keys -> (2 <= length keys)%nat ->
  rows <> [] ->
  (forall key row, In key keys -> In row rows -> readable (row_get row key)) ->
  parse (columnar_text keys rows) = Ok (VArray (rows_by_keys keys rows)).
Proof.
  intros Hplain Hnd Hlen Hrows Hcells. unfold columnar_text.
  assert (Hne : keys <> []) by (destruct keys; [simpl in Hlen; lia|discriminate]).
  assert (Htight : Forall tight (map (column_text rows) keys)).
  { apply Forall_forall. intros col Hcol. apply in_map_iff in Hcol.
    destruct Hcol as (key & <- & Hkey). apply column_text_tight; auto.
    revert key Hkey. apply Forall_forall, Hplain. }
  rewrite parse_bracketed
    by (apply tight_join; [destruct keys; [congruence|discriminate]|exact Htight]).
  assert (Hread : forall key row, In key keys -> In row rows ->
            parseValue
              (S (length (join [c_PIPE] (map (column_text rows) keys)) + 1))
              (flat_text (row_get row key))
            = Ok (row_get row key)).
  { intros key row Hkey Hrow. apply readable_parse; [auto|].
    pose proof (column_text_length rows key row Hrow) as H1.
    pose proof (length_join_in [c_PIPE] (map (column_text rows) keys)
                  (column_text rows key)
                  (in_map (column_text rows) keys key Hkey)) as H2.
    lia. }
  revert Hread. generalize (S (length (join [c_PIPE]
                                         (map (column_text rows) keys)) + 1)).
  intros fuel Hread.
  destruct keys as [|k1 [|k2 keys']]; [simpl in Hlen; lia..|].
  cbn [map]. rewrite includes_join_sep.
  rewrite includes_join_item.
  - cbn [andb]. apply (parseColumnarArray_columns _ rows)
      with (keys := k1 :: k2 :: keys'); auto.
  - exists (column_text rows k1). split; [left; reflexivity|].
    unfold column_text. rewrite !includes_app. simpl.
    rewrite orb_true_r. reflexivity.
Qed.

(** ** The serializer writes uniform arrays in columns *)

Lemma same_keys_refl (l : list jstring) : same_keys l l = true.
Proof.
  induction l as [|k l IH]; [reflexivity|]. simpl.
  rewrite jstring_eqb_refl. exact IH.
Qed.

Lemma same_keys_eq (a b : list jstring) : same_keys a b = true -> a = b.
Proof.
  revert b. induction a as [|x a IH]; intros [|y b]; simpl; try discriminate.
  - reflexivity.
  - intros H. apply andb_true_iff in H. destruct H as [H1 H2].
    destruct (jstring_eqb_spec x y); [|discriminate].
    subst. f_equal. apply IH, H2.
Qed.

Lemma isArrayOfObjects_rows (row0 : list (jstring * Value))
    (rows : list (list (jstring * Value))) :
  (forall row, In row rows -> sort (obj_keys row) = sort (obj_keys row0)) ->
  isArrayOfObjects (map VObject (row0 :: rows)) = true.
Proof.
  intros H. unfold isArrayOfObjects. cbn [map].
  assert (Hobj : forallb is_plain_object (VObject row0 :: map VObject rows) = true).
  { cbn [forallb is_plain_object andb]. apply forallb_forall. intros x Hx.
    apply in_map_iff in Hx. destruct Hx as (row & <- & _). reflexivity. }
  rewrite Hobj. cbn [negb forallb keys_of]. rewrite same_keys_refl. cbn [andb].
  apply forallb_forall. intros x Hx. apply in_map_iff in Hx.
  destruct Hx as (row & <- & Hrow). cbn [keys_of]. rewrite (H row Hrow).
  apply same_keys_refl.
Qed.

Lemma render_prop_row_get (depth : nat) (row : list (jstring * Value))
    (key : jstring) :
  render_prop (fun v => stringifyValue v depth false false) row key
  = flat_text (row_get row key).
Proof.
  unfold row_get. induction row as [|[k v] row IH]; [reflexivity|].
  cbn [render_prop obj_get]. destruct (jstring_eqb k key); [|exact IH].
  apply flat_text_depth.
Qed.

(** The text of a uniform array of objects. *)
Lemma stringify_columnar (row0 : list (jstring * Value))
    (rows : list (list (jstring * Value))) (depth : nat) :
  isArrayOfObjects (map VObject (row0 :: rows)) = true ->
  stringifyValue (VArray (map VObject (row0 :: rows))) depth false true
  = columnar_text (obj_keys row0) (row0 :: rows).
Proof.
  intros Hobj. cbn [map stringifyValue].
  change (VObject row0 :: map VObject rows) with (map VObject (row0 :: rows)).
  rewrite Hobj. cbn [andb]. unfold stringifyColumnar, columnar_text.
  cbn [map keys_of]. f_equal. f_equal. f_equal.
  apply map_ext_in. intros key Hkey. unfold column_text, column_texts.
  f_equal. f_equal. f_equal. cbn [map]. f_equal.
  - apply render_prop_row_get.
  - rewrite map_map. apply map_ext. intros row. apply render_prop_row_get.
Qed.

(* ================================================================== *)
(** * Sorted key lists and key sets *)
(* ================================================================== *)

Lemma jstring_leb_total (a b : jstring) :
  jstring_leb a b = false -> jstring_leb b a = true.
Proof.
  revert b. induction a as [|x a IH]; intros [|y b]; simpl; try congruence.
  destruct (N.ltb_spec x y), (N.ltb_spec y x), (N.eqb_spec x y),
    (N.eqb_spec y x); simpl; try lia; try congruence. apply IH.
Qed.

Lemma jstring_leb_antisym (a b : jstring) :
  jstring_leb a b = true -> jstring_leb b a = true -> a = b.
Proof.
  revert b. induction a as [|x a IH]; intros [|y b]; simpl; try congruence.
  destruct (N.ltb_spec x y), (N.ltb_spec y x), (N.eqb_spec x y),
    (N.eqb_spec y x); simpl; try lia; try congruence.
  intros H1 H2. subst. f_equal. apply IH; assumption.
Qed.

Lemma jstring_leb_trans (a b c : jstring) :
  jstring_leb a b = true -> jstring_leb b c = true -> jstring_leb a c = true.
Proof.
  revert b c. induction a as [|x a IH]; intros [|y b] [|z c]; simpl;
    try congruence.
  destruct (N.ltb_spec x y), (N.ltb_spec y z), (N.ltb_spec x z),
    (N.eqb_spec x y), (N.eqb_spec y z), (N.eqb_spec x z);
    simpl; try lia; try congruence. apply IH.
Qed.

Lemma sort_insert_comm (a b : jstring) (l : list jstring) :
  sort_insert a (sort_insert b l) = sort_insert b (sort_insert a l).
Proof.
  induction l as [|h t IH]; simpl.
  - destruct (jstring_leb a b) eqn:Eab, (jstring_leb b a) eqn:Eba; auto.
    + rewrite (jstring_leb_antisym a b Eab Eba). reflexivity.
    + apply jstring_leb_total in Eab. congruence.
  - destruct (jstring_leb b h) eqn:Ebh, (jstring_leb a h) eqn:Eah; simpl;
      rewrite ?Ebh, ?Eah.
    + destruct (jstring_leb a b) eqn:Eab, (jstring_leb b a) eqn:Eba; auto.
      * rewrite (jstring_leb_antisym a b Eab Eba). reflexivity.
      * apply jstring_leb_total in Eab. congruence.
    + destruct (jstring_leb a b) eqn:Eab.
      * rewrite (jstring_leb_trans a b h Eab Ebh) in Eah. discriminate.
      * reflexivity.
    + destruct (jstring_leb b a) eqn:Eba.
      * rewrite (jstring_leb_trans b a h Eba Eah) in Ebh. discriminate.
      * reflexivity.
    + rewrite IH. reflexivity.
Qed.

(** Sorting does not depend on the order of the keys. *)
Lemma sort_permutation (l l' : list jstring) :
  Permutation l l' -> sort l = sort l'.
Proof.
  induction 1 as [|x l l' _ IH|x y l|l l' l'' _ IH1 _ IH2]; simpl.
  - reflexivity.
  - rewrite IH. reflexivity.
  - apply sort_insert_comm.
  - congruence.
Qed.



(* ================================================================== *)
(** * Deep equality of the rows read back *)
(* ================================================================== *)

Lemma number_eqb_refl (x : number) : number_eqb x x = true.
Proof.
  destruct x as [| [|] | [|] | neg ds n]; try reflexivity.
  simpl. rewrite eqb_reflx, jstring_eqb_refl, Z.eqb_refl. reflexivity.
Qed.

Lemma deep_equal_scalar_refl (v : Value) : scalar v -> deep_equal v v = true.
Proof.
  destruct v; cbn [scalar deep_equal]; intros H; try reflexivity;
    try contradiction.
  - apply eqb_reflx.
  - apply number_eqb_refl.
  - apply jstring_eqb_refl.
Qed.

Lemma obj_get_nodup {A : Type} (row : list (jstring * A)) (k : jstring) (v : A) :
  NoDup (obj_keys row) -> In (k, v) row -> obj_get row k = Some v.
Proof.
  induction row as [|[k' v'] row IH]; simpl; [intros _ []|].
  intros Hnd Hin. inversion Hnd as [|? ? Hnotin Hnd']; subst.
  destruct (jstring_eqb_spec k' k) as [->|Hne].
  - destruct Hin as [Hin|Hin]; [congruence|].
    exfalso. apply Hnotin. apply (in_map fst) in Hin. exact Hin.
  - destruct Hin as [Hin|Hin]; [congruence|]. apply IH; assumption.
Qed.

(** A readable value deep-equals itself. *)
Lemma deep_equal_refl (v : Value) : readable v -> deep_equal v v = true.
Proof.
  induction v as [| | | | |items IH|props IH] using Value_nested_ind;
    intros Hr;
    try (apply deep_equal_scalar_refl, (readable_atom _ Hr)).
  - apply readable_array_inv in Hr. cbn [deep_equal].
    induction IH as [|x l Hx _ IHl]; [reflexivity|].
    inversion Hr as [|? ? (Hrx & _) Hrl]; subst.
    cbn [forallb2]. rewrite (Hx Hrx). apply IHl, Hrl.
  - apply readable_object_inv in Hr. destruct Hr as [Hnd Hall].
    cbn [deep_equal]. rewrite Nat.eqb_refl. cbn [andb].
    apply forallb_forall. intros [k v] Hin.
    rewrite (obj_get_nodup props k v Hnd Hin).
    rewrite Forall_forall in IH, Hall.
    apply (IH (k, v) Hin), (Hall (k, v) Hin).
Qed.

Lemma row_get_nodup (row : list (jstring * Value)) (k : jstring) (v : Value) :
  NoDup (obj_keys row) -> In (k, v) row -> row_get row k = v.
Proof.
  intros Hnd Hin. unfold row_get. rewrite (obj_get_nodup row k v Hnd Hin).
  reflexivity.
Qed.

Lemma row_get_readable (row : list (jstring * Value)) (key : jstring) :
  Forall (fun entry => readable (snd entry)) row -> readable (row_get row key).
Proof.
  unfold row_get. induction 1 as [|[k v] row Hv _ IH]; simpl;
    [apply readable_scalar; exact I|].
  destruct (jstring_eqb k key); [exact Hv|exact IH].
Qed.

(** A row whose properties are listed again in its own key order. *)
Lemma row_rebuild (row : list (jstring * Value)) :
  NoDup (obj_keys row) ->
  map (fun key => (key, row_get row key)) (obj_keys row) = row.
Proof.
  intros Hnd. unfold obj_keys. rewrite map_map.
  rewrite <- (map_id row) at 2. apply map_ext_in. intros [k v] Hin.
  cbn [fst]. rewrite (row_get_nodup row k v Hnd Hin). reflexivity.
Qed.

(** A row deep-equals the object with the same properties in the order of
    a permutation of its keys. *)
Lemma deep_equal_row (keys : list jstring) (row : list (jstring * Value)) :
  NoDup keys -> Permutation (obj_keys row) keys ->
  Forall (fun entry => readable (snd entry)) row ->
  deep_equal (VObject row)
    (VObject (map (fun key => (key, row_get row key)) keys)) = true.
Proof.
  intros Hnd Hperm Hread. cbn [deep_equal].
  assert (Hnd' : NoDup (obj_keys row))
    by (apply (Permutation_NoDup (Permutation_sym Hperm) Hnd)).
  apply andb_true_iff. split.
  - apply Nat.eqb_eq. rewrite length_map.
    rewrite <- (Permutation_length Hperm). unfold obj_keys.
    rewrite length_map. reflexivity.
  - apply forallb_forall. intros [k v] Hin.
    assert (Hk : In k keys).
    { apply (Permutation_in _ Hperm). apply (in_map fst) in Hin. exact Hin. }
    rewrite (obj_get_map (row_get row) keys k Hk).
    rewrite (row_get_nodup row k v Hnd' Hin).
    apply deep_equal_refl.
    rewrite Forall_forall in Hread. apply (Hread (k, v) Hin).
Qed.

Lemma deep_equal_rows (keys : list jstring)
    (rows : list (list (jstring * Value))) :
  NoDup keys ->
  (forall row, In row rows ->
     Permutation (obj_keys row) keys
     /\ Forall (fun entry => readable (snd entry)) row) ->
  deep_equal (VArray (map VObject rows)) (VArray (rows_by_keys keys rows)) = true.
Proof.
  intros Hnd H. cbn [deep_equal]. unfold rows_by_keys.
  induction rows as [|row rows IH]; [reflexivity|].
  cbn [map forallb2].
  destruct (H row (or_introl eq_refl)) as [Hperm Hread].
  rewrite (deep_equal_row keys row Hnd Hperm Hread). cbn [andb].
  apply IH. intros r Hr. apply H. right. exact Hr.
Qed.

Lemma rows_by_keys_same_order (keys : list jstring)
    (rows : list (list (jstring * Value))) :
  NoDup keys -> (forall row, In row rows -> obj_keys row = keys) ->
  rows_by_keys keys rows = map VObject rows.
Proof.
  intros Hnd H. unfold rows_by_keys. apply map_ext_in. intros row Hrow.
  f_equal. rewrite <- (H row Hrow). apply row_rebuild.
  rewrite (H row Hrow). exact Hnd.
Qed.

(* ================================================================== *)
(** * Arrays of objects with differing key sets *)
(* ================================================================== *)



(* ================================================================== *)
(** * The claims of the specification *)
(* ================================================================== *)

(** C7. When an array is rendered in standard (non-columnar) form, every
    pipe character in the serialized text of its elements is replaced by
    a comma, whether or not it stands inside a quoted string literal, so
    the bracketed element list contains no pipe character. *)
Theorem standard_array_replaces_pipes (items : list Value) (depth : nat)
    (pretty columnar : bool) :
  items <> [] ->
  columnar && isArrayOfObjects items = false ->
  let elements :=
    join [c_COMMA]
      (map (fun item => stringifyValue item (S depth) pretty columnar) items) in
  let out := stringifyValue (VArray items) depth pretty columnar in
  out = [c_LBRACKET]
          ++ map (fun c => if c_PIPE =? c then c_COMMA else c) elements
          ++ [c_RBRACKET]
  /\ includes c_PIPE out = false.
Proof.
  intros Hne Hcol elements out. subst out.
  rewrite (stringifyValue_standard_array items depth pretty columnar Hne Hcol).
  fold elements. split.
  - rewrite replace_chars_single. reflexivity.
  - rewrite !includes_app, replace_chars_removes by discriminate. reflexivity.
Qed.

Lemma standard_array_replaces_pipes_witness :
  stringifyValue (VArray [VString (str "a|b"); VString (str "c")]) 0 false true
  = str "[" ++ [c_DQUOTE] ++ str "a,b" ++ [c_DQUOTE] ++ str ",c]".
Proof.
  pose proof (standard_array_replaces_pipes
                [VString (str "a|b"); VString (str "c")] 0 false true) as H.
  destruct H as [H _]; [discriminate | reflexivity |].
  rewrite H. reflexivity.
Defined.

(** C8. Parsing the columnar array text [[id:1,2,3|name:Alice,Bob,Charlie]]
    yields exactly the three rows (id 1, name Alice), (id 2, name Bob),
    (id 3, name Charlie) in that order, the ids as Numbers, the names as
    Strings, the keys in the order of the columns. *)
Theorem parse_columnar_example :
  parse (str "[id:1,2,3|name:Alice,Bob,Charlie]")
  = Ok (VArray
      [VObject [(str "id", VNumber (Finite false [1] 1));
                (str "name", VString (str "Alice"))];
       VObject [(str "id", VNumber (Finite false [2] 1));
                (str "name", VString (str "Bob"))];
       VObject [(str "id", VNumber (Finite false [3] 1));
                (str "name", VString (str "Charlie"))]]).
Proof. vm_compute. reflexivity. Qed.

(** C9. The empty String is serialized bare ([needsQuoting] of it is
    false and [stringify] returns the empty text), [parse] of an empty or
    white-space-only text is Null, and so parsing the serialized empty
    String gives Null, not the empty String. *)
Theorem empty_string_parses_to_null :
  needsQuoting [] = false
  /\ (forall opts, stringify (VString []) opts = [])
  /\ (forall text, forallb is_ws text = true -> parse text = Ok VNull)
  /\ (forall opts, parse (stringify (VString []) opts) = Ok VNull)
  /\ Ok VNull <> Ok (VString []).
Proof.
  split; [reflexivity|]. split; [reflexivity|]. split; [|split].
  - intros text Hws. unfold parse. rewrite (trim_all_ws text Hws). reflexivity.
  - intros opts. reflexivity.
  - discriminate.
Qed.

Lemma empty_string_parses_to_null_witness :
  parse (str "  ") = Ok VNull.
Proof.
  destruct empty_string_parses_to_null as (_ & _ & H & _).
  apply H. reflexivity.
Defined.

(** C10. For every array text whose inner content contains both a pipe
    and a colon, but in which no segment of the top-level pipe split has a
    top-level colon, [parse] returns the empty Array: the columnar branch
    is taken, every segment is skipped, no column remains. *)
Theorem columnar_dispatch_without_columns (text : jstring) :
  let input := trim text in
  let content := trim (slice_1_m1 input) in
  startsWith c_LBRACKET input = true ->
  endsWith c_RBRACKET input = true ->
  includes c_PIPE content = true ->
  includes c_COLON content = true ->
  (forall seg, In seg (splitByPipe content) -> findTopLevelColon seg = None) ->
  parse text = Ok (VArray []).
Proof.
  intros input content Hs He Hp Hc Hseg. unfold parse.
  change (trim text) with input.
  rewrite (startsWith_nonempty _ _ Hs).
  rewrite (startsWith_other _ c_LBRACE _ Hs) by discriminate.
  rewrite Hs. unfold parseArray.
  replace (trim input) with input by (symmetry; apply trim_idem).
  rewrite Hs, He. cbn [negb orb].
  change (trim (slice_1_m1 input)) with content.
  rewrite (includes_nonempty _ _ Hp), Hp, Hc. cbn [andb].
  unfold parseColumnarArray.
  rewrite parseColumnarArray_loop_no_colon by exact Hseg.
  reflexivity.
Qed.

Lemma columnar_dispatch_without_columns_witness :
  parse (str "[{a:1|b:2}]") = Ok (VArray []).
Proof.
  apply columnar_dispatch_without_columns; try reflexivity.
  intros seg Hin. vm_compute in Hin.
  destruct Hin as [<-|[]]. reflexivity.
Defined.

(** C5 (the code departs from it). Unescaping the escaped form does not
    restore the NUL character: [escapeString] writes it as a [\u0000]
    escape, [unescapeString] decodes the escape to NUL and then turns that
    NUL, like its own placeholder for an escaped backslash, into a
    backslash. *)
Theorem unescape_escape_NUL :
  escapeString [c_NUL] = str "\u0000"
  /\ unescapeString (escapeString [c_NUL]) = [c_BACKSLASH]
  /\ unescapeString (escapeString [c_NUL]) <> [c_NUL]
  /\ (forall s,
        unescapeString (escapeString s)
        = map (fun c => if c =? c_NUL then c_BACKSLASH else c) s).
Proof.
  split; [reflexivity|]. split; [reflexivity|]. split; [discriminate|].
  exact unescape_escape_map.
Qed.

(** C6 (the code departs from it). A quote that follows an escaped
    backslash (two backslashes) does not toggle the string state: the
    scanners look at the previous character only.  In the text
    [a:"x y\\"|b:1], which is what [stringify] writes for the object with
    [a] the String [x y\] and [b] the Number 1, the closing quote is
    ignored, the pipe is taken to be inside the string and the text is
    not split. *)
Theorem quote_after_escaped_backslash_ignored :
  let text := str "a:" ++ [c_DQUOTE] ++ str "x y\\" ++ [c_DQUOTE] ++ str "|b:1" in
  let v := VObject [(str "a", VString (str "x y\"));
                    (str "b", VNumber (Finite false [1] 1))] in
  track_quote (mkScan 0 true (Some c_DQUOTE)) c_DQUOTE (Some c_BACKSLASH)
    = mkScan 0 true (Some c_DQUOTE)
  /\ stringify v default_options = str "{" ++ text ++ str "}"
  /\ splitByPipe text = [text]
  /\ parse (stringify v default_options)
     = Ok (VObject [(str "a", VString (skipn 2 text))]).
Proof. vm_compute. repeat split. Qed.

(** C3 fails as stated: the bracket pairing of the text of a lone opening
    brace is malformed and [parse] throws on it, but what it throws is
    made by [Error], with the message [Invalid object syntax]; it is not
    a [SyntaxError]. *)
Lemma parse_throws_exactly_on_malformed_brackets_counterexample :
  Spec.malformed_text (str "{")
  /\ parse (str "{") = Throw InvalidObjectSyntax
  /\ error_kind InvalidObjectSyntax = JsError
  /\ error_kind InvalidObjectSyntax <> JsSyntaxError
  /\ error_message InvalidObjectSyntax = str "Invalid object syntax".
Proof.
  split; [|repeat split; discriminate].
  exists (str "{"), (str "{"). split; [left; reflexivity|].
  split; [constructor|]. left. split; reflexivity.
Qed.

(** C3, amended. On every text in which no quote follows an escaped
    backslash, [parse] throws exactly when bracket pairing is malformed:
    the trimmed text, or a value nested in it as the specification cuts
    it, starts with an opening brace and does not end with the closing
    brace, or starts with an opening bracket and does not end with the
    closing bracket; what it throws is made by [Error].  On every other
    such text it returns a Value. *)
Theorem parse_throws_exactly_on_malformed_brackets (text : jstring) :
  Spec.no_quote_after_escaped_backslash text ->
  ((exists e, parse text = Throw e /\ error_kind e = JsError)
   /\ Spec.malformed_text text)
  \/ ((exists v, parse text = Ok v) /\ ~ Spec.malformed_text text).
Proof.
  intros Hsafe. destruct (parse_settles text) as [Hfuel Hthrows].
  rewrite (reaches_malformed_spec text Hsafe) in Hthrows.
  destruct (parse text) as [v|e|] eqn:E.
  - right. split; [exists v; reflexivity|].
    intros H. apply Hthrows in H. destruct H as [e He]. discriminate.
  - left. split; [exists e; split; [reflexivity|destruct e; reflexivity]|].
    apply Hthrows. exists e. reflexivity.
  - congruence.
Qed.

Lemma parse_throws_exactly_on_malformed_brackets_witness :
  (parse (str "{a:{b}") = Throw InvalidObjectSyntax
   /\ Spec.malformed_text (str "{a:{b}"))
  /\ (parse (str "{a:[1,{b:2}]|c:'}'}")
      = Ok (VObject [(str "a",
                      VArray [VNumber (Finite false [1] 1);
                              VObject [(str "b", VNumber (Finite false [2] 1))]]);
                     (str "c", VString (str "}"))])
      /\ ~ Spec.malformed_text (str "{a:[1,{b:2}]|c:'}'}")).
Proof.
  split; (split; [reflexivity|]).
  - destruct (parse_throws_exactly_on_malformed_brackets (str "{a:{b}")
                ltac:(reflexivity))
      as [[_ H]|[[v Hv] _]]; [exact H|].
    vm_compute in Hv. discriminate.
  - destruct (parse_throws_exactly_on_malformed_brackets
                (str "{a:[1,{b:2}]|c:'}'}") ltac:(reflexivity))
      as [[(e & He & _) _]|[_ H]]; [|exact H].
    vm_compute in He. discriminate.
Defined.

(** Where a quote follows an escaped backslash the scanners of the code
    miss the end of the string (see C6), and with it a malformed value
    that comes after: in the text below the value of [b] opens with a
    bracket and does not end with one, yet [parse] returns an object. *)
Lemma malformed_value_after_escaped_backslash_is_read :
  let text := str "{a:" ++ [c_DQUOTE] ++ str "x y\\" ++ [c_DQUOTE]
                ++ str "|b:[}" in
  ~ Spec.no_quote_after_escaped_backslash text
  /\ Spec.malformed_text text
  /\ parse text
     = Ok (VObject [(str "a",
                     VString ([c_DQUOTE] ++ str "x y\\" ++ [c_DQUOTE]
                                ++ str "|b:["))]).
Proof.
  intros text. split; [discriminate|]. split; [|reflexivity].
  exists text, (str "["). split; [left; reflexivity|]. split.
  - apply (Spec.nested_inside text (str "[") (str "["));
      [right; left; reflexivity|constructor].
  - right. split; reflexivity.
Qed.

(** C2. Parsing the serialized form gives the value back for each of
    null, true, false, NaN, Infinity, -Infinity, 0 and -0 (NaN as NaN, -0
    with its sign), for every finite Number, and for every one-character
    String made of one of the special characters colon, pipe, comma,
    braces, brackets, double quote, single quote, newline, tab. *)
Theorem scalar_fidelity (opts : options) :
  (forall x,
     In x [VNull; VBool true; VBool false; VNumber NaN;
           VNumber (Infinity false); VNumber (Infinity true);
           VNumber (Zero false); VNumber (Zero true)] ->
     parse (stringify x opts) = Ok x)
  /\ (forall neg ds n,
        canonical_digits ds ->
        parse (stringify (VNumber (Finite neg ds n)) opts)
        = Ok (VNumber (Finite neg ds n)))
  /\ (forall c,
        In c [c_COLON; c_PIPE; c_COMMA; c_LBRACE; c_RBRACE; c_LBRACKET;
              c_RBRACKET; c_DQUOTE; c_SQUOTE; c_LF; c_TAB] ->
        parse (stringify (VString [c]) opts) = Ok (VString [c])).
Proof.
  split; [|split].
  - intros x Hx. simpl in Hx.
    repeat (destruct Hx as [<-|Hx]; [reflexivity|]). destruct Hx.
  - intros neg ds n Hcan. unfold stringify. cbn [stringifyValue].
    destruct (number_toString_literal neg ds n Hcan)
      as (ip & fp & ex & E & Hip & Hne & Hfp & _).
    pose proof (literal_text_numchars neg ip fp ex Hip Hfp) as Hchars.
    rewrite <- E in Hchars.
    rewrite parse_plain.
    + apply parseValue_body_number, Hcan.
    + apply trim_no_ws, numchars_no_ws, Hchars.
    + apply numchars_needsQuoting, Hchars.
  - intros c Hc. simpl in Hc.
    repeat (destruct Hc as [<-|Hc]; [reflexivity|]). destruct Hc.
Qed.

Lemma scalar_fidelity_witness :
  parse (stringify (VNumber (Finite true [1; 2; 5] (-7))) default_options)
  = Ok (VNumber (Finite true [1; 2; 5] (-7)))
  /\ parse (stringify (VNumber (Zero true)) default_options)
     = Ok (VNumber (Zero true))
  /\ parse (stringify (VString [c_PIPE]) default_options)
     = Ok (VString [c_PIPE]).
Proof.
  destruct (scalar_fidelity default_options) as (H1 & H2 & H3).
  split; [|split].
  - apply H2. repeat split; [discriminate|repeat constructor|discriminate..].
  - apply H1. simpl. tauto.
  - apply H3. simpl. tauto.
Defined.

(** C1 (the code departs from it). The array with the single object
    whose only property is [a] with the Number 1 is an array of objects
    that share one key set, and [stringify] writes it in columns, as
    [[a:1]].  [parseColumnarArray] reads the column [a:1] back as the
    array, but [parseArray] hands a text over to it only when the text
    has both a pipe and a colon: the text of a single column has no pipe,
    is read as a list, and [parse] returns the array with the one String
    [a:1].  In the same way the array of two objects without properties
    is written [[]] and read back as the empty array. *)
Theorem single_column_read_as_list :
  let one := VNumber (Finite false [1] 1) in
  let value := VArray [VObject [(str "a", one)]] in
  let empties := VArray [VObject []; VObject []] in
  isArrayOfObjects [VObject [(str "a", one)]] = true
  /\ stringify value (mkOptions false true) = str "[a:1]"
  /\ parseColumnarArray (parseValue 5) (str "a:1") = Ok value
  /\ parse (stringify value (mkOptions false true))
     = Ok (VArray [VString (str "a:1")])
  /\ deep_equal value (VArray [VString (str "a:1")]) = false
  /\ isArrayOfObjects [VObject []; VObject []] = true
  /\ stringify empties (mkOptions false true) = str "[]"
  /\ parse (stringify empties (mkOptions false true)) = Ok (VArray [])
  /\ deep_equal empties (VArray []) = false.
Proof. vm_compute. repeat split. Qed.

(* ================================================================== *)
(** * The splitters: what they keep and what they return *)
(* ================================================================== *)

(** ** [splitByPipe] loses nothing but the separators *)

Lemma splitByPipe_loop_glue (input : jstring) :
  forall prevChar st current parts,
    let out := splitByPipe_loop input prevChar st current parts in
    let glue := fun ps => concat (map (fun p => p ++ [c_PIPE]) ps) in
    glue out = glue parts ++ current ++ input
    \/ glue out = glue parts ++ current ++ input ++ [c_PIPE].
Proof.
  induction input as [|c rest IH]; intros prevChar st current parts out glue.
  - subst out. cbn [splitByPipe_loop]. destruct current as [|x current].
    + left. cbn [is_empty app]. rewrite app_nil_r. reflexivity.
    + right. cbn [is_empty]. subst glue. cbn beta.
      rewrite map_app, concat_app. cbn [map concat app].
      rewrite app_nil_r. reflexivity.
  - subst out. cbn [splitByPipe_loop].
    destruct (negb (inString (track_quote st c prevChar))) eqn:Ein.
    + destruct ((c =? c_PIPE)
                && (depth (track_depth (track_quote st c prevChar) c) =? 0)%Z)
        eqn:Ehit.
      * apply andb_true_iff in Ehit. destruct Ehit as [Ec _].
        apply N.eqb_eq in Ec. subst c.
        specialize (IH (Some c_PIPE)
                      (track_depth (track_quote st c_PIPE prevChar) c_PIPE)
                      [] (parts ++ [current])).
        cbn zeta in IH. subst glue. cbn beta in *.
        rewrite map_app, concat_app in IH. cbn [map concat app] in IH.
        rewrite app_nil_r, <- !app_assoc in IH. cbn [app] in IH.
        exact IH.
      * specialize (IH (Some c)
                      (track_depth (track_quote st c prevChar) c)
                      (current ++ [c]) parts).
        cbn zeta in IH. rewrite <- !app_assoc in IH. exact IH.
    + specialize (IH (Some c) (track_quote st c prevChar)
                    (current ++ [c]) parts).
      cbn zeta in IH. rewrite <- !app_assoc in IH. exact IH.
Qed.

Lemma concat_pipes_join (parts : list jstring) :
  parts <> [] ->
  concat (map (fun p => p ++ [c_PIPE]) parts)
  = join [c_PIPE] parts ++ [c_PIPE].
Proof.
  induction parts as [|p parts IH]; [congruence|]. intros _.
  destruct parts as [|q parts].
  - cbn [map concat join]. rewrite app_nil_r. reflexivity.
  - change (join [c_PIPE] (p :: q :: parts))
      with (p ++ [c_PIPE] ++ join [c_PIPE] (q :: parts)).
    cbn [map concat] in *. rewrite IH by discriminate.
    rewrite <- !app_assoc. reflexivity.
Qed.

(** X1. [splitByPipe] neither drops nor alters a character other than the
    separators: the input is the parts joined by pipes, followed by one
    more pipe when the input ends with a top-level pipe. *)
Theorem splitByPipe_reassembles (input : jstring) :
  input = join [c_PIPE] (splitByPipe input)
  \/ input = join [c_PIPE] (splitByPipe input) ++ [c_PIPE].
Proof.
  pose proof (splitByPipe_loop_glue input None scan_init [] []) as H.
  cbn zeta in H. fold (splitByPipe input) in H. cbn [map concat app] in H.
  destruct (splitByPipe input) as [|p parts] eqn:E.
  - left. cbn [map concat join] in *.
    destruct H as [H|H]; [congruence|].
    destruct input; discriminate H.
  - rewrite concat_pipes_join in H by discriminate.
    destruct H as [H|H].
    + right. congruence.
    + left. apply app_inv_tail in H. congruence.
Qed.

(** ** The items of [splitArrayItems] are not blank *)

Lemma splitArrayItems_loop_nonblank (input : jstring) :
  forall prevChar st current parts,
    Forall (fun p => trim p <> []) parts ->
    Forall (fun p => trim p <> [])
      (splitArrayItems_loop input prevChar st current parts).
Proof.
  assert (Hpush : forall current parts,
            Forall (fun p => trim p <> []) parts ->
            Forall (fun p => trim p <> [])
              (if is_empty (trim current) then parts else parts ++ [current])).
  { intros current parts Hparts.
    destruct (trim current) as [|x t] eqn:E; [exact Hparts|].
    cbn [is_empty]. apply Forall_app. split; [exact Hparts|].
    constructor; [rewrite E; discriminate|constructor]. }
  induction input as [|c rest IH]; intros prevChar st current parts Hparts.
  - cbn [splitArrayItems_loop]. apply Hpush, Hparts.
  - cbn [splitArrayItems_loop].
    destruct (negb (inString (track_quote st c prevChar)));
      [|apply IH, Hparts].
    destruct ((c =? c_COMMA)
              && (depth (track_depth (track_quote st c prevChar) c) =? 0)%Z);
      [apply IH, Hpush, Hparts|apply IH, Hparts].
Qed.

(** ** [findTopLevelColon] points at a colon *)

Lemma findTopLevelColon_loop_colon (input : jstring) :
  forall i prevChar st idx,
    findTopLevelColon_loop input i prevChar st = Some idx ->
    (i <= idx)%nat /\ nth_error input (idx - i) = Some c_COLON.
Proof.
  induction input as [|c rest IH]; intros i prevChar st idx H;
    [discriminate|].
  cbn [findTopLevelColon_loop] in H.
  assert (Hrec : forall st',
            findTopLevelColon_loop rest (S i) (Some c) st' = Some idx ->
            (i <= idx)%nat /\ nth_error (c :: rest) (idx - i) = Some c_COLON).
  { intros st' H'. destruct (IH _ _ _ _ H') as [Hle Hnth].
    split; [lia|].
    replace (idx - i)%nat with (S (idx - S i)) by lia. exact Hnth. }
  destruct (negb (inString (track_quote st c prevChar))); [|apply (Hrec _ H)].
  destruct ((c =? c_COLON)
            && (depth (track_depth (track_quote st c prevChar) c) =? 0)%Z)
    eqn:Ehit; [|apply (Hrec _ H)].
  injection H as <-. apply andb_true_iff in Ehit. destruct Ehit as [Ec _].
  apply N.eqb_eq in Ec. subst c. rewrite Nat.sub_diag. split; [lia|reflexivity].
Qed.

Lemma findTopLevelColon_loop_none (input : jstring) :
  includes c_COLON input = false ->
  forall i prevChar st, findTopLevelColon_loop input i prevChar st = None.
Proof.
  induction input as [|c rest IH]; intros Hinc i prevChar st; [reflexivity|].
  cbn [includes existsb] in Hinc. apply orb_false_iff in Hinc.
  destruct Hinc as [Hc Hrest]. rewrite N.eqb_sym in Hc.
  cbn [findTopLevelColon_loop]. rewrite Hc. cbn [andb].
  destruct (negb (inString (track_quote st c prevChar))); apply IH, Hrest.
Qed.

(** X3. [findTopLevelColon] returns the index of a colon of the input, and
    it returns -1 (here [None]) on an input with no colon at all. *)
Theorem findTopLevelColon_points_at_colon (input : jstring) :
  (forall idx, findTopLevelColon input = Some idx ->
               nth_error input idx = Some c_COLON)
  /\ (includes c_COLON input = false -> findTopLevelColon input = None).
Proof.
  split.
  - intros idx H. apply findTopLevelColon_loop_colon in H.
    destruct H as [_ H]. rewrite Nat.sub_0_r in H. exact H.
  - intros H. apply findTopLevelColon_loop_none, H.
Qed.

(** ** The parts have no top-level separator left *)

Lemma scan_step_alike (a b : scan) (c : char) (p q : option char) :
  scan_alike a b -> is_backslash p = is_backslash q ->
  scan_alike (scan_step a c p) (scan_step b c q).
Proof.
  intros (Hd & Hi & Hq) Hbs.
  destruct a as [da ia qa], b as [db ib qb]. cbn [depth inString stringChar] in *.
  subst db ib. unfold scan_step, track_quote, track_depth, is_stringChar.
  cbn [depth inString stringChar]. rewrite Hbs.
  destruct (((c =? c_DQUOTE) || (c =? c_SQUOTE)) && negb (is_backslash q));
    destruct ia; cbn [negb depth inString stringChar];
    try (rewrite <- (Hq eq_refl));
    repeat match goal with
           | |- context [match ?x with Some _ => _ | None => _ end] =>
               destruct x
           | |- context [if ?x then _ else _] => destruct x
           end;
    cbn [negb depth inString stringChar];
    repeat split; try reflexivity; try discriminate; auto.
Qed.

Lemma scan_alike_refl (a : scan) : scan_alike a a.
Proof. repeat split. Qed.

Section Unsplit.
Variable sep : char.

Lemma part_in_step_start (prevChar : option char) (st : scan) :
  inString st = false -> depth st = 0%Z -> is_backslash prevChar = false ->
  part_in_step sep [] prevChar st.
Proof.
  intros Hi Hd Hp. split; [reflexivity|]. split; [|symmetry; exact Hp].
  cbn [scan_run]. split; [symmetry; exact Hd|].
  split; [symmetry; exact Hi|discriminate].
Qed.

Lemma part_in_step_next (current : jstring) (prevChar : option char)
    (st : scan) (c : char) :
  part_in_step sep current prevChar st ->
  negb (inString (scan_step st c prevChar)) && (c =? sep)
    && (depth (scan_step st c prevChar) =? 0)%Z = false ->
  part_in_step sep (current ++ [c]) (Some c) (scan_step st c prevChar).
Proof.
  intros (Hq & Ha & Hp) Hmiss.
  pose proof (scan_step_alike _ _ c _ _ Ha Hp) as Ha'.
  split; [|split].
  - rewrite scan_quiet_app, Hq. cbn [andb scan_quiet].
    destruct Ha' as (Hd & Hi & _). rewrite Hd, Hi, Hmiss. reflexivity.
  - rewrite scan_run_app. exact Ha'.
  - rewrite prev_after_app. reflexivity.
Qed.
End Unsplit.

Lemma splitByPipe_loop_unsplit (input : jstring) :
  forall prevChar st current parts,
    Forall (fun p => scan_quiet c_PIPE p None scan_init = true) parts ->
    part_in_step c_PIPE current prevChar st ->
    Forall (fun p => scan_quiet c_PIPE p None scan_init = true)
      (splitByPipe_loop input prevChar st current parts).
Proof.
  induction input as [|c rest IH]; intros prevChar st current parts Hparts Hcur.
  - cbn [splitByPipe_loop]. destruct (is_empty current); [exact Hparts|].
    apply Forall_app. split; [exact Hparts|].
    constructor; [apply Hcur|constructor].
  - cbn [splitByPipe_loop].
    pose proof (scan_step_hit c_PIPE c st prevChar) as Hhit.
    pose proof (part_in_step_next c_PIPE current prevChar st c Hcur) as Hnext.
    unfold scan_step in Hhit, Hnext.
    destruct (negb (inString (track_quote st c prevChar))) eqn:Ein.
    + destruct ((c =? c_PIPE)
                && (depth (track_depth (track_quote st c prevChar) c) =? 0)%Z)
        eqn:Ehit.
      * apply IH.
        -- apply Forall_app. split; [exact Hparts|].
           constructor; [apply Hcur|constructor].
        -- apply andb_true_iff in Ehit. destruct Ehit as [Hc Hd].
           apply Z.eqb_eq in Hd. apply N.eqb_eq in Hc. subst c.
           apply part_in_step_start; [|exact Hd|reflexivity].
           unfold track_depth. cbn [inString].
           apply negb_true_iff in Ein. exact Ein.
      * apply IH; [exact Hparts|]. apply Hnext.
        rewrite Hhit. reflexivity.
    + apply IH; [exact Hparts|]. apply Hnext. rewrite Hhit. reflexivity.
Qed.

(** X2. No part returned by [splitByPipe] has a top-level pipe left:
    splitting a part again gives that part alone (and nothing for an empty
    part). *)
Theorem splitByPipe_parts_unsplit (input p : jstring) :
  In p (splitByPipe input) ->
  splitByPipe p = if is_empty p then [] else [p].
Proof.
  intros Hin.
  pose proof (splitByPipe_loop_unsplit input None scan_init [] []
                (Forall_nil _)
                (part_in_step_start c_PIPE None scan_init eq_refl eq_refl
                   eq_refl)) as H.
  rewrite Forall_forall in H. specialize (H p Hin).
  unfold splitByPipe. rewrite <- (app_nil_r p) at 1.
  rewrite splitByPipe_loop_quiet by exact H.
  cbn [splitByPipe_loop app]. reflexivity.
Qed.

Lemma splitArrayItems_loop_unsplit (input : jstring) :
  forall prevChar st current parts,
    Forall (fun p => scan_quiet c_COMMA p None scan_init = true) parts ->
    part_in_step c_COMMA current prevChar st ->
    Forall (fun p => scan_quiet c_COMMA p None scan_init = true)
      (splitArrayItems_loop input prevChar st current parts).
Proof.
  assert (Hpush : forall current parts,
            Forall (fun p => scan_quiet c_COMMA p None scan_init = true) parts ->
            scan_quiet c_COMMA current None scan_init = true ->
            Forall (fun p => scan_quiet c_COMMA p None scan_init = true)
              (if is_empty (trim current) then parts else parts ++ [current])).
  { intros current parts Hparts Hcur.
    destruct (is_empty (trim current)); [exact Hparts|].
    apply Forall_app. split; [exact Hparts|].
    constructor; [exact Hcur|constructor]. }
  induction input as [|c rest IH]; intros prevChar st current parts Hparts Hcur.
  - cbn [splitArrayItems_loop]. apply Hpush; [exact Hparts|apply Hcur].
  - cbn [splitArrayItems_loop].
    pose proof (scan_step_hit c_COMMA c st prevChar) as Hhit.
    pose proof (part_in_step_next c_COMMA current prevChar st c Hcur) as Hnext.
    unfold scan_step in Hhit, Hnext.
    destruct (negb (inString (track_quote st c prevChar))) eqn:Ein.
    + destruct ((c =? c_COMMA)
                && (depth (track_depth (track_quote st c prevChar) c) =? 0)%Z)
        eqn:Ehit.
      * apply IH.
        -- apply Hpush; [exact Hparts|apply Hcur].
        -- apply andb_true_iff in Ehit. destruct Ehit as [Hc Hd].
           apply Z.eqb_eq in Hd. apply N.eqb_eq in Hc. subst c.
           apply part_in_step_start; [|exact Hd|reflexivity].
           unfold track_depth. cbn [inString].
           apply negb_true_iff in Ein. exact Ein.
      * apply IH; [exact Hparts|]. apply Hnext.
        rewrite Hhit. reflexivity.
    + apply IH; [exact Hparts|]. apply Hnext. rewrite Hhit. reflexivity.
Qed.

Lemma splitByPipe_parts_unsplit_witness :
  splitByPipe (str "b:{c|d}") = [str "b:{c|d}"].
Proof.
  apply (splitByPipe_parts_unsplit (str "a:1|b:{c|d}") (str "b:{c|d}")).
  vm_compute. right. left. reflexivity.
Defined.

(** X4. Every item returned by [splitArrayItems] is not blank and has no
    top-level comma left: splitting it again gives that item alone. *)
Theorem splitArrayItems_items (input item : jstring) :
  In item (splitArrayItems input) ->
  trim item <> [] /\ splitArrayItems item = [item].
Proof.
  intros Hin.
  pose proof (splitArrayItems_loop_nonblank input None scan_init [] []
                (Forall_nil _)) as Hnb.
  pose proof (splitArrayItems_loop_unsplit input None scan_init [] []
                (Forall_nil _)
                (part_in_step_start c_COMMA None scan_init eq_refl eq_refl
                   eq_refl)) as H.
  rewrite Forall_forall in H, Hnb. specialize (H item Hin).
  specialize (Hnb item Hin). split; [exact Hnb|].
  unfold splitArrayItems. rewrite <- (app_nil_r item) at 1.
  rewrite splitArrayItems_loop_quiet by exact H.
  cbn [splitArrayItems_loop app].
  destruct (trim item); [congruence|reflexivity].
Qed.

Lemma splitArrayItems_items_witness :
  trim (str " [2,3]") <> [] /\ splitArrayItems (str " [2,3]") = [str " [2,3]"].
Proof.
  apply (splitArrayItems_items (str "1, ,, [2,3]") (str " [2,3]")).
  vm_compute. right. left. reflexivity.
Defined.
(* ================================================================== *)
(** * The parser: what its results depend on and what they look like *)
(* ================================================================== *)

(** ** The result depends on the recursive calls on shorter texts only *)

Lemma map_result_ext {A B : Type} (f g : A -> result B) (xs : list A) :
  (forall x, In x xs -> f x = g x) -> map_result f xs = map_result g xs.
Proof.
  induction xs as [|x xs IH]; intros H; [reflexivity|].
  cbn [map_result]. rewrite (H x) by (left; reflexivity).
  rewrite IH by (intros; apply H; right; assumption). reflexivity.
Qed.

Section Extensional.
Variables pv pv' : jstring -> result Value.

Lemma parseColumnarArray_loop_ext (pairs : list jstring) :
  forall columns,
    (forall u, In u (flat_map column_value pairs) -> pv u = pv' u) ->
    parseColumnarArray_loop pv pairs columns
    = parseColumnarArray_loop pv' pairs columns.
Proof.
  induction pairs as [|p pairs IH]; intros columns H; [reflexivity|].
  cbn [parseColumnarArray_loop flat_map] in *. unfold column_value in H at 1.
  destruct (is_empty (trim p)); [apply IH, H|].
  destruct (findTopLevelColon p) as [idx|]; [|apply IH, H].
  rewrite (map_result_ext (fun v => pv (trim v)) (fun v => pv' (trim v))).
  - destruct (map_result _ _); cbn [bind]; try reflexivity.
    apply IH. intros u Hu. apply H. apply in_or_app. right. exact Hu.
  - intros x Hx. apply H. apply in_or_app. left. apply in_map. exact Hx.
Qed.

Lemma parseArray_ext (t : jstring) :
  (forall u, (length u < length (trim t))%nat -> pv u = pv' u) ->
  parseArray pv t = parseArray pv' t.
Proof.
  intros H. unfold parseArray.
  destruct (startsWith c_LBRACKET (trim t)) eqn:Hs; [|reflexivity].
  cbn [negb orb]. destruct (negb (endsWith c_RBRACKET (trim t)));
    [reflexivity|].
  destruct (is_empty (trim (slice_1_m1 (trim t)))); [reflexivity|].
  assert (Hlen : forall u, In u (array_values (trim (slice_1_m1 (trim t)))) ->
                           (length u < length (trim t))%nat).
  { intros u Hu. apply array_values_length in Hu.
    pose proof (trim_length (slice_1_m1 (trim t))).
    assert (Hne : trim t <> []) by (intros E; rewrite E in Hs; discriminate).
    pose proof (slice_1_m1_length (trim t) Hne). lia. }
  unfold array_values in Hlen.
  destruct (includes c_PIPE (trim (slice_1_m1 (trim t)))
            && includes c_COLON (trim (slice_1_m1 (trim t)))).
  - unfold parseColumnarArray.
    rewrite (parseColumnarArray_loop_ext _ []); [reflexivity|].
    intros u Hu. apply H, Hlen, Hu.
  - rewrite (map_result_ext (fun item => pv (trim item))
               (fun item => pv' (trim item))); [reflexivity|].
    intros x Hx. apply H, Hlen. apply in_map. exact Hx.
Qed.

Variables pi pi' : jstring -> bool.

Lemma parsePipeDelimited_loop_ext (pairs : list jstring) :
  forall obj inh,
    (forall u, In u (flat_map pair_value pairs) ->
               pv u = pv' u /\ pi u = pi' u) ->
    parsePipeDelimited_loop pv pi pairs obj inh
    = parsePipeDelimited_loop pv' pi' pairs obj inh.
Proof.
  induction pairs as [|p pairs IH]; intros obj inh H; [reflexivity|].
  cbn [parsePipeDelimited_loop flat_map] in *. unfold pair_value in H at 1.
  destruct (is_empty (trim p)); [apply IH, H|].
  destruct (findTopLevelColon p) as [idx|]; [|apply IH, H].
  destruct (H (trim (substring_from (idx + 1) p))) as [-> ->];
    [left; reflexivity|].
  destruct (pv' (trim (substring_from (idx + 1) p))); cbn [bind];
    try reflexivity.
  destruct (obj_assign _ _ _ _ _).
  apply IH. intros u Hu. apply H. right. exact Hu.
Qed.

Lemma parsePipeDelimited_ext (content : jstring) :
  (forall u, In u (pair_values content) -> pv u = pv' u /\ pi u = pi' u) ->
  parsePipeDelimited pv pi content = parsePipeDelimited pv' pi' content
  /\ parsePipeDelimited_inherits pv pi content
     = parsePipeDelimited_inherits pv' pi' content.
Proof.
  intros H. unfold parsePipeDelimited, parsePipeDelimited_inherits.
  rewrite (parsePipeDelimited_loop_ext _ [] true H). auto.
Qed.

Lemma parseObject_ext (t : jstring) :
  (forall u, (length u < length (trim t))%nat ->
             pv u = pv' u /\ pi u = pi' u) ->
  parseObject pv pi t = parseObject pv' pi' t
  /\ parseObject_inherits pv pi t = parseObject_inherits pv' pi' t.
Proof.
  intros H. unfold parseObject, parseObject_inherits.
  destruct (startsWith c_LBRACE (trim t)) eqn:Hs; [|auto].
  cbn [negb orb]. destruct (negb (endsWith c_RBRACE (trim t))); [auto|].
  destruct (is_empty (trim (slice_1_m1 (trim t)))); [auto|].
  apply parsePipeDelimited_ext. intros u Hu. apply H.
  apply pair_values_length in Hu.
  pose proof (trim_length (slice_1_m1 (trim t))).
  assert (Hne : trim t <> []) by (intros E; rewrite E in Hs; discriminate).
  pose proof (slice_1_m1_length (trim t) Hne). lia.
Qed.

Lemma parseValue_body_ext (v : jstring) :
  (forall u, (length u < length v)%nat -> pv u = pv' u /\ pi u = pi' u) ->
  parseValue_body pv pi v = parseValue_body pv' pi' v
  /\ valueInherits_body pv pi v = valueInherits_body pv' pi' v.
Proof.
  intros H. unfold parseValue_body, valueInherits_body.
  assert (H' : forall u, (length u < length (trim (trim v)))%nat ->
                         pv u = pv' u /\ pi u = pi' u).
  { intros u Hu. apply H. rewrite trim_idem in Hu.
    pose proof (trim_length v). lia. }
  destruct (parseObject_ext (trim v) H') as [-> ->].
  rewrite (parseArray_ext (trim v) (fun u Hu => proj1 (H' u Hu))).
  auto.
Qed.
End Extensional.

(** Fuel beyond the length of the text does not change the result. *)
Lemma parseValue_fuel_both (fuel : nat) :
  forall fuel' v,
    (length v < fuel)%nat -> (length v < fuel')%nat ->
    parseValue fuel v = parseValue fuel' v
    /\ valueInherits fuel v = valueInherits fuel' v.
Proof.
  induction fuel as [|fuel IH]; intros fuel' v Hf Hf'; [lia|].
  destruct fuel' as [|fuel']; [lia|]. cbn [parseValue valueInherits].
  apply parseValue_body_ext. intros u Hu. apply IH; lia.
Qed.

Lemma parseValue_fuel (fuel : nat) :
  forall fuel' v,
    (length v < fuel)%nat -> (length v < fuel')%nat ->
    parseValue fuel v = parseValue fuel' v.
Proof. intros fuel' v Hf Hf'. apply parseValue_fuel_both; assumption. Qed.

Lemma trimStart_ws_app (a s : jstring) :
  forallb is_ws a = true -> trimStart (a ++ s) = trimStart s.
Proof.
  induction a as [|c a IH]; intros H; [reflexivity|].
  cbn [forallb] in H. apply andb_true_iff in H. destruct H as [Hc Ha].
  cbn [app trimStart]. rewrite Hc. apply IH, Ha.
Qed.

Lemma trim_ws_around (a b s : jstring) :
  forallb is_ws a = true -> forallb is_ws b = true ->
  trim (a ++ s ++ b) = trim s.
Proof.
  intros Ha Hb. unfold trim. rewrite (trimStart_ws_app a _ Ha).
  assert (Hend : forall u, trimEnd (u ++ b) = trimEnd u).
  { intros u. unfold trimEnd. rewrite rev_app_distr.
    rewrite trimStart_ws_app; [reflexivity|].
    rewrite forallb_forall in *. intros x Hx. apply Hb.
    apply in_rev. exact Hx. }
  destruct (trimStart s) as [|c r] eqn:E.
  - assert (Hs : trimStart (s ++ b) = []).
    { clear Hend. revert E. induction s as [|x s IH]; cbn [app trimStart].
      - intros _. apply trimStart_all_ws, Hb.
      - destruct (is_ws x); [exact IH|discriminate]. }
    rewrite Hs. reflexivity.
  - rewrite trimStart_app by (rewrite E; discriminate).
    rewrite E. apply Hend.
Qed.

Lemma parse_fuel (fuel : nat) (text : jstring) :
  (length (trim text) <= fuel)%nat ->
  parse text
  = (let input := trim text in
     let pv := parseValue fuel in
     let pi := valueInherits fuel in
     if is_empty input then Ok VNull
     else if startsWith c_LBRACE input then parseObject pv pi input
     else if startsWith c_LBRACKET input then parseArray pv input
     else if includes c_PIPE input && includes c_COLON input then
       parsePipeDelimited pv pi input
     else parseValue_body pv pi input).
Proof.
  intros Hfuel. unfold parse. cbn zeta.
  pose proof (trim_length text) as Hlen.
  assert (Hpv : forall u, (length u < length (trim text))%nat ->
                  parseValue (length text) u = parseValue fuel u
                  /\ valueInherits (length text) u = valueInherits fuel u)
    by (intros u Hu; apply parseValue_fuel_both; lia).
  destruct (is_empty (trim text)); [reflexivity|].
  destruct (startsWith c_LBRACE (trim text)).
  { apply parseObject_ext. rewrite trim_idem. exact Hpv. }
  destruct (startsWith c_LBRACKET (trim text)).
  { apply parseArray_ext. rewrite trim_idem. intros u Hu.
    apply (Hpv u Hu). }
  destruct (includes c_PIPE (trim text) && includes c_COLON (trim text)).
  { apply parsePipeDelimited_ext. intros u Hu. apply Hpv.
    apply (pair_values_length (trim text) u Hu). }
  apply parseValue_body_ext, Hpv.
Qed.

(** X5. White space around the text does not matter to [parse]: the text
    padded with white space on both sides is read as the text itself. *)
Theorem parse_ignores_outer_white_space (a b text : jstring) :
  forallb is_ws a = true -> forallb is_ws b = true ->
  parse (a ++ text ++ b) = parse text.
Proof.
  intros Ha Hb.
  pose proof (trim_ws_around a b text Ha Hb) as Ht.
  rewrite (parse_fuel (length text) (a ++ text ++ b))
    by (rewrite Ht; apply trim_length).
  rewrite (parse_fuel (length text) text) by apply trim_length.
  cbn zeta. rewrite Ht. reflexivity.
Qed.

Lemma parse_ignores_outer_white_space_witness :
  parse ([c_LF; c_SPACE] ++ str "[id:1,2|ok:true,false]" ++ [c_TAB])
  = parse (str "[id:1,2|ok:true,false]").
Proof.
  apply parse_ignores_outer_white_space; reflexivity.
Defined.
(* ================================================================== *)
(** * The values that the parser builds *)
(* ================================================================== *)

(** ** Assignment to a property *)

Lemma obj_get_some_in {A : Type} (o : list (jstring * A)) (k : jstring) (v : A) :
  obj_get o k = Some v -> In k (obj_keys o).
Proof.
  induction o as [|[k' v'] o IH]; simpl; [discriminate|].
  destruct (jstring_eqb_spec k' k) as [->|_]; [intros _; left; reflexivity|].
  intros H. right. apply IH, H.
Qed.

Lemma obj_get_none_not_in {A : Type} (o : list (jstring * A)) (k : jstring) :
  obj_get o k = None -> ~ In k (obj_keys o).
Proof.
  induction o as [|[k' v'] o IH]; simpl; [intros _ []|].
  destruct (jstring_eqb_spec k' k) as [->|Hne]; [discriminate|].
  intros H [E|Hin]; [congruence|apply (IH H Hin)].
Qed.

Lemma obj_replace_keys {A : Type} (o : list (jstring * A)) (k : jstring) (v : A) :
  obj_keys (obj_replace o k v) = obj_keys o.
Proof.
  induction o as [|[k' v'] o IH]; simpl; [reflexivity|].
  destruct (jstring_eqb k' k); simpl; [reflexivity|]. f_equal. exact IH.
Qed.

Lemma obj_replace_forall {A : Type} (Q : jstring * A -> Prop)
    (o : list (jstring * A)) (k : jstring) (v : A) :
  Forall Q o -> Q (k, v) -> Forall Q (obj_replace o k v).
Proof.
  intros Ho Hk. induction Ho as [|[k' v'] o Hx Ho IH]; simpl; [constructor|].
  destruct (jstring_eqb_spec k' k) as [->|_]; constructor; assumption.
Qed.

(** A new array index is inserted somewhere in the list. *)
Lemma obj_insert_index_split {A : Type} (o : list (jstring * A)) (k : jstring)
    (i : N) (v : A) :
  exists o1 o2, o = o1 ++ o2 /\ obj_insert_index o k i v = o1 ++ (k, v) :: o2.
Proof.
  induction o as [|[k' v'] o IH]; simpl.
  - exists [], []. split; reflexivity.
  - destruct (array_index k') as [j|].
    + destruct (i <? j).
      * exists [], ((k', v') :: o). split; reflexivity.
      * destruct IH as (o1 & o2 & E1 & E2).
        exists ((k', v') :: o1), o2. rewrite E2. split; [|reflexivity].
        simpl. f_equal. exact E1.
    + exists [], ((k', v') :: o). split; reflexivity.
Qed.

(** What an assignment does to the list of properties. *)
Lemma obj_set_cases {A : Type} (o : list (jstring * A)) (k : jstring) (v : A) :
  (k = str "__proto__" /\ obj_set o k v = o)
  \/ (k <> str "__proto__" /\ In k (obj_keys o)
      /\ obj_set o k v = obj_replace o k v)
  \/ (k <> str "__proto__" /\ ~ In k (obj_keys o)
      /\ exists o1 o2, o = o1 ++ o2 /\ obj_set o k v = o1 ++ (k, v) :: o2).
Proof.
  unfold obj_set.
  destruct (jstring_eqb_spec k (str "__proto__")) as [->|Hne]; [left; auto|].
  right. destruct (obj_get o k) as [w|] eqn:E.
  - left. split; [exact Hne|]. split; [|reflexivity].
    apply (obj_get_some_in o k w E).
  - right. split; [exact Hne|]. split; [apply obj_get_none_not_in, E|].
    destruct (array_index k) as [i|]; [apply obj_insert_index_split|].
    exists o, []. rewrite app_nil_r. split; reflexivity.
Qed.

Lemma obj_set_forall {A : Type} (Q : jstring * A -> Prop)
    (o : list (jstring * A)) (k : jstring) (v : A) :
  Forall Q o -> Q (k, v) -> Forall Q (obj_set o k v).
Proof.
  intros Ho Hk.
  destruct (obj_set_cases o k v)
    as [[_ ->]|[(_ & _ & ->)|(_ & _ & o1 & o2 & E & ->)]].
  - exact Ho.
  - apply obj_replace_forall; assumption.
  - subst o. apply Forall_app in Ho. destruct Ho as [H1 H2].
    apply Forall_app. split; [exact H1|]. constructor; assumption.
Qed.

Lemma obj_set_nodup {A : Type} (o : list (jstring * A)) (k : jstring) (v : A) :
  NoDup (obj_keys o) -> NoDup (obj_keys (obj_set o k v)).
Proof.
  intros Hnd.
  destruct (obj_set_cases o k v)
    as [[_ ->]|[(_ & _ & ->)|(_ & Hfresh & o1 & o2 & E & ->)]].
  - exact Hnd.
  - rewrite obj_replace_keys. exact Hnd.
  - subst o. unfold obj_keys in *. rewrite map_app in *. cbn [map fst].
    apply NoDup_Add with (a := k) (l := map fst o1 ++ map fst o2).
    + apply Add_app.
    + split; assumption.
Qed.

Lemma obj_set_no_proto {A : Type} (o : list (jstring * A)) (k : jstring)
    (v : A) :
  ~ In (str "__proto__") (obj_keys o) ->
  ~ In (str "__proto__") (obj_keys (obj_set o k v)).
Proof.
  intros Hno.
  destruct (obj_set_cases o k v)
    as [[_ ->]|[(_ & _ & ->)|(Hne & _ & o1 & o2 & E & ->)]].
  - exact Hno.
  - rewrite obj_replace_keys. exact Hno.
  - subst o. unfold obj_keys in *. rewrite map_app in *. cbn [map fst].
    intros Hin. apply in_app_or in Hin. destruct Hin as [Hin|[Hin|Hin]].
    + apply Hno. apply in_or_app. left. exact Hin.
    + congruence.
    + apply Hno. apply in_or_app. right. exact Hin.
Qed.

(** The key list after an assignment depends on the key list before and
    on the key only. *)
Lemma obj_insert_index_keys {A B : Type} (o : list (jstring * A))
    (o' : list (jstring * B)) (k : jstring) (i : N) (v : A) (v' : B) :
  obj_keys o = obj_keys o' ->
  obj_keys (obj_insert_index o k i v) = obj_keys (obj_insert_index o' k i v').
Proof.
  revert o'. induction o as [|[k1 v1] o IH]; intros [|[k2 v2] o'] E;
    try discriminate; [reflexivity|].
  unfold obj_keys in E. cbn [map fst] in E. injection E as -> E.
  cbn [obj_insert_index]. destruct (array_index k2) as [j|].
  - destruct (i <? j).
    + unfold obj_keys. cbn [map fst]. rewrite E. reflexivity.
    + unfold obj_keys in *. cbn [map fst]. f_equal. apply IH, E.
  - unfold obj_keys. cbn [map fst]. rewrite E. reflexivity.
Qed.

Lemma obj_get_keys {A B : Type} (o : list (jstring * A))
    (o' : list (jstring * B)) (k : jstring) :
  obj_keys o = obj_keys o' ->
  (obj_get o k = None <-> obj_get o' k = None).
Proof.
  revert o'. induction o as [|[k1 v1] o IH]; intros [|[k2 v2] o'] E;
    try discriminate; [tauto|].
  unfold obj_keys in E. cbn [map fst] in E. injection E as -> E.
  cbn [obj_get]. destruct (jstring_eqb k2 k); [split; discriminate|].
  apply IH, E.
Qed.

Lemma obj_set_keys {A B : Type} (o : list (jstring * A))
    (o' : list (jstring * B)) (k : jstring) (v : A) (v' : B) :
  obj_keys o = obj_keys o' ->
  obj_keys (obj_set o k v) = obj_keys (obj_set o' k v').
Proof.
  intros E. unfold obj_set.
  destruct (jstring_eqb k (str "__proto__")); [exact E|].
  pose proof (obj_get_keys o o' k E) as Hget.
  destruct (obj_get o k) as [w|] eqn:E1; destruct (obj_get o' k) as [w'|] eqn:E2.
  - rewrite !obj_replace_keys. exact E.
  - exfalso. destruct Hget as [_ H]. discriminate (H eq_refl).
  - exfalso. destruct Hget as [H _]. discriminate (H eq_refl).
  - destruct (array_index k) as [i|]; [apply obj_insert_index_keys, E|].
    unfold obj_keys in *. rewrite !map_app, E. reflexivity.
Qed.

Lemma obj_get_in {A : Type} (o : list (jstring * A)) (k : jstring) (v : A) :
  obj_get o k = Some v -> In (k, v) o.
Proof.
  induction o as [|[k' v'] o IH]; simpl; [discriminate|].
  destruct (jstring_eqb_spec k' k) as [->|_].
  - intros [= ->]. left. reflexivity.
  - intros H. right. apply IH, H.
Qed.

(** ** Every value that is parsed is well formed *)

Lemma well_formed_object_inv (props : list (jstring * Value)) :
  well_formed (VObject props) ->
  NoDup (obj_keys props)
  /\ Forall (fun entry => trim (fst entry) = fst entry
                          /\ well_formed (snd entry)) props.
Proof.
  intros H. inversion H as [v Ha| |props' H1 H2]; subst;
    [destruct Ha|auto].
Qed.

Lemma well_formed_object_set (obj : list (jstring * Value)) (k : jstring)
    (v : Value) :
  well_formed (VObject obj) -> trim k = k -> well_formed v ->
  well_formed (VObject (obj_set obj k v)).
Proof.
  intros Ho Hk Hv. apply well_formed_object_inv in Ho.
  destruct Ho as (H1 & H3). apply well_formed_object.
  - apply obj_set_nodup, H1.
  - apply obj_set_forall; [exact H3|]. split; assumption.
Qed.

(** An assignment keeps the keys distinct, whatever it does with
    [__proto__]. *)
Lemma well_formed_object_assign (obj : list (jstring * Value)) (inh : bool)
    (k : jstring) (v : Value) (vinh : bool) :
  well_formed (VObject obj) -> trim k = k -> well_formed v ->
  well_formed (VObject (fst (obj_assign obj inh k v vinh))).
Proof.
  intros Ho Hk Hv. unfold obj_assign.
  destruct (jstring_eqb k (str "__proto__"));
    [|apply well_formed_object_set; assumption].
  pose proof Ho as Ho'. apply well_formed_object_inv in Ho'.
  destruct Ho' as (H1 & H3).
  destruct (obj_get obj k) as [w|] eqn:Eget.
  - cbn [fst]. apply well_formed_object.
    + rewrite obj_replace_keys. exact H1.
    + apply obj_replace_forall; [exact H3|]. split; assumption.
  - destruct inh; [destruct v; exact Ho|].
    cbn [fst]. apply well_formed_object.
    + rewrite obj_keys_app. cbn [obj_keys map fst].
      apply NoDup_app; [exact H1|repeat constructor; intros []|].
      intros x Hx [<-|[]]. apply (obj_get_none_not_in obj k Eget Hx).
    + apply Forall_app. split; [exact H3|].
      constructor; [split; assumption|constructor].
Qed.

Lemma well_formed_empty_object : well_formed (VObject []).
Proof.
  apply well_formed_object; constructor.
Qed.

Lemma map_result_forall {A B : Type} (f : A -> result B) (P : B -> Prop)
    (xs : list A) :
  (forall x y, f x = Ok y -> P y) ->
  forall ys, map_result f xs = Ok ys -> Forall P ys.
Proof.
  intros Hf. induction xs as [|x xs IH]; intros ys H.
  - injection H as <-. constructor.
  - cbn [map_result] in H. destruct (f x) as [y| |] eqn:Ey; try discriminate.
    cbn [bind] in H. destruct (map_result f xs) as [ys'| |]; try discriminate.
    cbn [bind] in H. injection H as <-.
    constructor; [apply (Hf x y Ey)|apply IH; reflexivity].
Qed.

Section WellFormed.
Variable pv : jstring -> result Value.
Hypothesis pv_well_formed : forall u v, pv u = Ok v -> well_formed v.

Lemma parseColumnarArray_loop_well_formed (pairs : list jstring) :
  forall columns columns',
    Forall (fun column => trim (fst column) = fst column
                          /\ Forall well_formed (snd column)) columns ->
    parseColumnarArray_loop pv pairs columns = Ok columns' ->
    Forall (fun column => trim (fst column) = fst column
                          /\ Forall well_formed (snd column)) columns'.
Proof.
  induction pairs as [|p pairs IH]; intros columns columns' Hcols H.
  - injection H as <-. exact Hcols.
  - cbn [parseColumnarArray_loop] in H.
    destruct (is_empty (trim p)); [apply (IH _ _ Hcols H)|].
    destruct (findTopLevelColon p) as [idx|]; [|apply (IH _ _ Hcols H)].
    destruct (map_result _ _) as [vs| |] eqn:Evs; try discriminate.
    cbn [bind] in H.
    pose proof (map_result_forall _ well_formed _
                  (fun x y => pv_well_formed (trim x) y) vs Evs) as Hvs.
    apply (IH _ _ (obj_set_forall _ columns _ vs Hcols
                     (conj (trim_idem _) Hvs)) H).
Qed.

Lemma columnar_row_well_formed (columns : list (jstring * list Value))
    (keys : list jstring) (i : nat) :
  Forall (fun column => trim (fst column) = fst column
                        /\ Forall well_formed (snd column)) columns ->
  Forall (fun key => trim key = key) keys ->
  well_formed (columnar_row columns keys i).
Proof.
  intros Hcols Hkeys. unfold columnar_row.
  assert (Hgen : forall acc,
            well_formed (VObject acc) ->
            well_formed
              (VObject
                 (fold_left
                    (fun row key =>
                       obj_set row key
                         match obj_get columns key with
                         | Some column => column_at column i
                         | None => VUndefined
                         end) keys acc))).
  { induction Hkeys as [|key keys Hkey _ IH]; intros acc Hacc; [exact Hacc|].
    cbn [fold_left]. apply IH. apply well_formed_object_set; auto.
    destruct (obj_get columns key) as [column|] eqn:E;
      [|apply well_formed_atom; exact I].
    apply obj_get_in in E. rewrite Forall_forall in Hcols.
    destruct (Hcols _ E) as [_ Hcol]. cbn [snd] in Hcol.
    unfold column_at.
    destruct (nth_in_or_default i column VUndefined) as [Hin|Hdef].
    - rewrite Forall_forall in Hcol. apply Hcol, Hin.
    - rewrite Hdef. apply well_formed_atom. exact I. }
  apply Hgen, well_formed_empty_object.
Qed.

Lemma parseColumnarArray_well_formed (content : jstring) (v : Value) :
  parseColumnarArray pv content = Ok v -> well_formed v.
Proof.
  unfold parseColumnarArray.
  destruct (parseColumnarArray_loop pv (splitByPipe content) [])
    as [columns| |] eqn:E; try discriminate.
  cbn [bind].
  pose proof (parseColumnarArray_loop_well_formed _ _ _ (Forall_nil _) E)
    as Hcols.
  assert (Hkeys : Forall (fun key => trim key = key) (obj_keys columns)).
  { unfold obj_keys. apply Forall_forall. intros key Hkey.
    apply in_map_iff in Hkey. destruct Hkey as (col & <- & Hcol).
    rewrite Forall_forall in Hcols. apply (Hcols col Hcol). }
  destruct (obj_keys columns) as [|key0 keys] eqn:Ek.
  - intros [= <-]. apply well_formed_array. constructor.
  - intros [= <-]. apply well_formed_array. apply Forall_forall.
    intros row Hrow. apply in_map_iff in Hrow. destruct Hrow as (i & <- & _).
    split; [discriminate|]. apply columnar_row_well_formed; assumption.
Qed.

Lemma parseArray_well_formed (t : jstring) (v : Value) :
  parseArray pv t = Ok v -> well_formed v.
Proof.
  unfold parseArray. destruct (_ || _); [discriminate|].
  destruct (is_empty _).
  { intros [= <-]. apply well_formed_array. constructor. }
  destruct (_ && _); [apply parseColumnarArray_well_formed|].
  destruct (map_result _ _) as [vs| |] eqn:Evs; try discriminate.
  cbn [bind]. intros [= <-]. apply well_formed_array.
  pose proof (map_result_forall _ well_formed _
                (fun x y => pv_well_formed (trim x) y) vs Evs) as Hvs.
  apply Forall_forall. intros item Hitem. apply filter_In in Hitem.
  destruct Hitem as [Hin Hdef]. split.
  - intros ->. discriminate Hdef.
  - rewrite Forall_forall in Hvs. apply Hvs, Hin.
Qed.

Variable pi : jstring -> bool.

Lemma parsePipeDelimited_loop_well_formed (pairs : list jstring) :
  forall obj inh st,
    well_formed (VObject obj) ->
    parsePipeDelimited_loop pv pi pairs obj inh = Ok st ->
    well_formed (VObject (fst st)).
Proof.
  induction pairs as [|p pairs IH]; intros obj inh st Hobj H.
  - injection H as <-. exact Hobj.
  - cbn [parsePipeDelimited_loop] in H.
    destruct (is_empty (trim p)); [apply (IH _ _ _ Hobj H)|].
    destruct (findTopLevelColon p) as [idx|]; [|apply (IH _ _ _ Hobj H)].
    destruct (pv (trim (substring_from (idx + 1) p))) as [w| |] eqn:Ew;
      try discriminate.
    cbn [bind] in H.
    pose proof (well_formed_object_assign obj inh
                  (trim (substring_to idx p)) w
                  (pi (trim (substring_from (idx + 1) p))) Hobj
                  (trim_idem _) (pv_well_formed _ _ Ew)) as Hnext.
    destruct (obj_assign _ _ _ _ _) as [obj' inh'].
    apply (IH _ _ _ Hnext H).
Qed.

Lemma parsePipeDelimited_well_formed (content : jstring) (v : Value) :
  parsePipeDelimited pv pi content = Ok v -> well_formed v.
Proof.
  unfold parsePipeDelimited.
  destruct (parsePipeDelimited_loop pv pi (splitByPipe content) [] true)
    as [st| |] eqn:E; try discriminate.
  cbn [bind]. intros [= <-].
  apply (parsePipeDelimited_loop_well_formed _ _ _ _
           well_formed_empty_object E).
Qed.

Lemma parseObject_well_formed (t : jstring) (v : Value) :
  parseObject pv pi t = Ok v -> well_formed v.
Proof.
  unfold parseObject. destruct (_ || _); [discriminate|].
  destruct (is_empty _).
  - intros [= <-]. apply well_formed_empty_object.
  - apply parsePipeDelimited_well_formed.
Qed.

Lemma parseValue_body_well_formed (t : jstring) (v : Value) :
  parseValue_body pv pi t = Ok v -> well_formed v.
Proof.
  unfold parseValue_body.
  repeat match goal with
         | |- (if ?c then _ else _) = _ -> _ => destruct c
         | |- Ok _ = Ok _ -> _ =>
             intros [= <-]; apply well_formed_atom; exact I
         end;
    try apply parseObject_well_formed; try apply parseArray_well_formed.
  destruct (parseFloat (trim t)) as [| | [|] |]; intros [= <-];
    apply well_formed_atom; exact I.
Qed.
End WellFormed.

Lemma parseValue_well_formed (fuel : nat) :
  forall u v, parseValue fuel u = Ok v -> well_formed v.
Proof.
  induction fuel as [|fuel IH]; intros u v H; [discriminate|].
  cbn [parseValue] in H. apply (parseValue_body_well_formed _ IH _ u v H).
Qed.

(** X6. Every value that [parse] returns is well formed, at every depth:
    no array has an [undefined] element, and the keys of every object are
    distinct and trimmed.  (A key [__proto__] is among them when the
    text assigns to [__proto__] after the object has lost its
    prototype.) *)
Theorem parse_well_formed (text : jstring) (v : Value) :
  parse text = Ok v -> well_formed v.
Proof.
  unfold parse. cbn zeta.
  pose proof (parseValue_well_formed (length text)) as Hpv.
  destruct (is_empty (trim text)).
  { intros [= <-]. apply well_formed_atom. exact I. }
  destruct (startsWith c_LBRACE (trim text));
    [apply parseObject_well_formed, Hpv|].
  destruct (startsWith c_LBRACKET (trim text));
    [apply parseArray_well_formed, Hpv|].
  destruct (_ && _).
  - apply parsePipeDelimited_well_formed, Hpv.
  - apply parseValue_body_well_formed, Hpv.
Qed.

Lemma parse_well_formed_witness :
  parse (str "{x:[1,undefined,2]| a :2| a:3|__proto__:null|__proto__:5}")
  = Ok (VObject [(str "x", VArray [VNumber (Finite false [1] 1);
                                   VNumber (Finite false [2] 1)]);
                 (str "a", VNumber (Finite false [3] 1));
                 (str "__proto__", VNumber (Finite false [5] 1))])
  /\ well_formed
       (VObject [(str "x", VArray [VNumber (Finite false [1] 1);
                                   VNumber (Finite false [2] 1)]);
                 (str "a", VNumber (Finite false [3] 1));
                 (str "__proto__", VNumber (Finite false [5] 1))]).
Proof.
  split; [vm_compute; reflexivity|].
  apply (parse_well_formed
           (str "{x:[1,undefined,2]| a :2| a:3|__proto__:null|__proto__:5}")).
  vm_compute. reflexivity.
Defined.

(** ** The rows read from columns share one key list *)

Lemma fold_obj_set_keys (g g' : jstring -> Value) (keys : list jstring) :
  forall acc acc' : list (jstring * Value),
    obj_keys acc = obj_keys acc' ->
    obj_keys (fold_left (fun row key => obj_set row key (g key)) keys acc)
    = obj_keys (fold_left (fun row key => obj_set row key (g' key)) keys acc').
Proof.
  induction keys as [|key keys IH]; intros acc acc' E; [exact E|].
  cbn [fold_left]. apply IH. apply obj_set_keys, E.
Qed.

(** X7. What [parseColumnarArray] returns is always an array of objects
    that all list the same keys in the same order, so that
    [isArrayOfObjects] accepts it when it is not empty: what is read from
    columns is written in columns again. *)
Theorem parseColumnarArray_uniform (pv : jstring -> result Value)
    (content : jstring) (v : Value) :
  parseColumnarArray pv content = Ok v ->
  exists rows,
    v = VArray (map VObject rows)
    /\ (forall r r', In r rows -> In r' rows -> obj_keys r = obj_keys r')
    /\ (rows <> [] -> isArrayOfObjects (map VObject rows) = true).
Proof.
  unfold parseColumnarArray.
  destruct (parseColumnarArray_loop pv (splitByPipe content) [])
    as [columns| |]; try discriminate.
  cbn [bind].
  set (cell := fun (i : nat) (key : jstring) =>
                 match obj_get columns key with
                 | Some column => column_at column i
                 | None => VUndefined
                 end).
  set (props := fun i =>
                  fold_left (fun row key => obj_set row key (cell i key))
                    (obj_keys columns) ([] : list (jstring * Value))).
  assert (Hrow : forall i, columnar_row columns (obj_keys columns) i
                           = VObject (props i)) by reflexivity.
  assert (Hkeys : forall i j, obj_keys (props i) = obj_keys (props j)).
  { intros i j. apply fold_obj_set_keys. reflexivity. }
  assert (Hsame : forall n r r',
            In r (map props (seq 0 n)) -> In r' (map props (seq 0 n)) ->
            obj_keys r = obj_keys r').
  { intros n r r' Hr Hr'. apply in_map_iff in Hr, Hr'.
    destruct Hr as (i & <- & _), Hr' as (j & <- & _). apply Hkeys. }
  assert (Hout : forall n,
            exists rows,
              VArray (map (columnar_row columns (obj_keys columns)) (seq 0 n))
              = VArray (map VObject rows)
              /\ (forall r r', In r rows -> In r' rows ->
                               obj_keys r = obj_keys r')
              /\ (rows <> [] -> isArrayOfObjects (map VObject rows) = true)).
  { intros n. exists (map props (seq 0 n)). split; [|split].
    - rewrite map_map. f_equal.
    - apply Hsame.
    - intros Hne. destruct (map props (seq 0 n)) as [|row0 rows] eqn:E;
        [congruence|].
      apply isArrayOfObjects_rows. intros row Hrow'. f_equal.
      apply (Hsame n); rewrite E; [right; exact Hrow'|left; reflexivity]. }
  destruct (obj_keys columns) as [|key0 keys] eqn:Ek.
  - intros [= <-]. exists []. split; [reflexivity|].
    split; [intros r r' []|congruence].
  - intros [= <-]. apply Hout.
Qed.

Lemma parseColumnarArray_uniform_witness :
  exists rows,
    VArray [VObject [(str "a", VNumber (Finite false [1] 1));
                     (str "b", VString (str "x"))];
            VObject [(str "a", VNumber (Finite false [2] 1));
                     (str "b", VUndefined)]]
    = VArray (map VObject rows)
    /\ (forall r r', In r rows -> In r' rows -> obj_keys r = obj_keys r')
    /\ (rows <> [] -> isArrayOfObjects (map VObject rows) = true).
Proof.
  apply (parseColumnarArray_uniform (parseValue 5) (str "a:1,2|b:x")).
  vm_compute. reflexivity.
Defined.

(** ** The kind of the result *)

Lemma parsePipeDelimited_object (pv : jstring -> result Value)
    (pi : jstring -> bool) (content : jstring) (v : Value) :
  parsePipeDelimited pv pi content = Ok v -> exists props, v = VObject props.
Proof.
  unfold parsePipeDelimited.
  destruct (parsePipeDelimited_loop _ _ _ _ _) as [st| |]; try discriminate.
  cbn [bind]. intros [= <-]. eexists. reflexivity.
Qed.

Lemma parseObject_object (pv : jstring -> result Value)
    (pi : jstring -> bool) (t : jstring)
    (v : Value) :
  parseObject pv pi t = Ok v -> exists props, v = VObject props.
Proof.
  unfold parseObject. destruct (_ || _); [discriminate|].
  destruct (is_empty _).
  - intros [= <-]. exists []. reflexivity.
  - apply parsePipeDelimited_object.
Qed.

Lemma parseArray_array (pv : jstring -> result Value) (t : jstring)
    (v : Value) :
  parseArray pv t = Ok v -> exists items, v = VArray items.
Proof.
  unfold parseArray. destruct (_ || _); [discriminate|].
  destruct (is_empty _).
  { intros [= <-]. exists []. reflexivity. }
  destruct (_ && _).
  - unfold parseColumnarArray.
    destruct (parseColumnarArray_loop _ _ _) as [columns| |];
      try discriminate.
    cbn [bind]. destruct (obj_keys columns); intros [= <-]; eexists;
      reflexivity.
  - destruct (map_result _ _) as [vs| |]; try discriminate.
    cbn [bind]. intros [= <-]. eexists. reflexivity.
Qed.

Ltac keyword_cases :=
  repeat split; try discriminate; auto;
  try (intros [?|?]; discriminate);
  try (intros [= <-]; reflexivity);
  try match goal with
      | b : bool |- _ =>
          solve [destruct b; try discriminate; try reflexivity
                |intros ?; destruct b; try discriminate; try reflexivity]
      end.

(** What [parseValue] makes of a text that opens with neither a brace nor
    a bracket. *)
Lemma parseValue_body_atom (pv : jstring -> result Value)
    (pi : jstring -> bool) (t : jstring)
    (v : Value) :
  startsWith c_LBRACE (trim t) = false ->
  startsWith c_LBRACKET (trim t) = false ->
  parseValue_body pv pi t = Ok v ->
  atom v
  /\ (v = VUndefined <-> trim t = str "undefined")
  /\ (v = VNull <-> trim t = [] \/ trim t = str "null")
  /\ (forall b, v = VBool b <-> trim t = if b then str "true" else str "false").
Proof.
  intros Hb Hk. unfold parseValue_body. rewrite Hb, Hk.
  destruct (trim t) as [|c r] eqn:Et.
  { intros [= <-]. keyword_cases. }
  cbn [is_empty]. rewrite <- Et. clear Hb Hk.
  assert (Hne : trim t <> []) by (rewrite Et; discriminate).
  destruct (jstring_eqb_spec (trim t) (str "null")) as [E|N1].
  { intros [= <-]. rewrite E. keyword_cases. }
  destruct (jstring_eqb_spec (trim t) (str "true")) as [E|N2].
  { intros [= <-]. rewrite E. keyword_cases. }
  destruct (jstring_eqb_spec (trim t) (str "false")) as [E|N3].
  { intros [= <-]. rewrite E. keyword_cases. }
  destruct (jstring_eqb_spec (trim t) (str "undefined")) as [E|N4].
  { intros [= <-]. rewrite E. keyword_cases. }
  assert (Hother : forall w,
            w <> VUndefined -> w <> VNull -> (forall b, w <> VBool b) ->
            atom w ->
            atom w
            /\ (w = VUndefined <-> trim t = str "undefined")
            /\ (w = VNull <-> trim t = [] \/ trim t = str "null")
            /\ (forall b, w = VBool b
                          <-> trim t = if b then str "true" else str "false")).
  { intros w H1 H2 H3 Ha. split; [exact Ha|]. split; [|split].
    - split; [contradiction|congruence].
    - split; [contradiction|]. intros [H|H]; congruence.
    - intros b. split; [intros H; destruct (H3 b H)|].
      destruct b; congruence. }
  repeat match goal with
         | |- (if ?c then _ else _) = _ -> _ => destruct c
         | |- Ok _ = Ok _ -> _ =>
             intros [= <-]; apply Hother; try discriminate; exact I
         end.
  destruct (parseFloat (trim t)) as [| | [|] |]; intros [= <-];
    apply Hother; try discriminate; exact I.
Qed.

Lemma parse_kind (text : jstring) (v : Value) :
  parse text = Ok v ->
  let input := trim text in
  if startsWith c_LBRACE input then exists props, v = VObject props
  else if startsWith c_LBRACKET input then exists items, v = VArray items
  else if includes c_PIPE input && includes c_COLON input
       then exists props, v = VObject props
  else atom v.
Proof.
  unfold parse. cbn zeta.
  destruct (trim text) as [|c r] eqn:Et.
  { intros [= <-]. exact I. }
  cbn [is_empty]. rewrite <- Et.
  destruct (startsWith c_LBRACE (trim text)) eqn:Hb;
    [apply parseObject_object|].
  destruct (startsWith c_LBRACKET (trim text)) eqn:Hk;
    [apply parseArray_array|].
  destruct (_ && _); [apply parsePipeDelimited_object|].
  intros H. apply parseValue_body_atom in H; [apply H|..];
    rewrite trim_idem; assumption.
Qed.

(** X8. The kind of value that [parse] returns is decided by the trimmed
    text: an object when it opens with a brace, an array when it opens
    with a bracket, otherwise an object when it has both a pipe and a
    colon, and otherwise neither an object nor an array. *)
Theorem parse_result_kind (text : jstring) (v : Value) :
  parse text = Ok v ->
  let input := trim text in
  if startsWith c_LBRACE input then exists props, v = VObject props
  else if startsWith c_LBRACKET input then exists items, v = VArray items
  else if includes c_PIPE input && includes c_COLON input
       then exists props, v = VObject props
  else atom v.
Proof. exact (parse_kind text v). Qed.

Lemma parse_result_kind_witness :
  exists props,
    VObject [(str "a", VNumber (Finite false [1] 1));
             (str "b", VArray [])] = VObject props.
Proof.
  apply (parse_result_kind (str "a:1|b:[]")). vm_compute. reflexivity.
Defined.

(** X9. [parse] returns [undefined] only for the text [undefined], null
    only for an empty text or the text [null], and a boolean only for the
    texts [true] and [false] (white space around the text apart). *)
Theorem parse_keywords (text : jstring) :
  (parse text = Ok VUndefined <-> trim text = str "undefined")
  /\ (parse text = Ok VNull <-> trim text = [] \/ trim text = str "null")
  /\ (forall b, parse text = Ok (VBool b)
                <-> trim text = if b then str "true" else str "false").
Proof.
  assert (Hback : forall t v,
            trim text = t -> trim t = t -> is_empty t = false ->
            startsWith c_LBRACE t = false -> startsWith c_LBRACKET t = false ->
            includes c_PIPE t && includes c_COLON t = false ->
            parseValue_body (parseValue (length text))
              (valueInherits (length text)) t = Ok v ->
            parse text = Ok v).
  { intros t v Et _ H0 H1 H2 H3 H4. unfold parse. cbn zeta.
    rewrite Et, H0, H1, H2, H3. exact H4. }
  assert (Hfwd : forall v,
            parse text = Ok v -> atom v ->
            (v = VUndefined <-> trim text = str "undefined")
            /\ (v = VNull <-> trim text = [] \/ trim text = str "null")
            /\ (forall b, v = VBool b
                  <-> trim text = if b then str "true" else str "false")).
  { intros v Hp Ha. pose proof (parse_kind text v Hp) as Hkind.
    cbn zeta in Hkind. revert Hp. unfold parse. cbn zeta.
    destruct (trim text) as [|c r] eqn:Et.
    { intros [= <-]. keyword_cases. }
    cbn [is_empty]. rewrite <- Et in *.
    destruct (startsWith c_LBRACE (trim text)) eqn:Hb.
    { destruct Hkind as [props ->]. destruct Ha. }
    destruct (startsWith c_LBRACKET (trim text)) eqn:Hk.
    { destruct Hkind as [items ->]. destruct Ha. }
    destruct (_ && _).
    { destruct Hkind as [props ->]. destruct Ha. }
    intros H. apply parseValue_body_atom in H;
      [|rewrite trim_idem; assumption..].
    rewrite trim_idem in H. apply H. }
  split; [|split].
  - split.
    + intros H. apply (Hfwd VUndefined H I). reflexivity.
    + intros E. apply (Hback (str "undefined")); auto.
  - split.
    + intros H. apply (Hfwd VNull H I). reflexivity.
    + intros [E|E].
      * unfold parse. cbn zeta. rewrite E. reflexivity.
      * apply (Hback (str "null")); auto.
  - intros b. split.
    + intros H. apply (Hfwd (VBool b) H I). reflexivity.
    + intros E. destruct b;
        [apply (Hback (str "true"))|apply (Hback (str "false"))]; auto.
Qed.

Lemma parse_keywords_witness :
  parse ([c_SPACE] ++ str "undefined" ++ [c_LF]) = Ok VUndefined.
Proof.
  apply (parse_keywords ([c_SPACE] ++ str "undefined" ++ [c_LF])).
  reflexivity.
Defined.
(* ================================================================== *)
(** * More round trips through [stringify] and [parse] *)
(* ================================================================== *)

(** ** Strings at top level *)

(** Escaping neither adds nor removes a pipe or a colon. *)
Lemma includes_escape_char (c x : char) :
  c = c_PIPE \/ c = c_COLON ->
  includes c (escape_char x) = (c =? x).
Proof.
  intros Hc. unfold escape_char.
  destruct (N.eqb_spec x c_BACKSLASH) as [->|_];
    [destruct Hc; subst c; reflexivity|].
  destruct (N.eqb_spec x c_DQUOTE) as [->|_];
    [destruct Hc; subst c; reflexivity|].
  destruct (N.eqb_spec x c_LF) as [->|_];
    [destruct Hc; subst c; reflexivity|].
  destruct (N.eqb_spec x c_TAB) as [->|_];
    [destruct Hc; subst c; reflexivity|].
  destruct (N.eqb_spec x c_CR) as [->|_];
    [destruct Hc; subst c; reflexivity|].
  destruct (is_control x) eqn:Ectl.
  - assert (Hhex : includes c (hex4 x) = false).
    { apply includes_false. intros Hin. apply hex4_chars in Hin.
      destruct Hc; subst c; lia. }
    assert (Hx : (c =? x) = false).
    { apply N.eqb_neq. intros <-. destruct Hc; subst c; discriminate. }
    rewrite Hx. cbn [app includes existsb]. unfold includes in Hhex.
    rewrite Hhex. destruct Hc; subst c; reflexivity.
  - cbn [includes existsb]. apply orb_false_r.
Qed.

Lemma includes_escapeString (c : char) (s : jstring) :
  c = c_PIPE \/ c = c_COLON ->
  includes c (escapeString s) = includes c s.
Proof.
  intros Hc. rewrite escapeString_flat_map.
  induction s as [|x s IH]; [reflexivity|].
  cbn [flat_map]. rewrite includes_app, IH, (includes_escape_char c x Hc).
  reflexivity.
Qed.

Lemma includes_quoted_text (c : char) (s : jstring) :
  c = c_PIPE \/ c = c_COLON ->
  includes c (quoted_text s) = includes c s.
Proof.
  intros Hc. unfold quoted_text.
  rewrite !includes_app, (includes_escapeString c s Hc).
  destruct Hc; subst c; cbn [includes existsb N.eqb Pos.eqb orb];
    apply orb_false_r.
Qed.

(** A scanner that starts on a quoted text sees no separator in it,
    whatever the quoted string is. *)
Lemma quoted_text_quiet (sep : char) (s : jstring) :
  sep <> c_DQUOTE -> scan_quiet sep (quoted_text s) None scan_init = true.
Proof.
  intros Hsep. unfold quoted_text. rewrite escapeString_flat_map.
  set (st1 := mkScan 0 true (Some c_DQUOTE)).
  assert (H1 : scan_step scan_init c_DQUOTE None = st1) by reflexivity.
  destruct (scan_guarded sep (flat_map escape_char s) (Some c_DQUOTE) st1
              (guarded_escape s _) eq_refl eq_refl) as [Hrun Hquiet].
  assert (Hq : (c_DQUOTE =? sep) = false)
    by (apply N.eqb_neq; intros E; apply Hsep; symmetry; exact E).
  cbn [app scan_quiet]. rewrite H1.
  rewrite scan_quiet_app, Hquiet, Hrun. cbn [andb scan_quiet].
  rewrite Hq, !andb_false_r. reflexivity.
Qed.

Lemma stringify_quoted (s : jstring) (opts : options) :
  needsQuoting s = true -> stringify (VString s) opts = quoted_text s.
Proof.
  intros H. unfold stringify. cbn [stringifyValue]. rewrite H. reflexivity.
Qed.

Lemma parse_quoted_text (s : jstring) :
  parse (quoted_text s)
  = if includes c_PIPE s && includes c_COLON s then
      parsePipeDelimited (parseValue (length (quoted_text s)))
        (valueInherits (length (quoted_text s))) (quoted_text s)
    else parseValue_body (parseValue (length (quoted_text s)))
           (valueInherits (length (quoted_text s))) (quoted_text s).
Proof.
  unfold parse. cbn zeta. rewrite quoted_text_trim.
  rewrite !includes_quoted_text by auto. reflexivity.
Qed.

(** X10. A String that needs quoting and has no NUL character is read
    back from its serialized form at top level, unless it has both a
    pipe and a colon; a String that ends with a backslash is no
    exception there. *)
Theorem quoted_string_round_trip (s : jstring) (opts : options) :
  needsQuoting s = true -> ~ In c_NUL s ->
  includes c_PIPE s && includes c_COLON s = false ->
  parse (stringify (VString s) opts) = Ok (VString s).
Proof.
  intros Hq Hnul Hboth. rewrite (stringify_quoted s opts Hq).
  rewrite parse_quoted_text, Hboth. apply parseValue_body_quoted, Hnul.
Qed.

Lemma quoted_string_round_trip_witness :
  parse (stringify (VString (str "C:\dir\")) default_options)
  = Ok (VString (str "C:\dir\")).
Proof.
  apply quoted_string_round_trip; [reflexivity| |reflexivity].
  intros H. simpl in H. intuition discriminate.
Defined.

(** X11. A String that has both a pipe and a colon is quoted by
    [stringify], but [parse] takes its text for a pipe-delimited object:
    the one segment has no colon outside the quotes, and the result is
    the empty object. *)
Theorem string_with_pipe_and_colon_reads_as_empty_object (s : jstring)
    (opts : options) :
  includes c_PIPE s = true -> includes c_COLON s = true ->
  parse (stringify (VString s) opts) = Ok (VObject []).
Proof.
  intros Hp Hc.
  assert (Hq : needsQuoting s = true).
  { destruct (needsQuoting s) eqn:E; [reflexivity|].
    apply needsQuoting_false in E. destruct E as (_ & E & _). congruence. }
  rewrite (stringify_quoted s opts Hq), parse_quoted_text, Hp, Hc.
  cbn [andb]. unfold parsePipeDelimited.
  assert (Hsplit : splitByPipe (quoted_text s) = [quoted_text s]).
  { unfold splitByPipe. rewrite <- (app_nil_r (quoted_text s)) at 1.
    rewrite splitByPipe_loop_quiet by (apply quoted_text_quiet; discriminate).
    reflexivity. }
  assert (Hcolon : findTopLevelColon (quoted_text s) = None).
  { unfold findTopLevelColon. rewrite <- (app_nil_r (quoted_text s)).
    rewrite findTopLevelColon_loop_quiet
      by (apply quoted_text_quiet; discriminate).
    reflexivity. }
  rewrite Hsplit. cbn [parsePipeDelimited_loop].
  rewrite quoted_text_trim, Hcolon. reflexivity.
Qed.

Lemma string_with_pipe_and_colon_reads_as_empty_object_witness :
  parse (stringify (VString (str "a|b:c")) default_options) = Ok (VObject []).
Proof.
  apply string_with_pipe_and_colon_reads_as_empty_object; reflexivity.
Defined.

(** ** Nested values at top level *)

(** A trimmed text that opens with a brace or a bracket is read by
    [parse] as [parseValue] reads it. *)
Lemma parse_bracketed_value (fuel : nat) (t : jstring) :
  trim t = t ->
  startsWith c_LBRACE t = true \/ startsWith c_LBRACKET t = true ->
  (length t <= fuel)%nat ->
  parse t = parseValue (S fuel) t.
Proof.
  intros Htrim Hopen Hfuel.
  rewrite (parse_fuel fuel t) by (rewrite Htrim; exact Hfuel).
  cbn zeta. rewrite Htrim. cbn [parseValue].
  destruct Hopen as [Hs|Hs].
  - rewrite (startsWith_nonempty _ _ Hs), Hs.
    symmetry. apply parseValue_body_object; assumption.
  - rewrite (startsWith_nonempty _ _ Hs), Hs.
    rewrite (startsWith_other _ c_LBRACE _ Hs) by discriminate.
    symmetry. apply parseValue_body_array; assumption.
Qed.

Lemma scalar_text_not_bracketed (v : Value) :
  scalar v ->
  startsWith c_LBRACE (flat_text v) = false
  /\ startsWith c_LBRACKET (flat_text v) = false.
Proof.
  intros H. destruct (scalar_text_cases v H) as [(Hq & _)|(s & _ & _ & ->)].
  - apply needsQuoting_false in Hq.
    destruct Hq as (_ & _ & _ & _ & H1 & _ & H2 & _).
    split; apply startsWith_includes; assumption.
  - split; reflexivity.
Qed.

(** X12. With the columnar option off, every readable value is read back
    by [parse] from what [stringify] writes for it at top level: every
    readable object and array, nested at any depth, and every readable
    scalar whose text does not have both a pipe and a colon. *)
Theorem flat_round_trip (v : Value) :
  readable v ->
  (atom v ->
   includes c_PIPE (flat_text v) && includes c_COLON (flat_text v) = false) ->
  parse (stringify v (mkOptions false false)) = Ok v.
Proof.
  intros Hr Hboth. change (stringify v (mkOptions false false)) with (flat_text v).
  destruct (readable_tight v Hr) as [Hne Htrim].
  pose proof Hr as Hr'.
  inversion Hr as [v' Hs|props Hnd Hall|items Hall]; subst.
  - assert (Ha : atom v) by (destruct v; try exact I; destruct Hs).
    destruct (scalar_text_not_bracketed v Hs) as [H1 H2].
    unfold parse. cbn zeta. rewrite Htrim, H1, H2, (Hboth Ha).
    replace (is_empty (flat_text v)) with false
      by (destruct (flat_text v); [congruence|reflexivity]).
    apply parseValue_body_scalar, Hs.
  - rewrite (parse_bracketed_value (length (flat_text (VObject props))));
      [apply readable_parse; [exact Hr'|lia]|exact Htrim| |lia].
    left. destruct props; [reflexivity|].
    rewrite object_text by discriminate. reflexivity.
  - rewrite (parse_bracketed_value (length (flat_text (VArray items))));
      [apply readable_parse; [exact Hr'|lia]|exact Htrim| |lia].
    right. destruct items; [reflexivity|].
    rewrite array_text by (discriminate || apply readable_array_no_pipe, Hr').
    reflexivity.
Qed.

Lemma flat_round_trip_witness :
  let one := VNumber (Finite false [1] 1) in
  let value :=
    VObject [(str "users",
              VArray [VObject [(str "id", one)]; VObject []]);
             (str "meta", VObject [(str "ok", VBool true);
                                   (str "n", one)])] in
  parse (stringify value (mkOptions false false)) = Ok value.
Proof.
  intros one value.
  assert (Hplain : forall k,
            In k [str "users"; str "meta"; str "id"; str "ok"; str "n"] ->
            plain_key k).
  { intros k Hk. repeat (destruct Hk as [<-|Hk]; [repeat split;
      try discriminate; reflexivity|]). destruct Hk. }
  assert (Hone : readable one).
  { apply readable_scalar; cbn [scalar canonical];
      repeat split; try discriminate; repeat constructor. }
  assert (Htrue : readable (VBool true)) by (apply readable_scalar; exact I).
  assert (Hid : readable (VObject [(str "id", one)])).
  { apply readable_object; [repeat constructor; intros []|].
    apply Forall_cons; [|apply Forall_nil].
    split; [apply Hplain; simpl; auto 10|exact Hone]. }
  assert (Hempty : readable (VObject [])).
  { apply readable_object; constructor. }
  apply flat_round_trip; [|intros []].
  apply readable_object.
  - repeat constructor; simpl; intuition discriminate.
  - apply Forall_cons; [split; [apply Hplain; simpl; auto 10|]|].
    + apply readable_array.
      apply Forall_cons; [split; [exact Hid|split; [discriminate|reflexivity]]|].
      apply Forall_cons;
        [split; [exact Hempty|split; [discriminate|reflexivity]]|].
      apply Forall_nil.
    + apply Forall_cons; [split; [apply Hplain; simpl; auto 10|]|apply Forall_nil].
      apply readable_object.
      * repeat constructor; simpl; intuition discriminate.
      * apply Forall_cons; [split; [apply Hplain; simpl; auto 10|exact Htrue]|].
        apply Forall_cons; [split; [apply Hplain; simpl; auto 10|exact Hone]|].
        apply Forall_nil.
Defined.

(** ** Brackets around nothing *)

(** X13. Brackets around white space only are read as the empty array,
    and braces around white space only as the empty object. *)
Theorem parse_blank_brackets (ws : jstring) :
  forallb is_ws ws = true ->
  parse ([c_LBRACKET] ++ ws ++ [c_RBRACKET]) = Ok (VArray [])
  /\ parse ([c_LBRACE] ++ ws ++ [c_RBRACE]) = Ok (VObject []).
Proof.
  intros Hws. split.
  - rewrite (parse_bracketed_value (length ([c_LBRACKET] ++ ws ++ [c_RBRACKET])));
      [|apply (trim_ends c_LBRACKET c_RBRACKET); reflexivity
       |right; reflexivity|lia].
    cbn [parseValue]. rewrite parseValue_body_array;
      [|apply (trim_ends c_LBRACKET c_RBRACKET); reflexivity|reflexivity].
    rewrite parseArray_brackets, (trim_all_ws ws Hws). reflexivity.
  - rewrite (parse_bracketed_value (length ([c_LBRACE] ++ ws ++ [c_RBRACE])));
      [|apply (trim_ends c_LBRACE c_RBRACE); reflexivity
       |left; reflexivity|lia].
    cbn [parseValue]. rewrite parseValue_body_object;
      [|apply (trim_ends c_LBRACE c_RBRACE); reflexivity|reflexivity].
    rewrite parseObject_braces, (trim_all_ws ws Hws). reflexivity.
Qed.

Lemma parse_blank_brackets_witness :
  parse (str "[ ]") = Ok (VArray []) /\ parse (str "{ }") = Ok (VObject []).
Proof. apply (parse_blank_brackets [c_SPACE]). reflexivity. Defined.

(** ** White space before a segment *)

Lemma is_ws_inert (sep c : char) :
  sep = c_PIPE \/ sep = c_COMMA \/ sep = c_COLON ->
  is_ws c = true -> inert_for sep c = true /\ c <> c_BACKSLASH.
Proof.
  intros Hsep Hws.
  assert (Hne : forall d, is_ws d = false -> c <> d)
    by (intros d Hd E; subst d; congruence).
  split; [|apply Hne; reflexivity].
  unfold inert_for. apply negb_true_iff.
  repeat (apply orb_false_iff; split); apply N.eqb_neq, Hne;
    try reflexivity.
  destruct Hsep as [E|[E|E]]; subst sep; reflexivity.
Qed.

Lemma ws_inert (sep : char) (ws : jstring) :
  sep = c_PIPE \/ sep = c_COMMA \/ sep = c_COLON ->
  forallb is_ws ws = true ->
  forallb (inert_for sep) ws = true
  /\ is_backslash (prev_after ws None) = false.
Proof.
  intros Hsep Hws. rewrite forallb_forall in Hws. split.
  - apply forallb_forall. intros c Hc. apply is_ws_inert; auto.
  - destruct ws as [|c ws] using rev_ind; [reflexivity|].
    rewrite prev_after_app. cbn. apply N.eqb_neq.
    apply (is_ws_inert sep c Hsep). apply Hws. apply in_or_app.
    right. left. reflexivity.
Qed.

Lemma findTopLevelColon_loop_shift (input : jstring) :
  forall i prevChar st,
    findTopLevelColon_loop input i prevChar st
    = option_map (fun n => (n + i)%nat)
        (findTopLevelColon_loop input 0 prevChar st).
Proof.
  induction input as [|c rest IH]; intros i prevChar st; [reflexivity|].
  cbn [findTopLevelColon_loop].
  assert (Hrec : forall st',
            findTopLevelColon_loop rest (S i) (Some c) st'
            = option_map (fun n => (n + i)%nat)
                (findTopLevelColon_loop rest 1 (Some c) st')).
  { intros st'. rewrite (IH (S i)), (IH 1%nat).
    destruct (findTopLevelColon_loop rest 0 (Some c) st'); [|reflexivity].
    cbn [option_map]. f_equal. lia. }
  destruct (negb (inString (track_quote st c prevChar))); [|apply Hrec].
  destruct (_ && _); [reflexivity|apply Hrec].
Qed.

Lemma findTopLevelColon_loop_prev (input : jstring) (i : nat)
    (p q : option char) (st : scan) :
  is_backslash p = is_backslash q ->
  findTopLevelColon_loop input i p st = findTopLevelColon_loop input i q st.
Proof.
  intros H. destruct input as [|c rest]; [reflexivity|].
  cbn [findTopLevelColon_loop]. unfold track_quote. rewrite H. reflexivity.
Qed.

Lemma findTopLevelColon_padded (ws p : jstring) :
  forallb is_ws ws = true ->
  findTopLevelColon (ws ++ p)
  = option_map (fun n => (n + length ws)%nat) (findTopLevelColon p).
Proof.
  intros Hws. destruct (ws_inert c_COLON ws) as [Hin Hbs]; auto.
  unfold findTopLevelColon.
  rewrite findTopLevelColon_loop_quiet by (apply scan_quiet_inert, Hin).
  rewrite (scan_run_inert c_COLON ws Hin).
  rewrite findTopLevelColon_loop_shift.
  rewrite (findTopLevelColon_loop_prev p 0 (prev_after ws None) None);
    [reflexivity|exact Hbs].
Qed.

Lemma trim_ws_before (ws s : jstring) :
  forallb is_ws ws = true -> trim (ws ++ s) = trim s.
Proof.
  intros H. pose proof (trim_ws_around ws [] s H eq_refl) as E.
  rewrite app_nil_r in E. exact E.
Qed.

(** White space before a segment changes nothing for the loop of
    [parseColumnarArray]. *)
Lemma parseColumnarArray_loop_padded (pv : jstring -> result Value)
    (ws p : jstring) (rest rest' : list jstring)
    (columns : list (jstring * list Value)) :
  forallb is_ws ws = true ->
  (forall cols, parseColumnarArray_loop pv rest cols
                = parseColumnarArray_loop pv rest' cols) ->
  parseColumnarArray_loop pv ((ws ++ p) :: rest) columns
  = parseColumnarArray_loop pv (p :: rest') columns.
Proof.
  intros Hws Hrest. cbn [parseColumnarArray_loop].
  rewrite (trim_ws_before ws p Hws), (findTopLevelColon_padded ws p Hws).
  destruct (is_empty (trim p)); [apply Hrest|].
  destruct (findTopLevelColon p) as [idx|]; cbn [option_map]; [|apply Hrest].
  unfold substring_to, substring_from.
  rewrite firstn_app, firstn_all2 by lia.
  replace (idx + length ws - length ws)%nat with idx by lia.
  rewrite (trim_ws_before ws _ Hws).
  rewrite skipn_app, skipn_all2 by lia.
  replace (idx + length ws + 1 - length ws)%nat with (idx + 1)%nat by lia.
  cbn [app]. destruct (map_result _ _); cbn [bind]; try reflexivity.
  apply Hrest.
Qed.

Lemma parseColumnarArray_loop_pads (pv : jstring -> result Value)
    (ws : jstring) (segs : list jstring) :
  forallb is_ws ws = true ->
  forall columns,
    parseColumnarArray_loop pv (map (app ws) segs) columns
    = parseColumnarArray_loop pv segs columns.
Proof.
  intros Hws. induction segs as [|p segs IH]; intros columns; [reflexivity|].
  cbn [map]. apply parseColumnarArray_loop_padded; assumption.
Qed.

(** The parts of a text joined by a pipe and white space. *)
Lemma join_padded (ws : jstring) (p : jstring) (segs : list jstring) :
  join (c_PIPE :: ws) (p :: segs) = join [c_PIPE] (p :: map (app ws) segs).
Proof.
  revert p. induction segs as [|q segs IH]; intros p; [reflexivity|].
  change (join (c_PIPE :: ws) (p :: q :: segs))
    with (p ++ (c_PIPE :: ws) ++ join (c_PIPE :: ws) (q :: segs)).
  cbn [map].
  change (join [c_PIPE] (p :: (ws ++ q) :: map (app ws) segs))
    with (p ++ [c_PIPE] ++ join [c_PIPE] ((ws ++ q) :: map (app ws) segs)).
  rewrite IH. cbn [app]. f_equal. f_equal.
  destruct segs as [|r segs]; [reflexivity|].
  change (join [c_PIPE] (q :: map (app ws) (r :: segs)))
    with (q ++ [c_PIPE] ++ join [c_PIPE] (map (app ws) (r :: segs))).
  change (join [c_PIPE] ((ws ++ q) :: map (app ws) (r :: segs)))
    with ((ws ++ q) ++ [c_PIPE] ++ join [c_PIPE] (map (app ws) (r :: segs))).
  rewrite <- app_assoc. reflexivity.
Qed.

Lemma splitByPipe_join_padded (ws : jstring) (p : jstring)
    (segs : list jstring) :
  forallb is_ws ws = true -> ws <> [] ->
  Forall (fun seg => sealed c_PIPE seg /\ seg <> []) (p :: segs) ->
  splitByPipe (join (c_PIPE :: ws) (p :: segs)) = p :: map (app ws) segs.
Proof.
  intros Hws Hne Hall. rewrite join_padded.
  destruct (ws_inert c_PIPE ws) as [Hin Hbs]; auto.
  apply splitByPipe_join; [discriminate|].
  inversion Hall as [|? ? Hp Hsegs]; subst. constructor; [exact Hp|].
  apply Forall_forall. intros seg Hseg. apply in_map_iff in Hseg.
  destruct Hseg as (q & <- & Hq). rewrite Forall_forall in Hsegs.
  destruct (Hsegs q Hq) as [Hsealed Hq'].
  split; [|destruct ws; [congruence|discriminate]].
  rewrite <- (app_nil_l (ws ++ q)).
  apply (sealed_at_app_inert 0); auto. apply sealed_at_nil.
Qed.

(** Columns joined by a pipe and white space are read like columns joined
    by a pipe. *)
Lemma parseColumnarArray_padded (pv : jstring -> result Value) (ws : jstring)
    (cols : list jstring) :
  forallb is_ws ws = true -> ws <> [] ->
  Forall (fun col => sealed c_PIPE col /\ col <> []) cols ->
  parseColumnarArray pv (join (c_PIPE :: ws) cols)
  = parseColumnarArray pv (join [c_PIPE] cols).
Proof.
  intros Hws Hne Hall. destruct cols as [|p segs]; [reflexivity|].
  unfold parseColumnarArray.
  rewrite (splitByPipe_join_padded ws p segs Hws Hne Hall).
  rewrite (splitByPipe_join (p :: segs)) by (discriminate || exact Hall).
  rewrite <- (app_nil_l p) at 1.
  rewrite (parseColumnarArray_loop_padded pv [] p (map (app ws) segs) segs);
    [reflexivity|reflexivity|].
  intros cols. apply parseColumnarArray_loop_pads, Hws.
Qed.

(** ** Arrays in columns, laid out on several lines *)

Lemma length_join_longer (sep sep' : jstring) (items : list jstring) :
  (length sep <= length sep')%nat ->
  (length (join sep items) <= length (join sep' items))%nat.
Proof.
  intros Hsep. induction items as [|p items IH]; [reflexivity|].
  destruct items as [|q items]; [reflexivity|].
  change (join sep (p :: q :: items))
    with (p ++ sep ++ join sep (q :: items)).
  change (join sep' (p :: q :: items))
    with (p ++ sep' ++ join sep' (q :: items)).
  rewrite !length_app. lia.
Qed.

(** The text of a uniform array of objects with the pretty option. *)
Lemma stringify_columnar_pretty (row0 : list (jstring * Value))
    (rows : list (list (jstring * Value))) (depth : nat) :
  isArrayOfObjects (map VObject (row0 :: rows)) = true ->
  stringifyValue (VArray (map VObject (row0 :: rows))) depth true true
  = [c_LBRACKET]
      ++ ((c_LF :: str "  ")
            ++ join (c_PIPE :: c_LF :: str "  ")
                 (map (column_text (row0 :: rows)) (obj_keys row0))
            ++ [c_LF])
      ++ [c_RBRACKET].
Proof.
  intros Hobj. cbn [map stringifyValue].
  change (VObject row0 :: map VObject rows) with (map VObject (row0 :: rows)).
  rewrite Hobj. cbn [andb]. unfold stringifyColumnar.
  cbn [map keys_of]. rewrite <- !app_assoc. f_equal. f_equal.
  cbn [app]. f_equal. f_equal.
  apply map_ext. intros key. unfold column_text, column_texts.
  cbn [app map]. f_equal. f_equal. f_equal. f_equal.
  - apply render_prop_row_get.
  - rewrite map_map. apply map_ext. intros row. apply render_prop_row_get.
Qed.

(** X28. Every array of Objects that all share one identical key set of
    at least two keys, where every key is plain and every property is a
    readable value (a scalar that reads back from its text, or an object
    or array made of such values), is read back from what [stringify]
    writes for it with the columnar option: [parse] returns a Value
    deep-equal to the array, and the array itself when all the objects
    list their keys in the same order. *)
Theorem columnar_round_trip (row0 : list (jstring * Value))
    (rows : list (list (jstring * Value))) :
  let keys := obj_keys row0 in
  let value := VArray (map VObject (row0 :: rows)) in
  (2 <= length keys)%nat ->
  NoDup keys ->
  Forall plain_key keys ->
  (forall row, In row (row0 :: rows) ->
     Permutation (obj_keys row) keys
     /\ Forall (fun entry => readable (snd entry)) row) ->
  exists parsed,
    parse (stringify value (mkOptions false true)) = Ok parsed
    /\ deep_equal value parsed = true
    /\ ((forall row, In row rows -> obj_keys row = keys) -> parsed = value).
Proof.
  intros keys value Hlen Hnd Hplain Hrows.
  assert (Hcells : forall key row, In key keys -> In row (row0 :: rows) ->
                                   readable (row_get row key)).
  { intros key row _ Hrow. apply row_get_readable, (Hrows row Hrow). }
  assert (Hobj : isArrayOfObjects (map VObject (row0 :: rows)) = true).
  { apply isArrayOfObjects_rows. intros row Hrow. apply sort_permutation.
    apply (Hrows row). right. exact Hrow. }
  exists (VArray (rows_by_keys keys (row0 :: rows))).
  split; [|split].
  - unfold stringify, value. cbn [pretty columnar].
    rewrite (stringify_columnar row0 rows 0 Hobj).
    apply parse_columnar_text; auto. discriminate.
  - apply deep_equal_rows; assumption.
  - intros Hsame. unfold value. f_equal. apply rows_by_keys_same_order; auto.
    intros row [<-|Hrow]; [reflexivity|apply Hsame, Hrow].
Qed.

Lemma columnar_round_trip_witness :
  let one := VNumber (Finite false [1] 1) in
  let two := VNumber (Finite false [2] 1) in
  let meta := VObject [(str "version", two);
                       (str "created", VString (str "2025-01-15"))] in
  let tags := VArray [VString (str "admin"); VString (str "dev ops")] in
  let value :=
    VArray [VObject [(str "id", one); (str "meta", meta); (str "tags", tags)];
            VObject [(str "id", two); (str "meta", VObject []);
                     (str "tags", VArray [])]] in
  stringify value (mkOptions false true)
  = str "[id:1,2|meta:{version:2|created:2025-01-15},{}|tags:[admin,"
      ++ [c_DQUOTE] ++ str "dev ops" ++ [c_DQUOTE] ++ str "],[]]"
  /\ parse (stringify value (mkOptions false true)) = Ok value.
Proof.
  intros one two meta tags value. split; [reflexivity|].
  assert (Hplain : forall k,
            In k [str "id"; str "meta"; str "tags"; str "version";
                  str "created"] -> plain_key k).
  { intros k Hk. repeat (destruct Hk as [<-|Hk]; [repeat split;
      try discriminate; reflexivity|]). destruct Hk. }
  assert (Hnum : forall d, d = 1 \/ d = 2 ->
                   readable (VNumber (Finite false [d] 1))).
  { intros d [->| ->]; apply readable_scalar; cbn [scalar canonical];
      repeat split; try discriminate; repeat constructor. }
  assert (Hbare : forall s, In s [str "2025-01-15"; str "admin"] ->
                    readable (VString s)).
  { intros s Hs. apply readable_scalar. left.
    repeat (destruct Hs as [<-|Hs]; [repeat split; try reflexivity;
      discriminate|]). destruct Hs. }
  assert (Hquoted : readable (VString (str "dev ops"))).
  { apply readable_scalar. right. split; [reflexivity|].
    split; [|reflexivity]. intros H. simpl in H. intuition discriminate. }
  assert (Hmeta : readable meta).
  { apply readable_object.
    - repeat constructor; simpl; intuition discriminate.
    - apply Forall_cons; [split; [apply Hplain|apply Hnum]; simpl; auto 10|].
      apply Forall_cons; [split; [apply Hplain|apply Hbare]; simpl; auto 10|].
      apply Forall_nil. }
  assert (Htags : readable tags).
  { apply readable_array.
    apply Forall_cons;
      [split; [apply Hbare; simpl; auto|split; [discriminate|reflexivity]]|].
    apply Forall_cons;
      [split; [exact Hquoted|split; [discriminate|reflexivity]]|].
    apply Forall_nil. }
  assert (Hempty : readable (VObject []) /\ readable (VArray [])).
  { split; [apply readable_object|apply readable_array]; constructor. }
  destruct (columnar_round_trip
              [(str "id", one); (str "meta", meta); (str "tags", tags)]
              [[(str "id", two); (str "meta", VObject []);
                (str "tags", VArray [])]])
    as (parsed & Hparse & _ & Hsame).
  - simpl. lia.
  - repeat constructor; simpl; intuition discriminate.
  - repeat (apply Forall_cons; [apply Hplain; simpl; auto 10|]).
    apply Forall_nil.
  - intros row [<-|[<-|[]]]; (split; [apply Permutation_refl|]);
      (apply Forall_cons; [apply Hnum; auto|]);
      (apply Forall_cons; [first [exact Hmeta|apply Hempty]|]);
      (apply Forall_cons; [first [exact Htags|apply Hempty]|]);
      apply Forall_nil.
  - etransitivity; [exact Hparse|]. f_equal. apply Hsame.
    intros row [<-|[]]. reflexivity.
Defined.

(** X14. The round trip of the tests of the source: for every array of
    objects that share one key set of at least two plain keys and have
    readable property values, parsing what [stringify] writes with the
    pretty and the columnar options gives a value deep-equal to the
    array, and the array itself when all the objects list their keys in
    the same order. *)
Theorem pretty_columnar_round_trip (row0 : list (jstring * Value))
    (rows : list (list (jstring * Value))) :
  let keys := obj_keys row0 in
  let value := VArray (map VObject (row0 :: rows)) in
  (2 <= length keys)%nat ->
  NoDup keys ->
  Forall plain_key keys ->
  (forall row, In row (row0 :: rows) ->
     Permutation (obj_keys row) keys
     /\ Forall (fun entry => readable (snd entry)) row) ->
  exists parsed,
    parse (stringify value (mkOptions true true)) = Ok parsed
    /\ deep_equal value parsed = true
    /\ ((forall row, In row rows -> obj_keys row = keys) -> parsed = value).
Proof.
  intros keys value Hlen Hnd Hplain Hrows.
  assert (Hcells : forall key row, In key keys -> In row (row0 :: rows) ->
                                   readable (row_get row key)).
  { intros key row _ Hrow. apply row_get_readable, (Hrows row Hrow). }
  assert (Hobj : isArrayOfObjects (map VObject (row0 :: rows)) = true).
  { apply isArrayOfObjects_rows. intros row Hrow. apply sort_permutation.
    apply (Hrows row). right. exact Hrow. }
  assert (Hne : row0 :: rows <> []) by discriminate.
  assert (Hkeys : keys <> [])
    by (destruct keys; [simpl in Hlen; lia|discriminate]).
  exists (VArray (rows_by_keys keys (row0 :: rows))).
  split; [|split].
  - unfold stringify, value. cbn [pretty columnar].
    rewrite (stringify_columnar_pretty row0 rows 0 Hobj). fold keys.
    set (cols := map (column_text (row0 :: rows)) keys).
    set (ws := c_LF :: str "  ").
    assert (Hcover : Forall (fun col => sealed c_PIPE col /\ col <> []) cols)
      by (apply columns_cover; assumption).
    assert (Htight : tight (join (c_PIPE :: ws) cols)).
    { apply tight_join; [subst cols; destruct keys; [congruence|discriminate]|].
      apply Forall_forall. intros col Hcol. apply in_map_iff in Hcol.
      destruct Hcol as (key & <- & Hkey). apply column_text_tight; auto.
      revert key Hkey. apply Forall_forall, Hplain. }
    set (body := ws ++ join (c_PIPE :: ws) cols ++ [c_LF]).
    assert (Hbody : trim body = join (c_PIPE :: ws) cols).
    { unfold body. rewrite (trim_ws_around ws [c_LF]) by reflexivity.
      apply Htight. }
    rewrite (parse_bracketed_value
               (length ([c_LBRACKET] ++ body ++ [c_RBRACKET])));
      [|apply (trim_ends c_LBRACKET c_RBRACKET); reflexivity
       |right; reflexivity|lia].
    cbn [parseValue]. rewrite parseValue_body_array;
      [|apply (trim_ends c_LBRACKET c_RBRACKET); reflexivity|reflexivity].
    rewrite parseArray_brackets, Hbody.
    replace (is_empty (join (c_PIPE :: ws) cols)) with false
      by (destruct Htight as [Hn _];
          destruct (join (c_PIPE :: ws) cols); [congruence|reflexivity]).
    assert (Hpipe : includes c_PIPE (join (c_PIPE :: ws) cols) = true).
    { subst cols. destruct keys as [|k1 [|k2 keys']]; [simpl in Hlen; lia..|].
      cbn [map]. rewrite join_padded.
      cbn [map]. apply includes_join_sep. }
    assert (Hcolon : includes c_COLON (join (c_PIPE :: ws) cols) = true).
    { apply includes_join_item. subst cols.
      destruct keys as [|k1 keys']; [congruence|].
      exists (column_text (row0 :: rows) k1). split; [left; reflexivity|].
      unfold column_text. rewrite !includes_app. simpl.
      rewrite orb_true_r. reflexivity. }
    rewrite Hpipe, Hcolon. cbn [andb].
    rewrite parseColumnarArray_padded by (assumption || reflexivity || discriminate).
    apply parseColumnarArray_columns; auto.
    intros key row Hkey Hrow. apply readable_parse; [auto|].
    pose proof (column_text_length (row0 :: rows) key row Hrow) as H1.
    pose proof (length_join_in [c_PIPE] cols (column_text (row0 :: rows) key)
                  (in_map _ keys key Hkey)) as H2.
    pose proof (length_join_longer [c_PIPE] (c_PIPE :: ws) cols) as H3.
    cbn [length] in H3. specialize (H3 ltac:(lia)).
    unfold body. rewrite !length_app. cbn [length]. lia.
  - apply deep_equal_rows; assumption.
  - intros Hsame. unfold value. f_equal. apply rows_by_keys_same_order; auto.
    intros row [<-|Hrow]; [reflexivity|apply Hsame, Hrow].
Qed.

Lemma pretty_columnar_round_trip_witness :
  let employee := fun id name email department salary active =>
    [(str "id", VString id); (str "name", VString name);
     (str "email", VString email); (str "department", VString department);
     (str "salary", VNumber (Finite false salary 5));
     (str "active", VBool active)] in
  let alice := employee (str "emp_001") (str "Alice Johnson")
                 (str "alice.j@company.com") (str "Engineering") [9; 5] true in
  let david := employee (str "emp_004") (str "David Brown")
                 (str "david.b@company.com") (str "Sales") [6; 8] false in
  parse (stringify (VArray [VObject alice; VObject david]) (mkOptions true true))
  = Ok (VArray [VObject alice; VObject david]).
Proof.
  intros employee alice david.
  assert (Hplain : forall k,
            In k [str "id"; str "name"; str "email"; str "department";
                  str "salary"; str "active"] -> plain_key k).
  { intros k Hk. repeat (destruct Hk as [<-|Hk]; [repeat split;
      try discriminate; reflexivity|]). destruct Hk. }
  assert (Hbare : forall s,
            In s [str "emp_001"; str "alice.j@company.com"; str "Engineering";
                  str "emp_004"; str "david.b@company.com"; str "Sales"] ->
            readable (VString s)).
  { intros s Hs. apply readable_scalar. left.
    repeat (destruct Hs as [<-|Hs]; [repeat split; try reflexivity;
      discriminate|]). destruct Hs. }
  assert (Hquoted : forall s,
            In s [str "Alice Johnson"; str "David Brown"] ->
            readable (VString s)).
  { intros s Hs. apply readable_scalar. right.
    repeat (destruct Hs as [<-|Hs];
            [split; [reflexivity|]; split; [|reflexivity];
             intros H; simpl in H; intuition discriminate|]).
    destruct Hs. }
  assert (Hnum : forall ds, In ds [[9; 5]; [6; 8]] ->
                   readable (VNumber (Finite false ds 5))).
  { intros ds Hds. apply readable_scalar.
    repeat (destruct Hds as [<-|Hds];
            [cbn [scalar canonical]; repeat split; try discriminate;
             repeat constructor|]).
    destruct Hds. }
  assert (Hbool : forall b, readable (VBool b))
    by (intros b; apply readable_scalar; exact I).
  destruct (pretty_columnar_round_trip alice [david])
    as (parsed & Hparse & _ & Hsame).
  - simpl. lia.
  - repeat constructor; simpl; intuition discriminate.
  - repeat (apply Forall_cons; [apply Hplain; simpl; auto 10|]).
    apply Forall_nil.
  - intros row [<-|[<-|[]]]; (split; [apply Permutation_refl|]);
      (apply Forall_cons; [apply Hbare; simpl; auto 10|]);
      (apply Forall_cons; [apply Hquoted; simpl; auto 10|]);
      (apply Forall_cons; [apply Hbare; simpl; auto 10|]);
      (apply Forall_cons; [apply Hbare; simpl; auto 10|]);
      (apply Forall_cons; [apply Hnum; simpl; auto 10|]);
      (apply Forall_cons; [apply Hbool|]);
      apply Forall_nil.
  - etransitivity; [exact Hparse|]. f_equal. apply Hsame.
    intros row [<-|[]]. reflexivity.
Defined.
(* ================================================================== *)
(** * More about the serializer and the escapes *)
(* ================================================================== *)

(** ** When an array is written in columns *)

Lemma sort_insert_perm (k : jstring) (l : list jstring) :
  Permutation (sort_insert k l) (k :: l).
Proof.
  induction l as [|h t IH]; simpl; [apply Permutation_refl|].
  destruct (jstring_leb k h); [apply Permutation_refl|].
  apply perm_trans with (h :: k :: t); [apply perm_skip, IH|apply perm_swap].
Qed.

Lemma sort_perm (l : list jstring) : Permutation (sort l) l.
Proof.
  induction l as [|h t IH]; simpl; [apply Permutation_refl|].
  apply perm_trans with (h :: sort t);
    [apply sort_insert_perm|apply perm_skip, IH].
Qed.

Lemma all_plain_objects (arr : list Value) :
  forallb is_plain_object arr = true -> exists rows, arr = map VObject rows.
Proof.
  induction arr as [|item arr IH]; intros H.
  - exists []. reflexivity.
  - cbn [forallb] in H. apply andb_true_iff in H. destruct H as [Hitem Harr].
    destruct (IH Harr) as (rows & ->).
    destruct item; try discriminate. exists (props :: rows). reflexivity.
Qed.

(** X15. [isArrayOfObjects] accepts an array exactly when it is not
    empty, every element is an object, and the key list of every element
    is a permutation of the key list of the first. *)
Theorem isArrayOfObjects_characterized (arr : list Value) :
  isArrayOfObjects arr = true
  <-> exists row0 rows,
        arr = map VObject (row0 :: rows)
        /\ forall row, In row rows ->
                       Permutation (obj_keys row) (obj_keys row0).
Proof.
  split.
  - unfold isArrayOfObjects. destruct arr as [|first arr']; [discriminate|].
    destruct (forallb is_plain_object (first :: arr')) eqn:Hobj;
      [|discriminate].
    cbn [negb]. intros Hkeys.
    destruct (all_plain_objects _ Hobj) as ([|row0 rows] & E);
      [discriminate|].
    cbn [map] in E. injection E as -> ->. exists row0, rows.
    split; [reflexivity|]. intros row Hrow.
    rewrite forallb_forall in Hkeys.
    specialize (Hkeys (VObject row)
                  (or_intror (in_map VObject rows row Hrow))).
    cbn [keys_of] in Hkeys. apply same_keys_eq in Hkeys.
    apply perm_trans with (sort (obj_keys row));
      [apply Permutation_sym, sort_perm|].
    rewrite Hkeys. apply sort_perm.
  - intros (row0 & rows & -> & H). apply isArrayOfObjects_rows.
    intros row Hrow. apply sort_permutation, H, Hrow.
Qed.

(** ** What [escapeString] writes *)

Lemma escape_char_clean (x c : char) :
  In c (escape_char x) -> is_control c = false.
Proof.
  unfold escape_char.
  destruct (x =? c_BACKSLASH);
    [intros [<-|[<-|[]]]; reflexivity|].
  destruct (x =? c_DQUOTE);
    [intros [<-|[<-|[]]]; reflexivity|].
  destruct (x =? c_LF);
    [intros [<-|[<-|[]]]; reflexivity|].
  destruct (x =? c_TAB);
    [intros [<-|[<-|[]]]; reflexivity|].
  destruct (x =? c_CR);
    [intros [<-|[<-|[]]]; reflexivity|].
  destruct (is_control x) eqn:E.
  - intros [<-|[<-|H]]; try reflexivity.
    apply hex4_chars in H. unfold is_control.
    apply orb_false_iff. split; [apply N.leb_gt; lia|].
    apply andb_false_iff. left. apply N.leb_gt. lia.
  - intros [<-|[]]. exact E.
Qed.

(** X16. The text that [escapeString] writes has no control character
    (so no line feed, tab or carriage return), and every double quote in
    it stands after a backslash. *)
Theorem escapeString_clean (s : jstring) :
  Forall (fun c => is_control c = false) (escapeString s)
  /\ guarded None (escapeString s) = true.
Proof.
  rewrite escapeString_flat_map. split; [|apply guarded_escape].
  apply Forall_forall. intros c Hc. apply in_flat_map in Hc.
  destruct Hc as (x & _ & Hx). apply (escape_char_clean x c Hx).
Qed.

(** ** [unescapeString] on a text without backslash *)

Lemma replace_pair_absent (a b : char) (rep s : jstring) :
  ~ In a s -> replace_pair a b rep s = s.
Proof.
  induction s as [|x s IH]; intros H; [reflexivity|].
  rewrite replace_pair_skip by (intros E; apply H; left; exact E).
  f_equal. apply IH. intros Hin. apply H. right. exact Hin.
Qed.

Lemma replace_unicode_absent (s : jstring) :
  ~ In c_BACKSLASH s -> replace_unicode s = s.
Proof.
  induction s as [|x s IH]; intros H; [reflexivity|].
  rewrite replace_unicode_skip by (intros E; apply H; left; exact E).
  f_equal. apply IH. intros Hin. apply H. right. exact Hin.
Qed.

(** X17. [unescapeString] leaves a text with no backslash as it is, but
    for its NUL characters, which it turns into backslashes. *)
Theorem unescapeString_without_backslash (s : jstring) :
  ~ In c_BACKSLASH s ->
  unescapeString s = map (fun c => if c =? c_NUL then c_BACKSLASH else c) s
  /\ (~ In c_NUL s -> unescapeString s = s).
Proof.
  intros H.
  assert (E : unescapeString s
              = map (fun c => if c =? c_NUL then c_BACKSLASH else c) s).
  { unfold unescapeString.
    repeat rewrite (replace_pair_absent c_BACKSLASH _ _ s) by exact H.
    rewrite replace_unicode_absent by exact H.
    unfold replace_chars. clear H.
    induction s as [|x s IH]; [reflexivity|].
    cbn [flat_map map]. rewrite IH, (N.eqb_sym c_NUL x).
    destruct (x =? c_NUL); reflexivity. }
  split; [exact E|]. intros Hnul. rewrite E.
  rewrite <- (map_id s) at 2. apply map_ext_in. intros c Hc.
  destruct (N.eqb_spec c c_NUL) as [->|_]; [contradiction|reflexivity].
Qed.

Lemma unescapeString_without_backslash_witness :
  unescapeString (str "He said 'hi'") = str "He said 'hi'".
Proof.
  apply (unescapeString_without_backslash (str "He said 'hi'"));
    intros H; simpl in H; intuition discriminate.
Defined.
(* ================================================================== *)
(** * The round trip with the default options *)
(* ================================================================== *)

(** ** The text with the default options *)

Lemma stringifyValue_flat_depth (v : Value) (columnar : bool) :
  forall depth depth',
    stringifyValue v depth false columnar
    = stringifyValue v depth' false columnar.
Proof.
  induction v as [| | | | |items IH|props IH] using Value_nested_ind;
    intros depth depth'; try reflexivity.
  - destruct items as [|item items]; [reflexivity|].
    remember (item :: items) as its eqn:Eits.
    destruct (columnar && isArrayOfObjects its) eqn:Ecol.
    + subst its. cbn [stringifyValue]. rewrite Ecol. unfold stringifyColumnar.
      f_equal. f_equal. f_equal. apply map_ext. intros key.
      f_equal. f_equal. f_equal. apply map_ext. intros [| | | | | |row];
        try reflexivity.
      revert row. induction row as [|[k v] row IHrow]; [reflexivity|].
      cbn [render_prop]. rewrite IHrow, !flat_text_depth. reflexivity.
    + rewrite !stringifyValue_standard_array
        by (subst its; discriminate || exact Ecol).
      do 2 f_equal. f_equal. f_equal. apply map_ext_in. intros x Hx.
      rewrite Forall_forall in IH. apply (IH x Hx).
  - destruct props as [|entry props]; [reflexivity|].
    rewrite !stringifyValue_flat_object by discriminate.
    do 2 f_equal. f_equal. apply map_ext_in. intros x Hx.
    rewrite Forall_forall in IH. do 2 f_equal. apply (IH x Hx).
Qed.

Lemma default_text_depth (v : Value) (depth : nat) :
  stringifyValue v depth false true = default_text v.
Proof. apply stringifyValue_flat_depth. Qed.

Lemma default_text_scalar (v : Value) : scalar v -> default_text v = flat_text v.
Proof. apply stringifyValue_scalar. Qed.

Lemma default_object_text (props : list (jstring * Value)) :
  props <> [] ->
  default_text (VObject props)
  = [c_LBRACE] ++ join [c_PIPE] (map default_entry_text props) ++ [c_RBRACE].
Proof.
  intros Hne. unfold default_text at 1.
  rewrite stringifyValue_flat_object by exact Hne.
  do 2 f_equal. f_equal. apply map_ext. intros entry.
  unfold default_entry_text. rewrite default_text_depth. reflexivity.
Qed.

Lemma default_list_text (items : list Value) :
  items <> [] -> isArrayOfObjects items = false ->
  Forall (fun item => includes c_PIPE (default_text item) = false) items ->
  default_text (VArray items)
  = [c_LBRACKET] ++ join [c_COMMA] (map default_text items) ++ [c_RBRACKET].
Proof.
  intros Hne Hobj Hpipe. unfold default_text at 1.
  rewrite stringifyValue_standard_array by (assumption || exact Hobj).
  rewrite (map_ext _ default_text) by (intros; apply default_text_depth).
  rewrite replace_chars_id; [reflexivity|].
  intros c Hc. apply N.eqb_neq. intros <-. revert Hc. apply includes_false.
  apply includes_join_false; [reflexivity|].
  apply Forall_forall. intros t Ht. apply in_map_iff in Ht.
  destruct Ht as (item & <- & Hitem).
  rewrite Forall_forall in Hpipe. apply Hpipe, Hitem.
Qed.

Lemma default_table_text (row0 : list (jstring * Value))
    (rows : list (list (jstring * Value))) :
  (forall row, In row rows -> obj_keys row = obj_keys row0) ->
  default_text (VArray (map VObject (row0 :: rows)))
  = columnar_text (obj_keys row0) (row0 :: rows).
Proof.
  intros Hsame. apply stringify_columnar. apply isArrayOfObjects_rows.
  intros row Hrow. rewrite (Hsame row Hrow). reflexivity.
Qed.

(** ** Storable values *)

Lemma storable_atom (v : Value) :
  storable v ->
  match v with
  | VArray _ | VObject _ => True
  | _ => scalar v
  end.
Proof.
  intros H. inversion H; subst; auto. destruct v; auto.
Qed.

Lemma storable_object_inv (props : list (jstring * Value)) :
  storable (VObject props) ->
  NoDup (obj_keys props)
  /\ Forall (fun entry => plain_key (fst entry) /\ storable (snd entry)) props.
Proof.
  intros H. inversion H as [v' Hs|props' Hnd Hall| |]; subst;
    [destruct Hs|auto].
Qed.

(** The two kinds of storable arrays. *)
Lemma storable_array_inv (items : list Value) :
  storable (VArray items) ->
  (isArrayOfObjects items = false
   /\ Forall (fun item => storable item /\ item <> VUndefined
                          /\ includes c_PIPE (default_text item) = false)
        items)
  \/ (exists row0 rows,
        items = map VObject (row0 :: rows)
        /\ (2 <= length (obj_keys row0))%nat
        /\ NoDup (obj_keys row0)
        /\ Forall plain_key (obj_keys row0)
        /\ (forall row, In row rows -> obj_keys row = obj_keys row0)
        /\ (forall row, In row (row0 :: rows) ->
                        Forall (fun entry => readable (snd entry)) row)).
Proof.
  intros H. inversion H as [v' Hs| |items' H1 H2|row0 rows H1 H2 H3 H4 H5];
    subst; [destruct Hs|left; auto|right].
  exists row0, rows. auto 10.
Qed.

Section Table.
Variable row0 : list (jstring * Value).
Variable rows : list (list (jstring * Value)).
Hypothesis keys_two : (2 <= length (obj_keys row0))%nat.
Hypothesis keys_nodup : NoDup (obj_keys row0).
Hypothesis keys_plain : Forall plain_key (obj_keys row0).
Hypothesis keys_same : forall row, In row rows -> obj_keys row = obj_keys row0.
Hypothesis cells_readable :
  forall row, In row (row0 :: rows) ->
              Forall (fun entry => readable (snd entry)) row.

Local Abbreviation table_keys := (obj_keys row0).
Local Abbreviation table := (columnar_text (obj_keys row0) (row0 :: rows)).

Lemma table_cells (key : jstring) (row : list (jstring * Value)) :
  In key table_keys -> In row (row0 :: rows) -> readable (row_get row key).
Proof. intros _ Hrow. apply row_get_readable, cells_readable, Hrow. Qed.

Lemma table_keys_nonempty : table_keys <> [].
Proof.
  intros E. rewrite E in keys_two. simpl in keys_two. lia.
Qed.

Lemma table_columns_tight :
  Forall tight (map (column_text (row0 :: rows)) table_keys).
Proof.
  apply Forall_forall. intros col Hcol. apply in_map_iff in Hcol.
  destruct Hcol as (key & <- & Hkey).
  apply column_text_tight; [discriminate| |].
  - revert key Hkey. apply Forall_forall, keys_plain.
  - intros row Hrow. apply table_cells; assumption.
Qed.

Lemma table_tight : tight table.
Proof. apply (tight_brackets c_LBRACKET c_RBRACKET); reflexivity. Qed.

Lemma table_column_sealed (m : Z) (sep : char) (key : jstring) :
  (1 <= m)%Z -> sep = c_PIPE \/ sep = c_COMMA -> In key table_keys ->
  sealed_at m sep (column_text (row0 :: rows) key).
Proof.
  intros Hm Hsep Hkey. unfold column_text.
  assert (Hk : plain_key key)
    by (revert key Hkey; apply Forall_forall, keys_plain).
  rewrite <- (app_nil_l (key ++ _)). rewrite (app_assoc key).
  apply sealed_at_app_inert.
  - apply sealed_at_nil.
  - rewrite forallb_app, (plain_key_inert sep key Hk) by tauto.
    destruct Hsep; subst sep; reflexivity.
  - destruct key; discriminate.
  - rewrite prev_after_app. reflexivity.
  - apply sealed_at_join_any; [exact Hm|exact Hsep|auto|].
    apply Forall_forall. intros t Ht. unfold column_texts in Ht.
    apply in_map_iff in Ht. destruct Ht as (row & <- & Hrow).
    apply readable_sealed; [apply table_cells; assumption|exact Hsep|lia].
Qed.

Lemma table_sealed (m : Z) (sep : char) :
  (0 <= m)%Z -> sep = c_PIPE \/ sep = c_COMMA -> sealed_at m sep table.
Proof.
  intros Hm Hsep. unfold columnar_text.
  apply sealed_at_wrap; auto; try (destruct Hsep; subst sep; discriminate).
  apply sealed_at_join_any; [lia|exact Hsep|auto|].
  apply Forall_forall. intros col Hcol. apply in_map_iff in Hcol.
  destruct Hcol as (key & <- & Hkey).
  apply table_column_sealed; [lia|exact Hsep|exact Hkey].
Qed.

(** [parseValue] reads a table back as its rows. *)
Lemma table_parse (fuel : nat) :
  (length table <= fuel)%nat ->
  parseValue fuel table = Ok (VArray (map VObject (row0 :: rows))).
Proof.
  intros Hfuel. destruct fuel as [|fuel];
    [unfold columnar_text in Hfuel; simpl in Hfuel; lia|].
  cbn [parseValue]. rewrite parseValue_body_array;
    [|apply table_tight|reflexivity].
  unfold columnar_text in Hfuel |- *. rewrite parseArray_brackets.
  set (cols := map (column_text (row0 :: rows)) table_keys) in *.
  assert (Hcols : cols <> []).
  { unfold cols. pose proof table_keys_nonempty.
    destruct table_keys; [congruence|discriminate]. }
  pose proof (tight_join [c_PIPE] cols Hcols table_columns_tight) as Hbody.
  rewrite (tight_nonblank _ Hbody). destruct Hbody as [_ Htrim].
  rewrite Htrim.
  assert (Hpipe : includes c_PIPE (join [c_PIPE] cols) = true).
  { unfold cols. pose proof keys_two as H2.
    destruct table_keys as [|k1 [|k2 keys']]; [simpl in H2; lia..|].
    apply includes_join_sep. }
  assert (Hcolon : includes c_COLON (join [c_PIPE] cols) = true).
  { apply includes_join_item. unfold cols. pose proof table_keys_nonempty.
    destruct table_keys as [|k1 keys']; [congruence|].
    exists (column_text (row0 :: rows) k1). split; [left; reflexivity|].
    unfold column_text. rewrite !includes_app. simpl.
    rewrite orb_true_r. reflexivity. }
  rewrite Hpipe, Hcolon. cbn [andb]. unfold cols.
  rewrite (parseColumnarArray_columns (parseValue fuel) (row0 :: rows));
    [|discriminate|exact keys_plain|exact keys_nodup
     |exact table_keys_nonempty|exact table_cells|].
  - f_equal. f_equal. apply rows_by_keys_same_order; [exact keys_nodup|].
    intros row [<-|Hrow]; [reflexivity|apply keys_same, Hrow].
  - intros key row Hkey Hrow. apply readable_parse;
      [apply table_cells; assumption|].
    pose proof (column_text_length (row0 :: rows) key row Hrow) as H1.
    pose proof (length_join_in [c_PIPE] cols (column_text (row0 :: rows) key)
                  (in_map _ table_keys key Hkey)) as H2.
    cbn [app length] in Hfuel. rewrite length_app in Hfuel. lia.
Qed.
End Table.

Lemma storable_tight (v : Value) : storable v -> tight (default_text v).
Proof.
  intros H. pose proof H as H'.
  inversion H as [v' Hs|props Hnd Hall|items H1 H2|row0 rows H1 H2 H3 H4 H5];
    subst.
  - rewrite default_text_scalar by exact Hs. apply scalar_text_tight, Hs.
  - destruct props as [|entry props]; [split; [discriminate|reflexivity]|].
    rewrite default_object_text by discriminate.
    apply (tight_brackets c_LBRACE c_RBRACE); reflexivity.
  - destruct items as [|item items]; [split; [discriminate|reflexivity]|].
    rewrite default_list_text; [|discriminate|exact H1|].
    + apply (tight_brackets c_LBRACKET c_RBRACKET); reflexivity.
    + eapply Forall_impl; [|exact H2]. cbn beta. tauto.
  - rewrite default_table_text by exact H4. apply table_tight.
Qed.

Lemma default_entry_text_tight (entry : jstring * Value) :
  plain_key (fst entry) -> storable (snd entry) ->
  tight (default_entry_text entry).
Proof.
  intros Hk Hv. unfold default_entry_text.
  apply tight_app; [apply plain_key_tight, Hk|apply storable_tight, Hv].
Qed.

Lemma default_entry_text_sealed (m : Z) (sep : char)
    (entry : jstring * Value) :
  plain_key (fst entry) -> sep = c_PIPE \/ sep = c_COMMA ->
  sealed_at m sep (default_text (snd entry)) ->
  sealed_at m sep (default_entry_text entry).
Proof.
  intros Hk Hsep Hv. unfold default_entry_text.
  rewrite <- (app_nil_l (fst entry ++ _)). rewrite (app_assoc (fst entry)).
  apply sealed_at_app_inert.
  - apply sealed_at_nil.
  - rewrite forallb_app, (plain_key_inert sep _ Hk) by tauto.
    destruct Hsep; subst sep; reflexivity.
  - destruct (fst entry); discriminate.
  - rewrite prev_after_app. reflexivity.
  - exact Hv.
Qed.

Lemma storable_sealed (v : Value) :
  storable v ->
  forall sep m, sep = c_PIPE \/ sep = c_COMMA -> (0 <= m)%Z ->
  sealed_at m sep (default_text v).
Proof.
  induction v as [| | | | |items IH|props IH] using Value_nested_ind;
    intros Hs sep m Hsep Hm;
    try (rewrite default_text_scalar by apply (storable_atom _ Hs);
         apply scalar_text_sealed; [apply (storable_atom _ Hs)|tauto]).
  - destruct (storable_array_inv items Hs)
      as [[Hobj Hall]|(row0 & rows & -> & H1 & H2 & H3 & H4 & H5)].
    + assert (Hwrap : forall body,
                sealed_at (m + 1) sep body ->
                sealed_at m sep ([c_LBRACKET] ++ body ++ [c_RBRACKET])).
      { intros body. apply sealed_at_wrap; auto;
          destruct Hsep; subst sep; discriminate. }
      destruct items as [|item items]; [apply (Hwrap []), sealed_at_nil|].
      rewrite default_list_text; [|discriminate|exact Hobj|].
      2:{ eapply Forall_impl; [|exact Hall]. cbn beta. tauto. }
      apply Hwrap. apply sealed_at_join_any; [lia|exact Hsep|auto|].
      apply Forall_forall. intros t Ht. apply in_map_iff in Ht.
      destruct Ht as (x & <- & Hx). rewrite Forall_forall in IH, Hall.
      apply (IH x Hx); [apply (Hall x Hx)|exact Hsep|lia].
    + rewrite default_table_text by exact H4.
      apply table_sealed; assumption.
  - apply storable_object_inv in Hs. destruct Hs as [_ Hall].
    assert (Hwrap : forall body,
              sealed_at (m + 1) sep body ->
              sealed_at m sep ([c_LBRACE] ++ body ++ [c_RBRACE])).
    { intros body. apply sealed_at_wrap; auto;
        destruct Hsep; subst sep; discriminate. }
    destruct props as [|entry props]; [apply (Hwrap []), sealed_at_nil|].
    rewrite default_object_text by discriminate.
    apply Hwrap. apply sealed_at_join_any; [lia|exact Hsep|auto|].
    apply Forall_forall. intros t Ht. apply in_map_iff in Ht.
    destruct Ht as (x & <- & Hx). rewrite Forall_forall in IH, Hall.
    destruct (Hall x Hx) as [Hk Hv].
    apply default_entry_text_sealed; [exact Hk|exact Hsep|].
    apply (IH x Hx); [exact Hv|exact Hsep|lia].
Qed.

Lemma parsePipeDelimited_loop_default (pv : jstring -> result Value)
    (pi : jstring -> bool)
    (props : list (jstring * Value)) :
  forall obj inh,
    Forall (fun entry => plain_key (fst entry)
                         /\ tight (default_text (snd entry))
                         /\ pv (default_text (snd entry)) = Ok (snd entry))
      props ->
    NoDup (obj_keys props) ->
    (forall k, In k (obj_keys props) -> ~ In k (obj_keys obj)) ->
    parsePipeDelimited_loop pv pi (map default_entry_text props) obj inh
    = Ok (obj ++ props, inh).
Proof.
  induction props as [|[k v] props IH]; intros obj inh Hall Hnd Hfresh.
  - simpl. rewrite app_nil_r. reflexivity.
  - inversion Hall as [|? ? (Hk & Ht & Hpv) Hrest]; subst.
    cbn [fst snd] in Hk, Ht, Hpv.
    unfold obj_keys in Hnd. cbn [map fst] in Hnd.
    inversion Hnd as [|? ? Hnotin Hnd']; subst.
    cbn [map]. unfold default_entry_text at 1. cbn [fst snd].
    rewrite (parsePipeDelimited_loop_step pv pi k _ v) by assumption.
    rewrite obj_set_fresh by (auto; apply Hfresh; left; reflexivity).
    rewrite IH; auto.
    + rewrite <- app_assoc. reflexivity.
    + intros k' Hk' Hin. rewrite obj_keys_app in Hin. apply in_app_or in Hin.
      destruct Hin as [Hin|[<-|[]]].
      * apply (Hfresh k'); [right; exact Hk'|exact Hin].
      * contradiction.
Qed.

(** ** Storable values are read back *)

Lemma storable_parse (v : Value) :
  storable v ->
  forall fuel, (length (default_text v) <= fuel)%nat ->
  parseValue fuel (default_text v) = Ok v.
Proof.
  induction v as [| | | | |items IH|props IH] using Value_nested_ind;
    intros Hs fuel Hfuel;
    try (rewrite default_text_scalar in * by apply (storable_atom _ Hs);
         apply readable_parse;
         [apply readable_scalar, (storable_atom _ Hs)|exact Hfuel]).
  - destruct (storable_array_inv items Hs)
      as [[Hobj Hall]|(row0 & rows & -> & H1 & H2 & H3 & H4 & H5)].
    + assert (Hpipe : Forall (fun item =>
                                includes c_PIPE (default_text item) = false)
                        items)
        by (eapply Forall_impl; [|exact Hall]; cbn beta; tauto).
      destruct fuel as [|fuel];
        [destruct (storable_tight _ Hs) as [Hn _];
         destruct (default_text (VArray items));
         [congruence|simpl in Hfuel; lia]|].
      destruct items as [|item items]; [reflexivity|].
      remember (item :: items) as its eqn:Eits.
      assert (Hits : its <> []) by (subst its; discriminate).
      rewrite default_list_text in Hfuel |- * by assumption.
      assert (Htexts : map default_text its <> [])
        by (subst its; discriminate).
      assert (Htight : Forall tight (map default_text its)).
      { apply Forall_forall. intros t Ht. apply in_map_iff in Ht.
        destruct Ht as (x & <- & Hx). rewrite Forall_forall in Hall.
        apply storable_tight, (Hall x Hx). }
      pose proof (tight_join [c_COMMA] _ Htexts Htight) as Hbody.
      cbn [parseValue].
      rewrite parseValue_body_array;
        [|apply (tight_brackets c_LBRACKET c_RBRACKET); reflexivity
         |reflexivity].
      rewrite parseArray_brackets, (tight_nonblank _ Hbody).
      destruct Hbody as [_ Htrim]. rewrite Htrim.
      rewrite (includes_join_false c_PIPE [c_COMMA] (map default_text its));
        [|reflexivity|].
      2:{ apply Forall_forall. intros t Ht. apply in_map_iff in Ht.
          destruct Ht as (x & <- & Hx). rewrite Forall_forall in Hpipe.
          apply (Hpipe x Hx). }
      cbn [andb]. rewrite splitArrayItems_join; [|exact Htexts|].
      2:{ apply Forall_forall. intros t Ht. pose proof Ht as Ht'.
          apply in_map_iff in Ht.
          destruct Ht as (x & <- & Hx). rewrite Forall_forall in Hall, Htight.
          split; [apply storable_sealed; [apply (Hall x Hx)|auto|lia]|].
          destruct (Htight _ Ht') as [Hne ->]. exact Hne. }
      rewrite (map_result_map _ default_text (fun x => x) its).
      * cbn [bind]. rewrite map_id. rewrite filter_defined; [reflexivity|].
        eapply Forall_impl; [|exact Hall]. cbn beta. tauto.
      * intros x Hx. rewrite Forall_forall in IH, Hall.
        destruct (storable_tight x) as [_ ->]; [apply (Hall x Hx)|].
        apply (IH x Hx); [apply (Hall x Hx)|].
        pose proof (length_join_in [c_COMMA] (map default_text its)
                      (default_text x) (in_map default_text its x Hx)) as Hlen.
        cbn [app length] in Hfuel. rewrite length_app in Hfuel. lia.
    + rewrite default_table_text in Hfuel |- * by exact H4.
      apply table_parse; assumption.
  - pose proof (storable_tight _ Hs) as [Hn _].
    apply storable_object_inv in Hs. destruct Hs as [Hnd Hall].
    destruct fuel as [|fuel];
      [destruct (default_text (VObject props));
       [congruence|simpl in Hfuel; lia]|].
    destruct props as [|entry props]; [reflexivity|].
    remember (entry :: props) as ps eqn:Eps.
    assert (Hps : ps <> []) by (subst ps; discriminate).
    rewrite default_object_text in Hfuel |- * by assumption.
    assert (Htexts : map default_entry_text ps <> [])
      by (subst ps; discriminate).
    assert (Htight : Forall tight (map default_entry_text ps)).
    { apply Forall_forall. intros t Ht. apply in_map_iff in Ht.
      destruct Ht as (x & <- & Hx). rewrite Forall_forall in Hall.
      destruct (Hall x Hx) as [Hk Hv].
      apply default_entry_text_tight; assumption. }
    pose proof (tight_join [c_PIPE] _ Htexts Htight) as Hbody.
    cbn [parseValue].
    rewrite parseValue_body_object;
      [|apply (tight_brackets c_LBRACE c_RBRACE); reflexivity|reflexivity].
    rewrite parseObject_braces, (tight_nonblank _ Hbody).
    destruct Hbody as [_ Htrim]. rewrite Htrim.
    unfold parsePipeDelimited. rewrite splitByPipe_join; [|exact Htexts|].
    2:{ apply Forall_forall. intros t Ht. pose proof Ht as Ht'.
        apply in_map_iff in Ht.
        destruct Ht as (x & <- & Hx). rewrite Forall_forall in Hall, Htight.
        destruct (Hall x Hx) as [Hk Hv].
        split; [|apply (Htight _ Ht')].
        apply default_entry_text_sealed; [exact Hk|auto|].
        apply storable_sealed; [exact Hv|auto|lia]. }
    rewrite parsePipeDelimited_loop_default; [reflexivity| |exact Hnd|].
    + apply Forall_forall. intros x Hx. rewrite Forall_forall in IH, Hall.
      destruct (Hall x Hx) as [Hk Hv].
      split; [exact Hk|]. split; [apply storable_tight, Hv|].
      apply (IH x Hx); [exact Hv|].
      pose proof (length_join_in [c_PIPE] (map default_entry_text ps)
                    (default_entry_text x)
                    (in_map default_entry_text ps x Hx)) as Hlen.
      assert (Hpair : (length (default_text (snd x))
                       <= length (default_entry_text x))%nat)
        by (unfold default_entry_text; rewrite !length_app; lia).
      cbn [app length] in Hfuel. rewrite length_app in Hfuel. lia.
    + intros k _ [].
Qed.

(** X18. With the default options, every storable object and array is
    read back by [parse] from what [stringify] writes for it: objects and
    arrays nested at any depth, with arrays of uniform objects written in
    columns wherever they stand. *)
Theorem default_round_trip (v : Value) :
  storable v -> ~ atom v ->
  parse (stringify v default_options) = Ok v.
Proof.
  intros Hs Ha. change (stringify v default_options) with (default_text v).
  destruct (storable_tight v Hs) as [Hne Htrim].
  rewrite (parse_bracketed_value (length (default_text v)));
    [apply storable_parse; [exact Hs|lia]|exact Htrim| |lia].
  pose proof Hs as Hs'.
  inversion Hs as [v' Hsc|props Hnd Hall|items H1 H2|row0 rows H1 H2 H3 H4 H5];
    subst.
  - exfalso. apply Ha. destruct v; try exact I; destruct Hsc.
  - left. destruct props; [reflexivity|].
    rewrite default_object_text by discriminate. reflexivity.
  - right. destruct items; [reflexivity|].
    rewrite default_list_text; [reflexivity|discriminate|exact H1|].
    eapply Forall_impl; [|exact H2]. cbn beta. tauto.
  - right. rewrite default_table_text by exact H4. reflexivity.
Qed.

Lemma default_round_trip_witness :
  let one := VNumber (Finite false [1] 1) in
  let two := VNumber (Finite false [2] 1) in
  let users :=
    VArray [VObject [(str "id", one); (str "name", VString (str "Alice Johnson"))];
            VObject [(str "id", two); (str "name", VString (str "Bob"))]] in
  let metadata :=
    VObject [(str "total", VNumber (Finite false [2] 2));
             (str "updated", VString (str "2025-11-15T10:00:00Z"))] in
  let tags := VArray [VString (str "engineering"); VString (str "hr");
                      VString (str "sales")] in
  let value := VObject [(str "users", users); (str "metadata", metadata);
                        (str "tags", tags)] in
  stringify value default_options
  = str "{users:[id:1,2|name:" ++ [c_DQUOTE] ++ str "Alice Johnson"
      ++ [c_DQUOTE] ++ str ",Bob]|metadata:{total:20|updated:" ++ [c_DQUOTE]
      ++ str "2025-11-15T10:00:00Z" ++ [c_DQUOTE]
      ++ str "}|tags:[engineering,hr,sales]}"
  /\ parse (stringify value default_options) = Ok value.
Proof.
  intros one two users metadata tags value. split; [reflexivity|].
  assert (Hplain : forall k,
            In k [str "users"; str "metadata"; str "tags"; str "id";
                  str "name"; str "total"; str "updated"] -> plain_key k).
  { intros k Hk. repeat (destruct Hk as [<-|Hk]; [repeat split;
      try discriminate; reflexivity|]). destruct Hk. }
  assert (Hnum : forall d n, In (d, n) [(1, 1%Z); (2, 1%Z); (2, 2%Z)] ->
                   scalar (VNumber (Finite false [d] n))).
  { intros d n Hd.
    repeat (destruct Hd as [[= <- <-]|Hd];
            [cbn [scalar canonical]; repeat split; try discriminate;
             repeat constructor|]).
    destruct Hd. }
  assert (Hbare : forall s,
            In s [str "Bob"; str "engineering"; str "hr"; str "sales"] ->
            scalar (VString s)).
  { intros s Hs. left.
    repeat (destruct Hs as [<-|Hs]; [repeat split; try reflexivity;
      discriminate|]). destruct Hs. }
  assert (Hquoted : forall s,
            In s [str "Alice Johnson"; str "2025-11-15T10:00:00Z"] ->
            scalar (VString s)).
  { intros s Hs. right.
    repeat (destruct Hs as [<-|Hs];
            [split; [reflexivity|]; split; [|reflexivity];
             intros H; simpl in H; intuition discriminate|]).
    destruct Hs. }
  assert (Husers : storable users).
  { apply (storable_table
             [(str "id", one); (str "name", VString (str "Alice Johnson"))]
             [[(str "id", two); (str "name", VString (str "Bob"))]]).
    - simpl. lia.
    - repeat constructor; simpl; intuition discriminate.
    - repeat (apply Forall_cons; [apply Hplain; simpl; auto 10|]).
      apply Forall_nil.
    - intros row [<-|[]]. reflexivity.
    - intros row [<-|[<-|[]]].
      + apply Forall_cons;
          [apply readable_scalar, (Hnum 1 1%Z); simpl; auto|].
        apply Forall_cons;
          [apply readable_scalar, Hquoted; simpl; auto|apply Forall_nil].
      + apply Forall_cons;
          [apply readable_scalar, (Hnum 2 1%Z); simpl; auto|].
        apply Forall_cons;
          [apply readable_scalar, Hbare; simpl; auto|apply Forall_nil]. }
  assert (Hmeta : storable metadata).
  { apply storable_object.
    - repeat constructor; simpl; intuition discriminate.
    - apply Forall_cons;
        [split; [apply Hplain; simpl; auto 10
                |apply storable_scalar, (Hnum 2 2%Z); simpl; auto]|].
      apply Forall_cons;
        [split; [apply Hplain; simpl; auto 10
                |apply storable_scalar, Hquoted; simpl; auto]|].
      apply Forall_nil. }
  assert (Htags : storable tags).
  { apply storable_list; [reflexivity|].
    repeat (apply Forall_cons;
            [split; [apply storable_scalar, Hbare; simpl; auto 10
                    |split; [discriminate|reflexivity]]|]).
    apply Forall_nil. }
  apply default_round_trip; [|intros []].
  apply storable_object.
  - repeat constructor; simpl; intuition discriminate.
  - apply Forall_cons; [split; [apply Hplain; simpl; auto 10|exact Husers]|].
    apply Forall_cons; [split; [apply Hplain; simpl; auto 10|exact Hmeta]|].
    apply Forall_cons; [split; [apply Hplain; simpl; auto 10|exact Htags]|].
    apply Forall_nil.
Defined.

(** ** An object without its braces *)

Lemma plain_key_head (k rest : jstring) (c : char) :
  plain_key k -> c = c_LBRACE \/ c = c_LBRACKET ->
  startsWith c (k ++ rest) = false.
Proof.
  intros Hk Hc. pose proof (plain_key_inert c_COLON k Hk ltac:(auto)) as Hin.
  destruct Hk as (Hne & _). destruct k as [|x k]; [congruence|].
  cbn [forallb] in Hin. apply andb_true_iff in Hin. destruct Hin as [Hx _].
  cbn [app startsWith]. unfold inert_for in Hx. apply negb_true_iff in Hx.
  repeat (apply orb_false_iff in Hx; destruct Hx as [Hx ?]).
  destruct Hc; subst c; assumption.
Qed.

(** X19. At top level the braces of an object are optional: the pairs of
    a storable object with two or more properties, joined by pipes and
    written without braces, are read by [parse] as that object. *)
Theorem unbraced_object_round_trip (props : list (jstring * Value)) :
  storable (VObject props) -> (2 <= length props)%nat ->
  parse (join [c_PIPE] (map default_entry_text props)) = Ok (VObject props).
Proof.
  intros Hs Hlen. apply storable_object_inv in Hs. destruct Hs as [Hnd Hall].
  set (texts := map default_entry_text props).
  assert (Htexts : texts <> [])
    by (unfold texts; destruct props; [simpl in Hlen; lia|discriminate]).
  assert (Htight : Forall tight texts).
  { apply Forall_forall. intros t Ht. apply in_map_iff in Ht.
    destruct Ht as (x & <- & Hx). rewrite Forall_forall in Hall.
    destruct (Hall x Hx) as [Hk Hv].
    apply default_entry_text_tight; assumption. }
  destruct (tight_join [c_PIPE] texts Htexts Htight) as [Hne Htrim].
  assert (Hopen : forall c, c = c_LBRACE \/ c = c_LBRACKET ->
                            startsWith c (join [c_PIPE] texts) = false).
  { intros c Hc. unfold texts.
    destruct props as [|[k v] props]; [simpl in Hlen; lia|].
    inversion Hall as [|? ? [Hk _] _]; subst. cbn [fst] in Hk.
    destruct props as [|entry props]; [simpl in Hlen; lia|].
    cbn [map]. unfold default_entry_text at 1. cbn [fst snd].
    change (join [c_PIPE] ((k ++ [c_COLON] ++ default_text v)
                             :: default_entry_text entry
                             :: map default_entry_text props))
      with ((k ++ [c_COLON] ++ default_text v) ++ [c_PIPE]
              ++ join [c_PIPE] (default_entry_text entry
                                  :: map default_entry_text props)).
    rewrite <- app_assoc. apply plain_key_head; assumption. }
  assert (Hpipe : includes c_PIPE (join [c_PIPE] texts) = true).
  { unfold texts. destruct props as [|e1 [|e2 props]]; [simpl in Hlen; lia..|].
    apply includes_join_sep. }
  assert (Hcolon : includes c_COLON (join [c_PIPE] texts) = true).
  { apply includes_join_item. unfold texts.
    destruct props as [|e1 props]; [simpl in Hlen; lia|].
    exists (default_entry_text e1). split; [left; reflexivity|].
    unfold default_entry_text. rewrite !includes_app. simpl.
    rewrite orb_true_r. reflexivity. }
  unfold parse. cbn zeta. rewrite Htrim.
  replace (is_empty (join [c_PIPE] texts)) with false
    by (destruct (join [c_PIPE] texts); [congruence|reflexivity]).
  rewrite !Hopen, Hpipe, Hcolon by auto. cbn [andb].
  unfold parsePipeDelimited. rewrite splitByPipe_join; [|exact Htexts|].
  2:{ apply Forall_forall. intros t Ht. pose proof Ht as Ht'.
      apply in_map_iff in Ht.
      destruct Ht as (x & <- & Hx). rewrite Forall_forall in Hall, Htight.
      destruct (Hall x Hx) as [Hk Hv].
      split; [|apply (Htight _ Ht')].
      apply default_entry_text_sealed; [exact Hk|auto|].
      apply storable_sealed; [exact Hv|auto|lia]. }
  unfold texts. rewrite parsePipeDelimited_loop_default;
    [reflexivity| |exact Hnd|intros k _ []].
  apply Forall_forall. intros x Hx. rewrite Forall_forall in Hall.
  destruct (Hall x Hx) as [Hk Hv].
  split; [exact Hk|]. split; [apply storable_tight, Hv|].
  apply storable_parse; [exact Hv|].
  pose proof (length_join_in [c_PIPE] (map default_entry_text props)
                (default_entry_text x)
                (in_map default_entry_text props x Hx)) as Hlen'.
  assert (Hpair : (length (default_text (snd x))
                   <= length (default_entry_text x))%nat)
    by (unfold default_entry_text; rewrite !length_app; lia).
  lia.
Qed.

Lemma unbraced_object_round_trip_witness :
  parse (str "meta:{version:2|created:2025-01-15}|tags:[admin,dev,ops]")
  = Ok (VObject
          [(str "meta",
            VObject [(str "version", VNumber (Finite false [2] 1));
                     (str "created", VString (str "2025-01-15"))]);
           (str "tags", VArray [VString (str "admin"); VString (str "dev");
                                VString (str "ops")])]).
Proof.
  assert (Hplain : forall k,
            In k [str "meta"; str "tags"; str "version"; str "created"] ->
            plain_key k).
  { intros k Hk. repeat (destruct Hk as [<-|Hk]; [repeat split;
      try discriminate; reflexivity|]). destruct Hk. }
  assert (Hbare : forall s,
            In s [str "2025-01-15"; str "admin"; str "dev"; str "ops"] ->
            storable (VString s)).
  { intros s Hs. apply storable_scalar. left.
    repeat (destruct Hs as [<-|Hs]; [repeat split; try reflexivity;
      discriminate|]). destruct Hs. }
  assert (Htwo : storable (VNumber (Finite false [2] 1))).
  { apply storable_scalar. cbn [scalar canonical].
    repeat split; try discriminate. repeat constructor. }
  apply (unbraced_object_round_trip
           [(str "meta",
             VObject [(str "version", VNumber (Finite false [2] 1));
                      (str "created", VString (str "2025-01-15"))]);
            (str "tags", VArray [VString (str "admin"); VString (str "dev");
                                 VString (str "ops")])]);
    [|simpl; lia].
  apply storable_object.
  - repeat constructor; simpl; intuition discriminate.
  - apply Forall_cons; [split; [apply Hplain; simpl; auto 10|]|].
    + apply storable_object.
      * repeat constructor; simpl; intuition discriminate.
      * apply Forall_cons; [split; [apply Hplain; simpl; auto 10|exact Htwo]|].
        apply Forall_cons;
          [split; [apply Hplain; simpl; auto 10|apply Hbare; simpl; auto]|].
        apply Forall_nil.
    + apply Forall_cons; [split; [apply Hplain; simpl; auto 10|]|apply Forall_nil].
      apply storable_list; [reflexivity|].
      repeat (apply Forall_cons;
              [split; [apply Hbare; simpl; auto 10
                      |split; [discriminate|reflexivity]]|]).
      apply Forall_nil.
Defined.
(* ================================================================== *)
(** * Columns of unequal length *)
(* ================================================================== *)

Section OneLine.
Variable pv : jstring -> result Value.
Variable key : jstring.
Variable cells : list Value.
Hypothesis key_plain : plain_key key.
Hypothesis cells_nonempty : cells <> [].
Hypothesis cells_readable : Forall readable cells.

Lemma cells_texts_tight : Forall tight (map flat_text cells).
Proof.
  apply Forall_forall. intros t Ht. apply in_map_iff in Ht.
  destruct Ht as (v & <- & Hv). pose proof cells_readable as Hread.
  rewrite Forall_forall in Hread. apply readable_tight, Hread, Hv.
Qed.

Lemma cells_texts_nonempty : map flat_text cells <> [].
Proof. destruct cells; [congruence|discriminate]. Qed.

Lemma column_line_tight : tight (column_line (key, cells)).
Proof.
  unfold column_line. cbn [fst snd].
  apply tight_app; [apply plain_key_tight, key_plain|].
  apply tight_join; [apply cells_texts_nonempty|apply cells_texts_tight].
Qed.

Lemma column_line_sealed : sealed c_PIPE (column_line (key, cells)).
Proof.
  unfold column_line. cbn [fst snd].
  rewrite <- (app_nil_l (key ++ _)). rewrite (app_assoc key).
  apply (sealed_at_app_inert 0).
  - apply sealed_at_nil.
  - rewrite forallb_app, (plain_key_inert c_PIPE key key_plain) by auto.
    reflexivity.
  - destruct key; discriminate.
  - rewrite prev_after_app. reflexivity.
  - apply sealed_at_join; [reflexivity|discriminate|].
    apply Forall_forall. intros t Ht. apply in_map_iff in Ht.
    destruct Ht as (v & <- & Hv). pose proof cells_readable as Hread.
    rewrite Forall_forall in Hread.
    apply readable_sealed; [apply Hread, Hv|auto|lia].
Qed.

Hypothesis cells_read :
  forall v, In v cells -> pv (flat_text v) = Ok v.

(** One turn of the loop of [parseColumnarArray] on the text of a column
    given by its cells. *)
Lemma parseColumnarArray_loop_line (rest : list jstring)
    (columns : list (jstring * list Value)) :
  parseColumnarArray_loop pv (column_line (key, cells) :: rest) columns
  = parseColumnarArray_loop pv rest (obj_set columns key cells).
Proof.
  cbn [parseColumnarArray_loop].
  rewrite (tight_nonblank _ column_line_tight).
  unfold column_line. cbn [fst snd app].
  rewrite (findTopLevelColon_key key _ (plain_key_inert c_COLON key key_plain
                                          ltac:(auto))).
  unfold substring_to, substring_from.
  rewrite firstn_app, firstn_all, Nat.sub_diag, app_nil_r.
  rewrite skipn_app, skipn_all2 by lia.
  replace (length key + 1 - length key)%nat with 1%nat by lia.
  cbn [skipn app firstn].
  destruct (plain_key_tight key key_plain) as [_ ->].
  destruct (tight_join [c_COMMA] _ cells_texts_nonempty cells_texts_tight)
    as [_ ->].
  rewrite splitArrayItems_join; [|apply cells_texts_nonempty|].
  - rewrite (map_result_map _ flat_text (fun v => v) cells).
    + cbn [bind]. rewrite map_id. reflexivity.
    + intros v Hv. pose proof cells_readable as Hread.
      rewrite Forall_forall in Hread.
      destruct (readable_tight v (Hread v Hv)) as [_ ->].
      apply cells_read, Hv.
  - apply Forall_forall. intros t Ht. pose proof Ht as Ht'.
    apply in_map_iff in Ht. destruct Ht as (v & <- & Hv).
    pose proof cells_readable as Hread. rewrite Forall_forall in Hread.
    split; [apply readable_sealed; [apply Hread, Hv|auto|lia]|].
    pose proof cells_texts_tight as Htight. rewrite Forall_forall in Htight.
    destruct (Htight _ Ht') as [Hne ->]. exact Hne.
Qed.
End OneLine.

(** The loop over the texts of the columns stores them in order. *)
Lemma parseColumnarArray_loop_lines (pv : jstring -> result Value)
    (lines : list (jstring * list Value)) :
  forall columns,
    Forall (fun column =>
              plain_key (fst column) /\ snd column <> []
              /\ Forall readable (snd column)
              /\ forall v, In v (snd column) -> pv (flat_text v) = Ok v)
      lines ->
    NoDup (obj_keys lines) ->
    (forall k, In k (obj_keys lines) -> ~ In k (obj_keys columns)) ->
    parseColumnarArray_loop pv (map column_line lines) columns
    = Ok (columns ++ lines).
Proof.
  induction lines as [|[k cells] lines IH]; intros columns Hall Hnd Hfresh.
  - simpl. rewrite app_nil_r. reflexivity.
  - inversion Hall as [|? ? (Hk & Hne & Hread & Hpv) Hrest]; subst.
    cbn [fst snd] in Hk, Hne, Hread, Hpv.
    unfold obj_keys in Hnd. cbn [map fst] in Hnd.
    inversion Hnd as [|? ? Hnotin Hnd']; subst.
    cbn [map]. rewrite parseColumnarArray_loop_line by assumption.
    rewrite obj_set_fresh by (auto; apply Hfresh; left; reflexivity).
    rewrite IH; auto.
    + rewrite <- app_assoc. reflexivity.
    + intros k' Hk' Hin. rewrite obj_keys_app in Hin. apply in_app_or in Hin.
      destruct Hin as [Hin|[<-|[]]].
      * apply (Hfresh k'); [right; exact Hk'|exact Hin].
      * contradiction.
Qed.

(** The row [i] that [parseColumnarArray] builds from stored columns. *)
Lemma columnar_row_ragged (columns : list (jstring * list Value)) (i : nat) :
  NoDup (obj_keys columns) -> Forall plain_key (obj_keys columns) ->
  columnar_row columns (obj_keys columns) i = ragged_row columns i.
Proof.
  intros Hnd Hplain. unfold columnar_row, ragged_row. f_equal.
  rewrite fold_obj_set_fresh; auto. cbn [app].
  unfold obj_keys. rewrite map_map. apply map_ext_in. intros [k cells] Hin.
  cbn [fst snd]. rewrite (obj_get_nodup columns k cells Hnd Hin).
  reflexivity.
Qed.

(** X20. Columns of unequal length: for two or more columns with
    distinct plain keys and readable cells, [parse] reads the array text
    made of the columns as one row per cell of the first column; a row
    has every key, bound to [undefined] where the column is too short,
    and the cells of longer columns beyond that count are dropped. *)
Theorem parse_ragged_columns (column0 : jstring * list Value)
    (columns : list (jstring * list Value)) :
  let lines := column0 :: columns in
  columns <> [] ->
  NoDup (obj_keys lines) ->
  Forall (fun column => plain_key (fst column) /\ snd column <> []
                        /\ Forall readable (snd column)) lines ->
  parse ([c_LBRACKET] ++ join [c_PIPE] (map column_line lines)
           ++ [c_RBRACKET])
  = Ok (VArray (map (ragged_row lines) (seq 0 (length (snd column0))))).
Proof.
  intros lines Hmore Hnd Hall.
  assert (Htight : Forall tight (map column_line lines)).
  { apply Forall_forall. intros t Ht. apply in_map_iff in Ht.
    destruct Ht as ([k cells] & <- & Hin). rewrite Forall_forall in Hall.
    destruct (Hall _ Hin) as (Hk & Hne & Hread).
    apply column_line_tight; assumption. }
  assert (Hlines : map column_line lines <> []) by discriminate.
  rewrite parse_bracketed by (apply tight_join; assumption).
  assert (Hpipe : includes c_PIPE (join [c_PIPE] (map column_line lines))
                  = true).
  { unfold lines. destruct columns as [|column1 columns]; [congruence|].
    apply includes_join_sep. }
  assert (Hcolon : includes c_COLON (join [c_PIPE] (map column_line lines))
                   = true).
  { apply includes_join_item. exists (column_line column0).
    split; [left; reflexivity|].
    unfold column_line. rewrite !includes_app. simpl.
    rewrite orb_true_r. reflexivity. }
  rewrite Hpipe, Hcolon. cbn [andb]. unfold parseColumnarArray.
  rewrite splitByPipe_join; [|exact Hlines|].
  2:{ apply Forall_forall. intros t Ht. pose proof Ht as Ht'.
      apply in_map_iff in Ht.
      destruct Ht as ([k cells] & <- & Hin). rewrite Forall_forall in Hall.
      destruct (Hall _ Hin) as (Hk & Hne & Hread). cbn [fst snd] in *.
      split; [apply column_line_sealed; assumption|].
      rewrite Forall_forall in Htight. apply (Htight _ Ht'). }
  rewrite parseColumnarArray_loop_lines; [|
    |exact Hnd|intros k _ []].
  - cbn [app bind].
    assert (Hplain : Forall plain_key (obj_keys lines)).
    { unfold obj_keys. apply Forall_forall. intros k Hk.
      apply in_map_iff in Hk. destruct Hk as (column & <- & Hin).
      rewrite Forall_forall in Hall. apply (Hall _ Hin). }
    assert (Hrows : forall n,
              map (columnar_row lines (obj_keys lines)) (seq 0 n)
              = map (ragged_row lines) (seq 0 n)).
    { intros n. apply map_ext. intros i. apply columnar_row_ragged; assumption. }
    assert (Hfirst : obj_get lines (fst column0) = Some (snd column0)).
    { apply obj_get_nodup; [exact Hnd|]. left. destruct column0; reflexivity. }
    revert Hrows Hfirst. unfold lines at 1 2 3 5. unfold obj_keys at 1 2.
    cbn [map]. fold (obj_keys columns). intros Hrows Hfirst.
    fold lines. rewrite Hfirst. f_equal. f_equal. apply (Hrows _).
  - apply Forall_forall. intros [k cells] Hin. rewrite Forall_forall in Hall.
    destruct (Hall _ Hin) as (Hk & Hne & Hread). cbn [fst snd] in *.
    split; [exact Hk|]. split; [exact Hne|]. split; [exact Hread|].
    intros v Hv. apply readable_parse.
    + rewrite Forall_forall in Hread. apply Hread, Hv.
    + pose proof (length_join_in [c_COMMA] (map flat_text cells) (flat_text v)
                    (in_map flat_text cells v Hv)) as H1.
      pose proof (length_join_in [c_PIPE] (map column_line lines)
                    (column_line (k, cells))
                    (in_map column_line lines _ Hin)) as H2.
      unfold column_line at 1 in H2. cbn [fst snd] in H2.
      rewrite !length_app in H2. lia.
Qed.

Lemma parse_ragged_columns_witness :
  let one := VNumber (Finite false [1] 1) in
  let two := VNumber (Finite false [2] 1) in
  parse (str "[id:1,2|name:Alice|tag:x,y,z]")
  = Ok (VArray [VObject [(str "id", one); (str "name", VString (str "Alice"));
                         (str "tag", VString (str "x"))];
                VObject [(str "id", two); (str "name", VUndefined);
                         (str "tag", VString (str "y"))]]).
Proof.
  intros one two.
  assert (Hplain : forall k, In k [str "id"; str "name"; str "tag"] ->
                             plain_key k).
  { intros k Hk. repeat (destruct Hk as [<-|Hk]; [repeat split;
      try discriminate; reflexivity|]). destruct Hk. }
  assert (Hnum : forall d, d = 1 \/ d = 2 ->
                   readable (VNumber (Finite false [d] 1))).
  { intros d [->| ->]; apply readable_scalar; cbn [scalar canonical];
      repeat split; try discriminate; repeat constructor. }
  assert (Hbare : forall s, In s [str "Alice"; str "x"; str "y"; str "z"] ->
                    readable (VString s)).
  { intros s Hs. apply readable_scalar. left.
    repeat (destruct Hs as [<-|Hs]; [repeat split; try reflexivity;
      discriminate|]). destruct Hs. }
  apply (parse_ragged_columns
           (str "id", [one; two])
           [(str "name", [VString (str "Alice")]);
            (str "tag", [VString (str "x"); VString (str "y");
                         VString (str "z")])]).
  - discriminate.
  - repeat constructor; simpl; intuition discriminate.
  - apply Forall_cons;
      [split; [apply Hplain; simpl; auto|split; [discriminate|]]|].
    { repeat (apply Forall_cons; [apply Hnum; auto|]). apply Forall_nil. }
    apply Forall_cons;
      [split; [apply Hplain; simpl; auto|split; [discriminate|]]|].
    { repeat (apply Forall_cons; [apply Hbare; simpl; auto 10|]).
      apply Forall_nil. }
    apply Forall_cons;
      [split; [apply Hplain; simpl; auto|split; [discriminate|]]|].
    { repeat (apply Forall_cons; [apply Hbare; simpl; auto 10|]).
      apply Forall_nil. }
    apply Forall_nil.
Defined.
(* ================================================================== *)
(** * The round trip with the pretty option *)
(* ================================================================== *)

(** ** The text laid out on several lines *)

Lemma pretty_text_scalar (columnar : bool) (v : Value) (depth : nat) :
  scalar v -> pretty_text columnar v depth = flat_text v.
Proof. apply stringifyValue_scalar. Qed.

Lemma pretty_object_text_top (columnar : bool)
    (props : list (jstring * Value)) :
  props <> [] ->
  pretty_text columnar (VObject props) 0
  = join (c_PIPE :: [c_LF]) (map (pretty_entry_text columnar 1) props).
Proof.
  intros Hne. destruct props as [|entry props]; [congruence|].
  unfold pretty_text. cbn [stringifyValue andb Nat.eqb]. f_equal.
  apply map_ext. intros [k v]. reflexivity.
Qed.

Lemma pretty_object_text (columnar : bool) (props : list (jstring * Value))
    (depth : nat) :
  props <> [] ->
  pretty_text columnar (VObject props) (S depth)
  = [c_LBRACE]
      ++ (indent (S (S depth))
            ++ join (c_PIPE :: indent (S (S depth)))
                 (map (pretty_entry_text columnar (S (S depth))) props)
            ++ indent (S depth))
      ++ [c_RBRACE].
Proof.
  intros Hne. destruct props as [|entry props]; [congruence|].
  unfold pretty_text. cbn [stringifyValue andb Nat.eqb].
  replace (S depth + 1)%nat with (S (S depth)) by lia.
  unfold indent. rewrite <- !app_assoc. cbn [app]. f_equal. f_equal.
  f_equal. f_equal. f_equal.
  apply map_ext. intros [k v]. reflexivity.
Qed.

Lemma pretty_list_text (columnar : bool) (items : list Value) (depth : nat) :
  items <> [] -> columnar && isArrayOfObjects items = false ->
  Forall (fun item =>
            includes c_PIPE (pretty_text columnar item (S depth)) = false)
    items ->
  pretty_text columnar (VArray items) depth
  = [c_LBRACKET]
      ++ join [c_COMMA]
           (map (fun item => pretty_text columnar item (S depth)) items)
      ++ [c_RBRACKET].
Proof.
  intros Hne Hobj Hpipe. unfold pretty_text at 1.
  rewrite stringifyValue_standard_array by assumption.
  rewrite replace_chars_id; [reflexivity|].
  intros c Hc. apply N.eqb_neq. intros <-. revert Hc. apply includes_false.
  apply includes_join_false; [reflexivity|].
  apply Forall_forall. intros t Ht. apply in_map_iff in Ht.
  destruct Ht as (item & <- & Hitem).
  rewrite Forall_forall in Hpipe. apply Hpipe, Hitem.
Qed.

Lemma pretty_table_text (row0 : list (jstring * Value))
    (rows : list (list (jstring * Value))) (depth : nat) :
  (forall row, In row rows -> obj_keys row = obj_keys row0) ->
  pretty_text true (VArray (map VObject (row0 :: rows))) depth
  = [c_LBRACKET]
      ++ (indent 1
            ++ join (c_PIPE :: indent 1)
                 (map (column_text (row0 :: rows)) (obj_keys row0))
            ++ [c_LF])
      ++ [c_RBRACKET].
Proof.
  intros Hsame. apply stringify_columnar_pretty. apply isArrayOfObjects_rows.
  intros row Hrow. rewrite (Hsame row Hrow). reflexivity.
Qed.

(** ** The pretty option adds no pipe *)

Lemma includes_join (c : char) (sep : jstring) (items : list jstring) :
  includes c (join sep items)
  = existsb (includes c) items
    || (includes c sep && (1 <? length items)%nat).
Proof.
  induction items as [|p items IH];
    [cbn [join existsb length Nat.ltb Nat.leb includes];
     rewrite andb_false_r; reflexivity|].
  destruct items as [|q items].
  - cbn [join existsb length Nat.ltb Nat.leb].
    rewrite andb_false_r, !orb_false_r. reflexivity.
  - change (join sep (p :: q :: items))
      with (p ++ sep ++ join sep (q :: items)).
    rewrite !includes_app, IH. cbn [existsb length].
    destruct (includes c p), (includes c q), (existsb (includes c) items),
      (includes c sep); cbn [orb andb]; try reflexivity;
      destruct items; reflexivity.
Qed.

Lemma includes_indent (n : nat) : includes c_PIPE (indent n) = false.
Proof.
  unfold indent. cbn [includes existsb]. induction n as [|n IH];
    [reflexivity|].
  cbn [repeat_str]. change (existsb (N.eqb c_PIPE) ?s) with (includes c_PIPE s).
  rewrite includes_app. cbn [N.eqb Pos.eqb orb] in *. exact IH.
Qed.

Lemma existsb_map_ext {A B : Type} (f : B -> bool) (g h : A -> B)
    (l : list A) :
  (forall x, In x l -> f (g x) = f (h x)) ->
  existsb f (map g l) = existsb f (map h l).
Proof.
  induction l as [|x l IH]; intros H; [reflexivity|].
  cbn [map existsb]. rewrite (H x) by (left; reflexivity).
  rewrite IH by (intros; apply H; right; assumption). reflexivity.
Qed.

Lemma includes_pipe_pretty (columnar : bool) (v : Value) :
  forall depth,
    includes c_PIPE (pretty_text columnar v (S depth))
    = includes c_PIPE (line_text columnar v).
Proof.
  unfold pretty_text, line_text.
  induction v as [| | | | |items IH|props IH] using Value_nested_ind;
    intros depth; try reflexivity.
  - destruct items as [|item items]; [reflexivity|].
    remember (item :: items) as its eqn:Eits.
    destruct (columnar && isArrayOfObjects its) eqn:Ecol.
    + subst its. cbn [stringifyValue]. rewrite Ecol.
      unfold stringifyColumnar. rewrite !includes_app, !includes_join.
      cbn [includes existsb N.eqb Pos.eqb orb andb app].
      rewrite !orb_false_r. rewrite !length_map.
      change (existsb (N.eqb c_PIPE) (str "  ")) with false.
      cbn [orb]. f_equal. f_equal. apply map_ext. intros key.
      f_equal. f_equal. f_equal. apply map_ext.
      intros [| | | | | |row]; try reflexivity.
      rewrite !render_prop_row_get. reflexivity.
    + rewrite !stringifyValue_standard_array
        by (subst its; discriminate || exact Ecol).
      rewrite !includes_app, !replace_chars_removes by discriminate.
      reflexivity.
  - destruct props as [|entry props]; [reflexivity|].
    fold (pretty_text columnar (VObject (entry :: props)) (S depth)).
    rewrite pretty_object_text by discriminate.
    rewrite stringifyValue_flat_object by discriminate.
    rewrite !includes_app, !includes_join, !includes_indent.
    cbn [includes existsb N.eqb Pos.eqb orb andb app].
    rewrite !orb_false_r, !length_map. f_equal.
    apply existsb_map_ext. intros x Hx. rewrite Forall_forall in IH.
    unfold pretty_entry_text, pretty_text.
    rewrite !includes_app, (IH x Hx (S depth)).
    rewrite (stringifyValue_flat_depth (snd x) columnar 1 0). reflexivity.
Qed.

(** ** Scanning below the top level *)

(** Below the top level a scanner passes over every character that is no
    quote, no bracket or brace and no backslash, the separator included. *)
Lemma scan_quiet_neutral (sep : char) (s : jstring) :
  forallb (inert_for c_BACKSLASH) s = true ->
  forall prevChar st,
    (1 <= depth st)%Z -> scan_quiet sep s prevChar st = true.
Proof.
  induction s as [|c s IH]; intros H prevChar st Hd; [reflexivity|].
  simpl in H. apply andb_true_iff in H. destruct H as [Hc Hs].
  cbn [scan_quiet]. rewrite (scan_step_inert c_BACKSLASH c st prevChar Hc).
  replace (depth st =? 0)%Z with false by (symmetry; apply Z.eqb_neq; lia).
  rewrite andb_false_r. cbn [negb andb]. apply IH; assumption.
Qed.

Lemma neutral_prev (s : jstring) (p : option char) :
  forallb (inert_for c_BACKSLASH) s = true -> is_backslash p = false ->
  is_backslash (prev_after s p) = false.
Proof.
  intros Hs Hp. destruct s as [|c s] using rev_ind; [exact Hp|].
  rewrite prev_after_app. rewrite forallb_app in Hs.
  apply andb_true_iff in Hs. destruct Hs as [_ Hc]. simpl in Hc.
  rewrite andb_true_r in Hc. apply inert_not_sep in Hc. exact Hc.
Qed.

Lemma sealed_at_padded (m : Z) (sep : char) (a b t : jstring) :
  (1 <= m)%Z ->
  forallb (inert_for c_BACKSLASH) a = true ->
  forallb (inert_for c_BACKSLASH) b = true ->
  sealed_at m sep t -> sealed_at m sep (a ++ t ++ b).
Proof.
  intros Hm Ha Hb Ht prevChar st Hp Hi Hd.
  rewrite !scan_quiet_app, !scan_run_app.
  rewrite (scan_run_inert _ a Ha), (scan_quiet_neutral sep a Ha) by lia.
  destruct (Ht (prev_after a prevChar) st) as (Hq & Hi' & Hd');
    [apply neutral_prev; assumption|exact Hi|exact Hd|].
  rewrite Hq, (scan_run_inert _ b Hb), (scan_quiet_neutral sep b Hb) by lia.
  auto.
Qed.

Lemma sealed_at_join_neutral (m : Z) (sep : char) (glue : jstring)
    (items : list jstring) :
  (1 <= m)%Z -> forallb (inert_for c_BACKSLASH) glue = true ->
  Forall (sealed_at m sep) items -> sealed_at m sep (join (c_PIPE :: glue) items).
Proof.
  intros Hm Hglue Hall. induction Hall as [|item items Hitem Hrest IH].
  - apply sealed_at_nil.
  - destruct items as [|item' items]; [exact Hitem|].
    change (join (c_PIPE :: glue) (item :: item' :: items))
      with (item ++ (c_PIPE :: glue)
              ++ join (c_PIPE :: glue) (item' :: items)).
    intros prevChar st Hprev Hst Hdepth.
    destruct (Hitem prevChar st Hprev Hst Hdepth) as (Hqa & Hia & Hda).
    assert (Hg : forallb (inert_for c_BACKSLASH) (c_PIPE :: glue) = true)
      by (cbn [forallb]; rewrite Hglue; reflexivity).
    rewrite !scan_quiet_app, !scan_run_app.
    rewrite (scan_run_inert _ _ Hg), (scan_quiet_neutral sep _ Hg) by lia.
    destruct (IH (prev_after (c_PIPE :: glue) (prev_after item prevChar))
                (scan_run item prevChar st)) as (Hqb & Hib & Hdb);
      [|exact Hia|lia|].
    + rewrite (prev_after_nonempty _ _ None) by discriminate.
      apply neutral_prev; [exact Hg|reflexivity].
    + rewrite Hqa, Hqb, Hib, Hdb, Hda. auto.
Qed.

Lemma indent_ws (n : nat) : forallb is_ws (indent n) = true.
Proof.
  unfold indent. cbn [forallb]. change (is_ws c_LF) with true. cbn [andb].
  induction n as [|n IH]; [reflexivity|]. cbn [repeat_str].
  rewrite forallb_app, IH. reflexivity.
Qed.

Lemma ws_neutral (ws : jstring) :
  forallb is_ws ws = true -> forallb (inert_for c_BACKSLASH) ws = true.
Proof.
  intros H. rewrite forallb_forall in *. intros c Hc.
  destruct (is_ws_inert c_PIPE c) as [Hin Hbs]; auto.
  unfold inert_for in *. apply negb_true_iff in Hin. apply negb_true_iff.
  repeat (apply orb_false_iff in Hin; destruct Hin as [Hin ?]).
  repeat (apply orb_false_iff; split); try assumption.
  apply N.eqb_neq, Hbs.
Qed.

Lemma entry_sealed (m : Z) (sep : char) (k t : jstring) :
  plain_key k -> sep = c_PIPE \/ sep = c_COMMA -> sealed_at m sep t ->
  sealed_at m sep (k ++ [c_COLON] ++ t).
Proof.
  intros Hk Hsep Hv.
  rewrite <- (app_nil_l (k ++ _)). rewrite (app_assoc k).
  apply sealed_at_app_inert.
  - apply sealed_at_nil.
  - rewrite forallb_app, (plain_key_inert sep _ Hk) by tauto.
    destruct Hsep; subst sep; reflexivity.
  - destruct k; discriminate.
  - rewrite prev_after_app. reflexivity.
  - exact Hv.
Qed.

(** ** Reading pairs laid out on several lines *)

(** White space before a segment changes nothing for the loop of
    [parsePipeDelimited]. *)
Lemma parsePipeDelimited_loop_padded (pv : jstring -> result Value)
    (pi : jstring -> bool)
    (ws p : jstring) (rest rest' : list jstring)
    (obj : list (jstring * Value)) (inh : bool) :
  forallb is_ws ws = true ->
  (forall o i, parsePipeDelimited_loop pv pi rest o i
               = parsePipeDelimited_loop pv pi rest' o i) ->
  parsePipeDelimited_loop pv pi ((ws ++ p) :: rest) obj inh
  = parsePipeDelimited_loop pv pi (p :: rest') obj inh.
Proof.
  intros Hws Hrest. cbn [parsePipeDelimited_loop].
  rewrite (trim_ws_before ws p Hws), (findTopLevelColon_padded ws p Hws).
  destruct (is_empty (trim p)); [apply Hrest|].
  destruct (findTopLevelColon p) as [idx|]; cbn [option_map]; [|apply Hrest].
  unfold substring_to, substring_from.
  rewrite firstn_app, firstn_all2 by lia.
  replace (idx + length ws - length ws)%nat with idx by lia.
  rewrite (trim_ws_before ws _ Hws).
  rewrite skipn_app, skipn_all2 by lia.
  replace (idx + length ws + 1 - length ws)%nat with (idx + 1)%nat by lia.
  cbn [app]. destruct (pv _); cbn [bind]; try reflexivity.
  destruct (obj_assign _ _ _ _ _). apply Hrest.
Qed.

Lemma parsePipeDelimited_loop_pads (pv : jstring -> result Value)
    (pi : jstring -> bool)
    (ws : jstring) (segs : list jstring) :
  forallb is_ws ws = true ->
  forall obj inh,
    parsePipeDelimited_loop pv pi (map (app ws) segs) obj inh
    = parsePipeDelimited_loop pv pi segs obj inh.
Proof.
  intros Hws. induction segs as [|p segs IH]; intros obj inh; [reflexivity|].
  cbn [map]. apply parsePipeDelimited_loop_padded; assumption.
Qed.

(** Pairs joined by a pipe and white space are read like pairs joined by
    a pipe. *)
Lemma parsePipeDelimited_padded (pv : jstring -> result Value)
    (pi : jstring -> bool) (ws : jstring)
    (pairs : list jstring) :
  forallb is_ws ws = true -> ws <> [] ->
  Forall (fun pair_ => sealed c_PIPE pair_ /\ pair_ <> []) pairs ->
  parsePipeDelimited pv pi (join (c_PIPE :: ws) pairs)
  = parsePipeDelimited pv pi (join [c_PIPE] pairs).
Proof.
  intros Hws Hne Hall. destruct pairs as [|p segs]; [reflexivity|].
  unfold parsePipeDelimited.
  rewrite (splitByPipe_join_padded ws p segs Hws Hne Hall).
  rewrite (splitByPipe_join (p :: segs)) by (discriminate || exact Hall).
  rewrite <- (app_nil_l p) at 1.
  rewrite (parsePipeDelimited_loop_padded pv pi [] p
             (map (app ws) segs) segs);
    [reflexivity|reflexivity|].
  intros o i. apply parsePipeDelimited_loop_pads, Hws.
Qed.

(** The loop of [parsePipeDelimited] on the pairs of an object whose
    value texts are read back. *)
Lemma parsePipeDelimited_loop_texts (pv : jstring -> result Value)
    (pi : jstring -> bool)
    (text : Value -> jstring) (props : list (jstring * Value)) :
  forall obj inh,
    Forall (fun entry => plain_key (fst entry)
                         /\ tight (text (snd entry))
                         /\ pv (text (snd entry)) = Ok (snd entry))
      props ->
    NoDup (obj_keys props) ->
    (forall k, In k (obj_keys props) -> ~ In k (obj_keys obj)) ->
    parsePipeDelimited_loop pv pi
      (map (fun entry => fst entry ++ [c_COLON] ++ text (snd entry)) props)
      obj inh
    = Ok (obj ++ props, inh).
Proof.
  induction props as [|[k v] props IH]; intros obj inh Hall Hnd Hfresh.
  - simpl. rewrite app_nil_r. reflexivity.
  - inversion Hall as [|? ? (Hk & Ht & Hpv) Hrest]; subst.
    cbn [fst snd] in Hk, Ht, Hpv.
    unfold obj_keys in Hnd. cbn [map fst] in Hnd.
    inversion Hnd as [|? ? Hnotin Hnd']; subst.
    cbn [map fst snd].
    rewrite (parsePipeDelimited_loop_step pv pi k _ v) by assumption.
    rewrite obj_set_fresh by (auto; apply Hfresh; left; reflexivity).
    rewrite IH; auto.
    + rewrite <- app_assoc. reflexivity.
    + intros k' Hk' Hin. rewrite obj_keys_app in Hin. apply in_app_or in Hin.
      destruct Hin as [Hin|[<-|[]]].
      * apply (Hfresh k'); [right; exact Hk'|exact Hin].
      * contradiction.
Qed.

(** A table laid out on several lines is read back as its rows. *)
Lemma pretty_table_parse (row0 : list (jstring * Value))
    (rows : list (list (jstring * Value))) (depth fuel : nat) :
  (2 <= length (obj_keys row0))%nat ->
  NoDup (obj_keys row0) ->
  Forall plain_key (obj_keys row0) ->
  (forall row, In row rows -> obj_keys row = obj_keys row0) ->
  (forall row, In row (row0 :: rows) ->
               Forall (fun entry => readable (snd entry)) row) ->
  (length (pretty_text true (VArray (map VObject (row0 :: rows))) depth)
   <= fuel)%nat ->
  parseValue fuel (pretty_text true (VArray (map VObject (row0 :: rows))) depth)
  = Ok (VArray (map VObject (row0 :: rows))).
Proof.
  intros Hlen Hnd Hplain Hsame Hread Hfuel.
  rewrite pretty_table_text in Hfuel |- * by exact Hsame.
  assert (Hcells : forall key row,
            In key (obj_keys row0) -> In row (row0 :: rows) ->
            readable (row_get row key)).
  { intros key row _ Hrow. apply row_get_readable, (Hread row Hrow). }
  assert (Hkeys : obj_keys row0 <> [])
    by (destruct (obj_keys row0); [simpl in Hlen; lia|discriminate]).
  assert (Hcover : Forall (fun col => sealed c_PIPE col /\ col <> [])
                     (map (column_text (row0 :: rows)) (obj_keys row0)))
    by (apply columns_cover; assumption || discriminate).
  assert (Htight : tight (join (c_PIPE :: indent 1)
                            (map (column_text (row0 :: rows))
                               (obj_keys row0)))).
  { apply tight_join;
      [destruct (obj_keys row0); [congruence|discriminate]|].
    apply Forall_forall. intros col Hcol. apply in_map_iff in Hcol.
    destruct Hcol as (key & <- & Hkey).
    apply column_text_tight; [discriminate| |auto].
    revert key Hkey. apply Forall_forall, Hplain. }
  assert (Hpipe : includes c_PIPE
                    (join (c_PIPE :: indent 1)
                       (map (column_text (row0 :: rows)) (obj_keys row0)))
                  = true).
  { rewrite includes_join, length_map.
    destruct (obj_keys row0) as [|k1 [|k2 keys']]; [simpl in Hlen; lia..|].
    cbn [length Nat.ltb Nat.leb includes existsb N.eqb Pos.eqb orb andb].
    apply orb_true_r. }
  assert (Hcolon : includes c_COLON
                     (join (c_PIPE :: indent 1)
                        (map (column_text (row0 :: rows)) (obj_keys row0)))
                   = true).
  { apply includes_join_item.
    destruct (obj_keys row0) as [|k1 keys']; [congruence|].
    exists (column_text (row0 :: rows) k1). split; [left; reflexivity|].
    unfold column_text. rewrite !includes_app. simpl.
    rewrite orb_true_r. reflexivity. }
  destruct fuel as [|fuel]; [simpl in Hfuel; lia|].
  cbn [parseValue]. rewrite parseValue_body_array;
    [|apply (tight_brackets c_LBRACKET c_RBRACKET); reflexivity|reflexivity].
  rewrite parseArray_brackets.
  rewrite (trim_ws_around (indent 1) [c_LF]) by reflexivity.
  rewrite (tight_nonblank _ Htight). destruct Htight as [_ Htrim].
  rewrite Htrim, Hpipe, Hcolon. cbn [andb].
  rewrite parseColumnarArray_padded
    by (assumption || reflexivity || discriminate).
  rewrite (parseColumnarArray_columns (parseValue fuel) (row0 :: rows));
    [|discriminate|exact Hplain|exact Hnd|exact Hkeys|exact Hcells|].
  - f_equal. f_equal. apply rows_by_keys_same_order; [exact Hnd|].
    intros row [<-|Hrow]; [reflexivity|apply Hsame, Hrow].
  - intros key row Hkey Hrow. apply readable_parse; [auto|].
    pose proof (column_text_length (row0 :: rows) key row Hrow) as H1.
    pose proof (length_join_in [c_PIPE]
                  (map (column_text (row0 :: rows)) (obj_keys row0))
                  (column_text (row0 :: rows) key)
                  (in_map _ (obj_keys row0) key Hkey)) as H2.
    pose proof (length_join_longer [c_PIPE] (c_PIPE :: indent 1)
                  (map (column_text (row0 :: rows)) (obj_keys row0))) as H3.
    cbn [length] in H3. specialize (H3 ltac:(lia)).
    rewrite !length_app in Hfuel. cbn [length] in Hfuel. lia.
Qed.

(** ** Values laid out on several lines *)

Lemma braced_at_nested (v : Value) (depth : nat) : braced_at v (S depth).
Proof. destruct v as [| | | | | |[|entry props]]; simpl; auto; lia. Qed.

Section Layout.
(** The columnar option, and a class of values that are kept by the round
    trip on one line with that option: scalars that are read back,
    objects with distinct plain keys, arrays written as lists whose
    items have no pipe in their text and, with the columnar option,
    tables. *)
Variable columnar : bool.
Variable kept : Value -> Prop.
Hypothesis kept_atom :
  forall v, kept v ->
            match v with
            | VArray _ | VObject _ => True
            | _ => scalar v
            end.
Hypothesis kept_object :
  forall props, kept (VObject props) ->
    NoDup (obj_keys props)
    /\ Forall (fun entry => plain_key (fst entry) /\ kept (snd entry)) props.
Hypothesis kept_array :
  forall items, kept (VArray items) ->
    (columnar && isArrayOfObjects items = false
     /\ Forall (fun item => kept item /\ item <> VUndefined
                            /\ includes c_PIPE (line_text columnar item)
                               = false) items)
    \/ (columnar = true
        /\ exists row0 rows,
             items = map VObject (row0 :: rows)
             /\ (2 <= length (obj_keys row0))%nat
             /\ NoDup (obj_keys row0)
             /\ Forall plain_key (obj_keys row0)
             /\ (forall row, In row rows -> obj_keys row = obj_keys row0)
             /\ (forall row, In row (row0 :: rows) ->
                             Forall (fun entry => readable (snd entry)) row)).

Lemma kept_no_pipe_pretty (items : list Value) (depth : nat) :
  Forall (fun item => kept item /\ item <> VUndefined
                      /\ includes c_PIPE (line_text columnar item) = false)
    items ->
  Forall (fun item =>
            includes c_PIPE (pretty_text columnar item (S depth)) = false)
    items.
Proof.
  intros H. eapply Forall_impl; [|exact H]. cbn beta.
  intros item (_ & _ & Hp). rewrite includes_pipe_pretty. exact Hp.
Qed.

Lemma pretty_tight (v : Value) (depth : nat) :
  kept v -> braced_at v depth -> tight (pretty_text columnar v depth).
Proof.
  intros H Hb.
  destruct v as [| |b|x|s|items|props];
    try (rewrite pretty_text_scalar by apply (kept_atom _ H);
         apply scalar_text_tight, (kept_atom _ H)).
  - destruct (kept_array items H)
      as [[Hobj Hall]
         |(Hcol & row0 & rows & E & H1 & H2 & H3 & H4 & H5)].
    + destruct items as [|item items]; [split; [discriminate|reflexivity]|].
      rewrite pretty_list_text;
        [|discriminate|exact Hobj|apply kept_no_pipe_pretty, Hall].
      apply (tight_brackets c_LBRACKET c_RBRACKET); reflexivity.
    + rewrite Hcol, E, pretty_table_text by exact H4.
      apply (tight_brackets c_LBRACKET c_RBRACKET); reflexivity.
  - destruct props as [|entry props]; [split; [discriminate|reflexivity]|].
    destruct depth as [|depth]; [simpl in Hb; lia|].
    rewrite pretty_object_text by discriminate.
    apply (tight_brackets c_LBRACE c_RBRACE); reflexivity.
Qed.

Lemma pretty_sealed (v : Value) :
  kept v ->
  forall depth sep m,
    braced_at v depth -> sep = c_PIPE \/ sep = c_COMMA -> (0 <= m)%Z ->
    sealed_at m sep (pretty_text columnar v depth).
Proof.
  induction v as [| | | | |items IH|props IH] using Value_nested_ind;
    intros Hs depth sep m Hb Hsep Hm;
    try (rewrite pretty_text_scalar by apply (kept_atom _ Hs);
         apply scalar_text_sealed; [apply (kept_atom _ Hs)|tauto]).
  - assert (Hwrap : forall body,
              sealed_at (m + 1) sep body ->
              sealed_at m sep ([c_LBRACKET] ++ body ++ [c_RBRACKET])).
    { intros body. apply sealed_at_wrap; auto;
        destruct Hsep; subst sep; discriminate. }
    destruct (kept_array items Hs)
      as [[Hobj Hall]
         |(Hcol & row0 & rows & E & H1 & H2 & H3 & H4 & H5)].
    + destruct items as [|item items]; [apply (Hwrap []), sealed_at_nil|].
      rewrite pretty_list_text;
        [|discriminate|exact Hobj|apply kept_no_pipe_pretty, Hall].
      apply Hwrap. apply sealed_at_join_any; [lia|exact Hsep|auto|].
      apply Forall_forall. intros t Ht. apply in_map_iff in Ht.
      destruct Ht as (x & <- & Hx). rewrite Forall_forall in IH, Hall.
      apply (IH x Hx);
        [apply (Hall x Hx)|apply braced_at_nested|exact Hsep|lia].
    + rewrite Hcol, E, pretty_table_text by exact H4. apply Hwrap.
      apply sealed_at_padded;
        [lia|apply ws_neutral, indent_ws|reflexivity|].
      apply sealed_at_join_neutral; [lia|apply ws_neutral, indent_ws|].
      apply Forall_forall. intros col Hcol'. apply in_map_iff in Hcol'.
      destruct Hcol' as (key & <- & Hkey).
      apply (table_column_sealed row0 rows); auto. lia.
  - apply kept_object in Hs. destruct Hs as [_ Hall].
    assert (Hwrap : forall body,
              sealed_at (m + 1) sep body ->
              sealed_at m sep ([c_LBRACE] ++ body ++ [c_RBRACE])).
    { intros body. apply sealed_at_wrap; auto;
        destruct Hsep; subst sep; discriminate. }
    destruct props as [|entry props]; [apply (Hwrap []), sealed_at_nil|].
    destruct depth as [|depth]; [simpl in Hb; lia|].
    rewrite pretty_object_text by discriminate.
    apply Hwrap.
    apply sealed_at_padded; [lia|apply ws_neutral, indent_ws..|].
    apply sealed_at_join_neutral; [lia|apply ws_neutral, indent_ws|].
    apply Forall_forall. intros t Ht. apply in_map_iff in Ht.
    destruct Ht as (x & <- & Hx). rewrite Forall_forall in IH, Hall.
    destruct (Hall x Hx) as [Hk Hv].
    apply entry_sealed; [exact Hk|exact Hsep|].
    apply (IH x Hx); [exact Hv|apply braced_at_nested|exact Hsep|lia].
Qed.

(** The pairs of a kept object, joined by a pipe and white space, are
    read as the object when the value texts are. *)
Lemma parsePipeDelimited_pretty (pv : jstring -> result Value)
    (pi : jstring -> bool)
    (depth : nat) (ws : jstring) (props : list (jstring * Value)) :
  forallb is_ws ws = true -> ws <> [] ->
  NoDup (obj_keys props) ->
  Forall (fun entry => plain_key (fst entry) /\ kept (snd entry)) props ->
  (forall entry, In entry props ->
     pv (pretty_text columnar (snd entry) (S depth)) = Ok (snd entry)) ->
  parsePipeDelimited pv pi
    (join (c_PIPE :: ws) (map (pretty_entry_text columnar (S depth)) props))
  = Ok (VObject props).
Proof.
  intros Hws Hne Hnd Hall Hpv. rewrite Forall_forall in Hall.
  assert (Htight : forall x, In x props ->
                             tight (pretty_text columnar (snd x) (S depth))).
  { intros x Hx. apply pretty_tight;
      [apply (Hall x Hx)|apply braced_at_nested]. }
  assert (Hcover : Forall (fun pair_ => sealed c_PIPE pair_ /\ pair_ <> [])
                     (map (pretty_entry_text columnar (S depth)) props)).
  { apply Forall_forall. intros t Ht. apply in_map_iff in Ht.
    destruct Ht as (x & <- & Hx). destruct (Hall x Hx) as [Hk Hv]. split.
    - apply entry_sealed; [exact Hk|auto|].
      apply pretty_sealed; [exact Hv|apply braced_at_nested|auto|lia].
    - apply (tight_app (fst x) [c_COLON] _ (plain_key_tight _ Hk)
                 (Htight x Hx)). }
  rewrite parsePipeDelimited_padded by assumption.
  destruct props as [|entry props]; [reflexivity|].
  unfold parsePipeDelimited.
  rewrite splitByPipe_join by (discriminate || exact Hcover).
  assert (Hloop : parsePipeDelimited_loop pv pi
                    (map (pretty_entry_text columnar (S depth))
                       (entry :: props)) [] true
                  = Ok ([] ++ entry :: props, true)).
  { apply (parsePipeDelimited_loop_texts pv pi
             (fun v => pretty_text columnar v (S depth)) (entry :: props)
             [] true);
      [|exact Hnd|intros k _ []].
    apply Forall_forall. intros x Hx. destruct (Hall x Hx) as [Hk Hv].
    split; [exact Hk|]. split; [apply (Htight x Hx)|apply (Hpv x Hx)]. }
  rewrite Hloop. reflexivity.
Qed.

(** [parseValue] reads a kept value back from its text on several lines,
    at every depth at which that text is written. *)
Lemma pretty_parse (v : Value) :
  kept v ->
  forall depth fuel,
    braced_at v depth ->
    (length (pretty_text columnar v depth) <= fuel)%nat ->
    parseValue fuel (pretty_text columnar v depth) = Ok v.
Proof.
  induction v as [| | | | |items IH|props IH] using Value_nested_ind;
    intros Hs depth fuel Hb Hfuel;
    try (rewrite pretty_text_scalar in * by apply (kept_atom _ Hs);
         apply readable_parse;
         [apply readable_scalar, (kept_atom _ Hs)|exact Hfuel]).
  - destruct (kept_array items Hs)
      as [[Hobj Hall]
         |(Hcol & row0 & rows & E & H1 & H2 & H3 & H4 & H5)].
    + pose proof (kept_no_pipe_pretty items depth Hall) as Hpipe.
      destruct fuel as [|fuel];
        [destruct (pretty_tight _ depth Hs Hb) as [Hn _];
         destruct (pretty_text columnar (VArray items) depth);
         [congruence|simpl in Hfuel; lia]|].
      destruct items as [|item items]; [reflexivity|].
      remember (item :: items) as its eqn:Eits.
      assert (Hits : its <> []) by (subst its; discriminate).
      rewrite pretty_list_text in Hfuel |- * by assumption.
      set (text := fun item => pretty_text columnar item (S depth)) in *.
      assert (Htexts : map text its <> []) by (subst its; discriminate).
      assert (Htight : Forall tight (map text its)).
      { apply Forall_forall. intros t Ht. apply in_map_iff in Ht.
        destruct Ht as (x & <- & Hx). rewrite Forall_forall in Hall.
        apply pretty_tight; [apply (Hall x Hx)|apply braced_at_nested]. }
      pose proof (tight_join [c_COMMA] _ Htexts Htight) as Hbody.
      cbn [parseValue].
      rewrite parseValue_body_array;
        [|apply (tight_brackets c_LBRACKET c_RBRACKET); reflexivity
         |reflexivity].
      rewrite parseArray_brackets, (tight_nonblank _ Hbody).
      destruct Hbody as [_ Htrim]. rewrite Htrim.
      rewrite (includes_join_false c_PIPE [c_COMMA] (map text its));
        [|reflexivity|].
      2:{ apply Forall_forall. intros t Ht. apply in_map_iff in Ht.
          destruct Ht as (x & <- & Hx). rewrite Forall_forall in Hpipe.
          apply (Hpipe x Hx). }
      cbn [andb]. rewrite splitArrayItems_join; [|exact Htexts|].
      2:{ apply Forall_forall. intros t Ht. pose proof Ht as Ht'.
          apply in_map_iff in Ht.
          destruct Ht as (x & <- & Hx). rewrite Forall_forall in Hall, Htight.
          split; [apply pretty_sealed;
                  [apply (Hall x Hx)|apply braced_at_nested|auto|lia]|].
          destruct (Htight _ Ht') as [Hne ->]. exact Hne. }
      rewrite (map_result_map _ text (fun x => x) its).
      * cbn [bind]. rewrite map_id. rewrite filter_defined; [reflexivity|].
        eapply Forall_impl; [|exact Hall]. cbn beta. tauto.
      * intros x Hx. rewrite Forall_forall in IH, Hall, Htight.
        destruct (Htight (text x) (in_map text its x Hx)) as [_ ->].
        apply (IH x Hx); [apply (Hall x Hx)|apply braced_at_nested|].
        pose proof (length_join_in [c_COMMA] (map text its)
                      (text x) (in_map text its x Hx)) as Hlen.
        cbn [app length] in Hfuel. rewrite length_app in Hfuel.
        unfold text in *. cbn beta in *. lia.
    + rewrite Hcol, E in Hfuel |- *. apply pretty_table_parse; assumption.
  - pose proof (pretty_tight _ depth Hs Hb) as [Hn _].
    apply kept_object in Hs. destruct Hs as [Hnd Hall].
    destruct fuel as [|fuel];
      [destruct (pretty_text columnar (VObject props) depth);
       [congruence|simpl in Hfuel; lia]|].
    destruct props as [|entry props]; [reflexivity|].
    destruct depth as [|depth]; [simpl in Hb; lia|].
    remember (entry :: props) as ps eqn:Eps.
    assert (Hps : ps <> []) by (subst ps; discriminate).
    rewrite pretty_object_text in Hfuel |- * by assumption.
    assert (Htight : tight (join (c_PIPE :: indent (S (S depth)))
                              (map (pretty_entry_text columnar (S (S depth)))
                                 ps))).
    { apply tight_join; [subst ps; discriminate|].
      apply Forall_forall. intros t Ht. apply in_map_iff in Ht.
      destruct Ht as (x & <- & Hx). rewrite Forall_forall in Hall.
      destruct (Hall x Hx) as [Hk Hv].
      apply (tight_app (fst x) [c_COLON] _ (plain_key_tight _ Hk)).
      apply pretty_tight; [exact Hv|apply braced_at_nested]. }
    cbn [parseValue].
    rewrite parseValue_body_object;
      [|apply (tight_brackets c_LBRACE c_RBRACE); reflexivity|reflexivity].
    rewrite parseObject_braces.
    rewrite (trim_ws_around (indent (S (S depth))) (indent (S depth)))
      by apply indent_ws.
    rewrite (tight_nonblank _ Htight). destruct Htight as [_ Htrim].
    rewrite Htrim.
    apply parsePipeDelimited_pretty;
      [apply indent_ws|discriminate|exact Hnd|exact Hall|].
    intros x Hx. rewrite Forall_forall in IH.
    rewrite Forall_forall in Hall. destruct (Hall x Hx) as [Hk Hv].
    apply (IH x Hx); [exact Hv|apply braced_at_nested|].
    pose proof (length_join_in (c_PIPE :: indent (S (S depth)))
                  (map (pretty_entry_text columnar (S (S depth))) ps)
                  (pretty_entry_text columnar (S (S depth)) x)
                  (in_map _ ps x Hx)) as Hlen.
    assert (Hpair : (length (pretty_text columnar (snd x) (S (S depth)))
                     <= length (pretty_entry_text columnar (S (S depth)) x))%nat)
      by (unfold pretty_entry_text; rewrite !length_app; lia).
    rewrite !length_app in Hfuel. cbn [length] in Hfuel. lia.
Qed.

(** [parse] reads back what [stringify] writes with the pretty option
    for a kept array, and for a kept object that does not have exactly
    one property. *)
Lemma pretty_parse_top (v : Value) :
  kept v -> ~ atom v ->
  (forall props, v = VObject props -> length props <> 1%nat) ->
  parse (pretty_text columnar v 0) = Ok v.
Proof.
  intros Hs Ha Hone.
  assert (Hbraced : braced_at v 0 ->
                    startsWith c_LBRACE (pretty_text columnar v 0) = true
                    \/ startsWith c_LBRACKET (pretty_text columnar v 0)
                       = true ->
                    parse (pretty_text columnar v 0) = Ok v).
  { intros Hb Hopen. destruct (pretty_tight v 0 Hs Hb) as [Hne Htrim].
    rewrite (parse_bracketed_value (length (pretty_text columnar v 0)));
      [apply pretty_parse; [exact Hs|exact Hb|lia]|exact Htrim|exact Hopen
      |lia]. }
  destruct v as [| |b|x|s|items|props]; try (exfalso; apply Ha; exact I).
  - apply Hbraced; [exact I|]. right.
    destruct (kept_array items Hs)
      as [[Hobj Hall]
         |(Hcol & row0 & rows & E & H1 & H2 & H3 & H4 & H5)].
    + destruct items; [reflexivity|].
      rewrite pretty_list_text;
        [reflexivity|discriminate|exact Hobj|apply kept_no_pipe_pretty, Hall].
    + rewrite Hcol, E, pretty_table_text by exact H4. reflexivity.
  - destruct (kept_object props Hs) as [Hnd Hall].
    destruct props as [|entry1 props];
      [apply Hbraced; [exact I|left; reflexivity]|].
    destruct props as [|entry2 props];
      [exfalso; apply (Hone [entry1]); reflexivity|].
    clear Hbraced. rewrite pretty_object_text_top by discriminate.
    set (ps := entry1 :: entry2 :: props) in *.
    set (texts := map (pretty_entry_text columnar 1) ps).
    assert (Htight : Forall tight texts).
    { apply Forall_forall. intros t Ht. apply in_map_iff in Ht.
      destruct Ht as (x & <- & Hx). rewrite Forall_forall in Hall.
      destruct (Hall x Hx) as [Hk Hv].
      apply (tight_app (fst x) [c_COLON] _ (plain_key_tight _ Hk)).
      apply pretty_tight; [exact Hv|apply braced_at_nested]. }
    destruct (tight_join (c_PIPE :: [c_LF]) texts ltac:(discriminate) Htight)
      as [Hne Htrim].
    assert (Hopen : forall c, c = c_LBRACE \/ c = c_LBRACKET ->
                      startsWith c (join (c_PIPE :: [c_LF]) texts) = false).
    { intros c Hc. unfold texts, ps. cbn [map].
      unfold pretty_entry_text at 1.
      change (join (c_PIPE :: [c_LF])
                ((fst entry1 ++ [c_COLON]
                    ++ pretty_text columnar (snd entry1) 1)
                   :: pretty_entry_text columnar 1 entry2
                   :: map (pretty_entry_text columnar 1) props))
        with ((fst entry1 ++ [c_COLON]
                 ++ pretty_text columnar (snd entry1) 1)
                ++ (c_PIPE :: [c_LF])
                ++ join (c_PIPE :: [c_LF])
                     (pretty_entry_text columnar 1 entry2
                        :: map (pretty_entry_text columnar 1) props)).
      rewrite <- app_assoc. apply plain_key_head; [|exact Hc].
      inversion Hall as [|? ? [Hk _] _]. exact Hk. }
    assert (Hpipe : includes c_PIPE (join (c_PIPE :: [c_LF]) texts) = true).
    { rewrite includes_join. unfold texts, ps. cbn [map length].
      cbn [Nat.ltb Nat.leb includes existsb N.eqb Pos.eqb orb andb].
      apply orb_true_r. }
    assert (Hcolon : includes c_COLON (join (c_PIPE :: [c_LF]) texts) = true).
    { apply includes_join_item. exists (pretty_entry_text columnar 1 entry1).
      split; [left; reflexivity|].
      unfold pretty_entry_text. rewrite !includes_app. simpl.
      rewrite orb_true_r. reflexivity. }
    unfold parse. cbn zeta. rewrite Htrim.
    replace (is_empty (join (c_PIPE :: [c_LF]) texts)) with false
      by (destruct (join (c_PIPE :: [c_LF]) texts);
          [congruence|reflexivity]).
    rewrite !Hopen, Hpipe, Hcolon by auto. cbn [andb].
    apply parsePipeDelimited_pretty;
      [reflexivity|discriminate|exact Hnd|exact Hall|].
    intros x Hx. rewrite Forall_forall in Hall. destruct (Hall x Hx) as [Hk Hv].
    apply pretty_parse; [exact Hv|apply braced_at_nested|].
    pose proof (length_join_in (c_PIPE :: [c_LF]) texts
                  (pretty_entry_text columnar 1 x)
                  (in_map (pretty_entry_text columnar 1) ps x Hx)) as Hlen.
    assert (Hpair : (length (pretty_text columnar (snd x) 1)
                     <= length (pretty_entry_text columnar 1 x))%nat)
      by (unfold pretty_entry_text; rewrite !length_app; lia).
    lia.
Qed.
End Layout.

(** Storable values are kept with the columnar option, readable values
    without it. *)
Lemma storable_array_kept (items : list Value) :
  storable (VArray items) ->
  (true && isArrayOfObjects items = false
   /\ Forall (fun item => storable item /\ item <> VUndefined
                          /\ includes c_PIPE (line_text true item) = false)
        items)
  \/ (true = true
      /\ exists row0 rows,
           items = map VObject (row0 :: rows)
           /\ (2 <= length (obj_keys row0))%nat
           /\ NoDup (obj_keys row0)
           /\ Forall plain_key (obj_keys row0)
           /\ (forall row, In row rows -> obj_keys row = obj_keys row0)
           /\ (forall row, In row (row0 :: rows) ->
                           Forall (fun entry => readable (snd entry)) row)).
Proof.
  intros H. destruct (storable_array_inv items H) as [Hlist|Htable];
    [left; exact Hlist|right; split; [reflexivity|exact Htable]].
Qed.

Lemma readable_array_kept (items : list Value) :
  readable (VArray items) ->
  (false && isArrayOfObjects items = false
   /\ Forall (fun item => readable item /\ item <> VUndefined
                          /\ includes c_PIPE (line_text false item) = false)
        items)
  \/ (false = true
      /\ exists row0 rows,
           items = map VObject (row0 :: rows)
           /\ (2 <= length (obj_keys row0))%nat
           /\ NoDup (obj_keys row0)
           /\ Forall plain_key (obj_keys row0)
           /\ (forall row, In row rows -> obj_keys row = obj_keys row0)
           /\ (forall row, In row (row0 :: rows) ->
                           Forall (fun entry => readable (snd entry)) row)).
Proof.
  intros H. left. split; [reflexivity|apply readable_array_inv, H].
Qed.

(** X21. With the pretty option (and the columnar option), every
    storable array, and every storable object that does not have exactly
    one property, is read back by [parse] from what [stringify] writes
    for it on several lines: inner objects between braces with their
    pairs indented, tables with one column per line, and the pairs of the
    outermost object without braces. *)
Theorem pretty_round_trip (v : Value) :
  storable v -> ~ atom v ->
  (forall props, v = VObject props -> length props <> 1%nat) ->
  parse (stringify v (mkOptions true true)) = Ok v.
Proof.
  intros Hs Ha Hone.
  change (stringify v (mkOptions true true)) with (pretty_text true v 0).
  apply (pretty_parse_top true storable); try assumption.
  - exact storable_atom.
  - exact storable_object_inv.
  - exact storable_array_kept.
Qed.

Lemma pretty_round_trip_witness :
  let one := VNumber (Finite false [1] 1) in
  let two := VNumber (Finite false [2] 1) in
  let users :=
    VArray [VObject [(str "id", one); (str "name", VString (str "Alice Johnson"))];
            VObject [(str "id", two); (str "name", VString (str "Bob"))]] in
  let metadata :=
    VObject [(str "total", VNumber (Finite false [2] 2));
             (str "updated", VString (str "2025-11-15T10:00:00Z"))] in
  let tags := VArray [VString (str "engineering"); VString (str "hr");
                      VString (str "sales")] in
  let value := VObject [(str "users", users); (str "metadata", metadata);
                        (str "tags", tags)] in
  stringify value (mkOptions true true)
  = str "users:[" ++ [c_LF]
      ++ str "  id:1,2|" ++ [c_LF]
      ++ str "  name:" ++ [c_DQUOTE] ++ str "Alice Johnson" ++ [c_DQUOTE]
      ++ str ",Bob" ++ [c_LF]
      ++ str "]|" ++ [c_LF]
      ++ str "metadata:{" ++ [c_LF]
      ++ str "    total:20|" ++ [c_LF]
      ++ str "    updated:" ++ [c_DQUOTE] ++ str "2025-11-15T10:00:00Z"
      ++ [c_DQUOTE] ++ [c_LF]
      ++ str "  }|" ++ [c_LF]
      ++ str "tags:[engineering,hr,sales]"
  /\ parse (stringify value (mkOptions true true)) = Ok value.
Proof.
  intros one two users metadata tags value. split; [reflexivity|].
  assert (Hplain : forall k,
            In k [str "users"; str "metadata"; str "tags"; str "id";
                  str "name"; str "total"; str "updated"] -> plain_key k).
  { intros k Hk. repeat (destruct Hk as [<-|Hk]; [repeat split;
      try discriminate; reflexivity|]). destruct Hk. }
  assert (Hnum : forall d n, In (d, n) [(1, 1%Z); (2, 1%Z); (2, 2%Z)] ->
                   scalar (VNumber (Finite false [d] n))).
  { intros d n Hd.
    repeat (destruct Hd as [[= <- <-]|Hd];
            [cbn [scalar canonical]; repeat split; try discriminate;
             repeat constructor|]).
    destruct Hd. }
  assert (Hbare : forall s,
            In s [str "Bob"; str "engineering"; str "hr"; str "sales"] ->
            scalar (VString s)).
  { intros s Hs. left.
    repeat (destruct Hs as [<-|Hs]; [repeat split; try reflexivity;
      discriminate|]). destruct Hs. }
  assert (Hquoted : forall s,
            In s [str "Alice Johnson"; str "2025-11-15T10:00:00Z"] ->
            scalar (VString s)).
  { intros s Hs. right.
    repeat (destruct Hs as [<-|Hs];
            [split; [reflexivity|]; split; [|reflexivity];
             intros H; simpl in H; intuition discriminate|]).
    destruct Hs. }
  assert (Husers : storable users).
  { apply (storable_table
             [(str "id", one); (str "name", VString (str "Alice Johnson"))]
             [[(str "id", two); (str "name", VString (str "Bob"))]]).
    - simpl. lia.
    - repeat constructor; simpl; intuition discriminate.
    - repeat (apply Forall_cons; [apply Hplain; simpl; auto 10|]).
      apply Forall_nil.
    - intros row [<-|[]]. reflexivity.
    - intros row [<-|[<-|[]]].
      + apply Forall_cons;
          [apply readable_scalar, (Hnum 1 1%Z); simpl; auto|].
        apply Forall_cons;
          [apply readable_scalar, Hquoted; simpl; auto|apply Forall_nil].
      + apply Forall_cons;
          [apply readable_scalar, (Hnum 2 1%Z); simpl; auto|].
        apply Forall_cons;
          [apply readable_scalar, Hbare; simpl; auto|apply Forall_nil]. }
  assert (Hmeta : storable metadata).
  { apply storable_object.
    - repeat constructor; simpl; intuition discriminate.
    - apply Forall_cons;
        [split; [apply Hplain; simpl; auto 10
                |apply storable_scalar, (Hnum 2 2%Z); simpl; auto]|].
      apply Forall_cons;
        [split; [apply Hplain; simpl; auto 10
                |apply storable_scalar, Hquoted; simpl; auto]|].
      apply Forall_nil. }
  assert (Htags : storable tags).
  { apply storable_list; [reflexivity|].
    repeat (apply Forall_cons;
            [split; [apply storable_scalar, Hbare; simpl; auto 10
                    |split; [discriminate|reflexivity]]|]).
    apply Forall_nil. }
  apply pretty_round_trip; [|intros []|intros props [= <-]; discriminate].
  apply storable_object.
  - repeat constructor; simpl; intuition discriminate.
  - apply Forall_cons; [split; [apply Hplain; simpl; auto 10|exact Husers]|].
    apply Forall_cons; [split; [apply Hplain; simpl; auto 10|exact Hmeta]|].
    apply Forall_cons; [split; [apply Hplain; simpl; auto 10|exact Htags]|].
    apply Forall_nil.
Defined.

(** X25. With the pretty option and without the columnar option, every
    readable array, and every readable object that does not have exactly
    one property, is read back by [parse] from what [stringify] writes
    for it on several lines; arrays of objects are then written as
    lists, each object between braces on lines of its own. *)
Theorem pretty_round_trip_without_columns (v : Value) :
  readable v -> ~ atom v ->
  (forall props, v = VObject props -> length props <> 1%nat) ->
  parse (stringify v (mkOptions true false)) = Ok v.
Proof.
  intros Hr Ha Hone.
  change (stringify v (mkOptions true false)) with (pretty_text false v 0).
  apply (pretty_parse_top false readable); try assumption.
  - exact readable_atom.
  - exact readable_object_inv.
  - exact readable_array_kept.
Qed.

Lemma pretty_round_trip_without_columns_witness :
  let one := VNumber (Finite false [1] 1) in
  let two := VNumber (Finite false [2] 1) in
  let rows := VArray [VObject [(str "a", one)]; VObject [(str "a", two)]] in
  let meta := VObject [(str "x", one); (str "y", VString (str "b"))] in
  let value := VObject [(str "rows", rows); (str "meta", meta)] in
  stringify value (mkOptions true false)
  = str "rows:[{" ++ [c_LF]
      ++ str "      a:1" ++ [c_LF]
      ++ str "    },{" ++ [c_LF]
      ++ str "      a:2" ++ [c_LF]
      ++ str "    }]|" ++ [c_LF]
      ++ str "meta:{" ++ [c_LF]
      ++ str "    x:1|" ++ [c_LF]
      ++ str "    y:b" ++ [c_LF]
      ++ str "  }"
  /\ parse (stringify value (mkOptions true false)) = Ok value.
Proof.
  intros one two rows meta value. split; [reflexivity|].
  assert (Hplain : forall k,
            In k [str "rows"; str "meta"; str "a"; str "x"; str "y"] ->
            plain_key k).
  { intros k Hk. repeat (destruct Hk as [<-|Hk]; [repeat split;
      try discriminate; reflexivity|]). destruct Hk. }
  assert (Hnum : forall d, In d [1; 2] ->
                   readable (VNumber (Finite false [d] 1))).
  { intros d Hd. apply readable_scalar.
    repeat (destruct Hd as [<-|Hd];
            [cbn [scalar canonical]; repeat split; try discriminate;
             repeat constructor|]).
    destruct Hd. }
  assert (Hb : readable (VString (str "b"))).
  { apply readable_scalar. left.
    repeat split; try reflexivity; discriminate. }
  assert (Hrow : forall d, In d [1; 2] ->
                   readable (VObject [(str "a", VNumber (Finite false [d] 1))])).
  { intros d Hd. apply readable_object.
    - repeat constructor; simpl; intuition discriminate.
    - apply Forall_cons; [|apply Forall_nil].
      split; [apply Hplain; simpl; auto 10|apply Hnum, Hd]. }
  assert (Hrows : readable rows).
  { apply readable_array.
    apply Forall_cons;
      [split; [apply (Hrow 1); simpl; auto
              |split; [discriminate|reflexivity]]|].
    apply Forall_cons;
      [split; [apply (Hrow 2); simpl; auto
              |split; [discriminate|reflexivity]]|].
    apply Forall_nil. }
  assert (Hmeta : readable meta).
  { apply readable_object.
    - repeat constructor; simpl; intuition discriminate.
    - apply Forall_cons;
        [split; [apply Hplain; simpl; auto 10|apply (Hnum 1); simpl; auto]|].
      apply Forall_cons;
        [split; [apply Hplain; simpl; auto 10|exact Hb]|].
      apply Forall_nil. }
  apply pretty_round_trip_without_columns;
    [|intros []|intros props [= <-]; discriminate].
  apply readable_object.
  - repeat constructor; simpl; intuition discriminate.
  - apply Forall_cons; [split; [apply Hplain; simpl; auto 10|exact Hrows]|].
    apply Forall_cons; [split; [apply Hplain; simpl; auto 10|exact Hmeta]|].
    apply Forall_nil.
Defined.
(* ================================================================== *)
(** * Texts that are not read back as what was written *)
(* ================================================================== *)

(** ** A text with a colon is no number *)

Lemma void_not_nullable (r : regex) : void r = true -> nullable r = false.
Proof.
  induction r as [| |p|r1 IH1 r2 IH2|r1 IH1 r2 IH2|r IH]; simpl;
    intros H; try discriminate; try reflexivity.
  - apply orb_true_iff in H. destruct H as [H|H];
      [rewrite (IH1 H)|rewrite (IH2 H), andb_false_r]; reflexivity.
  - apply andb_true_iff in H. destruct H as [H1 H2].
    rewrite (IH1 H1), (IH2 H2). reflexivity.
Qed.

Lemma void_deriv (d : char) (r : regex) :
  void r = true -> void (deriv d r) = true.
Proof.
  induction r as [| |p|r1 IH1 r2 IH2|r1 IH1 r2 IH2|r IH]; simpl;
    intros H; try discriminate; try reflexivity.
  - apply orb_true_iff in H. destruct H as [H|H].
    + rewrite (void_not_nullable r1 H). simpl. rewrite (IH1 H). reflexivity.
    + destruct (nullable r1); simpl; rewrite ?(IH2 H), H, !orb_true_r;
        reflexivity.
  - apply andb_true_iff in H. destruct H as [H1 H2].
    rewrite (IH1 H1), (IH2 H2). reflexivity.
Qed.

Lemma regex_test_void (s : jstring) :
  forall r, void r = true -> regex_test r s = false.
Proof.
  induction s as [|c s IH]; intros r H; simpl.
  - apply void_not_nullable, H.
  - apply IH, void_deriv, H.
Qed.

Lemma avoids_deriv_void (c : char) (r : regex) :
  avoids c r = true -> void (deriv c r) = true.
Proof.
  induction r as [| |p|r1 IH1 r2 IH2|r1 IH1 r2 IH2|r IH]; simpl;
    intros H; try reflexivity.
  - apply negb_true_iff in H. rewrite H. reflexivity.
  - apply andb_true_iff in H. destruct H as [H1 H2].
    destruct (nullable r1); simpl; rewrite (IH1 H1), ?(IH2 H2); reflexivity.
  - apply andb_true_iff in H. destruct H as [H1 H2].
    rewrite (IH1 H1), (IH2 H2). reflexivity.
  - rewrite (IH H). reflexivity.
Qed.

Lemma avoids_deriv (c d : char) (r : regex) :
  avoids c r = true -> avoids c (deriv d r) = true.
Proof.
  induction r as [| |p|r1 IH1 r2 IH2|r1 IH1 r2 IH2|r IH]; simpl;
    intros H; try reflexivity.
  - destruct (p d); reflexivity.
  - apply andb_true_iff in H. destruct H as [H1 H2].
    destruct (nullable r1); simpl; rewrite (IH1 H1), H2, ?(IH2 H2);
      reflexivity.
  - apply andb_true_iff in H. destruct H as [H1 H2].
    rewrite (IH1 H1), (IH2 H2). reflexivity.
  - rewrite (IH H), H. reflexivity.
Qed.

(** A text with a character that no class of the expression accepts does
    not match. *)
Lemma regex_test_avoids (c : char) (s : jstring) :
  forall r, avoids c r = true -> includes c s = true ->
            regex_test r s = false.
Proof.
  induction s as [|d s IH]; intros r Hr Hc; [discriminate|].
  cbn [regex_test]. unfold includes in Hc. cbn [existsb] in Hc.
  apply orb_true_iff in Hc. destruct Hc as [Hc|Hc].
  - apply N.eqb_eq in Hc. subst d.
    apply regex_test_void, avoids_deriv_void, Hr.
  - apply IH; [apply avoids_deriv, Hr|exact Hc].
Qed.

Lemma colon_not_keyword (t : jstring) :
  includes c_COLON t = true -> is_keyword t = false.
Proof.
  intros H. unfold is_keyword.
  repeat (apply orb_false_iff; split);
    apply jstring_eqb_neq; intros E; rewrite E in H; discriminate.
Qed.

(** [parseValue] takes a text with a colon that opens with no quote, no
    brace and no bracket for a String. *)
Lemma parseValue_body_colon_text (pv : jstring -> result Value)
    (pi : jstring -> bool)
    (t : jstring) :
  trim t = t -> includes c_COLON t = true ->
  startsWith c_DQUOTE t = false -> startsWith c_SQUOTE t = false ->
  startsWith c_LBRACE t = false -> startsWith c_LBRACKET t = false ->
  parseValue_body pv pi t = Ok (VString t).
Proof.
  intros Htrim Hc Hdq Hsq Hlb Hlk. unfold parseValue_body. rewrite Htrim.
  replace (is_empty t) with false
    by (destruct t; [discriminate|reflexivity]).
  pose proof (colon_not_keyword t Hc) as Hkw. unfold is_keyword in Hkw.
  repeat match goal with
  | H : _ || _ = false |- _ => apply orb_false_iff in H; destruct H
  end.
  repeat match goal with
  | H : jstring_eqb _ _ = false |- _ => rewrite H; clear H
  end.
  rewrite Hdq, Hsq, Hlb, Hlk. cbn [andb orb].
  rewrite (regex_test_avoids c_COLON t re_number eq_refl Hc).
  destruct (regex_test_prefix re_datetime t); reflexivity.
Qed.

Lemma plain_key_head_quote (k rest : jstring) (c : char) :
  plain_key k -> c = c_DQUOTE \/ c = c_SQUOTE ->
  startsWith c (k ++ rest) = false.
Proof.
  intros Hk Hc. pose proof (plain_key_inert c_COLON k Hk ltac:(auto)) as Hin.
  destruct Hk as (Hne & _). destruct k as [|x k]; [congruence|].
  cbn [forallb] in Hin. apply andb_true_iff in Hin. destruct Hin as [Hx _].
  cbn [app startsWith]. unfold inert_for in Hx. apply negb_true_iff in Hx.
  repeat (apply orb_false_iff in Hx; destruct Hx as [Hx ?]).
  destruct Hc; subst c; assumption.
Qed.

(** The text of a pair is read by [parseValue] as a String. *)
Lemma parseValue_body_pair (pv : jstring -> result Value)
    (pi : jstring -> bool) (k t : jstring) :
  plain_key k -> tight t ->
  parseValue_body pv pi (k ++ [c_COLON] ++ t)
  = Ok (VString (k ++ [c_COLON] ++ t)).
Proof.
  intros Hk Ht. apply parseValue_body_colon_text.
  - apply (tight_app k [c_COLON] t (plain_key_tight k Hk) Ht).
  - rewrite !includes_app. simpl. rewrite orb_true_r. reflexivity.
  - apply plain_key_head_quote; auto.
  - apply plain_key_head_quote; auto.
  - apply plain_key_head; auto.
  - apply plain_key_head; auto.
Qed.

(** X22. With the pretty option the only pair of an object is written
    alone, without braces; when its value text has no pipe, [parse] does
    not take the text for an object but returns it whole as a String. *)
Theorem pretty_single_property_reads_as_string (k : jstring) (v : Value)
    (columnar : bool) :
  let text := stringifyValue v 1 true columnar in
  plain_key k -> tight text -> includes c_PIPE text = false ->
  parse (stringify (VObject [(k, v)]) (mkOptions true columnar))
  = Ok (VString (k ++ [c_COLON] ++ text)).
Proof.
  intros text Hk Ht Hpipe.
  change (stringify (VObject [(k, v)]) (mkOptions true columnar))
    with (k ++ [c_COLON] ++ text).
  destruct (tight_app k [c_COLON] text (plain_key_tight k Hk) Ht)
    as [Hne Htrim].
  unfold parse. cbn zeta. rewrite Htrim.
  replace (is_empty (k ++ [c_COLON] ++ text)) with false
    by (destruct (k ++ [c_COLON] ++ text); [congruence|reflexivity]).
  rewrite !plain_key_head by auto.
  assert (Hp : includes c_PIPE (k ++ [c_COLON] ++ text) = false).
  { rewrite !includes_app, Hpipe.
    pose proof (plain_key_inert c_PIPE k Hk ltac:(auto)) as Hin.
    replace (includes c_PIPE k) with false; [reflexivity|].
    symmetry. apply not_true_is_false. intros Hc.
    apply includes_in in Hc. rewrite forallb_forall in Hin.
    specialize (Hin _ Hc). apply inert_not_sep in Hin.
    rewrite N.eqb_refl in Hin. discriminate. }
  rewrite Hp. cbn [andb]. apply parseValue_body_pair; assumption.
Qed.

Lemma pretty_single_property_reads_as_string_witness :
  parse (stringify (VObject [(str "a", VNumber (Finite false [1] 1))])
           (mkOptions true true))
  = Ok (VString (str "a:1")).
Proof.
  apply (pretty_single_property_reads_as_string (str "a")
           (VNumber (Finite false [1] 1)) true).
  - repeat split; try discriminate; reflexivity.
  - split; [discriminate|reflexivity].
  - reflexivity.
Defined.

(** ** A colon in a key *)

(** X23. Keys are written as they are, so a colon in a key is not
    protected: for an object whose only key is [k1:k2], [parse] reads
    what [stringify] writes as an object with the key [k1], whose value
    is the String made of [k2], a colon and the text of the value. *)
Theorem colon_in_key_moves_into_value (k1 k2 : jstring) (v : Value) :
  plain_key k1 -> plain_key k2 -> storable v ->
  parse (stringify (VObject [(k1 ++ [c_COLON] ++ k2, v)]) default_options)
  = Ok (VObject [(k1, VString (k2 ++ [c_COLON] ++ default_text v))]).
Proof.
  intros Hk1 Hk2 Hv.
  change (stringify (VObject [(k1 ++ [c_COLON] ++ k2, v)]) default_options)
    with (default_text (VObject [(k1 ++ [c_COLON] ++ k2, v)])).
  rewrite default_object_text by discriminate.
  cbn [map join]. unfold default_entry_text. cbn [fst snd].
  set (t := default_text v).
  assert (Ht : tight t) by apply (storable_tight v Hv).
  assert (Hrest : tight (k2 ++ [c_COLON] ++ t))
    by apply (tight_app k2 [c_COLON] t (plain_key_tight k2 Hk2) Ht).
  assert (Hbody : (k1 ++ [c_COLON] ++ k2) ++ [c_COLON] ++ t
                  = k1 ++ [c_COLON] ++ k2 ++ [c_COLON] ++ t)
    by (rewrite <- !app_assoc; reflexivity).
  rewrite Hbody.
  set (body := k1 ++ [c_COLON] ++ k2 ++ [c_COLON] ++ t).
  assert (Htight : tight body)
    by apply (tight_app k1 [c_COLON] _ (plain_key_tight k1 Hk1) Hrest).
  rewrite (parse_bracketed_value
             (length ([c_LBRACE] ++ body ++ [c_RBRACE])));
    [|apply (tight_brackets c_LBRACE c_RBRACE); reflexivity
     |left; reflexivity|lia].
  cbn [parseValue]. rewrite parseValue_body_object;
    [|apply (tight_brackets c_LBRACE c_RBRACE); reflexivity|reflexivity].
  rewrite parseObject_braces, (tight_nonblank _ Htight).
  destruct Htight as [Hne Htrim]. rewrite Htrim.
  unfold parsePipeDelimited.
  change body with (join [c_PIPE] [body]).
  rewrite splitByPipe_join; [|discriminate|].
  2:{ apply Forall_cons; [split; [|exact Hne]|apply Forall_nil].
      apply entry_sealed; [exact Hk1|auto|].
      apply entry_sealed; [exact Hk2|auto|].
      apply storable_sealed; [exact Hv|auto|lia]. }
  unfold body.
  rewrite (parsePipeDelimited_loop_step _ _ k1 _
             (VString (k2 ++ [c_COLON] ++ t))); [|exact Hk1|exact Hrest|].
  - cbn [parsePipeDelimited_loop bind fst].
    rewrite obj_set_fresh; [reflexivity|exact Hk1|intros []].
  - cbn [app length parseValue]. apply parseValue_body_pair; assumption.
Qed.

Lemma colon_in_key_moves_into_value_witness :
  parse (stringify (VObject [(str "a:b", VNumber (Finite false [1] 1))])
           default_options)
  = Ok (VObject [(str "a", VString (str "b:1"))]).
Proof.
  apply (colon_in_key_moves_into_value (str "a") (str "b")
           (VNumber (Finite false [1] 1))).
  - repeat split; try discriminate; reflexivity.
  - repeat split; try discriminate; reflexivity.
  - apply storable_scalar. cbn [scalar canonical].
    repeat split; try discriminate; repeat constructor.
Defined.

(** ** Braces at top level *)

(** X24. At top level the braces of an object text are optional: for
    every text that holds a pipe and a colon and does not itself open
    with a brace or a bracket, [parse] returns (or throws) the same with
    and without braces around it. *)
Theorem braces_optional_at_top_level (text : jstring) :
  let body := trim text in
  startsWith c_LBRACE body = false -> startsWith c_LBRACKET body = false ->
  includes c_PIPE body = true -> includes c_COLON body = true ->
  parse ([c_LBRACE] ++ text ++ [c_RBRACE]) = parse text.
Proof.
  intros body Hlb Hlk Hpipe Hcolon.
  assert (Hne : is_empty body = false)
    by (destruct body; [discriminate|reflexivity]).
  pose proof (trim_length text) as Hlen.
  assert (Hwhole : trim ([c_LBRACE] ++ text ++ [c_RBRACE])
                   = [c_LBRACE] ++ text ++ [c_RBRACE])
    by (apply (trim_ends c_LBRACE c_RBRACE); reflexivity).
  rewrite (parse_fuel (S (S (length text))) ([c_LBRACE] ++ text ++ [c_RBRACE]))
    by (rewrite Hwhole; cbn [app length]; rewrite length_app;
        cbn [length]; lia).
  rewrite (parse_fuel (S (S (length text))) text) by lia.
  cbn zeta. rewrite Hwhole. fold body.
  rewrite Hne, Hlb, Hlk, Hpipe, Hcolon. cbn [andb].
  change (is_empty ([c_LBRACE] ++ text ++ [c_RBRACE])) with false.
  change (startsWith c_LBRACE ([c_LBRACE] ++ text ++ [c_RBRACE])) with true.
  cbn match. rewrite parseObject_braces. fold body. rewrite Hne.
  reflexivity.
Qed.

Lemma braces_optional_at_top_level_witness :
  parse (str "{ id:7|tags:[a,b]|meta:{x:1|y:2} }")
  = parse (str " id:7|tags:[a,b]|meta:{x:1|y:2} ").
Proof.
  apply (braces_optional_at_top_level
           (str " id:7|tags:[a,b]|meta:{x:1|y:2} ")); reflexivity.
Defined.

(** ** Strings that are written bare *)

(** X26. White space at the ends of a String is lost when the String
    needs no quoting: a bare String padded with white-space characters
    other than the space, the newline and the tab (a carriage return,
    say) is written as it is, and [parse] returns the String without the
    padding. *)
Theorem outer_white_space_of_bare_string_lost (a b core : jstring)
    (opts : options) :
  forallb is_ws a = true -> forallb is_ws b = true ->
  needsQuoting (a ++ core ++ b) = false -> bare_string core ->
  parse (stringify (VString (a ++ core ++ b)) opts) = Ok (VString core).
Proof.
  intros Ha Hb Hq Hcore.
  assert (Htext : stringify (VString (a ++ core ++ b)) opts = a ++ core ++ b)
    by (unfold stringify; cbn [stringifyValue]; rewrite Hq; reflexivity).
  rewrite Htext.
  pose proof (trim_ws_around a b core Ha Hb) as Ht.
  destruct Hcore as (Hqc & Hne & Htrim & Hkw & Hnum).
  transitivity (parse core).
  { rewrite (parse_fuel (length core) (a ++ core ++ b))
      by (rewrite Ht; apply trim_length).
    rewrite (parse_fuel (length core) core) by apply trim_length.
    cbn zeta. rewrite Ht. reflexivity. }
  rewrite parse_plain by assumption.
  apply parseValue_body_bare. repeat split; assumption.
Qed.

Lemma outer_white_space_of_bare_string_lost_witness :
  parse (stringify (VString (str "ok" ++ [c_CR])) default_options)
  = Ok (VString (str "ok")).
Proof.
  apply (outer_white_space_of_bare_string_lost [] [c_CR] (str "ok"));
    try reflexivity.
  repeat split; try reflexivity; discriminate.
Defined.

(** A text that matches the number pattern holds none of the characters
    that no class of the pattern accepts. *)
Lemma number_text_avoids (s : jstring) (c : char) :
  regex_test re_number s = true -> avoids c re_number = true ->
  includes c s = false.
Proof.
  intros Hs Hc. destruct (includes c s) eqn:E; [|reflexivity].
  rewrite (regex_test_avoids c s re_number Hc E) in Hs. discriminate.
Qed.

Lemma ws_avoids_number (c : char) :
  is_ws c = true -> avoids c re_number = true.
Proof.
  unfold is_ws. intros H. cbn [avoids re_number ROpt RChr RPlus RDigit].
  unfold is_digit.
  repeat match goal with
  | H : _ || _ = true |- _ => apply orb_true_iff in H; destruct H as [H|H]
  end;
    try (apply N.eqb_eq in H; subst c; reflexivity);
    apply andb_true_iff in H; destruct H as [H1 H2];
    apply N.leb_le in H1, H2;
    repeat match goal with
    | |- context [N.leb ?x ?y] => destruct (N.leb_spec x y); try lia
    | |- context [N.eqb ?x ?y] => destruct (N.eqb_spec x y); try lia
    end; reflexivity.
Qed.

Lemma number_text_tight (s : jstring) :
  regex_test re_number s = true -> tight s.
Proof.
  intros Hs. split; [intros ->; discriminate|].
  apply trim_no_ws. apply Forall_forall. intros c Hc.
  destruct (is_ws c) eqn:E; [|reflexivity].
  apply includes_in in Hc.
  rewrite (number_text_avoids s c Hs (ws_avoids_number c E)) in Hc.
  discriminate.
Qed.

Lemma number_text_bare (s : jstring) :
  regex_test re_number s = true -> needsQuoting s = false.
Proof.
  intros Hs. unfold needsQuoting.
  rewrite !(number_text_avoids s _ Hs) by reflexivity. reflexivity.
Qed.

Lemma keyword_cases (s : jstring) :
  is_keyword s = true ->
  In s [str "null"; str "true"; str "false"; str "undefined"; str "NaN";
        str "Infinity"; str "-Infinity"].
Proof.
  unfold is_keyword. intros H.
  repeat match goal with
  | H : _ || _ = true |- _ => apply orb_true_iff in H; destruct H as [H|H]
  end;
    match goal with
    | H : jstring_eqb ?x ?k = true |- _ =>
        destruct (jstring_eqb_spec x k) as [E|]; [rewrite E|discriminate]
    end; simpl; auto 10.
Qed.

(** X27. A String that looks like a number or is spelled like a keyword
    changes its type in the round trip: [stringify] writes it bare, and
    [parse] returns a Number for a text that matches the number pattern,
    and null, undefined, a boolean or a Number for a keyword. *)
Theorem string_like_number_or_keyword_changes_type (s : jstring)
    (opts : options) :
  (regex_test re_number s = true ->
   exists x, parse (stringify (VString s) opts) = Ok (VNumber x))
  /\ (is_keyword s = true ->
      exists v, parse (stringify (VString s) opts) = Ok v
                /\ forall t, v <> VString t).
Proof.
  split.
  - intros Hs. pose proof (number_text_bare s Hs) as Hq.
    destruct (number_text_tight s Hs) as [Hne Htrim].
    assert (Htext : stringify (VString s) opts = s)
      by (unfold stringify; cbn [stringifyValue]; rewrite Hq; reflexivity).
    rewrite Htext, parse_plain by assumption.
    assert (Hkw : is_keyword s = false).
    { destruct (is_keyword s) eqn:E; [|reflexivity].
      apply keyword_cases in E.
      repeat (destruct E as [<-|E]; [discriminate Hs|]). destruct E. }
    rewrite parseValue_body_plain by assumption. rewrite Hs.
    eexists. reflexivity.
  - intros Hk. apply keyword_cases in Hk.
    repeat (destruct Hk as [<-|Hk];
            [eexists; split; [reflexivity|discriminate]|]).
    destruct Hk.
Qed.

Lemma string_like_number_or_keyword_changes_type_witness :
  (exists x,
     parse (stringify (VString (str "1E5")) default_options)
     = Ok (VNumber x))
  /\ (exists v,
        parse (stringify (VString (str "true")) default_options) = Ok v
        /\ forall t, v <> VString t).
Proof.
  split.
  - apply (string_like_number_or_keyword_changes_type (str "1E5")
             default_options). reflexivity.
  - apply (string_like_number_or_keyword_changes_type (str "true")
             default_options). reflexivity.
Defined.

(* ================================================================== *)
(** * Arrays of objects with differing key sets *)
(* ================================================================== *)




